(** * GridHealer: healing of curves after grid line removal

    A shallow embedding of [src/Grid/GridHealer.cpp] (Engauge Digitizer) and
    the proofs of its specification, with
    [src/Graphics/GraphicsLinesForCurves.cpp], the lines of the curves by
    curve name, over the classes that it calls.

    Conventions of the embedding.
    - A C++ [int] is a [Z].  All the integers of the program are pixel
      coordinates, pixel states and group numbers, which are bounded by the
      size of the image.
    - A C++ [double] has two embeddings.  In the module [Doubles] it is an
      IEEE 754 binary64 number of [SpecFloat], and every operation of the
      source on doubles is one operation that rounds to nearest, ties to
      even (no fused multiply-add, no extended precision); the conversion
      [(int)] truncates.  This is the arithmetic of the program: the claims
      C1, C2 and C3 and the property X11, which are about the values of the
      doubles, are stated and proved on [Doubles].  The healer is also
      written, first, with an exact rational number [Q] in the place of
      every double, for the properties that do not depend on the rounding:
      the states of the pixels, the accesses within the bounds, the
      regions.  The two embeddings go through the same pixels and make the
      same regions; they differ where a value is at a boundary: a squared
      distance that is equal to the threshold, an interpolation half way
      between two pixels, a centroid that is not a double.  The module
      [Binary64] has the operations on doubles and the arithmetic of the
      line, on the pixels rather than on the points.
    - A [QVector] is a [list]; reading or writing outside of it is the error
      [IndexOutOfRange].  A failed [ENGAUGE_ASSERT] is the error
      [AssertionFailed].
    - A [QMap] is an association list sorted by its keys, which is the order
      its iterators follow.
    - A method is a function of the member variables it touches, in explicit
      state passing style.
    - A loop [for (int i = 0; i < n; i++)] reads its bound [n] once: no
      operation of the healer changes the size of the grid.

    The file has the embedding first, then the vocabulary of the
    specification, then the proofs: the vectors and the grid, [erasePixel],
    the constructor, the recursive search, the grouping, the connection of
    the groups, the invariant of the healer, and the claims C1 to C10 of
    the specification.  Further properties of the code, X1 to X26, come
    next: what [erasePixel], the grouping, the connection and [heal] do
    when they are called twice or in another order, the line without gap,
    the states that a healer can be in, and the lines of the curves.  The
    healer with doubles comes last: the rounding of the four operations and
    the integers that are doubles, the interpolation of the line, the
    connection of the groups (C1, C2, X11), the grouping (C3), which goes
    through the same states as the grouping with rationals, and the
    invariant of the healer. *)

From Stdlib Require Import ZArith List Lia Bool QArith Qabs Qminmax Qround
  Qpower.
From Stdlib Require Import FinFun.
From Stdlib Require Import Floats.SpecFloat.
From Stdlib Require Import Lqa.
From Stdlib Require String.
Import ListNotations.
Import String.StringSyntax.

Open Scope Z_scope.

(* ================================================================== *)
(** * Errors *)

Inductive error : Set :=
| AssertionFailed   (* ENGAUGE_ASSERT on a false condition *)
| IndexOutOfRange   (* operator[] or setPixel outside of the container *)
| OutOfFuel.        (* the recursion bound of the embedding is exhausted *)

Inductive result (A : Type) : Type :=
| Ok (a : A)
| Err (e : error).

Arguments Ok {A} a.
Arguments Err {A} e.

Definition bind {A B} (m : result A) (k : A -> result B) : result B :=
  match m with
  | Ok a => k a
  | Err e => Err e
  end.

Notation "x <- m ;; k" := (bind m (fun x => k))
  (at level 61, m at next level, right associativity).
Notation "' pat <- m ;; k" := (bind m (fun x => match x with pat => k end))
  (at level 61, pat pattern, m at next level, right associativity).

Definition ENGAUGE_ASSERT (cond : bool) : result unit :=
  if cond then Ok tt else Err AssertionFailed.

(** [for (x in l) body], threading the state [s]. *)
Fixpoint forEach {A S : Type} (l : list A) (body : A -> S -> result S) (s : S)
  : result S :=
  match l with
  | [] => Ok s
  | a :: l' => s' <- body a s ;; forEach l' body s'
  end.

(** [for (itr = m.begin(); itr != m.end(); itr++)] where the body also uses
    the elements after [itr] (the inner loop starts at [itr + 1]). *)
Fixpoint forEachTail {A S : Type} (l : list A)
  (body : A -> list A -> S -> result S) (s : S) : result S :=
  match l with
  | [] => Ok s
  | a :: l' => s' <- body a l' s ;; forEachTail l' body s'
  end.

(** The values of [for (int i = 0; i < n; i++)]. *)
Definition upto (n : Z) : list Z := map Z.of_nat (seq 0 (Z.to_nat n)).

(** The values of [for (int offset = -1; offset <= 1; offset++)]. *)
Definition offsets : list Z := [-1; 0; 1].

(* ================================================================== *)
(** * Vectors *)

Module QVector.

Definition count {A} (v : list A) : Z := Z.of_nat (length v).

(** [v [i]] as an rvalue. *)
Definition at_ {A} (v : list A) (i : Z) : result A :=
  if (0 <=? i) && (i <? count v) then
    match nth_error v (Z.to_nat i) with
    | Some a => Ok a
    | None => Err IndexOutOfRange
    end
  else Err IndexOutOfRange.

Fixpoint replace {A} (v : list A) (n : nat) (a : A) : list A :=
  match v, n with
  | [], _ => []
  | _ :: v', O => a :: v'
  | b :: v', S n' => b :: replace v' n' a
  end.

(** [v [i] = a]. *)
Definition assign {A} (v : list A) (i : Z) (a : A) : result (list A) :=
  if (0 <=? i) && (i <? count v) then Ok (replace v (Z.to_nat i) a)
  else Err IndexOutOfRange.

End QVector.

(* ================================================================== *)
(** * Pixel states *)

(** Modelled from the spec: the enumeration [PixelState] of [GridHealer.h],
    which is not among the sources.  The spec lists its states as Background,
    Foreground, Adjacent, Removed and Healed, followed by their number, and
    a group number as an integer. *)
Definition PIXEL_STATE_BACKGROUND : Z := 0.
Definition PIXEL_STATE_FOREGROUND : Z := 1.
Definition PIXEL_STATE_ADJACENT : Z := 2.
Definition PIXEL_STATE_REMOVED : Z := 3.
Definition PIXEL_STATE_HEALED : Z := 4.
Definition NUM_PIXEL_STATES : Z := 5.

(** Group numbers start at this value. Each group is effectively its own
    pixel state. *)
Definition BOUNDARY_GROUP_FIRST : Z := 100.

(** [m_pixels]: one state or group number for each pixel, by row then by
    column. *)
Definition PixelVector : Type := list (list Z).

(** [m_pixels [row] [col]] as an rvalue. *)
Definition getPixel (m_pixels : PixelVector) (row col : Z) : result Z :=
  r <- QVector.at_ m_pixels row ;; QVector.at_ r col.

(** [m_pixels [row] [col] = state]. *)
Definition setPixel (m_pixels : PixelVector) (row col state : Z)
  : result PixelVector :=
  r <- QVector.at_ m_pixels row ;;
  r' <- QVector.assign r col state ;;
  QVector.assign m_pixels row r'.

(** [m_pixels [0].count ()]. *)
Definition count0 (m_pixels : PixelVector) : result Z :=
  r <- QVector.at_ m_pixels 0 ;; Ok (QVector.count r).

(** [0 <= i && i < bound], where [bound] is only evaluated when [0 <= i]. *)
Definition inRange (i : Z) (bound : result Z) : result bool :=
  if 0 <=? i then b <- bound ;; Ok (i <? b) else Ok false.

(* ================================================================== *)
(** * Images *)

Definition QRgb : Type := Z.

(** Qt's [qRed], [qGreen], [qBlue] and [qGray] on a [QRgb] (0xAARRGGBB). *)
Definition qRed (rgb : QRgb) : Z := Z.land (Z.shiftr rgb 16) 255.
Definition qGreen (rgb : QRgb) : Z := Z.land (Z.shiftr rgb 8) 255.
Definition qBlue (rgb : QRgb) : Z := Z.land rgb 255.
Definition qGray (rgb : QRgb) : Z :=
  (qRed rgb * 11 + qGreen rgb * 16 + qBlue rgb * 5) / 32.

(** The value of the enumerator [Qt::black] of [Qt::GlobalColor], which
    [setPixel] receives as its unsigned argument [index_or_rgb]: the pixel
    of the image takes this value. *)
Definition Qt_black : Z := 2.

Module QImage.

Record t : Type := mk {
  width : Z;
  height : Z;
  pixel : Z -> Z -> Z  (* pixel (x, y), 0 <= x < width, 0 <= y < height *)
}.

Definition valid (image : t) (x y : Z) : bool :=
  (0 <=? x) && (x <? width image) && (0 <=? y) && (y <? height image).

(** [image.setPixel (QPoint (x, y), index_or_rgb)]. *)
Definition setPixel (image : t) (x y index_or_rgb : Z) : result t :=
  if valid image x y then
    Ok (mk (width image) (height image)
          (fun x' y' => if (x' =? x) && (y' =? y) then index_or_rgb
                        else pixel image x' y'))
  else Err IndexOutOfRange.

End QImage.

(* ================================================================== *)
(** * Points and maps from group numbers to points *)

Module QPointF.

Record t : Type := mk { x : Q; y : Q }.

Definition sub (p q : t) : t := mk (x p - x q) (y p - y q).

End QPointF.

Module QMap.

Definition t : Type := list (Z * QPointF.t).

Fixpoint value (m : t) (key : Z) : option QPointF.t :=
  match m with
  | [] => None
  | (k, v) :: m' => if k =? key then Some v else value m' key
  end.

Definition contains (m : t) (key : Z) : bool :=
  match value m key with
  | Some _ => true
  | None => false
  end.

(** [m [key] = v]: the entry is replaced, or inserted at the place of
    [key] in the order of the keys. *)
Fixpoint insert (m : t) (key : Z) (v : QPointF.t) : t :=
  match m with
  | [] => [(key, v)]
  | (k, w) :: m' =>
      if key <? k then (key, v) :: (k, w) :: m'
      else if key =? k then (key, v) :: m'
      else (k, w) :: insert m' key v
  end.

Definition keys (m : t) : list Z := map fst m.

End QMap.

(** Modelled from the spec: the type [GroupNumberToPoint] of [GridHealer.h],
    which is not among the sources.  The spec has it as a mapping keyed by
    the group number, that the connection of the groups goes through in a
    fixed order; the source goes through it with iterators and [itr + 1]. *)
Definition GroupNumberToPoint : Type := QMap.t.

(** [(int) d]: the conversion of a double to an int truncates. *)
Definition toInt (d : Q) : Z := Z.quot (Qnum d) (Zpos (Qden d)).

(** [a < b] on doubles. *)
Definition Qltb (a b : Q) : bool := negb (Qle_bool b a).

(* ================================================================== *)
(** * The healer *)

Record GridHealer : Type := mkGridHealer {
  m_boundaryGroupNext : Z;
  m_groupNumberToCentroid : GroupNumberToPoint;
  m_groupNumberToPixel : GroupNumberToPoint;
  closeDistance : Q;                 (* m_modelGridRemoval.closeDistance () *)
  m_pixels : PixelVector
}.

Definition with_pixels (this : GridHealer) (pixels : PixelVector)
  : GridHealer :=
  mkGridHealer (m_boundaryGroupNext this) (m_groupNumberToCentroid this)
    (m_groupNumberToPixel this) (closeDistance this) pixels.

(** ** Constructor *)

Definition GridHealer_new (imageBefore : QImage.t) (closeDistance : Q)
  : result GridHealer :=
  _ <- ENGAUGE_ASSERT (NUM_PIXEL_STATES <? BOUNDARY_GROUP_FIRST) ;;
  Ok (mkGridHealer BOUNDARY_GROUP_FIRST [] [] closeDistance
        (map (fun row =>
                map (fun col =>
                       let rgb := QImage.pixel imageBefore col row in
                       if 128 <? qGray rgb then PIXEL_STATE_BACKGROUND
                       else PIXEL_STATE_FOREGROUND)
                    (upto (QImage.width imageBefore)))
             (upto (QImage.height imageBefore)))).

(** ** erasePixel *)

Definition erasePixel (xCol yRow : Z) (m_pixels : PixelVector)
  : result PixelVector :=
  m_pixels <- setPixel m_pixels yRow xCol PIXEL_STATE_REMOVED ;;
  forEach offsets (fun rowOffset m_pixels =>
    let rowSearch := yRow + rowOffset in
    if (0 <=? rowSearch) && (rowSearch <? QVector.count m_pixels) then
      forEach offsets (fun colOffset m_pixels =>
        let colSearch := xCol + colOffset in
        inside <- inRange colSearch (count0 m_pixels) ;;
        if inside : bool then
          p <- getPixel m_pixels rowSearch colSearch ;;
          if p =? PIXEL_STATE_FOREGROUND then
            setPixel m_pixels rowSearch colSearch PIXEL_STATE_ADJACENT
          else Ok m_pixels
        else Ok m_pixels) m_pixels
    else Ok m_pixels) m_pixels.

(** ** recursiveSearchForAdjacentPixels *)

(** The pixels, and the three arguments that are passed by reference. *)
Record Search : Type := mkSearch {
  pixels : PixelVector;
  centroidCount : Z;
  rowCentroidSum : Q;
  colCentroidSum : Q
}.

(** The recursion of the source is bounded by [fuel] here; [groupFuel] below
    is enough of it. *)
Fixpoint recursiveSearchForAdjacentPixels (fuel : nat)
  (boundaryGroup row col : Z) (s : Search) : result Search :=
  match fuel with
  | O => Err OutOfFuel
  | S fuel' =>
      p <- getPixel (pixels s) row col ;;
      _ <- ENGAUGE_ASSERT (p =? PIXEL_STATE_ADJACENT) ;;
      (* Merge coordinates into centroid *)
      let centroidCount := centroidCount s + 1 in
      let rowCentroidSum := (rowCentroidSum s + inject_Z row)%Q in
      let colCentroidSum := (colCentroidSum s + inject_Z col)%Q in
      m_pixels <- setPixel (pixels s) row col boundaryGroup ;;
      forEach offsets (fun rowOffset s =>
        let rowNeighbor := row + rowOffset in
        if (0 <=? rowNeighbor) && (rowNeighbor <? QVector.count (pixels s))
        then
          forEach offsets (fun colOffset s =>
            let colNeighbor := col + colOffset in
            inside <- inRange colNeighbor (count0 (pixels s)) ;;
            if inside : bool then
              p <- getPixel (pixels s) rowNeighbor colNeighbor ;;
              if p =? PIXEL_STATE_ADJACENT then
                recursiveSearchForAdjacentPixels fuel' boundaryGroup
                  rowNeighbor colNeighbor s
              else Ok s
            else Ok s) s
        else Ok s)
        (mkSearch m_pixels centroidCount rowCentroidSum colCentroidSum)
  end.

(** ** groupContiguousAdjacentPixels *)

(** Every call of the search recolors one more pixel, so that the depth of
    the recursion is at most the number of pixels. *)
Definition groupFuel (m_pixels : PixelVector) : nat :=
  S (length (concat m_pixels)).

Definition groupContiguousAdjacentPixels (this : GridHealer)
  : result GridHealer :=
  forEach (upto (QVector.count (m_pixels this))) (fun row this =>
    w <- count0 (m_pixels this) ;;
    forEach (upto w) (fun col this =>
      p <- getPixel (m_pixels this) row col ;;
      if p =? PIXEL_STATE_ADJACENT then
        (* This adjacent pixel will be grouped together with all touching
           adjacent pixels. A centroid is calculated *)
        s <- recursiveSearchForAdjacentPixels (groupFuel (m_pixels this))
               (m_boundaryGroupNext this) row col
               (mkSearch (m_pixels this) 0 0 0) ;;
        if 0 <? centroidCount s then
          (* Save the centroid and a representative point *)
          Ok (mkGridHealer
                (m_boundaryGroupNext this + 1)
                (QMap.insert (m_groupNumberToCentroid this)
                   (m_boundaryGroupNext this)
                   (QPointF.mk
                      (rowCentroidSum s / inject_Z (centroidCount s))
                      (colCentroidSum s / inject_Z (centroidCount s))))
                (QMap.insert (m_groupNumberToPixel this)
                   (m_boundaryGroupNext this)
                   (QPointF.mk (inject_Z row) (inject_Z col)))
                (closeDistance this)
                (pixels s))
        else Ok (with_pixels this (pixels s))
      else Ok this) this) this.

(** ** connectCloseGroups *)

(** The body of the loop on [index]: one pixel of the line from
    [pixelPointFrom] to [pixelPointTo]. *)
Definition healPixel (pixelPointFrom pixelPointTo : QPointF.t) (count : Z)
  (index : Z) (st : PixelVector * QImage.t) : result (PixelVector * QImage.t) :=
  let '(m_pixels, imageToHeal) := st in
  (* Replace PIXEL_STATE_REMOVED by PIXEL_STATE_HEALED *)
  let s := (inject_Z index / inject_Z (count - 1))%Q in
  let xCol := toInt (0.5 + (1 - s) * QPointF.y pixelPointFrom
                     + s * QPointF.y pixelPointTo)%Q in
  let yRow := toInt (0.5 + (1 - s) * QPointF.x pixelPointFrom
                     + s * QPointF.x pixelPointTo)%Q in
  m_pixels <- setPixel m_pixels yRow xCol PIXEL_STATE_HEALED ;;
  (* Fill in the pixel *)
  imageToHeal <- QImage.setPixel imageToHeal xCol yRow Qt_black ;;
  Ok (m_pixels, imageToHeal).

(** The body of the loop on [itrTo]. *)
Definition connectPair (closeDistanceSquared : Q)
  (posCentroidFrom pixelPointFrom posCentroidTo pixelPointTo : QPointF.t)
  (st : PixelVector * QImage.t) : result (PixelVector * QImage.t) :=
  let separation := QPointF.sub posCentroidFrom posCentroidTo in
  let separationMagnitudeSquared :=
    (QPointF.x separation * QPointF.x separation
     + QPointF.y separation * QPointF.y separation)%Q in
  if Qltb separationMagnitudeSquared closeDistanceSquared then
    (* Draw line from pixelPointFrom to pixelPointTo *)
    let count :=
      toInt (1 + Qmax (Qabs (QPointF.x pixelPointFrom - QPointF.x pixelPointTo))
                      (Qabs (QPointF.y pixelPointFrom - QPointF.y pixelPointTo)))%Q
    in
    if 1 <? count then
      forEach (upto count) (healPixel pixelPointFrom pixelPointTo count) st
    else Ok st
  else Ok st.

Definition connectCloseGroups (this : GridHealer) (imageToHeal : QImage.t)
  : result (GridHealer * QImage.t) :=
  let closeDistanceSquared := (closeDistance this * closeDistance this)%Q in
  '(m_pixels, imageToHeal) <-
    forEachTail (m_groupNumberToCentroid this) (fun itrFrom rest st =>
      let groupFrom := fst itrFrom in
      _ <- ENGAUGE_ASSERT (QMap.contains (m_groupNumberToPixel this) groupFrom) ;;
      let posCentroidFrom := snd itrFrom in
      match QMap.value (m_groupNumberToPixel this) groupFrom with
      | None => Err AssertionFailed
      | Some pixelPointFrom =>
          forEach rest (fun itrTo st =>
            let groupTo := fst itrTo in
            _ <- ENGAUGE_ASSERT
                   (QMap.contains (m_groupNumberToPixel this) groupTo) ;;
            let posCentroidTo := snd itrTo in
            match QMap.value (m_groupNumberToPixel this) groupTo with
            | None => Err AssertionFailed
            | Some pixelPointTo =>
                connectPair closeDistanceSquared
                  posCentroidFrom pixelPointFrom posCentroidTo pixelPointTo st
            end) st
      end) (m_pixels this, imageToHeal) ;;
  Ok (with_pixels this m_pixels, imageToHeal).

(** ** heal *)

Definition heal (this : GridHealer) (imageToHeal : QImage.t)
  : result (GridHealer * QImage.t) :=
  this <- groupContiguousAdjacentPixels this ;;
  connectCloseGroups this imageToHeal.

(* ================================================================== *)
(** * GraphicsLinesForCurves: the lines of the curves, by curve name *)

Definition QString : Type := String.string.

(** What [GraphicsLinesForCurves.cpp] takes from the headers that are not
    among the sources: the lines of one curve ([GraphicsLinesForCurve]),
    with its constructor and its three functions that are called here, the
    points, the scene and the line styles that are passed on to them, and
    the name of the curve of the axis points. *)
Class Collaborators : Type := {
  GraphicsLinesForCurve : Type;
  GraphicsPoint : Type;
  GraphicsScene : Type;
  LineStyle : Type;
  LineStyles : Type;
  (* [new GraphicsLinesForCurve] *)
  GraphicsLinesForCurve_new : GraphicsLinesForCurve;
  (* [graphicsLines->resetPoints ()] *)
  GraphicsLinesForCurve_resetPoints :
    GraphicsLinesForCurve -> GraphicsLinesForCurve;
  (* [graphicsLines->savePoint (ordinal, point)] *)
  GraphicsLinesForCurve_savePoint :
    Z -> GraphicsPoint -> GraphicsLinesForCurve -> GraphicsLinesForCurve;
  (* [graphicsLines->updateLines (scene, lineStyle)] *)
  GraphicsLinesForCurve_updateLines :
    GraphicsScene -> LineStyle -> GraphicsLinesForCurve ->
    GraphicsScene * GraphicsLinesForCurve;
  (* [lineStyles [curveName]] *)
  LineStyles_at : LineStyles -> QString -> LineStyle;
  AXIS_CURVE_NAME : QString
}.

(** [GraphicsLinesContainer]: the lines of the curves, by curve name.  The
    source goes through it with [begin], [end], [key] and [value], and
    reads and writes it with [contains] and [operator[]]: a [QMap], that
    is an association list in the order of its keys. *)
Module GraphicsLinesContainer.

Definition t (V : Type) : Type := list (QString * V).

Fixpoint value {V} (m : t V) (key : QString) : option V :=
  match m with
  | [] => None
  | (k, v) :: m' => if String.eqb k key then Some v else value m' key
  end.

Definition contains {V} (m : t V) (key : QString) : bool :=
  match value m key with
  | Some _ => true
  | None => false
  end.

(** [m [key] = v]. *)
Fixpoint insert {V} (m : t V) (key : QString) (v : V) : t V :=
  match m with
  | [] => [(key, v)]
  | (k, w) :: m' =>
      if String.ltb key k then (key, v) :: (k, w) :: m'
      else if String.eqb key k then (key, v) :: m'
      else (k, w) :: insert m' key v
  end.

(** [m [key]->f ()], for a key of the map: the object that the map points
    to changes. *)
Fixpoint call {V} (m : t V) (key : QString) (f : V -> V) : t V :=
  match m with
  | [] => []
  | (k, v) :: m' =>
      if String.eqb k key then (k, f v) :: m' else (k, v) :: call m' key f
  end.

Definition keys {V} (m : t V) : list QString := map fst m.

End GraphicsLinesContainer.

Section GraphicsLinesForCurves.

Context {collaborators : Collaborators}.

(** [m_graphicsLinesForCurve], the only member variable. *)
Definition GraphicsLinesForCurves : Type :=
  GraphicsLinesContainer.t GraphicsLinesForCurve.

Definition GraphicsLinesForCurves_new : GraphicsLinesForCurves := [].

Definition resetPoints (m_graphicsLinesForCurve : GraphicsLinesForCurves)
  : GraphicsLinesForCurves :=
  map (fun itr =>
         let graphicsLines := snd itr in
         (fst itr, GraphicsLinesForCurve_resetPoints graphicsLines))
      m_graphicsLinesForCurve.

Definition savePoint (curveName : QString) (ordinal : Z)
  (point : GraphicsPoint) (m_graphicsLinesForCurve : GraphicsLinesForCurves)
  : GraphicsLinesForCurves :=
  (* No lines are drawn for the axis points, other than the axes checker
     box *)
  if negb (String.eqb curveName AXIS_CURVE_NAME) then
    let m_graphicsLinesForCurve :=
      if negb (GraphicsLinesContainer.contains m_graphicsLinesForCurve
                 curveName)
      then GraphicsLinesContainer.insert m_graphicsLinesForCurve curveName
             GraphicsLinesForCurve_new
      else m_graphicsLinesForCurve in
    GraphicsLinesContainer.call m_graphicsLinesForCurve curveName
      (GraphicsLinesForCurve_savePoint ordinal point)
  else m_graphicsLinesForCurve.

Fixpoint updateLines_loop (scene : GraphicsScene) (lineStyles : LineStyles)
  (m : GraphicsLinesForCurves) : GraphicsScene * GraphicsLinesForCurves :=
  match m with
  | [] => (scene, [])
  | itr :: m' =>
      let curveName := fst itr in
      let graphicsLines := snd itr in
      let '(scene, graphicsLines) :=
        GraphicsLinesForCurve_updateLines scene
          (LineStyles_at lineStyles curveName) graphicsLines in
      let '(scene, m') := updateLines_loop scene lineStyles m' in
      (scene, (curveName, graphicsLines) :: m')
  end.

Definition updateLines (scene : GraphicsScene) (lineStyles : LineStyles)
  (m_graphicsLinesForCurve : GraphicsLinesForCurves)
  : GraphicsScene * GraphicsLinesForCurves :=
  updateLines_loop scene lineStyles m_graphicsLinesForCurve.

End GraphicsLinesForCurves.

(** ** Curves and collaborators for the examples *)

Open Scope string_scope.

Definition curveA : QString := "Curve1".
Definition curveB : QString := "Curve2".

(** The lines of a curve as the list of its points, with their ordinals. *)
Definition exampleCollaborators : Collaborators := {|
  GraphicsLinesForCurve := list (Z * Z);
  GraphicsPoint := Z;
  GraphicsScene := list QString;
  LineStyle := Z;
  LineStyles := QString -> Z;
  GraphicsLinesForCurve_new := [];
  GraphicsLinesForCurve_resetPoints := fun _ => [];
  GraphicsLinesForCurve_savePoint :=
    fun ordinal point graphicsLines => (ordinal, point) :: graphicsLines;
  GraphicsLinesForCurve_updateLines :=
    fun scene lineStyle graphicsLines => (scene, graphicsLines);
  LineStyles_at := fun lineStyles curveName => lineStyles curveName;
  AXIS_CURVE_NAME := "Axes"
|}.

Close Scope string_scope.

(* ================================================================== *)
(** * Specification vocabulary *)

(** ** Pixels and grids *)

Definition cell : Type := (Z * Z)%type.   (* (row, col) *)

Definition cell_eq_dec (p q : cell) : {p = q} + {p <> q}.
Proof. decide equality; apply Z.eq_dec. Defined.

(** The width of the grid: the length of its first row. *)
Definition widthOf (m : PixelVector) : Z :=
  match m with
  | [] => 0
  | r :: _ => QVector.count r
  end.

(** Every row has the length of the first one, as the constructor makes
    them. *)
Definition rectangular (m : PixelVector) : bool :=
  forallb (fun r => QVector.count r =? widthOf m) m.

Definition inside (m : PixelVector) (p : cell) : Prop :=
  0 <= fst p < QVector.count m /\ 0 <= snd p < widthOf m.

Definition stateAt (m : PixelVector) (p : cell) : result Z :=
  getPixel m (fst p) (snd p).

Definition adjacentAt (m : PixelVector) (p : cell) : Prop :=
  stateAt m p = Ok PIXEL_STATE_ADJACENT.

(** What an assignment to a pixel does. *)
Record written (m m' : PixelVector) (p : cell) (v : Z) : Prop := {
  written_rect : rectangular m' = true;
  written_count : QVector.count m' = QVector.count m;
  written_width : widthOf m' = widthOf m;
  written_same : stateAt m' p = Ok v;
  written_other : forall q, q <> p -> stateAt m' q = stateAt m q
}.

(** The image is as large as the grid. *)
Definition fits (m : PixelVector) (image : QImage.t) : bool :=
  (widthOf m <=? QImage.width image) && (QVector.count m <=? QImage.height image).

(** ** The window of a pixel and [erasePixel] *)

(** Two pixels touch when they are in the same 3 x 3 window. *)
Definition touching (p q : cell) : Prop :=
  Z.abs (fst p - fst q) <= 1 /\ Z.abs (snd p - snd q) <= 1.

(** The 3 x 3 window of a pixel, in the order of the loops. *)
Definition windowRow (p : cell) (rowOffset : Z) : list cell :=
  map (fun colOffset => (fst p + rowOffset, snd p + colOffset)) offsets.

Definition window (p : cell) : list cell := flat_map (windowRow p) offsets.

(** The state of [erasePixel] on the target [t], from the pixels [m], once
    the loops have been through the pixels of [done]. *)
Record erasing (m : PixelVector) (t : cell) (done : list cell)
  (cur : PixelVector) : Prop := {
  erasing_rect : rectangular cur = true;
  erasing_count : QVector.count cur = QVector.count m;
  erasing_width : widthOf cur = widthOf m;
  erasing_target : stateAt cur t = Ok PIXEL_STATE_REMOVED;
  erasing_done : forall q, q <> t -> In q done ->
    stateAt m q = Ok PIXEL_STATE_FOREGROUND ->
    stateAt cur q = Ok PIXEL_STATE_ADJACENT;
  erasing_rest : forall q, q <> t ->
    ~ (In q done /\ stateAt m q = Ok PIXEL_STATE_FOREGROUND) ->
    stateAt cur q = stateAt m q
}.

(** The pixels that the loops of [erasePixel] read, in their order: those
    that pass the test on [rowSearch] and the test on [colSearch]. *)
Definition erasePixel_inspected (xCol yRow : Z) (m_pixels : PixelVector)
  : list cell :=
  flat_map (fun rowOffset =>
    let rowSearch := yRow + rowOffset in
    if (0 <=? rowSearch) && (rowSearch <? QVector.count m_pixels) then
      flat_map (fun colOffset =>
        let colSearch := xCol + colOffset in
        if (0 <=? colSearch) && (colSearch <? widthOf m_pixels)
        then [(rowSearch, colSearch)] else []) offsets
    else []) offsets.

(** What [erasePixel] does with a pixel that it reads. *)
Definition erasePixel_inspect (c : cell) (m_pixels : PixelVector)
  : result PixelVector :=
  p <- getPixel m_pixels (fst c) (snd c) ;;
  if p =? PIXEL_STATE_FOREGROUND then
    setPixel m_pixels (fst c) (snd c) PIXEL_STATE_ADJACENT
  else Ok m_pixels.

(** ** Connected pixels and the search *)

(** [connected A p q]: a chain of touching pixels of [A] leads from [p] to
    [q]. *)
Inductive connected (A : cell -> Prop) (p : cell) : cell -> Prop :=
| connected_refl : A p -> connected A p p
| connected_step q r :
    connected A p q -> touching q r -> A r -> connected A p r.

(** Row-major order of the scan. *)
Definition scanned_before (p q : cell) : Prop :=
  fst p < fst q \/ (fst p = fst q /\ snd p <= snd q).

(** [p] is scanned strictly before [q]. *)
Definition earlier (p q : cell) : Prop :=
  fst p < fst q \/ (fst p = fst q /\ snd p < snd q).

(** The number of adjacent pixels. *)
Definition adjacentCount (m : PixelVector) : nat :=
  length (filter (fun v => v =? PIXEL_STATE_ADJACENT) (concat m)).

Definition sumRows (acc : Q) (l : list cell) : Q :=
  fold_left (fun a p => (a + inject_Z (fst p))%Q) l acc.

Definition sumCols (acc : Q) (l : list cell) : Q :=
  fold_left (fun a p => (a + inject_Z (snd p))%Q) l acc.

(** The sum of the integers of a list. *)
Definition total (l : list Z) : Z := fold_right Z.add 0 l.

(** The state [s] of a search that started in the state [s0], with the
    group number [g], and has been through the pixels of [vis], in this
    order. *)
Record searching (g : Z) (s0 : Search) (vis : list cell) (s : Search)
  : Prop := {
  searching_rect : rectangular (pixels s) = true;
  searching_count : QVector.count (pixels s) = QVector.count (pixels s0);
  searching_width : widthOf (pixels s) = widthOf (pixels s0);
  searching_centroidCount :
    centroidCount s = centroidCount s0 + Z.of_nat (length vis);
  searching_rowSum : rowCentroidSum s = sumRows (rowCentroidSum s0) vis;
  searching_colSum : colCentroidSum s = sumCols (colCentroidSum s0) vis;
  searching_NoDup : NoDup vis;
  searching_adjacent : forall p, In p vis -> adjacentAt (pixels s0) p;
  searching_marked : forall p, In p vis -> stateAt (pixels s) p = Ok g;
  searching_other :
    forall p, ~ In p vis -> stateAt (pixels s) p = stateAt (pixels s0) p;
  searching_measure :
    (adjacentCount (pixels s) + length vis = adjacentCount (pixels s0))%nat
}.

(** The state [s] of the call of the search on the pixel [v], in the loops
    on its neighbours, once they have been through the pixels of [done];
    [vis] are the pixels that the nested calls have been through. *)
Record visiting (g : Z) (s0 : Search) (v : cell) (done vis : list cell)
  (s : Search) : Prop := {
  visiting_searching : searching g s0 (v :: vis) s;
  visiting_sound :
    forall p, In p vis -> connected (adjacentAt (pixels s0)) v p;
  visiting_closed :
    forall p q, In p vis -> touching p q -> adjacentAt (pixels s0) q ->
                In q (v :: vis);
  visiting_done :
    forall q, In q done -> adjacentAt (pixels s0) q -> In q (v :: vis)
}.

(** ** Regions and the grouping *)

(** A region that the grouping records: its group number, its anchor and
    its members, in the order of the search. *)
Record Region : Type := mkRegion {
  region_id : Z;
  region_anchor : cell;
  region_members : list cell
}.

(** The centroid that the grouping computes for the members [l]. *)
Definition centroidOf (l : list cell) : QPointF.t :=
  QPointF.mk (sumRows 0 l / inject_Z (Z.of_nat (length l)))
             (sumCols 0 l / inject_Z (Z.of_nat (length l))).

Definition pointOf (p : cell) : QPointF.t :=
  QPointF.mk (inject_Z (fst p)) (inject_Z (snd p)).

(** The keys of a map are in increasing order, without duplicates. *)
Fixpoint sortedKeys (l : list Z) : bool :=
  match l with
  | [] => true
  | k :: l' => forallb (fun k' => k <? k') l' && sortedKeys l'
  end.

(** The region [r] of the pixels of [this0] is recorded in [this]. *)
Record recorded (this0 this : GridHealer) (r : Region) : Prop := {
  recorded_adjacent : adjacentAt (m_pixels this0) (region_anchor r);
  recorded_members :
    forall p, In p (region_members r) <->
              connected (adjacentAt (m_pixels this0)) (region_anchor r) p;
  recorded_NoDup : NoDup (region_members r);
  recorded_state :
    forall p, In p (region_members r) ->
              stateAt (m_pixels this) p = Ok (region_id r);
  recorded_centroid :
    QMap.value (m_groupNumberToCentroid this) (region_id r)
    = Some (centroidOf (region_members r));
  recorded_pixel :
    QMap.value (m_groupNumberToPixel this) (region_id r)
    = Some (pointOf (region_anchor r));
  recorded_first :
    forall p, In p (region_members r) -> scanned_before (region_anchor r) p
}.

(** The state [this] of the grouping that started in the state [this0],
    once the scan has been through the pixels before [pos] and has recorded
    [regions]. *)
Record grouping (this0 : GridHealer) (pos : cell) (regions : list Region)
  (this : GridHealer) : Prop := {
  grouping_rect : rectangular (m_pixels this) = true;
  grouping_count :
    QVector.count (m_pixels this) = QVector.count (m_pixels this0);
  grouping_width : widthOf (m_pixels this) = widthOf (m_pixels this0);
  grouping_closeDistance : closeDistance this = closeDistance this0;
  grouping_next :
    m_boundaryGroupNext this
    = m_boundaryGroupNext this0 + QVector.count regions;
  grouping_ids :
    map region_id regions
    = map (fun i => m_boundaryGroupNext this0 + i)
          (upto (QVector.count regions));
  grouping_recorded : forall r, In r regions -> recorded this0 this r;
  grouping_other :
    forall p, (forall r, In r regions -> ~ In p (region_members r)) ->
              stateAt (m_pixels this) p = stateAt (m_pixels this0) p;
  grouping_scanned :
    forall p, earlier p pos -> ~ adjacentAt (m_pixels this) p;
  grouping_centroids :
    forall k, ~ In k (map region_id regions) ->
      QMap.value (m_groupNumberToCentroid this) k
      = QMap.value (m_groupNumberToCentroid this0) k;
  grouping_anchors :
    forall k, ~ In k (map region_id regions) ->
      QMap.value (m_groupNumberToPixel this) k
      = QMap.value (m_groupNumberToPixel this0) k;
  grouping_sorted :
    sortedKeys (QMap.keys (m_groupNumberToCentroid this0)) = true ->
    sortedKeys (QMap.keys (m_groupNumberToCentroid this)) = true
}.

(** ** Lines, pairs of groups and the connection *)

(** The number of steps of the line between two anchors. *)
Definition lineCount (pixelPointFrom pixelPointTo : QPointF.t) : Z :=
  toInt (1 + Qmax (Qabs (QPointF.x pixelPointFrom - QPointF.x pixelPointTo))
                  (Qabs (QPointF.y pixelPointFrom - QPointF.y pixelPointTo)))%Q.

(** The pixel [(yRow, xCol)] of the step [index] of the line. *)
Definition linePixel (pixelPointFrom pixelPointTo : QPointF.t) (count : Z)
  (index : Z) : cell :=
  let s := (inject_Z index / inject_Z (count - 1))%Q in
  (toInt (0.5 + (1 - s) * QPointF.x pixelPointFrom
          + s * QPointF.x pixelPointTo)%Q,
   toInt (0.5 + (1 - s) * QPointF.y pixelPointFrom
          + s * QPointF.y pixelPointTo)%Q).

(** The pixels of the line between two anchors, in the order of the loop:
    none when the two anchors are the same pixel. *)
Definition linePixels (pixelPointFrom pixelPointTo : QPointF.t) : list cell :=
  let count := lineCount pixelPointFrom pixelPointTo in
  if 1 <? count
  then map (linePixel pixelPointFrom pixelPointTo count) (upto count)
  else [].

(** The squared distance between two centroids. *)
Definition distanceSquared (c1 c2 : QPointF.t) : Q :=
  ((QPointF.x c1 - QPointF.x c2) * (QPointF.x c1 - QPointF.x c2)
   + (QPointF.y c1 - QPointF.y c2) * (QPointF.y c1 - QPointF.y c2))%Q.

(** The squared distance between two centroids is strictly less than the
    square of [closeDistance]. *)
Definition isClose (closeDistance : Q) (posCentroidFrom posCentroidTo : QPointF.t)
  : bool :=
  let separation := QPointF.sub posCentroidFrom posCentroidTo in
  Qltb (QPointF.x separation * QPointF.x separation
        + QPointF.y separation * QPointF.y separation)%Q
       (closeDistance * closeDistance)%Q.

(** The pairs of the loops on [itrFrom] and [itrTo]: every element with
    every element after it. *)
Fixpoint allPairs {A} (l : list A) : list (A * A) :=
  match l with
  | [] => []
  | a :: l' => map (pair a) l' ++ allPairs l'
  end.

(** The pixels that [connectCloseGroups] writes for a pair of groups. *)
Definition pairPixels (this : GridHealer) (from to : Z * QPointF.t)
  : list cell :=
  match QMap.value (m_groupNumberToPixel this) (fst from),
        QMap.value (m_groupNumberToPixel this) (fst to) with
  | Some pixelPointFrom, Some pixelPointTo =>
      if isClose (closeDistance this) (snd from) (snd to)
      then linePixels pixelPointFrom pixelPointTo
      else []
  | _, _ => []
  end.

(** The pixels that [connectCloseGroups] writes. *)
Definition healedPixels (this : GridHealer) : list cell :=
  flat_map (fun pr => pairPixels this (fst pr) (snd pr))
           (allPairs (m_groupNumberToCentroid this)).

(** From the grid and image [st0] to [st], the pixels of [L] have been
    healed and painted, and no other has changed. *)
Record painted (st0 : PixelVector * QImage.t) (L : list cell)
  (st : PixelVector * QImage.t) : Prop := {
  painted_rect : rectangular (fst st) = true;
  painted_count : QVector.count (fst st) = QVector.count (fst st0);
  painted_width : widthOf (fst st) = widthOf (fst st0);
  painted_image_width : QImage.width (snd st) = QImage.width (snd st0);
  painted_image_height : QImage.height (snd st) = QImage.height (snd st0);
  painted_healed :
    forall p, In p L ->
      stateAt (fst st) p = Ok PIXEL_STATE_HEALED /\
      QImage.pixel (snd st) (snd p) (fst p) = Qt_black;
  painted_other :
    forall p, ~ In p L ->
      stateAt (fst st) p = stateAt (fst st0) p /\
      QImage.pixel (snd st) (snd p) (fst p)
      = QImage.pixel (snd st0) (snd p) (fst p)
}.

(** Every group that has a centroid has an anchor, which is a pixel of the
    grid [m]. *)
Definition anchored (this : GridHealer) (m : PixelVector) : Prop :=
  forall e, In e (m_groupNumberToCentroid this) ->
    exists a, QMap.value (m_groupNumberToPixel this) (fst e)
              = Some (pointOf a) /\ inside m a.

(** ** The invariant of the healer *)





(** The invariant, as a proposition. *)
Record Healthy (this : GridHealer) : Prop := {
  Healthy_rect : rectangular (m_pixels this) = true;
  Healthy_first : BOUNDARY_GROUP_FIRST <= m_boundaryGroupNext this;
  Healthy_sorted : sortedKeys (QMap.keys (m_groupNumberToCentroid this)) = true;
  Healthy_anchor :
    forall e, In e (m_groupNumberToCentroid this) ->
      exists a, QMap.value (m_groupNumberToPixel this) (fst e)
                = Some (pointOf a) /\
                inside (m_pixels this) a /\
                stateAt (m_pixels this) a <> Ok PIXEL_STATE_FOREGROUND /\
                stateAt (m_pixels this) a <> Ok PIXEL_STATE_ADJACENT;
  Healthy_distinct :
    forall e1 e2 a,
      In e1 (m_groupNumberToCentroid this) ->
      In e2 (m_groupNumberToCentroid this) ->
      fst e1 <> fst e2 ->
      QMap.value (m_groupNumberToPixel this) (fst e1) = Some (pointOf a) ->
      QMap.value (m_groupNumberToPixel this) (fst e2) = Some (pointOf a) ->
      False
}.

(** ** The line with IEEE 754 doubles

    The arithmetic of the line once more, with the doubles of the program
    (binary64, rounding to nearest even) in the place of the rationals. *)
Module Binary64.

Definition prec : Z := 53.
Definition emax : Z := 1024.

Definition double : Type := spec_float.

(** [(double) z]. *)
Definition ofInt (z : Z) : double := binary_normalize prec emax z 0 false.

(** [0.5]. *)
Definition half : double := binary_normalize prec emax 1 (-1) false.

(** [(int) d]. *)
Definition toInt (d : double) : Z :=
  match d with
  | S754_finite s m e =>
      let v := if 0 <=? e then Zpos m * 2 ^ e
               else Z.quot (Zpos m) (2 ^ (- e)) in
      if s then - v else v
  | _ => 0
  end.

Definition add : double -> double -> double := SFadd prec emax.
Definition sub : double -> double -> double := SFsub prec emax.
Definition mul : double -> double -> double := SFmul prec emax.
Definition div : double -> double -> double := SFdiv prec emax.
Definition qAbs : double -> double := SFabs.
Definition qMax (a b : double) : double := if SFltb a b then b else a.

(** [count], for the anchors [a] and [b]. *)
Definition lineCount (a b : cell) : Z :=
  toInt (add (ofInt 1)
           (qMax (qAbs (sub (ofInt (fst a)) (ofInt (fst b))))
                 (qAbs (sub (ofInt (snd a)) (ofInt (snd b)))))).

(** [(yRow, xCol)], for the anchors [a] and [b]. *)
Definition linePixel (a b : cell) (count index : Z) : cell :=
  let s := div (ofInt index) (ofInt (count - 1)) in
  (toInt (add (add half (mul (sub (ofInt 1) s) (ofInt (fst a))))
              (mul s (ofInt (fst b)))),
   toInt (add (add half (mul (sub (ofInt 1) s) (ofInt (snd a))))
              (mul s (ofInt (snd b))))).

End Binary64.

(** The pixels of a grid of [n] rows and [n] columns. *)
Definition gridCells (n : Z) : list cell :=
  flat_map (fun row => map (pair row) (upto n)) (upto n).

(** [y] is at a distance of at most 1/2 from the interpolation
    ((n - i) * a + i * b) / n. *)
Definition nearestTo (n i a b y : Z) : bool :=
  Z.abs (2 * n * y - 2 * ((n - i) * a + i * b)) <=? n.

Definition betweenEnds (a b y : Z) : bool :=
  (Z.min a b <=? y) && (y <=? Z.max a b).

(** With the doubles of the program, the line between [a] and [b] has the
    count of the embedding, and its pixels are between [a] and [b] and
    nearest to the interpolation. *)
Definition binary64_lineOk (a b : cell) : bool :=
  let count := Binary64.lineCount a b in
  (count =? lineCount (pointOf a) (pointOf b))
  && forallb (fun index =>
                negb (1 <? count)
                || (let p := Binary64.linePixel a b count index in
                    nearestTo (count - 1) index (fst a) (fst b) (fst p)
                    && nearestTo (count - 1) index (snd a) (snd b) (snd p)
                    && betweenEnds (fst a) (fst b) (fst p)
                    && betweenEnds (snd a) (snd b) (snd p)))
             (upto count).

(** ** Grids, healers and images for the examples *)

Definition grid3x3 : PixelVector := [[1; 1; 1]; [1; 1; 1]; [0; 1; 1]].

Definition grid5x5 : PixelVector :=
  [[2; 0; 0; 0; 2]; [0; 0; 0; 0; 0]; [0; 0; 2; 2; 0]; [0; 0; 0; 2; 0];
   [0; 0; 0; 0; 0]].

Definition healer5x5 (closeDistance : Q) : GridHealer :=
  mkGridHealer BOUNDARY_GROUP_FIRST [] [] closeDistance grid5x5.

Definition unwrap (this : GridHealer) (r : result GridHealer) : GridHealer :=
  match r with
  | Ok this' => this'
  | Err _ => this
  end.

Definition grouped5x5 (closeDistance : Q) : GridHealer :=
  unwrap (healer5x5 closeDistance)
    (groupContiguousAdjacentPixels (healer5x5 closeDistance)).

Definition image5x5 : QImage.t := QImage.mk 5 5 (fun _ _ => 255).

Definition grid1x6 : PixelVector := [[2; 0; 0; 0; 0; 2]].

Definition grouped1x6 : GridHealer :=
  unwrap (mkGridHealer BOUNDARY_GROUP_FIRST [] [] 10 grid1x6)
    (groupContiguousAdjacentPixels
       (mkGridHealer BOUNDARY_GROUP_FIRST [] [] 10 grid1x6)).


(** The grid of the scenarios of the specification: 5 x 5, with two
    adjacent pixels at (0,0) and (0,4). *)
Definition scenarioGrid : PixelVector :=
  [[2; 0; 0; 0; 2]; [0; 0; 0; 0; 0]; [0; 0; 0; 0; 0]; [0; 0; 0; 0; 0];
   [0; 0; 0; 0; 0]].

Definition scenario (closeDistance : Q) : GridHealer :=
  mkGridHealer BOUNDARY_GROUP_FIRST [] [] closeDistance scenarioGrid.

(** The pixels of an image, by rows. *)
Definition pixelsOf (image : QImage.t) : list (list Z) :=
  map (fun y => map (fun x => QImage.pixel image x y)
                    (upto (QImage.width image)))
      (upto (QImage.height image)).

(** ** The pixels after [erasePixel] *)

(** [touching], as a boolean. *)
Definition touchingb (p q : cell) : bool :=
  (Z.abs (fst p - fst q) <=? 1) && (Z.abs (snd p - snd q) <=? 1).

(** The state of the pixel [q] once [erasePixel] has erased the target [t]
    in the grid [m]. *)
Definition erasedState (m : PixelVector) (t q : cell) : result Z :=
  if cell_eq_dec q t then
    match stateAt m q with
    | Ok _ => Ok PIXEL_STATE_REMOVED
    | Err e => Err e
    end
  else
    match stateAt m q with
    | Ok v => if (v =? PIXEL_STATE_FOREGROUND) && touchingb t q
              then Ok PIXEL_STATE_ADJACENT else Ok v
    | Err e => Err e
    end.

(** ** Healed pixels, and healers with another close distance *)

(** The healer [this] with the close distance [d] in the place of its
    own. *)
Definition with_closeDistance (this : GridHealer) (d : Q) : GridHealer :=
  mkGridHealer (m_boundaryGroupNext this) (m_groupNumberToCentroid this)
    (m_groupNumberToPixel this) d (m_pixels this).

Definition healedAt (m : PixelVector) (p : cell) : Prop :=
  stateAt m p = Ok PIXEL_STATE_HEALED.

(** ** Mended pixels *)


(** ** The order of the group numbers *)

(** The anchors of the groups from the number [next0] on, once the scan has
    been through the pixels before [pos]: they are pixels before [pos],
    in the order of their group numbers. *)
Record ordered (next0 : Z) (pos : cell) (this : GridHealer) : Prop := {
  ordered_next : next0 <= m_boundaryGroupNext this;
  ordered_scanned :
    forall g, next0 <= g < m_boundaryGroupNext this ->
      exists a, QMap.value (m_groupNumberToPixel this) g = Some (pointOf a) /\
                earlier a pos;
  ordered_pairs :
    forall g1 g2, next0 <= g1 -> g1 < g2 -> g2 < m_boundaryGroupNext this ->
      exists a1 a2,
        QMap.value (m_groupNumberToPixel this) g1 = Some (pointOf a1) /\
        QMap.value (m_groupNumberToPixel this) g2 = Some (pointOf a2) /\
        earlier a1 a2
}.

(** ** The states of a healer *)

(** The states of a healer that its public functions make: the constructor,
    then [erasePixel] on pixels of the grid and [heal] on images that are as
    large as the grid, in any order. *)
Inductive reachable (imageBefore : QImage.t) (modelCloseDistance : Q)
  : GridHealer -> Prop :=
| reachable_new this :
    GridHealer_new imageBefore modelCloseDistance = Ok this ->
    reachable imageBefore modelCloseDistance this
| reachable_erasePixel this xCol yRow m_pixels' :
    reachable imageBefore modelCloseDistance this ->
    inside (m_pixels this) (yRow, xCol) ->
    erasePixel xCol yRow (m_pixels this) = Ok m_pixels' ->
    reachable imageBefore modelCloseDistance (with_pixels this m_pixels')
| reachable_heal this imageToHeal this' imageToHeal' :
    reachable imageBefore modelCloseDistance this ->
    fits (m_pixels this) imageToHeal = true ->
    heal this imageToHeal = Ok (this', imageToHeal') ->
    reachable imageBefore modelCloseDistance this'.

(** What holds in every such state. *)
Record Reached (imageBefore : QImage.t) (modelCloseDistance : Q)
  (this : GridHealer) : Prop := {
  Reached_Healthy : Healthy this;
  Reached_closeDistance : closeDistance this = modelCloseDistance;
  Reached_count :
    QVector.count (m_pixels this) = Z.max 0 (QImage.height imageBefore);
  Reached_inside :
    forall p, inside (m_pixels this) p <->
              0 <= fst p < QImage.height imageBefore /\
              0 <= snd p < QImage.width imageBefore;
  Reached_centroids :
    forall k, QMap.contains (m_groupNumberToCentroid this) k = true <->
              BOUNDARY_GROUP_FIRST <= k < m_boundaryGroupNext this;
  Reached_anchors :
    forall k, QMap.contains (m_groupNumberToPixel this) k = true <->
              BOUNDARY_GROUP_FIRST <= k < m_boundaryGroupNext this;
  Reached_states :
    forall p v, stateAt (m_pixels this) p = Ok v ->
                0 <= v < NUM_PIXEL_STATES \/
                BOUNDARY_GROUP_FIRST <= v < m_boundaryGroupNext this
}.

(** ** More grids, healers and images for the examples *)

(** An image of 3 x 3 black pixels, its healer, and the healer once the
    pixel in the middle is erased. *)
Definition image3x3 : QImage.t := QImage.mk 3 3 (fun _ _ => 0).

Definition fresh3x3 : GridHealer :=
  mkGridHealer BOUNDARY_GROUP_FIRST [] [] 1 [[1; 1; 1]; [1; 1; 1]; [1; 1; 1]].

Definition erased3x3 : GridHealer :=
  with_pixels fresh3x3 [[2; 2; 2]; [2; 3; 2]; [2; 2; 2]].

(** A healer with a centroid that has no anchor. *)
Definition orphan : GridHealer :=
  mkGridHealer (BOUNDARY_GROUP_FIRST + 1)
    [(BOUNDARY_GROUP_FIRST, QPointF.mk 0 0)] [] 1 [[BOUNDARY_GROUP_FIRST]].

(* ================================================================== *)
(** * The healer with the doubles of the program

    The functions of the healer once more, with every [double] of the
    source an IEEE 754 binary64 number and every operation on doubles the
    operation of [SpecFloat], rounding to nearest even: the sums of the
    search, the centroids, the test on the distance and the interpolation
    of the line.  The functions have the names of the source, in the
    module [Doubles]; [erasePixel] has no double and is the function above. *)
Module Doubles.

Definition double : Type := Binary64.double.

(** [0], as the initial value of a double. *)
Definition zero : double := Binary64.ofInt 0.

(** [qAbs (t)] is [t >= 0 ? t : -t]. *)
Definition qAbs (t : double) : double :=
  if SFleb zero t then t else SFopp t.

(** [qMax (a, b)] is [(a < b) ? b : a]. *)
Definition qMax (a b : double) : double := if SFltb a b then b else a.

Module QPointF.

Record t : Type := mk { x : double; y : double }.

Definition sub (p q : t) : t :=
  mk (Binary64.sub (x p) (x q)) (Binary64.sub (y p) (y q)).

End QPointF.

Module QMap.

Definition t : Type := list (Z * QPointF.t).

Fixpoint value (m : t) (key : Z) : option QPointF.t :=
  match m with
  | [] => None
  | (k, v) :: m' => if k =? key then Some v else value m' key
  end.

Definition contains (m : t) (key : Z) : bool :=
  match value m key with
  | Some _ => true
  | None => false
  end.

(** [m [key] = v]. *)
Fixpoint insert (m : t) (key : Z) (v : QPointF.t) : t :=
  match m with
  | [] => [(key, v)]
  | (k, w) :: m' =>
      if key <? k then (key, v) :: (k, w) :: m'
      else if key =? k then (key, v) :: m'
      else (k, w) :: insert m' key v
  end.

Definition keys (m : t) : list Z := map fst m.

End QMap.

Definition GroupNumberToPoint : Type := QMap.t.

Record GridHealer : Type := mkGridHealer {
  m_boundaryGroupNext : Z;
  m_groupNumberToCentroid : GroupNumberToPoint;
  m_groupNumberToPixel : GroupNumberToPoint;
  closeDistance : double;            (* m_modelGridRemoval.closeDistance () *)
  m_pixels : PixelVector
}.

Definition with_pixels (this : GridHealer) (pixels : PixelVector)
  : GridHealer :=
  mkGridHealer (m_boundaryGroupNext this) (m_groupNumberToCentroid this)
    (m_groupNumberToPixel this) (closeDistance this) pixels.

(** ** Constructor *)

Definition GridHealer_new (imageBefore : QImage.t) (closeDistance : double)
  : result GridHealer :=
  _ <- ENGAUGE_ASSERT (NUM_PIXEL_STATES <? BOUNDARY_GROUP_FIRST) ;;
  Ok (mkGridHealer BOUNDARY_GROUP_FIRST [] [] closeDistance
        (map (fun row =>
                map (fun col =>
                       let rgb := QImage.pixel imageBefore col row in
                       if 128 <? qGray rgb then PIXEL_STATE_BACKGROUND
                       else PIXEL_STATE_FOREGROUND)
                    (upto (QImage.width imageBefore)))
             (upto (QImage.height imageBefore)))).

(** ** recursiveSearchForAdjacentPixels *)

Record Search : Type := mkSearch {
  pixels : PixelVector;
  centroidCount : Z;
  rowCentroidSum : double;
  colCentroidSum : double
}.

Fixpoint recursiveSearchForAdjacentPixels (fuel : nat)
  (boundaryGroup row col : Z) (s : Search) : result Search :=
  match fuel with
  | O => Err OutOfFuel
  | S fuel' =>
      p <- getPixel (pixels s) row col ;;
      _ <- ENGAUGE_ASSERT (p =? PIXEL_STATE_ADJACENT) ;;
      (* Merge coordinates into centroid *)
      let centroidCount := centroidCount s + 1 in
      let rowCentroidSum :=
        Binary64.add (rowCentroidSum s) (Binary64.ofInt row) in
      let colCentroidSum :=
        Binary64.add (colCentroidSum s) (Binary64.ofInt col) in
      m_pixels <- setPixel (pixels s) row col boundaryGroup ;;
      forEach offsets (fun rowOffset s =>
        let rowNeighbor := row + rowOffset in
        if (0 <=? rowNeighbor) && (rowNeighbor <? QVector.count (pixels s))
        then
          forEach offsets (fun colOffset s =>
            let colNeighbor := col + colOffset in
            inside <- inRange colNeighbor (count0 (pixels s)) ;;
            if inside : bool then
              p <- getPixel (pixels s) rowNeighbor colNeighbor ;;
              if p =? PIXEL_STATE_ADJACENT then
                recursiveSearchForAdjacentPixels fuel' boundaryGroup
                  rowNeighbor colNeighbor s
              else Ok s
            else Ok s) s
        else Ok s)
        (mkSearch m_pixels centroidCount rowCentroidSum colCentroidSum)
  end.

(** ** groupContiguousAdjacentPixels *)

Definition groupContiguousAdjacentPixels (this : GridHealer)
  : result GridHealer :=
  forEach (upto (QVector.count (m_pixels this))) (fun row this =>
    w <- count0 (m_pixels this) ;;
    forEach (upto w) (fun col this =>
      p <- getPixel (m_pixels this) row col ;;
      if p =? PIXEL_STATE_ADJACENT then
        s <- recursiveSearchForAdjacentPixels (groupFuel (m_pixels this))
               (m_boundaryGroupNext this) row col
               (mkSearch (m_pixels this) 0 zero zero) ;;
        if 0 <? centroidCount s then
          (* Save the centroid and a representative point *)
          Ok (mkGridHealer
                (m_boundaryGroupNext this + 1)
                (QMap.insert (m_groupNumberToCentroid this)
                   (m_boundaryGroupNext this)
                   (QPointF.mk
                      (Binary64.div (rowCentroidSum s)
                         (Binary64.ofInt (centroidCount s)))
                      (Binary64.div (colCentroidSum s)
                         (Binary64.ofInt (centroidCount s)))))
                (QMap.insert (m_groupNumberToPixel this)
                   (m_boundaryGroupNext this)
                   (QPointF.mk (Binary64.ofInt row) (Binary64.ofInt col)))
                (closeDistance this)
                (pixels s))
        else Ok (with_pixels this (pixels s))
      else Ok this) this) this.

(** ** connectCloseGroups *)

(** The body of the loop on [index]. *)
Definition healPixel (pixelPointFrom pixelPointTo : QPointF.t) (count : Z)
  (index : Z) (st : PixelVector * QImage.t) : result (PixelVector * QImage.t) :=
  let '(m_pixels, imageToHeal) := st in
  (* Replace PIXEL_STATE_REMOVED by PIXEL_STATE_HEALED *)
  let s := Binary64.div (Binary64.ofInt index) (Binary64.ofInt (count - 1)) in
  let xCol :=
    Binary64.toInt
      (Binary64.add
         (Binary64.add Binary64.half
            (Binary64.mul (Binary64.sub (Binary64.ofInt 1) s)
               (QPointF.y pixelPointFrom)))
         (Binary64.mul s (QPointF.y pixelPointTo))) in
  let yRow :=
    Binary64.toInt
      (Binary64.add
         (Binary64.add Binary64.half
            (Binary64.mul (Binary64.sub (Binary64.ofInt 1) s)
               (QPointF.x pixelPointFrom)))
         (Binary64.mul s (QPointF.x pixelPointTo))) in
  m_pixels <- setPixel m_pixels yRow xCol PIXEL_STATE_HEALED ;;
  (* Fill in the pixel *)
  imageToHeal <- QImage.setPixel imageToHeal xCol yRow Qt_black ;;
  Ok (m_pixels, imageToHeal).

(** The body of the loop on [itrTo]. *)
Definition connectPair (closeDistanceSquared : double)
  (posCentroidFrom pixelPointFrom posCentroidTo pixelPointTo : QPointF.t)
  (st : PixelVector * QImage.t) : result (PixelVector * QImage.t) :=
  let separation := QPointF.sub posCentroidFrom posCentroidTo in
  let separationMagnitudeSquared :=
    Binary64.add (Binary64.mul (QPointF.x separation) (QPointF.x separation))
                 (Binary64.mul (QPointF.y separation) (QPointF.y separation))
  in
  if SFltb separationMagnitudeSquared closeDistanceSquared then
    (* Draw line from pixelPointFrom to pixelPointTo *)
    let count :=
      Binary64.toInt
        (Binary64.add (Binary64.ofInt 1)
           (qMax (qAbs (Binary64.sub (QPointF.x pixelPointFrom)
                                     (QPointF.x pixelPointTo)))
                 (qAbs (Binary64.sub (QPointF.y pixelPointFrom)
                                     (QPointF.y pixelPointTo)))))
    in
    if 1 <? count then
      forEach (upto count) (healPixel pixelPointFrom pixelPointTo count) st
    else Ok st
  else Ok st.

Definition connectCloseGroups (this : GridHealer) (imageToHeal : QImage.t)
  : result (GridHealer * QImage.t) :=
  let closeDistanceSquared :=
    Binary64.mul (closeDistance this) (closeDistance this) in
  '(m_pixels, imageToHeal) <-
    forEachTail (m_groupNumberToCentroid this) (fun itrFrom rest st =>
      let groupFrom := fst itrFrom in
      _ <- ENGAUGE_ASSERT (QMap.contains (m_groupNumberToPixel this) groupFrom) ;;
      let posCentroidFrom := snd itrFrom in
      match QMap.value (m_groupNumberToPixel this) groupFrom with
      | None => Err AssertionFailed
      | Some pixelPointFrom =>
          forEach rest (fun itrTo st =>
            let groupTo := fst itrTo in
            _ <- ENGAUGE_ASSERT
                   (QMap.contains (m_groupNumberToPixel this) groupTo) ;;
            let posCentroidTo := snd itrTo in
            match QMap.value (m_groupNumberToPixel this) groupTo with
            | None => Err AssertionFailed
            | Some pixelPointTo =>
                connectPair closeDistanceSquared
                  posCentroidFrom pixelPointFrom posCentroidTo pixelPointTo st
            end) st
      end) (m_pixels this, imageToHeal) ;;
  Ok (with_pixels this m_pixels, imageToHeal).

(** ** heal *)

Definition heal (this : GridHealer) (imageToHeal : QImage.t)
  : result (GridHealer * QImage.t) :=
  this <- groupContiguousAdjacentPixels this ;;
  connectCloseGroups this imageToHeal.

(** ** The vocabulary of the specification, with doubles *)

(** [QPointF (row, col)]. *)
Definition pointOf (p : cell) : QPointF.t :=
  QPointF.mk (Binary64.ofInt (fst p)) (Binary64.ofInt (snd p)).

(** [count], for the line between two anchors. *)
Definition lineCount (pixelPointFrom pixelPointTo : QPointF.t) : Z :=
  Binary64.toInt
    (Binary64.add (Binary64.ofInt 1)
       (qMax (qAbs (Binary64.sub (QPointF.x pixelPointFrom)
                                 (QPointF.x pixelPointTo)))
             (qAbs (Binary64.sub (QPointF.y pixelPointFrom)
                                 (QPointF.y pixelPointTo))))).

(** [(int) (0.5 + (1.0 - s) * from + s * to)]. *)
Definition interpolate (s from to : double) : Z :=
  Binary64.toInt
    (Binary64.add
       (Binary64.add Binary64.half
          (Binary64.mul (Binary64.sub (Binary64.ofInt 1) s) from))
       (Binary64.mul s to)).

(** The pixel [(yRow, xCol)] of the step [index] of the line. *)
Definition linePixel (pixelPointFrom pixelPointTo : QPointF.t) (count : Z)
  (index : Z) : cell :=
  let s := Binary64.div (Binary64.ofInt index) (Binary64.ofInt (count - 1)) in
  (interpolate s (QPointF.x pixelPointFrom) (QPointF.x pixelPointTo),
   interpolate s (QPointF.y pixelPointFrom) (QPointF.y pixelPointTo)).

(** The pixels of the line between two anchors, in the order of the loop. *)
Definition linePixels (pixelPointFrom pixelPointTo : QPointF.t) : list cell :=
  let count := lineCount pixelPointFrom pixelPointTo in
  if 1 <? count
  then map (linePixel pixelPointFrom pixelPointTo count) (upto count)
  else [].

(** [separationMagnitudeSquared], as the program computes it. *)
Definition separationMagnitudeSquared (posCentroidFrom posCentroidTo : QPointF.t)
  : double :=
  let separation := QPointF.sub posCentroidFrom posCentroidTo in
  Binary64.add (Binary64.mul (QPointF.x separation) (QPointF.x separation))
               (Binary64.mul (QPointF.y separation) (QPointF.y separation)).

(** [closeDistanceSquared], as the program computes it. *)
Definition closeDistanceSquared (closeDistance : double) : double :=
  Binary64.mul closeDistance closeDistance.

(** The test of the program on a pair of groups. *)
Definition isClose (closeDistance : double)
  (posCentroidFrom posCentroidTo : QPointF.t) : bool :=
  SFltb (separationMagnitudeSquared posCentroidFrom posCentroidTo)
        (closeDistanceSquared closeDistance).

(** The pixels that [connectCloseGroups] writes for a pair of groups. *)
Definition pairPixels (this : GridHealer) (from to : Z * QPointF.t)
  : list cell :=
  match QMap.value (m_groupNumberToPixel this) (fst from),
        QMap.value (m_groupNumberToPixel this) (fst to) with
  | Some pixelPointFrom, Some pixelPointTo =>
      if isClose (closeDistance this) (snd from) (snd to)
      then linePixels pixelPointFrom pixelPointTo
      else []
  | _, _ => []
  end.

(** The pixels that [connectCloseGroups] writes. *)
Definition healedPixels (this : GridHealer) : list cell :=
  flat_map (fun pr => pairPixels this (fst pr) (snd pr))
           (allPairs (m_groupNumberToCentroid this)).

(** Every group that has a centroid has an anchor, which is a pixel of the
    grid [m]. *)
Definition anchored (this : GridHealer) (m : PixelVector) : Prop :=
  forall e, In e (m_groupNumberToCentroid this) ->
    exists a, QMap.value (m_groupNumberToPixel this) (fst e)
              = Some (pointOf a) /\ inside m a.

(** The invariant of the healer. *)
Record Healthy (this : GridHealer) : Prop := {
  Healthy_rect : rectangular (m_pixels this) = true;
  Healthy_first : BOUNDARY_GROUP_FIRST <= m_boundaryGroupNext this;
  Healthy_sorted : sortedKeys (QMap.keys (m_groupNumberToCentroid this)) = true;
  Healthy_anchor :
    forall e, In e (m_groupNumberToCentroid this) ->
      exists a, QMap.value (m_groupNumberToPixel this) (fst e)
                = Some (pointOf a) /\
                inside (m_pixels this) a /\
                stateAt (m_pixels this) a <> Ok PIXEL_STATE_FOREGROUND /\
                stateAt (m_pixels this) a <> Ok PIXEL_STATE_ADJACENT;
  Healthy_distinct :
    forall e1 e2 a,
      In e1 (m_groupNumberToCentroid this) ->
      In e2 (m_groupNumberToCentroid this) ->
      fst e1 <> fst e2 ->
      QMap.value (m_groupNumberToPixel this) (fst e1) = Some (pointOf a) ->
      QMap.value (m_groupNumberToPixel this) (fst e2) = Some (pointOf a) ->
      False
}.

(** The grid has at most [2 ^ 17] rows and [2 ^ 17] columns: the sums of
    the coordinates of its pixels are doubles without rounding, and the
    rounding of the interpolation of a line is far less than the distance
    between two pixels. *)
Definition small (m : PixelVector) : Prop :=
  QVector.count m <= 2 ^ 17 /\ widthOf m <= 2 ^ 17.

(** The centroid that the grouping computes for the members [l]: the
    quotient of the sum of the rows, and of the columns, by the count. *)
Definition centroidOf (l : list cell) : QPointF.t :=
  QPointF.mk
    (Binary64.div (Binary64.ofInt (total (map fst l)))
                  (Binary64.ofInt (QVector.count l)))
    (Binary64.div (Binary64.ofInt (total (map snd l)))
                  (Binary64.ofInt (QVector.count l))).

(** The region [r] of the pixels of [this0] is recorded in [this]. *)
Record recorded (this0 this : GridHealer) (r : Region) : Prop := {
  recorded_adjacent : adjacentAt (m_pixels this0) (region_anchor r);
  recorded_members :
    forall p, In p (region_members r) <->
              connected (adjacentAt (m_pixels this0)) (region_anchor r) p;
  recorded_NoDup : NoDup (region_members r);
  recorded_state :
    forall p, In p (region_members r) ->
              stateAt (m_pixels this) p = Ok (region_id r);
  recorded_centroid :
    QMap.value (m_groupNumberToCentroid this) (region_id r)
    = Some (centroidOf (region_members r));
  recorded_pixel :
    QMap.value (m_groupNumberToPixel this) (region_id r)
    = Some (pointOf (region_anchor r));
  recorded_first :
    forall p, In p (region_members r) -> scanned_before (region_anchor r) p
}.

(** The state [this] of the grouping that started in the state [this0],
    once the scan is over and has recorded [regions]. *)
Record grouping (this0 : GridHealer) (regions : list Region)
  (this : GridHealer) : Prop := {
  grouping_rect : rectangular (m_pixels this) = true;
  grouping_count :
    QVector.count (m_pixels this) = QVector.count (m_pixels this0);
  grouping_width : widthOf (m_pixels this) = widthOf (m_pixels this0);
  grouping_closeDistance : closeDistance this = closeDistance this0;
  grouping_next :
    m_boundaryGroupNext this
    = m_boundaryGroupNext this0 + QVector.count regions;
  grouping_ids :
    map region_id regions
    = map (fun i => m_boundaryGroupNext this0 + i)
          (upto (QVector.count regions));
  grouping_recorded : forall r, In r regions -> recorded this0 this r;
  grouping_other :
    forall p, (forall r, In r regions -> ~ In p (region_members r)) ->
              stateAt (m_pixels this) p = stateAt (m_pixels this0) p;
  grouping_scanned : forall p, ~ adjacentAt (m_pixels this) p;
  grouping_covers :
    forall p, adjacentAt (m_pixels this0) p ->
              exists r, In r regions /\ In p (region_members r);
  grouping_centroids :
    forall k, ~ In k (map region_id regions) ->
      QMap.value (m_groupNumberToCentroid this) k
      = QMap.value (m_groupNumberToCentroid this0) k;
  grouping_anchors :
    forall k, ~ In k (map region_id regions) ->
      QMap.value (m_groupNumberToPixel this) k
      = QMap.value (m_groupNumberToPixel this0) k;
  grouping_sorted :
    sortedKeys (QMap.keys (m_groupNumberToCentroid this0)) = true ->
    sortedKeys (QMap.keys (m_groupNumberToCentroid this)) = true
}.

(** The states of a healer that its public functions make: the constructor,
    then [erasePixel] on pixels of the grid and [heal] on images that are as
    large as the grid, in any order. *)
Inductive reachable (imageBefore : QImage.t) (modelCloseDistance : double)
  : GridHealer -> Prop :=
| reachable_new this :
    GridHealer_new imageBefore modelCloseDistance = Ok this ->
    reachable imageBefore modelCloseDistance this
| reachable_erasePixel this xCol yRow m_pixels' :
    reachable imageBefore modelCloseDistance this ->
    inside (m_pixels this) (yRow, xCol) ->
    erasePixel xCol yRow (m_pixels this) = Ok m_pixels' ->
    reachable imageBefore modelCloseDistance (with_pixels this m_pixels')
| reachable_heal this imageToHeal this' imageToHeal' :
    reachable imageBefore modelCloseDistance this ->
    fits (m_pixels this) imageToHeal = true ->
    heal this imageToHeal = Ok (this', imageToHeal') ->
    reachable imageBefore modelCloseDistance this'.

End Doubles.

(** The rational number that a double is; 0 for the infinities and NaN. *)
Definition valueOf (d : Doubles.double) : Q :=
  match d with
  | S754_finite s m e =>
      ((if s then -1 else 1) * inject_Z (Zpos m) * 2 ^ e)%Q
  | _ => 0%Q
  end.

(** The double is zero or finite: neither an infinity nor NaN. *)
Definition isFinite (d : Doubles.double) : bool :=
  match d with
  | S754_zero _ | S754_finite _ _ _ => true
  | _ => false
  end.

(** [DBL_EPSILON], the distance from 1 to the next double, and
    [DBL_TRUE_MIN], the least positive double. *)
Definition DBL_EPSILON : Q := 2 ^ (-52).
Definition DBL_TRUE_MIN : Q := 2 ^ (-1074).

(** [-1] for a negative sign. *)
Definition signOf (s : bool) : Q := if s then (-1)%Q else 1%Q.

(** ** The two embeddings, side by side *)

(** A sum of the search in the two embeddings: the same integer, which is
    a double without rounding when it has at most 53 digits. *)
Definition simSum (q : Q) (d : Doubles.double) : Prop :=
  exists z, 0 <= z /\ q = inject_Z z /\ (z < 2 ^ 53 -> d = Binary64.ofInt z).

Record simSearch (sq : Search) (sd : Doubles.Search) : Prop := {
  simSearch_pixels : pixels sq = Doubles.pixels sd;
  simSearch_count : centroidCount sq = Doubles.centroidCount sd;
  simSearch_rows : simSum (rowCentroidSum sq) (Doubles.rowCentroidSum sd);
  simSearch_cols : simSum (colCentroidSum sq) (Doubles.colCentroidSum sd)
}.

(** Two results: the same error, or two values that [R] relates. *)
Definition simResult {A B} (R : A -> B -> Prop)
  (rq : result A) (rd : result B) : Prop :=
  match rq, rd with
  | Ok a, Ok b => R a b
  | Err e, Err e' => e = e'
  | _, _ => False
  end.

(** The healer with rationals that has the pixels and the next group
    number of a healer with doubles, and no group. *)
Definition shadow (this : Doubles.GridHealer) : GridHealer :=
  mkGridHealer (Doubles.m_boundaryGroupNext this) [] [] 0
    (Doubles.m_pixels this).

(** The states of the grouping in the two embeddings, from [shadow this0]
    and from [this0]. *)
Record agree (this0 : Doubles.GridHealer) (thisQ : GridHealer)
  (thisD : Doubles.GridHealer) : Prop := {
  agree_pixels : m_pixels thisQ = Doubles.m_pixels thisD;
  agree_next : m_boundaryGroupNext thisQ = Doubles.m_boundaryGroupNext thisD;
  agree_first :
    Doubles.m_boundaryGroupNext this0 <= Doubles.m_boundaryGroupNext thisD;
  agree_closeDistance :
    Doubles.closeDistance thisD = Doubles.closeDistance this0;
  agree_anchors :
    forall k c,
      Doubles.m_boundaryGroupNext this0 <= k
      < Doubles.m_boundaryGroupNext thisD ->
      QMap.value (m_groupNumberToPixel thisQ) k = Some (pointOf c) ->
      Doubles.QMap.value (Doubles.m_groupNumberToPixel thisD) k
      = Some (Doubles.pointOf c);
  agree_centroids :
    forall k zr zc n,
      Doubles.m_boundaryGroupNext this0 <= k
      < Doubles.m_boundaryGroupNext thisD ->
      0 < n ->
      QMap.value (m_groupNumberToCentroid thisQ) k
      = Some (QPointF.mk (inject_Z zr / inject_Z n)
                         (inject_Z zc / inject_Z n)) ->
      zr < 2 ^ 53 -> zc < 2 ^ 53 ->
      Doubles.QMap.value (Doubles.m_groupNumberToCentroid thisD) k
      = Some (Doubles.QPointF.mk
                (Binary64.div (Binary64.ofInt zr) (Binary64.ofInt n))
                (Binary64.div (Binary64.ofInt zc) (Binary64.ofInt n)));
  agree_old_centroids :
    forall k,
      ~ (Doubles.m_boundaryGroupNext this0 <= k
         < Doubles.m_boundaryGroupNext thisD) ->
      Doubles.QMap.value (Doubles.m_groupNumberToCentroid thisD) k
      = Doubles.QMap.value (Doubles.m_groupNumberToCentroid this0) k;
  agree_old_anchors :
    forall k,
      ~ (Doubles.m_boundaryGroupNext this0 <= k
         < Doubles.m_boundaryGroupNext thisD) ->
      Doubles.QMap.value (Doubles.m_groupNumberToPixel thisD) k
      = Doubles.QMap.value (Doubles.m_groupNumberToPixel this0) k;
  agree_sorted :
    sortedKeys (Doubles.QMap.keys (Doubles.m_groupNumberToCentroid this0))
    = true ->
    sortedKeys (Doubles.QMap.keys (Doubles.m_groupNumberToCentroid thisD))
    = true
}.

(** The pixels of a grid, by rows. *)
Definition cellsOf (m : PixelVector) : list cell :=
  flat_map (fun row => map (pair row) (upto (widthOf m)))
           (upto (QVector.count m)).

(** ** The invariant of the healer, as a boolean *)

Definition double_eq_dec (x y : Doubles.double) : {x = y} + {x <> y}.
Proof.
  unfold Doubles.double, Binary64.double.
  decide equality; try apply Bool.bool_dec;
    try apply Pos.eq_dec; apply Z.eq_dec.
Defined.

Definition double_eqb (x y : Doubles.double) : bool :=
  if double_eq_dec x y then true else false.

(** The pixel of an anchor. *)
Definition cellOf (a : Doubles.QPointF.t) : cell :=
  (Binary64.toInt (Doubles.QPointF.x a), Binary64.toInt (Doubles.QPointF.y a)).

(** [a] is the point of a pixel of the grid. *)
Definition isAnchor_double (m : PixelVector) (a : Doubles.QPointF.t) : bool :=
  double_eqb (Doubles.QPointF.x a) (Binary64.ofInt (fst (cellOf a)))
  && double_eqb (Doubles.QPointF.y a) (Binary64.ofInt (snd (cellOf a)))
  && (0 <=? fst (cellOf a)) && (fst (cellOf a) <? QVector.count m)
  && (0 <=? snd (cellOf a)) && (snd (cellOf a) <? widthOf m).

(** The pixel of [a] is neither foreground nor adjacent. *)
Definition isSettled_double (m : PixelVector) (a : Doubles.QPointF.t) : bool :=
  match stateAt m (cellOf a) with
  | Ok v => negb (v =? PIXEL_STATE_FOREGROUND)
            && negb (v =? PIXEL_STATE_ADJACENT)
  | Err _ => false
  end.

Definition healthy_double (this : Doubles.GridHealer) : bool :=
  rectangular (Doubles.m_pixels this)
  && (BOUNDARY_GROUP_FIRST <=? Doubles.m_boundaryGroupNext this)
  && sortedKeys (Doubles.QMap.keys (Doubles.m_groupNumberToCentroid this))
  && forallb (fun e =>
                match Doubles.QMap.value (Doubles.m_groupNumberToPixel this)
                        (fst e) with
                | Some a => isAnchor_double (Doubles.m_pixels this) a
                            && isSettled_double (Doubles.m_pixels this) a
                | None => false
                end)
             (Doubles.m_groupNumberToCentroid this)
  && forallb (fun pr =>
                match Doubles.QMap.value (Doubles.m_groupNumberToPixel this)
                        (fst (fst pr)),
                      Doubles.QMap.value (Doubles.m_groupNumberToPixel this)
                        (fst (snd pr))
                with
                | Some a, Some b =>
                    negb ((fst (cellOf a) =? fst (cellOf b))
                          && (snd (cellOf a) =? snd (cellOf b)))
                | _, _ => false
                end)
             (allPairs (Doubles.m_groupNumberToCentroid this)).

(** ** The distance of two centroids, without rounding *)

(** The squared Euclidean distance between the points that two centroids
    are, as a rational number. *)
Definition exactDistanceSquared (c1 c2 : Doubles.QPointF.t) : Q :=
  ((valueOf (Doubles.QPointF.x c1) - valueOf (Doubles.QPointF.x c2))
   * (valueOf (Doubles.QPointF.x c1) - valueOf (Doubles.QPointF.x c2))
   + (valueOf (Doubles.QPointF.y c1) - valueOf (Doubles.QPointF.y c2))
     * (valueOf (Doubles.QPointF.y c1) - valueOf (Doubles.QPointF.y c2)))%Q.

(** ** Healers with doubles for the examples *)

Definition white : QRgb := 16777215.

(** An image of 5 x 2 pixels, black at (0,0) and (1,4); its healer with the
    close distance 4.123105625617661, the double that is nearest to the
    square root of 17, once the pixels (0,1) and (1,3) are erased; the
    healer after the grouping. *)
Definition image5x2 : QImage.t :=
  QImage.mk 5 2 (fun x y =>
    if ((y =? 0) && (x =? 0)) || ((y =? 1) && (x =? 4)) then 0 else white).

Definition closeDistance17 : Doubles.double :=
  S754_finite false 4642204239785223 (-50).

Definition healer5x2 : Doubles.GridHealer :=
  Doubles.mkGridHealer BOUNDARY_GROUP_FIRST [] [] closeDistance17
    [[2; 3; 0; 0; 0]; [0; 0; 0; 3; 2]].

Definition grouped5x2 : Doubles.GridHealer :=
  Doubles.mkGridHealer (BOUNDARY_GROUP_FIRST + 2)
    [(BOUNDARY_GROUP_FIRST, Doubles.pointOf (0, 0));
     (BOUNDARY_GROUP_FIRST + 1, Doubles.pointOf (1, 4))]
    [(BOUNDARY_GROUP_FIRST, Doubles.pointOf (0, 0));
     (BOUNDARY_GROUP_FIRST + 1, Doubles.pointOf (1, 4))]
    closeDistance17
    [[BOUNDARY_GROUP_FIRST; 3; 0; 0; 0];
     [0; 0; 0; 3; BOUNDARY_GROUP_FIRST + 1]].




(** An image of 4 x 4 pixels, black at (0,0), (2,2), (2,3) and (3,3); its
    healer with the close distance 1 after the pixel (0,1) is erased and a
    first call of [heal]; this healer once the pixel (3,2) is erased. *)
Definition image4x4 : QImage.t :=
  QImage.mk 4 4 (fun x y =>
    if ((y =? 0) && (x =? 0)) || ((y =? 2) && ((x =? 2) || (x =? 3)))
       || ((y =? 3) && (x =? 3)) then 0 else white).

Definition healed4x4 : Doubles.GridHealer :=
  Doubles.mkGridHealer (BOUNDARY_GROUP_FIRST + 1)
    [(BOUNDARY_GROUP_FIRST, Doubles.pointOf (0, 0))]
    [(BOUNDARY_GROUP_FIRST, Doubles.pointOf (0, 0))]
    (Binary64.ofInt 1)
    [[BOUNDARY_GROUP_FIRST; 3; 0; 0]; [0; 0; 0; 0]; [0; 0; 1; 1];
     [0; 0; 0; 1]].

Definition erased4x4 : Doubles.GridHealer :=
  Doubles.with_pixels healed4x4
    [[BOUNDARY_GROUP_FIRST; 3; 0; 0]; [0; 0; 0; 0]; [0; 0; 2; 2];
     [0; 0; 3; 2]].

(** The adjacent pixels of a grid, by rows. *)
Definition adjacentCells (m : PixelVector) : list cell :=
  filter (fun p => match stateAt m p with
                   | Ok v => v =? PIXEL_STATE_ADJACENT
                   | Err _ => false
                   end) (cellsOf m).

(** The grid of 5 x 5 pixels of the examples above, with doubles. *)
Definition doubleHealer5x5 (closeDistance : Doubles.double)
  : Doubles.GridHealer :=
  Doubles.mkGridHealer BOUNDARY_GROUP_FIRST [] [] closeDistance grid5x5.

Definition unwrapDouble (this : Doubles.GridHealer)
  (r : result Doubles.GridHealer) : Doubles.GridHealer :=
  match r with
  | Ok this' => this'
  | Err _ => this
  end.

Definition doubleGrouped5x5 (closeDistance : Doubles.double)
  : Doubles.GridHealer :=
  unwrapDouble (doubleHealer5x5 closeDistance)
    (Doubles.groupContiguousAdjacentPixels (doubleHealer5x5 closeDistance)).


(** ** The vocabulary of the rounding *)

Definition shifted (k : Z) (r0 r1 : shr_record) : Prop :=
  shr_m r1 = shr_m r0 / 2 ^ k /\
  (loc_of_shr_record r0 = loc_Exact -> shr_m r0 mod 2 ^ k = 0 ->
   loc_of_shr_record r1 = loc_Exact).

(** The double of an integer of at most 53 digits. *)
Definition integerDouble (z : Z) : Doubles.double :=
  match z with
  | Z0 => S754_zero false
  | Zpos c =>
      S754_finite false
        (Z.to_pos (Zpos c * 2 ^ (53 - Zpos (digits2_pos c))))
        (Zpos (digits2_pos c) - 53)
  | Zneg c =>
      S754_finite true
        (Z.to_pos (Zpos c * 2 ^ (53 - Zpos (digits2_pos c))))
        (Zpos (digits2_pos c) - 53)
  end.

(** An image of 3 x 3 pixels with a black line in the middle row, its
    healer with a close distance of 3, the healer once the pixel in the
    middle is erased, and once it is healed. *)
Definition imageLine3x3 : QImage.t :=
  QImage.mk 3 3 (fun x y => if y =? 1 then 0 else 16777215).

Definition line3x3 : GridHealer :=
  mkGridHealer BOUNDARY_GROUP_FIRST [] [] 3 [[0; 0; 0]; [1; 1; 1]; [0; 0; 0]].

Definition cut3x3 : GridHealer :=
  with_pixels line3x3 [[0; 0; 0]; [2; 3; 2]; [0; 0; 0]].

Definition mended3x3 : GridHealer :=
  mkGridHealer (BOUNDARY_GROUP_FIRST + 2)
    [(BOUNDARY_GROUP_FIRST, QPointF.mk 1 0);
     (BOUNDARY_GROUP_FIRST + 1, QPointF.mk 1 2)]
    [(BOUNDARY_GROUP_FIRST, QPointF.mk 1 0);
     (BOUNDARY_GROUP_FIRST + 1, QPointF.mk 1 2)]
    3 [[0; 0; 0]; [4; 4; 4]; [0; 0; 0]].

(* ================================================================== *)
(** * Lemmas on the monad and the loops *)

Lemma bind_Ok {A B} (m : result A) (k : A -> result B) b :
  bind m k = Ok b -> exists a, m = Ok a /\ k a = Ok b.
Proof. destruct m; simpl; intros H; [eauto | discriminate]. Qed.

Lemma forEach_app {A S} (l1 l2 : list A) (body : A -> S -> result S) s :
  forEach (l1 ++ l2) body s = (s' <- forEach l1 body s ;; forEach l2 body s').
Proof.
  revert s; induction l1 as [|a l1 IH]; intros s; simpl; [reflexivity|].
  destruct (body a s); simpl; auto.
Qed.

(** A loop invariant [I done s], where [done] is the list of the values
    that the loop has been through. *)
Lemma forEach_invariant {A S} (I : list A -> S -> Prop)
  (body : A -> S -> result S) (l : list A) :
  (forall done a s, I done s -> In a l ->
     exists s', body a s = Ok s' /\ I (done ++ [a]) s') ->
  forall s, I [] s -> exists s', forEach l body s = Ok s' /\ I l s'.
Proof.
  intros Hbody.
  assert (G : forall rest done s, (forall a, In a rest -> In a l) ->
            I done s ->
            exists s', forEach rest body s = Ok s' /\ I (done ++ rest) s').
  { induction rest as [|a rest IH]; intros done s Hin HI; simpl.
    - exists s; rewrite app_nil_r; auto.
    - destruct (Hbody done a s HI) as (s1 & E1 & I1); [apply Hin; left; auto|].
      rewrite E1; simpl.
      destruct (IH (done ++ [a]) s1) as (s2 & E2 & I2); auto.
      { intros; apply Hin; right; auto. }
      exists s2; split; auto. rewrite <- app_assoc in I2; exact I2. }
  intros s HI. apply (G l [] s); auto.
Qed.

Lemma In_upto n i : In i (upto n) <-> 0 <= i < n.
Proof.
  unfold upto. rewrite in_map_iff. split.
  - intros (k & <- & Hk). apply in_seq in Hk. lia.
  - intros Hi. exists (Z.to_nat i). split; [lia|]. apply in_seq. lia.
Qed.

Lemma upto_succ n : 0 <= n -> upto (n + 1) = upto n ++ [n].
Proof.
  intros Hn. unfold upto.
  replace (Z.to_nat (n + 1)) with (Z.to_nat n + 1)%nat by lia.
  rewrite seq_app, map_app. simpl. f_equal. f_equal. lia.
Qed.

(* ================================================================== *)
(** * Lemmas on vectors *)

Lemma at_Ok {A} (v : list A) i a :
  QVector.at_ v i = Ok a <->
  0 <= i < QVector.count v /\ nth_error v (Z.to_nat i) = Some a.
Proof.
  unfold QVector.at_.
  destruct (0 <=? i) eqn:E1; destruct (i <? QVector.count v) eqn:E2; simpl;
    try (split; [discriminate | lia]).
  destruct (nth_error v (Z.to_nat i)) eqn:E3.
  - split; [intros [= ->]; split; [lia | auto] | intros [_ [= ->]]; auto].
  - split; [discriminate | intros [_ H]; discriminate].
Qed.

Lemma at_inside {A} (v : list A) i :
  0 <= i < QVector.count v -> exists a, QVector.at_ v i = Ok a.
Proof.
  intros Hi. destruct (nth_error v (Z.to_nat i)) eqn:E.
  - exists a. apply at_Ok; auto.
  - apply nth_error_None in E. unfold QVector.count in Hi. lia.
Qed.

Lemma at_In {A} (v : list A) i a : QVector.at_ v i = Ok a -> In a v.
Proof. intros H. apply at_Ok in H. eapply nth_error_In; apply H. Qed.

Lemma length_replace {A} (v : list A) n a :
  length (QVector.replace v n a) = length v.
Proof.
  revert n; induction v as [|b v IH]; intros [|n]; simpl; auto.
Qed.

Lemma nth_error_replace_same {A} (v : list A) n a :
  (n < length v)%nat -> nth_error (QVector.replace v n a) n = Some a.
Proof.
  revert n; induction v as [|b v IH]; intros [|n]; simpl; intros H;
    try lia; auto. apply IH; lia.
Qed.

Lemma nth_error_replace_other {A} (v : list A) n k a :
  n <> k -> nth_error (QVector.replace v n a) k = nth_error v k.
Proof.
  revert n k; induction v as [|b v IH]; intros [|n] [|k] H; simpl; auto.
  congruence.
Qed.

Lemma In_replace {A} (v : list A) n a b :
  In b (QVector.replace v n a) -> b = a \/ In b v.
Proof.
  revert n; induction v as [|c v IH]; intros [|n]; simpl; auto.
  - intros [H|H]; auto.
  - intros [H|H]; auto. destruct (IH _ H); auto.
Qed.

Lemma assign_Ok {A} (v v' : list A) i a :
  QVector.assign v i a = Ok v' ->
  0 <= i < QVector.count v /\ v' = QVector.replace v (Z.to_nat i) a.
Proof.
  unfold QVector.assign.
  destruct (0 <=? i) eqn:E1; destruct (i <? QVector.count v) eqn:E2; simpl;
    try discriminate.
  intros [= <-]. split; [lia | auto].
Qed.

Lemma assign_inside {A} (v : list A) i a :
  0 <= i < QVector.count v ->
  QVector.assign v i a = Ok (QVector.replace v (Z.to_nat i) a).
Proof.
  intros Hi. unfold QVector.assign.
  destruct (0 <=? i) eqn:E1; destruct (i <? QVector.count v) eqn:E2; simpl;
    auto; lia.
Qed.

Lemma count_replace {A} (v : list A) n a :
  QVector.count (QVector.replace v n a) = QVector.count v.
Proof. unfold QVector.count. rewrite length_replace. reflexivity. Qed.

Lemma at_replace_same {A} (v : list A) i a :
  0 <= i < QVector.count v ->
  QVector.at_ (QVector.replace v (Z.to_nat i) a) i = Ok a.
Proof.
  intros Hi. apply at_Ok. rewrite count_replace. split; auto.
  apply nth_error_replace_same. unfold QVector.count in Hi. lia.
Qed.

Lemma at_replace_other {A} (v : list A) i j a :
  0 <= i -> i <> j ->
  QVector.at_ (QVector.replace v (Z.to_nat i) a) j = QVector.at_ v j.
Proof.
  intros Hi Hij. unfold QVector.at_. rewrite count_replace.
  destruct ((0 <=? j) && (j <? QVector.count v)) eqn:E; auto.
  rewrite nth_error_replace_other; auto.
  apply andb_true_iff in E. destruct E as [E1 E2]. lia.
Qed.

(* ================================================================== *)
(** * Lemmas on the grid of pixels *)

Lemma rectangular_rows m r :
  rectangular m = true -> In r m -> QVector.count r = widthOf m.
Proof.
  unfold rectangular. rewrite forallb_forall. intros H Hr.
  apply Z.eqb_eq. auto.
Qed.

Lemma stateAt_Ok_inside m p v :
  rectangular m = true -> stateAt m p = Ok v -> inside m p.
Proof.
  unfold stateAt, getPixel, inside. intros Hrect H.
  apply bind_Ok in H. destruct H as (r & Hr & Hc).
  pose proof (at_In _ _ _ Hr) as Hin.
  apply at_Ok in Hr. apply at_Ok in Hc.
  rewrite <- (rectangular_rows m r); tauto.
Qed.

Lemma stateAt_inside m p :
  rectangular m = true -> inside m p -> exists v, stateAt m p = Ok v.
Proof.
  unfold stateAt, getPixel, inside. intros Hrect [Hr Hc].
  destruct (at_inside m (fst p) Hr) as (r & Er). rewrite Er. simpl.
  apply at_inside. rewrite (rectangular_rows m r); auto.
  eapply at_In; eauto.
Qed.

Lemma count0_inside m p :
  inside m p -> count0 m = Ok (widthOf m).
Proof.
  unfold inside, count0. intros [Hr _].
  destruct m as [|r m]; [unfold QVector.count in Hr; simpl in Hr; lia|].
  reflexivity.
Qed.

Lemma count0_rows m :
  0 < QVector.count m -> count0 m = Ok (widthOf m).
Proof.
  unfold count0. intros Hr.
  destruct m as [|r m]; [unfold QVector.count in Hr; simpl in Hr; lia|].
  reflexivity.
Qed.

Lemma widthOf_replace (m : PixelVector) n r' :
  (forall r, nth_error m n = Some r -> QVector.count r' = QVector.count r) ->
  widthOf (QVector.replace m n r') = widthOf m.
Proof.
  destruct m as [|r m]; destruct n; simpl; auto.
Qed.

Lemma setPixel_Ok m m' p v :
  rectangular m = true ->
  setPixel m (fst p) (snd p) v = Ok m' -> written m m' p v.
Proof.
  intros Hrect H. unfold setPixel in H.
  apply bind_Ok in H. destruct H as (r & Hr & H).
  apply bind_Ok in H. destruct H as (r' & Hr' & H).
  apply assign_Ok in Hr'. destruct Hr' as [Hc ->].
  apply assign_Ok in H. destruct H as [Hrow ->].
  pose proof (at_In _ _ _ Hr) as Hin.
  apply at_Ok in Hr. destruct Hr as [_ Hnth].
  assert (Hw : widthOf (QVector.replace m (Z.to_nat (fst p))
                          (QVector.replace r (Z.to_nat (snd p)) v))
               = widthOf m).
  { apply widthOf_replace. intros r0 E. rewrite Hnth in E.
    injection E as <-. apply count_replace. }
  split.
  - unfold rectangular. apply forallb_forall. intros r0 H0.
    apply Z.eqb_eq. rewrite Hw.
    apply In_replace in H0. destruct H0 as [-> | H0].
    + rewrite count_replace. apply rectangular_rows; auto.
    + apply rectangular_rows; auto.
  - apply count_replace.
  - exact Hw.
  - unfold stateAt, getPixel. rewrite at_replace_same by auto. simpl.
    apply at_replace_same; auto.
  - intros [qr qc] Hq. unfold stateAt, getPixel. simpl.
    destruct (Z.eq_dec (fst p) qr) as [E|E].
    + subst qr. rewrite at_replace_same by auto. simpl.
      assert (Hr0 : QVector.at_ m (fst p) = Ok r) by (apply at_Ok; auto).
      rewrite Hr0. simpl. apply at_replace_other; [lia|].
      intros E. apply Hq. destruct p; simpl in *; congruence.
    + rewrite at_replace_other by (auto; lia). reflexivity.
Qed.

Lemma setPixel_inside m p v :
  rectangular m = true -> inside m p ->
  exists m', setPixel m (fst p) (snd p) v = Ok m'.
Proof.
  intros Hrect [Hr Hc]. unfold setPixel.
  destruct (at_inside m (fst p) Hr) as (r & Er). rewrite Er. simpl.
  rewrite assign_inside.
  - simpl. rewrite assign_inside by auto. eauto.
  - rewrite (rectangular_rows m r); auto. eapply at_In; eauto.
Qed.

Lemma inside_written m m' p v q :
  written m m' p v -> inside m' q <-> inside m q.
Proof.
  intros W. unfold inside.
  rewrite (written_count _ _ _ _ W), (written_width _ _ _ _ W). tauto.
Qed.

(** The guards of the loops on the neighbours. *)
Lemma rowGuard_spec (m : PixelVector) i :
  (0 <=? i) && (i <? QVector.count m) = true <-> 0 <= i < QVector.count m.
Proof. rewrite andb_true_iff. lia. Qed.

Lemma inRange_spec m row col :
  0 <= row < QVector.count m ->
  inRange col (count0 m) = Ok ((0 <=? col) && (col <? widthOf m)).
Proof.
  intros Hrow. unfold inRange. rewrite count0_rows by lia.
  destruct (0 <=? col); reflexivity.
Qed.

(* ================================================================== *)
(** * erasePixel *)

Lemma touching_window p q : touching p q <-> In q (window p).
Proof.
  unfold touching, window, windowRow, offsets.
  destruct p as [r c], q as [r' c']. simpl.
  split.
  - intros [H1 H2].
    assert (Hr : r' = r + -1 \/ r' = r + 0 \/ r' = r + 1) by lia.
    assert (Hc : c' = c + -1 \/ c' = c + 0 \/ c' = c + 1) by lia.
    destruct Hr as [-> | [-> | ->]]; destruct Hc as [-> | [-> | ->]]; tauto.
  - intros H.
    repeat (destruct H as [H|H]; [injection H as <- <-; lia|]).
    destruct H.
Qed.

Lemma result_Z_dec (a b : result Z) : a = b \/ a <> b.
Proof.
  destruct a as [a|[]], b as [b|[]];
    try (right; discriminate); try (left; reflexivity).
  destruct (Z.eq_dec a b) as [->|H]; [left; auto | right; congruence].
Qed.

Lemma erasing_ext m t (D D' : list cell) cur :
  (forall q, In q D <-> In q D') -> erasing m t D cur -> erasing m t D' cur.
Proof.
  intros HD [H1 H2 H3 H4 H5 H6]. split; auto.
  - intros q Hq Hd. apply H5; auto. apply HD; auto.
  - intros q Hq Hd. apply H6; auto. rewrite HD. exact Hd.
Qed.

Lemma erasing_inside m t D cur q :
  erasing m t D cur -> inside cur q <-> inside m q.
Proof.
  intros E. unfold inside.
  rewrite (erasing_count _ _ _ _ E), (erasing_width _ _ _ _ E). tauto.
Qed.

Lemma erasing_foreground m t D cur q :
  erasing m t D cur -> q <> t ->
  stateAt cur q = Ok PIXEL_STATE_FOREGROUND ->
  stateAt m q = Ok PIXEL_STATE_FOREGROUND /\ ~ In q D.
Proof.
  intros E Hq Hcur.
  destruct (result_Z_dec (stateAt m q) (Ok PIXEL_STATE_FOREGROUND)) as [Hm|Hm].
  - split; auto. intros Hin.
    rewrite (erasing_done _ _ _ _ E q Hq Hin Hm) in Hcur. discriminate.
  - exfalso. apply Hm. rewrite <- (erasing_rest _ _ _ _ E q Hq); tauto.
Qed.

(** The loops reach a pixel inside of the grid. *)
Lemma erase_cell m t D cur c :
  erasing m t D cur -> inside cur c ->
  exists cur',
    (p <- getPixel cur (fst c) (snd c) ;;
     if p =? PIXEL_STATE_FOREGROUND then
       setPixel cur (fst c) (snd c) PIXEL_STATE_ADJACENT
     else Ok cur) = Ok cur' /\
    erasing m t (D ++ [c]) cur'.
Proof.
  intros E Hc.
  pose proof (erasing_rect _ _ _ _ E) as Hrect.
  destruct (stateAt_inside cur c Hrect Hc) as (v & Ev).
  unfold stateAt in Ev. rewrite Ev. simpl. fold (stateAt cur c) in Ev.
  destruct (v =? PIXEL_STATE_FOREGROUND) eqn:Efg.
  - apply Z.eqb_eq in Efg. subst v.
    destruct (setPixel_inside cur c PIXEL_STATE_ADJACENT Hrect Hc)
      as (cur' & Eset).
    exists cur'. split; auto.
    pose proof (setPixel_Ok _ _ _ _ Hrect Eset) as W.
    assert (Hct : c <> t).
    { intros ->. rewrite (erasing_target _ _ _ _ E) in Ev. discriminate. }
    destruct (erasing_foreground _ _ _ _ _ E Hct Ev) as [Hmc _].
    split.
    + apply (written_rect _ _ _ _ W).
    + rewrite (written_count _ _ _ _ W). apply (erasing_count _ _ _ _ E).
    + rewrite (written_width _ _ _ _ W). apply (erasing_width _ _ _ _ E).
    + rewrite (written_other _ _ _ _ W) by auto.
      apply (erasing_target _ _ _ _ E).
    + intros q Hq Hd Hfg. destruct (cell_eq_dec q c) as [->|Hqc].
      * apply (written_same _ _ _ _ W).
      * rewrite (written_other _ _ _ _ W) by auto.
        apply (erasing_done _ _ _ _ E); auto.
        apply in_app_or in Hd. destruct Hd as [Hd|[Hd|[]]]; congruence.
    + intros q Hq Hd. destruct (cell_eq_dec q c) as [->|Hqc].
      * exfalso. apply Hd. split; auto. apply in_or_app. right. left. auto.
      * rewrite (written_other _ _ _ _ W) by auto.
        apply (erasing_rest _ _ _ _ E); auto.
        intros [H1 H2]. apply Hd. split; auto. apply in_or_app. auto.
  - exists cur. split; auto. apply Z.eqb_neq in Efg.
    split; try apply E.
    + intros q Hq Hd Hfg. apply in_app_or in Hd.
      destruct Hd as [Hd|[<-|[]]]; [apply (erasing_done _ _ _ _ E); auto|].
      destruct (in_dec cell_eq_dec c D) as [Hin|Hin].
      * apply (erasing_done _ _ _ _ E); auto.
      * exfalso. rewrite (erasing_rest _ _ _ _ E c Hq) in Ev by tauto.
        congruence.
    + intros q Hq Hd. apply (erasing_rest _ _ _ _ E); auto.
      intros [H1 H2]. apply Hd. split; auto. apply in_or_app. auto.
Qed.

(** The loops skip a pixel outside of the grid. *)
Lemma erase_skip m t D cur c :
  rectangular m = true -> erasing m t D cur -> ~ inside m c ->
  erasing m t (D ++ [c]) cur.
Proof.
  intros Hm E Hc. split; try apply E.
  - intros q Hq Hd Hfg. apply in_app_or in Hd.
    destruct Hd as [Hd|[<-|[]]]; [apply (erasing_done _ _ _ _ E); auto|].
    exfalso. apply Hc. eapply stateAt_Ok_inside; eauto.
  - intros q Hq Hd. apply (erasing_rest _ _ _ _ E); auto.
    intros [H1 H2]. apply Hd. split; auto. apply in_or_app. auto.
Qed.

Lemma erase_skip_all m t D cur L :
  rectangular m = true -> erasing m t D cur ->
  (forall c, In c L -> ~ inside m c) ->
  erasing m t (D ++ L) cur.
Proof.
  intros Hm E HL. split; try apply E.
  - intros q Hq Hd Hfg. apply in_app_or in Hd.
    destruct Hd as [Hd|Hd]; [apply (erasing_done _ _ _ _ E); auto|].
    exfalso. apply (HL q Hd). eapply stateAt_Ok_inside; eauto.
  - intros q Hq Hd. apply (erasing_rest _ _ _ _ E); auto.
    intros [H1 H2]. apply Hd. split; auto. apply in_or_app. auto.
Qed.

(** One round of the loop on [rowOffset]. *)
Lemma erase_row m xCol yRow D cur rowOffset :
  rectangular m = true -> erasing m (yRow, xCol) D cur ->
  exists cur',
    (let rowSearch := yRow + rowOffset in
     if (0 <=? rowSearch) && (rowSearch <? QVector.count cur) then
       forEach offsets (fun colOffset m_pixels =>
         let colSearch := xCol + colOffset in
         inside <- inRange colSearch (count0 m_pixels) ;;
         if inside : bool then
           p <- getPixel m_pixels rowSearch colSearch ;;
           if p =? PIXEL_STATE_FOREGROUND then
             setPixel m_pixels rowSearch colSearch PIXEL_STATE_ADJACENT
           else Ok m_pixels
         else Ok m_pixels) cur
     else Ok cur) = Ok cur' /\
    erasing m (yRow, xCol) (D ++ windowRow (yRow, xCol) rowOffset) cur'.
Proof.
  intros Hm E. cbv zeta.
  destruct ((0 <=? yRow + rowOffset)
            && (yRow + rowOffset <? QVector.count cur)) eqn:G.
  - apply rowGuard_spec in G.
    apply (forEach_invariant
             (fun doneCols s =>
                erasing m (yRow, xCol)
                  (D ++ map (fun colOffset =>
                               (yRow + rowOffset, xCol + colOffset)) doneCols)
                  s)).
    + intros done colOffset s Es _.
      rewrite (inRange_spec s (yRow + rowOffset))
        by (rewrite (erasing_count _ _ _ _ Es),
              <- (erasing_count _ _ _ _ E); exact G).
      simpl. rewrite map_app, app_assoc. simpl.
      destruct ((0 <=? xCol + colOffset) && (xCol + colOffset <? widthOf s))
        eqn:Gc.
      * apply (erase_cell m (yRow, xCol) _ s
                 (yRow + rowOffset, xCol + colOffset)); auto.
        split; simpl.
        -- rewrite (erasing_count _ _ _ _ Es), <- (erasing_count _ _ _ _ E).
           exact G.
        -- apply andb_true_iff in Gc. lia.
      * exists s. split; auto. apply erase_skip; auto.
        rewrite <- (erasing_inside _ _ _ _ _ Es). unfold inside. simpl.
        apply andb_false_iff in Gc. lia.
    + simpl. rewrite app_nil_r. exact E.
  - exists cur. split; auto. apply erase_skip_all; auto.
    intros c Hc. unfold windowRow in Hc. apply in_map_iff in Hc.
    destruct Hc as (co & <- & _). unfold inside. simpl.
    rewrite <- (erasing_count _ _ _ _ E).
    apply andb_false_iff in G. lia.
Qed.

Lemma erasing_start m m1 t :
  rectangular m = true ->
  setPixel m (fst t) (snd t) PIXEL_STATE_REMOVED = Ok m1 ->
  erasing m t [] m1.
Proof.
  intros Hm H. pose proof (setPixel_Ok _ _ _ _ Hm H) as W.
  destruct W as [W1 W2 W3 W4 W5]. split; auto.
  intros q Hq [].
Qed.

Lemma erasePixel_erasing m xCol yRow :
  rectangular m = true -> inside m (yRow, xCol) ->
  exists m', erasePixel xCol yRow m = Ok m' /\
             erasing m (yRow, xCol) (window (yRow, xCol)) m'.
Proof.
  intros Hm Ht. unfold erasePixel.
  destruct (setPixel_inside m (yRow, xCol) PIXEL_STATE_REMOVED Hm Ht)
    as (m1 & E1).
  simpl in E1. rewrite E1. cbn [bind]. unfold window.
  apply (forEach_invariant
           (fun doneRows s =>
              erasing m (yRow, xCol)
                (flat_map (windowRow (yRow, xCol)) doneRows) s)).
  - intros done rowOffset s Es _.
    rewrite flat_map_app. cbn [flat_map]. rewrite app_nil_r.
    apply (erase_row m xCol yRow _ s rowOffset Hm Es).
  - simpl. apply (erasing_start m m1 (yRow, xCol)); auto.
Qed.

(** C5. On a target inside of the grid, [erasePixel] sets the target to
    Removed whatever its state, sets to Adjacent each neighbour of the
    target, in its 3 x 3 window and inside of the grid, that is Foreground,
    and leaves every other pixel as it is: a neighbour that is not
    Foreground keeps its state, the pixels that change are among the 9 of
    the window, and the grid keeps its size. *)
Theorem erasePixel_frame (m : PixelVector) (xCol yRow : Z) :
  rectangular m = true -> inside m (yRow, xCol) ->
  exists m',
    erasePixel xCol yRow m = Ok m' /\
    stateAt m' (yRow, xCol) = Ok PIXEL_STATE_REMOVED /\
    (forall q, q <> (yRow, xCol) -> touching (yRow, xCol) q ->
       stateAt m q = Ok PIXEL_STATE_FOREGROUND ->
       stateAt m' q = Ok PIXEL_STATE_ADJACENT) /\
    (forall q, q <> (yRow, xCol) ->
       ~ (touching (yRow, xCol) q /\ stateAt m q = Ok PIXEL_STATE_FOREGROUND) ->
       stateAt m' q = stateAt m q) /\
    (forall q, stateAt m' q <> stateAt m q -> In q (window (yRow, xCol))) /\
    length (window (yRow, xCol)) = 9%nat /\
    rectangular m' = true /\
    QVector.count m' = QVector.count m /\ widthOf m' = widthOf m.
Proof.
  intros Hm Ht.
  destruct (erasePixel_erasing m xCol yRow Hm Ht) as (m' & E & [H1 H2 H3 H4 H5 H6]).
  exists m'. repeat split; auto.
  - intros q Hq Hto Hfg. apply H5; auto. apply touching_window; auto.
  - intros q Hq Hn. apply H6; auto. rewrite <- touching_window. exact Hn.
  - intros q Hq. destruct (cell_eq_dec q (yRow, xCol)) as [->|Hne].
    + apply touching_window. unfold touching. simpl. lia.
    + destruct (in_dec cell_eq_dec q (window (yRow, xCol))) as [Hin|Hin]; auto.
      exfalso. apply Hq. apply H6; auto. tauto.
Qed.

Lemma erasePixel_inspect_size c cur cur' :
  rectangular cur = true -> erasePixel_inspect c cur = Ok cur' ->
  rectangular cur' = true /\ QVector.count cur' = QVector.count cur /\
  widthOf cur' = widthOf cur.
Proof.
  intros Hrect H. unfold erasePixel_inspect in H.
  apply bind_Ok in H. destruct H as (p & _ & H).
  destruct (p =? PIXEL_STATE_FOREGROUND).
  - apply setPixel_Ok in H; auto. destruct H; auto.
  - injection H as <-. auto.
Qed.

Lemma forEach_inspect_size l : forall cur cur',
  rectangular cur = true -> forEach l erasePixel_inspect cur = Ok cur' ->
  rectangular cur' = true /\ QVector.count cur' = QVector.count cur /\
  widthOf cur' = widthOf cur.
Proof.
  induction l as [|c l IH]; simpl; intros cur cur' Hrect H.
  - injection H as <-. auto.
  - apply bind_Ok in H. destruct H as (cur1 & H1 & H2).
    destruct (erasePixel_inspect_size _ _ _ Hrect H1) as (R1 & C1 & W1).
    destruct (IH _ _ R1 H2) as (R2 & C2 & W2).
    repeat split; auto; congruence.
Qed.

(** The loop on [colOffset] reads the pixels of its row that pass the test
    on [colSearch]. *)
Lemma erase_colLoop_reads xCol rowSearch w l : forall cur,
  rectangular cur = true -> widthOf cur = w ->
  0 <= rowSearch < QVector.count cur ->
  forEach l (fun colOffset m_pixels =>
    let colSearch := xCol + colOffset in
    inside <- inRange colSearch (count0 m_pixels) ;;
    if inside : bool then
      p <- getPixel m_pixels rowSearch colSearch ;;
      if p =? PIXEL_STATE_FOREGROUND then
        setPixel m_pixels rowSearch colSearch PIXEL_STATE_ADJACENT
      else Ok m_pixels
    else Ok m_pixels) cur
  = forEach (flat_map (fun colOffset =>
               let colSearch := xCol + colOffset in
               if (0 <=? colSearch) && (colSearch <? w)
               then [(rowSearch, colSearch)] else []) l)
      erasePixel_inspect cur.
Proof.
  induction l as [|co l IH]; intros cur Hrect Hw Hrow; [reflexivity|].
  cbn [forEach flat_map]. cbv zeta.
  rewrite (inRange_spec cur rowSearch) by auto. cbn [bind]. rewrite Hw.
  destruct ((0 <=? xCol + co) && (xCol + co <? w)) eqn:G.
  - cbn [app forEach].
    change (p <- getPixel cur rowSearch (xCol + co) ;;
            (if p =? PIXEL_STATE_FOREGROUND
             then setPixel cur rowSearch (xCol + co) PIXEL_STATE_ADJACENT
             else Ok cur))
      with (erasePixel_inspect (rowSearch, xCol + co) cur).
    destruct (erasePixel_inspect (rowSearch, xCol + co) cur) as [cur1|e] eqn:E;
      [|reflexivity].
    cbn [bind].
    destruct (erasePixel_inspect_size _ _ _ Hrect E) as (R1 & C1 & W1).
    apply IH; auto; congruence.
  - cbn [app bind]. apply IH; auto.
Qed.

(** The loop on [rowOffset] reads the pixels that pass both tests. *)
Lemma erase_rowLoop_reads xCol yRow n w l : forall cur,
  rectangular cur = true -> QVector.count cur = n -> widthOf cur = w ->
  forEach l (fun rowOffset m_pixels =>
    let rowSearch := yRow + rowOffset in
    if (0 <=? rowSearch) && (rowSearch <? QVector.count m_pixels) then
      forEach offsets (fun colOffset m_pixels =>
        let colSearch := xCol + colOffset in
        inside <- inRange colSearch (count0 m_pixels) ;;
        if inside : bool then
          p <- getPixel m_pixels rowSearch colSearch ;;
          if p =? PIXEL_STATE_FOREGROUND then
            setPixel m_pixels rowSearch colSearch PIXEL_STATE_ADJACENT
          else Ok m_pixels
        else Ok m_pixels) m_pixels
    else Ok m_pixels) cur
  = forEach (flat_map (fun rowOffset =>
               let rowSearch := yRow + rowOffset in
               if (0 <=? rowSearch) && (rowSearch <? n) then
                 flat_map (fun colOffset =>
                   let colSearch := xCol + colOffset in
                   if (0 <=? colSearch) && (colSearch <? w)
                   then [(rowSearch, colSearch)] else []) offsets
               else []) l)
      erasePixel_inspect cur.
Proof.
  induction l as [|ro l IH]; intros cur Hrect Hn Hw; [reflexivity|].
  cbn [forEach flat_map]. cbv zeta. rewrite Hn.
  destruct ((0 <=? yRow + ro) && (yRow + ro <? n)) eqn:G.
  - rewrite forEach_app.
    pose proof (erase_colLoop_reads xCol (yRow + ro) w offsets cur Hrect Hw)
      as HH.
    cbv zeta in HH. rewrite HH.
    + match goal with
      | |- bind ?X _ = _ => destruct X as [cur1|e] eqn:E; [|reflexivity]
      end.
      cbn [bind].
      destruct (forEach_inspect_size _ _ _ Hrect E) as (R1 & C1 & W1).
      apply IH; auto; congruence.
    + rewrite Hn. apply andb_true_iff in G. lia.
  - cbn [app bind]. apply IH; auto.
Qed.

Lemma erasePixel_reads m xCol yRow :
  rectangular m = true ->
  erasePixel xCol yRow m =
  (m1 <- setPixel m yRow xCol PIXEL_STATE_REMOVED ;;
   forEach (erasePixel_inspected xCol yRow m) erasePixel_inspect m1).
Proof.
  intros Hm. unfold erasePixel.
  destruct (setPixel m yRow xCol PIXEL_STATE_REMOVED) as [m1|e] eqn:E;
    [|reflexivity].
  cbn [bind].
  destruct (setPixel_Ok m m1 (yRow, xCol) _ Hm E) as [W1 W2 W3 _ _].
  apply (erase_rowLoop_reads xCol yRow (QVector.count m) (widthOf m)); auto.
Qed.

Lemma In_erasePixel_inspected m xCol yRow q :
  In q (erasePixel_inspected xCol yRow m) <->
  touching (yRow, xCol) q /\ inside m q.
Proof.
  unfold erasePixel_inspected. rewrite in_flat_map. split.
  - intros (ro & Hro & H). cbv zeta in H.
    destruct ((0 <=? yRow + ro) && (yRow + ro <? QVector.count m)) eqn:G;
      [|destruct H].
    apply in_flat_map in H. destruct H as (co & Hco & H).
    destruct ((0 <=? xCol + co) && (xCol + co <? widthOf m)) eqn:Gc;
      [|destruct H].
    destruct H as [<-|[]].
    apply andb_true_iff in G. apply andb_true_iff in Gc.
    unfold touching, inside, offsets in *. simpl in *.
    intuition lia.
  - intros [[H1 H2] [H3 H4]]. destruct q as [r c]. cbn [fst snd] in *.
    exists (r - yRow). split; [unfold offsets; simpl; lia|].
    cbv zeta. replace (yRow + (r - yRow)) with r by lia.
    replace ((0 <=? r) && (r <? QVector.count m)) with true
      by (symmetry; apply andb_true_iff; lia).
    apply in_flat_map. exists (c - xCol).
    split; [unfold offsets; simpl; lia|].
    replace (xCol + (c - xCol)) with c by lia.
    replace ((0 <=? c) && (c <? widthOf m)) with true
      by (symmetry; apply andb_true_iff; lia).
    left; auto.
Qed.

(** C8. On a target inside of an N x M grid, every access of [erasePixel]
    is inside of the grid: it does not fail on an index out of range, and
    it is the write of the target followed by the reads (and the writes at
    the same place) of the pixels of [erasePixel_inspected], which are all
    inside of the grid and in the 3 x 3 window of the target.  At the
    corner (0,0) these are the target and those of its 3 neighbours (0,1),
    (1,0), (1,1) that the grid has; no index is negative. *)
Theorem erasePixel_in_bounds (m : PixelVector) (xCol yRow : Z) :
  rectangular m = true -> inside m (yRow, xCol) ->
  (exists m', erasePixel xCol yRow m = Ok m') /\
  erasePixel xCol yRow m =
    (m1 <- setPixel m yRow xCol PIXEL_STATE_REMOVED ;;
     forEach (erasePixel_inspected xCol yRow m) erasePixel_inspect m1) /\
  (forall q, In q (erasePixel_inspected xCol yRow m) ->
     inside m q /\ touching (yRow, xCol) q) /\
  ((yRow, xCol) = (0, 0) ->
   erasePixel_inspected xCol yRow m =
     (0, 0) :: (if 1 <? widthOf m then [(0, 1)] else [])
     ++ (if 1 <? QVector.count m
         then (1, 0) :: (if 1 <? widthOf m then [(1, 1)] else [])
         else []) /\
   (length (erasePixel_inspected xCol yRow m) <= 1 + 3)%nat).
Proof.
  intros Hm Ht. split; [|split; [|split]].
  - destruct (erasePixel_erasing m xCol yRow Hm Ht) as (m' & E & _). eauto.
  - apply erasePixel_reads; auto.
  - intros q Hq. apply In_erasePixel_inspected in Hq. tauto.
  - intros [= -> ->]. destruct Ht as [Hr Hc]. simpl in Hr, Hc.
    unfold erasePixel_inspected, offsets. cbn [flat_map]. cbv zeta.
    replace (0 + -1) with (-1) by lia. replace (0 + 0) with 0 by lia.
    replace (0 + 1) with 1 by lia.
    replace (0 <=? -1) with false by reflexivity.
    replace (0 <=? 0) with true by reflexivity.
    replace (0 <=? 1) with true by reflexivity.
    replace (0 <? QVector.count m) with true by (symmetry; apply Z.ltb_lt; lia).
    replace (0 <? widthOf m) with true by (symmetry; apply Z.ltb_lt; lia).
    cbn [andb app].
    destruct (1 <? widthOf m); destruct (1 <? QVector.count m); simpl;
      split; auto; lia.
Qed.

Lemma erasePixel_frame_witness :
  exists m', erasePixel 0 0 grid3x3 = Ok m' /\
             stateAt m' (0, 0) = Ok PIXEL_STATE_REMOVED /\
             stateAt m' (1, 1) = Ok PIXEL_STATE_ADJACENT /\
             stateAt m' (2, 0) = Ok PIXEL_STATE_BACKGROUND /\
             stateAt m' (2, 2) = Ok PIXEL_STATE_FOREGROUND.
Proof.
  destruct (erasePixel_frame grid3x3 0 0) as (m' & E & H1 & H2 & H3 & _).
  - reflexivity.
  - repeat split; vm_compute; congruence.
  - exists m'. split; [exact E|]. split; [exact H1|]. split; [|split].
    + apply H2; [discriminate | unfold touching; simpl; lia | reflexivity].
    + rewrite H3; [reflexivity | discriminate |].
      intros [_ H]. discriminate H.
    + rewrite H3; [reflexivity | discriminate |].
      intros [[H _] _]. cbn [fst snd] in H. lia.
Defined.

Lemma erasePixel_in_bounds_witness :
  (exists m', erasePixel 0 0 grid3x3 = Ok m') /\
  erasePixel_inspected 0 0 grid3x3 = [(0, 0); (0, 1); (1, 0); (1, 1)].
Proof.
  destruct (erasePixel_in_bounds grid3x3 0 0) as (H1 & _ & _ & H4).
  - reflexivity.
  - repeat split; vm_compute; congruence.
  - split; [exact H1|]. destruct (H4 eq_refl) as [H _]. exact H.
Defined.

(* ================================================================== *)
(** * The constructor *)

Lemma count_map_upto {A} (f : Z -> A) n :
  QVector.count (map f (upto n)) = Z.max 0 n.
Proof.
  unfold QVector.count, upto. rewrite !length_map, length_seq. lia.
Qed.

Lemma at_map_upto {A} (f : Z -> A) n i :
  0 <= i < n -> QVector.at_ (map f (upto n)) i = Ok (f i).
Proof.
  intros Hi. apply at_Ok. rewrite count_map_upto. split; [lia|].
  unfold upto. rewrite !nth_error_map, nth_error_seq.
  destruct (Nat.ltb_spec (Z.to_nat i) (Z.to_nat n)); [|lia].
  simpl. f_equal. f_equal. lia.
Qed.

Lemma rectangular_map_upto (f : Z -> Z -> Z) h w :
  rectangular (map (fun row => map (f row) (upto w)) (upto h)) = true.
Proof.
  unfold rectangular. apply forallb_forall. intros r Hr. apply Z.eqb_eq.
  apply in_map_iff in Hr. destruct Hr as (row & <- & Hrow).
  rewrite count_map_upto.
  destruct (upto h) as [|row0 l]; [destruct Hrow|].
  simpl. rewrite count_map_upto. reflexivity.
Qed.

(** C7. The constructor makes one pixel state for each pixel of the image:
    Background where [qGray] is more than 128, Foreground where it is 128 or
    less, and no other state. *)
Theorem GridHealer_new_threshold (imageBefore : QImage.t) (closeDistance : Q) :
  exists this,
    GridHealer_new imageBefore closeDistance = Ok this /\
    rectangular (m_pixels this) = true /\
    QVector.count (m_pixels this) = Z.max 0 (QImage.height imageBefore) /\
    (forall row col,
       0 <= row < QImage.height imageBefore ->
       0 <= col < QImage.width imageBefore ->
       (128 < qGray (QImage.pixel imageBefore col row) ->
        stateAt (m_pixels this) (row, col) = Ok PIXEL_STATE_BACKGROUND) /\
       (qGray (QImage.pixel imageBefore col row) <= 128 ->
        stateAt (m_pixels this) (row, col) = Ok PIXEL_STATE_FOREGROUND)) /\
    (forall p v, stateAt (m_pixels this) p = Ok v ->
       0 <= fst p < QImage.height imageBefore /\
       0 <= snd p < QImage.width imageBefore /\
       (v = PIXEL_STATE_BACKGROUND \/ v = PIXEL_STATE_FOREGROUND)).
Proof.
  unfold GridHealer_new.
  change (ENGAUGE_ASSERT (NUM_PIXEL_STATES <? BOUNDARY_GROUP_FIRST))
    with (Ok tt).
  cbn [bind]. eexists. split; [reflexivity|].
  cbn [m_pixels].
  set (f := fun row col =>
              if 128 <? qGray (QImage.pixel imageBefore col row)
              then PIXEL_STATE_BACKGROUND else PIXEL_STATE_FOREGROUND).
  change (map _ (upto (QImage.height imageBefore)))
    with (map (fun row => map (f row) (upto (QImage.width imageBefore)))
              (upto (QImage.height imageBefore))).
  assert (Hat : forall row col,
             0 <= row < QImage.height imageBefore ->
             0 <= col < QImage.width imageBefore ->
             stateAt (map (fun row => map (f row)
                                        (upto (QImage.width imageBefore)))
                          (upto (QImage.height imageBefore))) (row, col)
             = Ok (f row col)).
  { intros row col Hr Hc. unfold stateAt, getPixel. simpl.
    rewrite (at_map_upto _ _ row Hr). simpl.
    apply (at_map_upto (f row)); auto. }
  split; [apply rectangular_map_upto|].
  split; [apply count_map_upto|].
  split.
  - intros row col Hr Hc. rewrite (Hat row col Hr Hc). unfold f.
    split; intros H.
    + apply Z.ltb_lt in H. rewrite H. reflexivity.
    + destruct (Z.ltb_spec 128 (qGray (QImage.pixel imageBefore col row)));
        [lia | reflexivity].
  - intros [row col] v H.
    assert (Hin : 0 <= row < QImage.height imageBefore /\
                  0 <= col < QImage.width imageBefore).
    { unfold stateAt, getPixel in H. simpl in H.
      apply bind_Ok in H. destruct H as (r & Hr & Hc).
      pose proof (at_In _ _ _ Hr) as Hin.
      apply in_map_iff in Hin. destruct Hin as (row0 & <- & _).
      apply at_Ok in Hr. apply at_Ok in Hc. cbv beta in Hc.
      rewrite count_map_upto in Hr. rewrite count_map_upto in Hc. lia. }
    destruct Hin as [Hr Hc]. simpl. split; auto. split; auto.
    rewrite (Hat row col Hr Hc) in H. injection H as <-. unfold f.
    destruct (128 <? qGray (QImage.pixel imageBefore col row)); auto.
Qed.

(* ================================================================== *)
(** * Connected pixels *)


Lemma touching_sym p q : touching p q -> touching q p.
Proof. unfold touching. lia. Qed.

Lemma connected_left A p q : connected A p q -> A p.
Proof. induction 1; auto. Qed.

Lemma connected_right A p q : connected A p q -> A q.
Proof. induction 1; auto. Qed.

Lemma connected_trans A p q r :
  connected A p q -> connected A q r -> connected A p r.
Proof.
  intros Hpq Hqr. induction Hqr; auto.
  eapply connected_step; eauto.
Qed.

Lemma connected_sym A p q : connected A p q -> connected A q p.
Proof.
  induction 1 as [Hp | q r Hpq IH Ht Hr].
  - apply connected_refl; auto.
  - apply connected_trans with q; auto.
    apply connected_step with r; [apply connected_refl; auto | |].
    + apply touching_sym; auto.
    + eapply connected_right; eauto.
Qed.

Lemma connected_mono (A B : cell -> Prop) p q :
  (forall x, A x -> B x) -> connected A p q -> connected B p q.
Proof.
  intros HAB. induction 1.
  - apply connected_refl; auto.
  - eapply connected_step; eauto.
Qed.

(* ================================================================== *)
(** * The number of adjacent pixels *)

Lemma filter_replace (f : Z -> bool) (v : list Z) n a b :
  nth_error v n = Some b ->
  (length (filter f (QVector.replace v n a)) + (if f b then 1 else 0)
   = length (filter f v) + (if f a then 1 else 0))%nat.
Proof.
  revert n; induction v as [|c v IH]; intros [|n]; simpl; try discriminate.
  - intros [= ->]. destruct (f a), (f b); simpl; lia.
  - intros H. specialize (IH n H). destruct (f c); simpl; lia.
Qed.

Lemma filter_concat_replace (f : Z -> bool) (m : list (list Z)) n r r' :
  nth_error m n = Some r ->
  (length (filter f (concat (QVector.replace m n r'))) + length (filter f r)
   = length (filter f (concat m)) + length (filter f r'))%nat.
Proof.
  revert n; induction m as [|c m IH]; intros [|n]; simpl; try discriminate.
  - intros [= ->]. rewrite !filter_app, !length_app. lia.
  - intros H. specialize (IH n H). rewrite !filter_app, !length_app. lia.
Qed.

Lemma adjacentCount_setPixel m m' p v old :
  setPixel m (fst p) (snd p) v = Ok m' -> stateAt m p = Ok old ->
  (adjacentCount m' + (if (old =? PIXEL_STATE_ADJACENT)%Z then 1 else 0)
   = adjacentCount m + (if (v =? PIXEL_STATE_ADJACENT)%Z then 1 else 0))%nat.
Proof.
  unfold setPixel, stateAt, getPixel, adjacentCount. intros H Hold.
  apply bind_Ok in H. destruct H as (r & Hr & H).
  apply bind_Ok in H. destruct H as (r' & Hr' & H).
  rewrite Hr in Hold. simpl in Hold.
  apply assign_Ok in Hr'. destruct Hr' as [Hc ->].
  apply assign_Ok in H. destruct H as [Hrow ->].
  apply at_Ok in Hr. destruct Hr as [_ Hr].
  apply at_Ok in Hold. destruct Hold as [_ Hold].
  pose proof (filter_replace (fun v => v =? PIXEL_STATE_ADJACENT)
                r (Z.to_nat (snd p)) v old Hold) as H1.
  pose proof (filter_concat_replace (fun v => v =? PIXEL_STATE_ADJACENT)
                m (Z.to_nat (fst p)) r
                (QVector.replace r (Z.to_nat (snd p)) v) Hr) as H2.
  cbv beta in H1. lia.
Qed.

Lemma adjacentCount_fuel m : (adjacentCount m < groupFuel m)%nat.
Proof.
  unfold adjacentCount, groupFuel.
  pose proof (filter_length_le (fun v => v =? PIXEL_STATE_ADJACENT) (concat m)).
  lia.
Qed.

(* ================================================================== *)
(** * recursiveSearchForAdjacentPixels *)

Lemma searching_refl g s :
  rectangular (pixels s) = true -> searching g s [] s.
Proof.
  intros Hrect.
  split; simpl; auto; try lia; try (intros p []); constructor.
Qed.

Lemma searching_inside g s0 vis s q :
  searching g s0 vis s -> inside (pixels s) q <-> inside (pixels s0) q.
Proof.
  intros H. unfold inside.
  rewrite (searching_count _ _ _ _ H), (searching_width _ _ _ _ H). tauto.
Qed.

Lemma searching_app g s0 s1 s2 l1 l2 :
  g <> PIXEL_STATE_ADJACENT ->
  searching g s0 l1 s1 -> searching g s1 l2 s2 ->
  searching g s0 (l1 ++ l2) s2.
Proof.
  intros Hg H1 H2.
  assert (Hdisj : forall p, In p l1 -> In p l2 -> False).
  { intros p Hp1 Hp2.
    pose proof (searching_marked _ _ _ _ H1 p Hp1) as Hm.
    pose proof (searching_adjacent _ _ _ _ H2 p Hp2) as Ha.
    unfold adjacentAt in Ha. rewrite Hm in Ha. congruence. }
  split.
  - apply H2.
  - rewrite (searching_count _ _ _ _ H2). apply H1.
  - rewrite (searching_width _ _ _ _ H2). apply H1.
  - rewrite (searching_centroidCount _ _ _ _ H2),
      (searching_centroidCount _ _ _ _ H1), length_app. lia.
  - rewrite (searching_rowSum _ _ _ _ H2), (searching_rowSum _ _ _ _ H1).
    unfold sumRows. rewrite fold_left_app. reflexivity.
  - rewrite (searching_colSum _ _ _ _ H2), (searching_colSum _ _ _ _ H1).
    unfold sumCols. rewrite fold_left_app. reflexivity.
  - apply NoDup_app; [apply H1 | apply H2 |].
    intros p Hp1 Hp2. exact (Hdisj p Hp1 Hp2).
  - intros p Hp. apply in_app_or in Hp. destruct Hp as [Hp|Hp].
    + apply (searching_adjacent _ _ _ _ H1); auto.
    + unfold adjacentAt.
      rewrite <- (searching_other _ _ _ _ H1 p).
      * apply (searching_adjacent _ _ _ _ H2); auto.
      * intros Hp1. exact (Hdisj p Hp1 Hp).
  - intros p Hp. apply in_app_or in Hp. destruct Hp as [Hp|Hp].
    + rewrite (searching_other _ _ _ _ H2 p).
      * apply (searching_marked _ _ _ _ H1); auto.
      * intros Hp2. exact (Hdisj p Hp Hp2).
    + apply (searching_marked _ _ _ _ H2); auto.
  - intros p Hp.
    rewrite (searching_other _ _ _ _ H2 p), (searching_other _ _ _ _ H1 p);
      auto; intros Hin; apply Hp; apply in_or_app; auto.
  - rewrite length_app.
    pose proof (searching_measure _ _ _ _ H1).
    pose proof (searching_measure _ _ _ _ H2). lia.
Qed.

(** The first steps of a call: the pixel takes the group number. *)
Lemma searching_mark g s0 v m1 :
  g <> PIXEL_STATE_ADJACENT ->
  rectangular (pixels s0) = true -> adjacentAt (pixels s0) v ->
  setPixel (pixels s0) (fst v) (snd v) g = Ok m1 ->
  searching g s0 [v]
    (mkSearch m1 (centroidCount s0 + 1)
       (rowCentroidSum s0 + inject_Z (fst v))%Q
       (colCentroidSum s0 + inject_Z (snd v))%Q).
Proof.
  intros Hg Hrect Hv Hset.
  pose proof (setPixel_Ok _ _ _ _ Hrect Hset) as W.
  pose proof (adjacentCount_setPixel _ _ _ _ _ Hset Hv) as Hc.
  destruct W as [W1 W2 W3 W4 W5].
  split; simpl; auto.
  - constructor; [intros [] | constructor].
  - intros p [<-|[]]; auto.
  - intros p [<-|[]]; auto.
  - replace (PIXEL_STATE_ADJACENT =? PIXEL_STATE_ADJACENT) with true in Hc
      by reflexivity.
    destruct (Z.eqb_spec g PIXEL_STATE_ADJACENT); [congruence | lia].
Qed.

Lemma visiting_skip g s0 v done vis s L :
  rectangular (pixels s0) = true ->
  visiting g s0 v done vis s ->
  (forall c, In c L -> ~ inside (pixels s0) c) ->
  visiting g s0 v (done ++ L) vis s.
Proof.
  intros Hrect [H1 H2 H3 H4] HL. split; auto.
  intros q Hq Ha. apply in_app_or in Hq. destruct Hq as [Hq|Hq]; auto.
  exfalso. apply (HL q Hq). eapply stateAt_Ok_inside; eauto.
Qed.

Section SearchStep.

Variables (fuel' : nat) (g : Z).
Hypothesis Hg : g <> PIXEL_STATE_ADJACENT.

(** The calls with less fuel are correct. *)
Hypothesis IH : forall s0 row col,
  rectangular (pixels s0) = true ->
  adjacentAt (pixels s0) (row, col) ->
  (adjacentCount (pixels s0) < fuel')%nat ->
  exists vis s,
    recursiveSearchForAdjacentPixels fuel' g row col s0 = Ok s /\
    searching g s0 vis s /\
    forall p, In p vis <-> connected (adjacentAt (pixels s0)) (row, col) p.

(** The loops reach a neighbour inside of the grid. *)
Lemma search_cell s0 v done vis s c :
  (adjacentCount (pixels s0) < S fuel')%nat ->
  adjacentAt (pixels s0) v ->
  visiting g s0 v done vis s -> touching v c -> inside (pixels s) c ->
  exists s',
    (p <- getPixel (pixels s) (fst c) (snd c) ;;
     if p =? PIXEL_STATE_ADJACENT then
       recursiveSearchForAdjacentPixels fuel' g (fst c) (snd c) s
     else Ok s) = Ok s' /\
    exists vis', visiting g s0 v (done ++ [c]) vis' s'.
Proof.
  intros Hfuel Hv V Hvc Hc. destruct c as [cr cc]. cbn [fst snd].
  set (c := (cr, cc)) in *.
  pose proof (visiting_searching _ _ _ _ _ _ V) as Sg.
  pose proof (searching_rect _ _ _ _ Sg) as Hrect.
  destruct (stateAt_inside _ c Hrect Hc) as (p & Ep).
  unfold stateAt in Ep. cbn [fst snd c] in Ep. rewrite Ep. cbn [bind].
  change (stateAt (pixels s) c = Ok p) in Ep.
  destruct (p =? PIXEL_STATE_ADJACENT) eqn:Eadj.
  - apply Z.eqb_eq in Eadj. subst p.
    assert (Hnew : ~ In c (v :: vis)).
    { intros Hin. rewrite (searching_marked _ _ _ _ Sg c Hin) in Ep.
      congruence. }
    assert (Hc0 : adjacentAt (pixels s0) c).
    { unfold adjacentAt.
      rewrite <- (searching_other _ _ _ _ Sg c Hnew). exact Ep. }
    destruct (IH s cr cc) as (visc & s' & E & Sc & Hconn); auto.
    { pose proof (searching_measure _ _ _ _ Sg) as Hm. simpl in Hm. lia. }
    fold c in Hconn.
    exists s'. split; [exact E|]. exists (vis ++ visc).
    assert (Hsub : forall x, adjacentAt (pixels s) x ->
                             adjacentAt (pixels s0) x).
    { intros x Hx. unfold adjacentAt.
      rewrite <- (searching_other _ _ _ _ Sg x); auto.
      intros Hin. unfold adjacentAt in Hx.
      rewrite (searching_marked _ _ _ _ Sg x Hin) in Hx. congruence. }
    split.
    + apply (searching_app g s0 s s' (v :: vis) visc Hg Sg Sc).
    + intros q Hq. apply in_app_or in Hq. destruct Hq as [Hq|Hq].
      * apply (visiting_sound _ _ _ _ _ _ V); auto.
      * apply connected_trans with c.
        -- apply connected_step with v; auto. apply connected_refl; auto.
        -- apply (connected_mono (adjacentAt (pixels s))); auto.
           apply Hconn; auto.
    + intros q r Hq Hqr Hr. apply in_app_or in Hq.
      assert (Hold : In r (v :: vis) -> In r (v :: vis ++ visc)).
      { intros [<-|Hin]; [left; auto | right; apply in_or_app; auto]. }
      destruct Hq as [Hq|Hq].
      * apply Hold. apply (visiting_closed _ _ _ _ _ _ V q r); auto.
      * destruct (in_dec cell_eq_dec r (v :: vis)) as [Hin|Hin]; auto.
        right. apply in_or_app. right. apply Hconn.
        apply connected_step with q; auto; [apply Hconn; auto|].
        unfold adjacentAt. rewrite (searching_other _ _ _ _ Sg r Hin).
        exact Hr.
    + intros q Hq Ha. apply in_app_or in Hq.
      destruct Hq as [Hq|[<-|[]]].
      * destruct (visiting_done _ _ _ _ _ _ V q Hq Ha) as [<-|Hin];
          [left; auto | right; apply in_or_app; auto].
      * right. apply in_or_app. right. apply Hconn.
        apply connected_refl. exact Ep.
  - exists s. split; auto. exists vis. apply Z.eqb_neq in Eadj.
    split; try apply V.
    intros q Hq Ha. apply in_app_or in Hq.
    destruct Hq as [Hq|[<-|[]]]; [apply (visiting_done _ _ _ _ _ _ V); auto|].
    destruct (in_dec cell_eq_dec c (v :: vis)) as [Hin|Hin]; auto.
    exfalso. rewrite (searching_other _ _ _ _ Sg c Hin) in Ep.
    unfold adjacentAt in Ha. congruence.
Qed.

(** One round of the loop on [rowOffset]. *)
Lemma search_row s0 row col done vis s rowOffset :
  (adjacentCount (pixels s0) < S fuel')%nat ->
  rectangular (pixels s0) = true ->
  adjacentAt (pixels s0) (row, col) ->
  visiting g s0 (row, col) done vis s ->
  In rowOffset offsets ->
  exists s',
    (let rowNeighbor := row + rowOffset in
     if (0 <=? rowNeighbor) && (rowNeighbor <? QVector.count (pixels s))
     then
       forEach offsets (fun colOffset s =>
         let colNeighbor := col + colOffset in
         inside <- inRange colNeighbor (count0 (pixels s)) ;;
         if inside : bool then
           p <- getPixel (pixels s) rowNeighbor colNeighbor ;;
           if p =? PIXEL_STATE_ADJACENT then
             recursiveSearchForAdjacentPixels fuel' g
               rowNeighbor colNeighbor s
           else Ok s
         else Ok s) s
     else Ok s) = Ok s' /\
    exists vis',
      visiting g s0 (row, col) (done ++ windowRow (row, col) rowOffset)
        vis' s'.
Proof.
  intros Hfuel Hrect0 Hv V Hro. cbv zeta.
  pose proof (searching_count _ _ _ _ (visiting_searching _ _ _ _ _ _ V))
    as Hcount.
  destruct ((0 <=? row + rowOffset)
            && (row + rowOffset <? QVector.count (pixels s))) eqn:G.
  - apply rowGuard_spec in G.
    apply (forEach_invariant
             (fun doneCols s =>
                exists vis',
                  visiting g s0 (row, col)
                    (done ++ map (fun colOffset =>
                                    (row + rowOffset, col + colOffset))
                                 doneCols) vis' s)).
    + intros doneCols colOffset s1 (vis1 & V1) Hco.
      pose proof (visiting_searching _ _ _ _ _ _ V1) as S1.
      rewrite (inRange_spec (pixels s1) (row + rowOffset))
        by (rewrite (searching_count _ _ _ _ S1), <- Hcount; exact G).
      cbn [bind]. rewrite map_app, app_assoc. cbn [map].
      destruct ((0 <=? col + colOffset)
                && (col + colOffset <? widthOf (pixels s1))) eqn:Gc.
      * apply (search_cell s0 (row, col) _ vis1 s1
                 (row + rowOffset, col + colOffset)); auto.
        -- unfold touching, offsets in *. simpl in *. lia.
        -- split; simpl.
           ++ rewrite (searching_count _ _ _ _ S1), <- Hcount. exact G.
           ++ apply andb_true_iff in Gc. lia.
      * exists s1. split; auto. exists vis1.
        apply visiting_skip; auto.
        intros c [<-|[]].
        rewrite <- (searching_inside _ _ _ _ _ S1).
        unfold inside. simpl. apply andb_false_iff in Gc. lia.
    + exists vis. simpl. rewrite app_nil_r. exact V.
  - exists s. split; auto. exists vis. apply visiting_skip; auto.
    intros c Hc. unfold windowRow in Hc. apply in_map_iff in Hc.
    destruct Hc as (co & <- & _). unfold inside. simpl.
    rewrite <- Hcount. apply andb_false_iff in G. lia.
Qed.

End SearchStep.

Lemma visiting_complete g s0 v vis s :
  adjacentAt (pixels s0) v ->
  visiting g s0 v (window v) vis s ->
  forall p, In p (v :: vis) <-> connected (adjacentAt (pixels s0)) v p.
Proof.
  intros Hv V p. split.
  - intros [<-|Hp]; [apply connected_refl; auto|].
    apply (visiting_sound _ _ _ _ _ _ V); auto.
  - induction 1 as [_ | q r Hq IH Hqr Hr]; [left; auto|].
    destruct IH as [<-|Hin].
    + apply (visiting_done _ _ _ _ _ _ V); auto.
      apply touching_window; auto.
    + apply (visiting_closed _ _ _ _ _ _ V q r); auto.
Qed.

(** The search from an adjacent pixel recolors the pixels that are connected
    to it through adjacent pixels, and no other, and counts them. *)
Lemma search_correct fuel g :
  g <> PIXEL_STATE_ADJACENT ->
  forall s0 row col,
    rectangular (pixels s0) = true ->
    adjacentAt (pixels s0) (row, col) ->
    (adjacentCount (pixels s0) < fuel)%nat ->
    exists vis s,
      recursiveSearchForAdjacentPixels fuel g row col s0 = Ok s /\
      searching g s0 vis s /\
      forall p, In p vis <-> connected (adjacentAt (pixels s0)) (row, col) p.
Proof.
  intros Hg. induction fuel as [|fuel' IH]; intros s0 row col Hrect Hv Hfuel;
    [lia|].
  cbn [recursiveSearchForAdjacentPixels].
  pose proof Hv as Hget. unfold adjacentAt, stateAt in Hget.
  cbn [fst snd] in Hget. rewrite Hget. cbn [bind].
  replace (PIXEL_STATE_ADJACENT =? PIXEL_STATE_ADJACENT) with true
    by reflexivity.
  cbn [ENGAUGE_ASSERT bind].
  destruct (setPixel_inside (pixels s0) (row, col) g Hrect) as (m1 & Eset).
  { eapply stateAt_Ok_inside; eauto. }
  cbn [fst snd] in Eset. rewrite Eset. cbn [bind].
  pose proof (searching_mark g s0 (row, col) m1 Hg Hrect Hv Eset) as S1.
  cbn [fst snd] in S1.
  match goal with
  | |- exists vis s, forEach offsets ?b ?s1 = Ok s /\ _ =>
      assert (HH : exists s, forEach offsets b s1 = Ok s /\
                     exists vis,
                       visiting g s0 (row, col) (window (row, col)) vis s)
  end.
  { apply (forEach_invariant
             (fun doneRows s =>
                exists vis,
                  visiting g s0 (row, col)
                    (flat_map (windowRow (row, col)) doneRows) vis s)).
    - intros done rowOffset s (vis & V) Hro.
      rewrite flat_map_app. cbn [flat_map]. rewrite app_nil_r.
      apply (search_row fuel' g Hg IH s0 row col _ vis s rowOffset); auto.
    - exists []. split; auto.
      + intros p [].
      + intros p q [].
      + intros q []. }
  destruct HH as (s & E & vis & V).
  - exists ((row, col) :: vis), s. split; [exact E|].
    split; [apply V|].
    apply (visiting_complete g s0 (row, col) vis s Hv V).
Qed.

(* ================================================================== *)
(** * groupContiguousAdjacentPixels *)

Lemma In_keys_insert m k v k' :
  In k' (QMap.keys (QMap.insert m k v)) -> k' = k \/ In k' (QMap.keys m).
Proof.
  unfold QMap.keys. induction m as [|[k0 w] m IH]; simpl.
  - intros [H|[]]; auto.
  - destruct (k <? k0); [|destruct (Z.eqb_spec k k0) as [->|Hne]]; simpl.
    + intros [H|[H|H]]; auto.
    + intros [H|H]; auto.
    + intros [H|H]; auto. destruct (IH H); auto.
Qed.

Lemma sortedKeys_insert m k v :
  sortedKeys (QMap.keys m) = true ->
  sortedKeys (QMap.keys (QMap.insert m k v)) = true.
Proof.
  induction m as [|[k0 w] m IH]; [reflexivity|].
  intros H. pose proof H as H0. cbn [QMap.keys map fst sortedKeys] in H.
  apply andb_true_iff in H. destruct H as [H1 H2].
  cbn [QMap.insert].
  destruct (Z.ltb_spec k k0) as [Hlt|Hge];
    [|destruct (Z.eqb_spec k k0) as [->|Hne]].
  - change (QMap.keys ((k, v) :: (k0, w) :: m))
      with (k :: QMap.keys ((k0, w) :: m)).
    cbn [sortedKeys]. rewrite H0, andb_true_r.
    cbn [QMap.keys map fst forallb].
    apply andb_true_iff. split; [apply Z.ltb_lt; auto|].
    apply forallb_forall. intros k' Hk'.
    rewrite forallb_forall in H1. specialize (H1 k' Hk').
    apply Z.ltb_lt in H1. apply Z.ltb_lt. lia.
  - exact H0.
  - change (QMap.keys ((k0, w) :: QMap.insert m k v))
      with (k0 :: QMap.keys (QMap.insert m k v)).
    cbn [sortedKeys]. rewrite (IH H2), andb_true_r.
    apply forallb_forall. intros k' Hk'. apply Z.ltb_lt.
    apply In_keys_insert in Hk'. destruct Hk' as [->|Hk']; [lia|].
    rewrite forallb_forall in H1. specialize (H1 k' Hk').
    apply Z.ltb_lt in H1. exact H1.
Qed.

Lemma value_insert m k v k' :
  QMap.value (QMap.insert m k v) k'
  = if k' =? k then Some v else QMap.value m k'.
Proof.
  induction m as [|[k0 w] m IH]; simpl.
  - rewrite (Z.eqb_sym k k'). reflexivity.
  - destruct (Z.ltb_spec k k0).
    + simpl. rewrite (Z.eqb_sym k k'). reflexivity.
    + destruct (Z.eqb_spec k k0) as [->|Hne]; simpl.
      * rewrite (Z.eqb_sym k0 k'). destruct (k' =? k0); reflexivity.
      * rewrite IH. destruct (Z.eqb_spec k0 k'), (Z.eqb_spec k' k); auto.
        congruence.
Qed.

Lemma grouping_id_range this0 pos regions this r :
  grouping this0 pos regions this -> In r regions ->
  m_boundaryGroupNext this0 <= region_id r < m_boundaryGroupNext this.
Proof.
  intros G Hr. rewrite (grouping_next _ _ _ _ G).
  assert (H : In (region_id r) (map region_id regions))
    by (apply in_map; auto).
  rewrite (grouping_ids _ _ _ _ G) in H.
  apply in_map_iff in H. destruct H as (i & <- & Hi).
  apply In_upto in Hi. lia.
Qed.

Lemma grouping_adjacent this0 pos regions this p :
  BOUNDARY_GROUP_FIRST <= m_boundaryGroupNext this0 ->
  grouping this0 pos regions this ->
  adjacentAt (m_pixels this) p <->
  adjacentAt (m_pixels this0) p /\
  forall r, In r regions -> ~ In p (region_members r).
Proof.
  intros Hfirst G. split.
  - intros Hp.
    assert (Hout : forall r, In r regions -> ~ In p (region_members r)).
    { intros r Hr Hin.
      pose proof (recorded_state _ _ _ (grouping_recorded _ _ _ _ G r Hr) p Hin)
        as Hs.
      pose proof (grouping_id_range _ _ _ _ r G Hr) as Hid.
      unfold adjacentAt in Hp. rewrite Hs in Hp. injection Hp as Hp.
      unfold BOUNDARY_GROUP_FIRST, PIXEL_STATE_ADJACENT in *. lia. }
    split; auto. unfold adjacentAt.
    rewrite <- (grouping_other _ _ _ _ G p Hout). exact Hp.
  - intros [Hp Hout]. unfold adjacentAt.
    rewrite (grouping_other _ _ _ _ G p Hout). exact Hp.
Qed.

(** The pixels that are still adjacent are whole regions of the pixels
    that were adjacent at first. *)
Lemma grouping_connected this0 pos regions this c p :
  BOUNDARY_GROUP_FIRST <= m_boundaryGroupNext this0 ->
  grouping this0 pos regions this ->
  adjacentAt (m_pixels this) c ->
  connected (adjacentAt (m_pixels this)) c p <->
  connected (adjacentAt (m_pixels this0)) c p.
Proof.
  intros Hfirst G Hc. split.
  - apply connected_mono. intros q Hq.
    apply (grouping_adjacent this0 pos regions this q Hfirst G); auto.
  - induction 1 as [_ | q r Hq IH Hqr Hr]; [apply connected_refl; auto|].
    apply connected_step with q; auto.
    apply (grouping_adjacent this0 pos regions this r Hfirst G).
    split; auto. intros reg Hreg Hin.
    pose proof (grouping_recorded _ _ _ _ G reg Hreg) as R.
    pose proof (connected_right _ _ _ IH) as Hq1.
    apply (grouping_adjacent this0 pos regions this q Hfirst G) in Hq1.
    destruct Hq1 as [Hq0 Hout]. apply (Hout reg Hreg).
    apply (recorded_members _ _ _ R).
    apply connected_step with r.
    + apply (recorded_members _ _ _ R); auto.
    + apply touching_sym; auto.
    + exact Hq0.
Qed.

Lemma forEach_upto_invariant {St} (I : Z -> St -> Prop)
  (body : Z -> St -> result St) (n : Z) :
  (forall i s, 0 <= i < n -> I i s ->
     exists s', body i s = Ok s' /\ I (i + 1) s') ->
  forall s0, I 0 s0 ->
  exists s', forEach (upto n) body s0 = Ok s' /\ I (Z.max 0 n) s'.
Proof.
  intros Hbody s0 H0. rename s0 into s.
  assert (G : forall k, Z.of_nat k <= Z.max 0 n ->
            exists s', forEach (upto (Z.of_nat k)) body s = Ok s' /\
                       I (Z.of_nat k) s').
  { induction k as [|k IH]; intros Hk.
    - exists s. split; auto.
    - destruct IH as (s1 & E1 & I1); [lia|].
      replace (Z.of_nat (S k)) with (Z.of_nat k + 1) by lia.
      rewrite upto_succ by lia. rewrite forEach_app, E1. cbn [bind forEach].
      destruct (Hbody (Z.of_nat k) s1) as (s2 & E2 & I2); [lia | auto |].
      rewrite E2. cbn [bind]. eauto. }
  destruct (G (Z.to_nat n)) as (s' & E & HI); [lia|].
  replace (upto (Z.of_nat (Z.to_nat n))) with (upto n) in E
    by (unfold upto; f_equal; f_equal; lia).
  replace (Z.of_nat (Z.to_nat n)) with (Z.max 0 n) in HI by lia.
  eauto.
Qed.

Lemma grouping_start this0 :
  rectangular (m_pixels this0) = true -> grouping this0 (0, 0) [] this0.
Proof.
  intros Hrect. split; auto.
  - unfold QVector.count. simpl. lia.
  - intros r [].
  - intros p Hp Ha. apply stateAt_Ok_inside in Ha; auto.
    unfold earlier, inside in *. simpl in *. lia.
Qed.

(** From the end of a row to the start of the next one. *)
Lemma grouping_next_row this0 row regions this :
  grouping this0 (row, widthOf (m_pixels this)) regions this ->
  grouping this0 (row + 1, 0) regions this.
Proof.
  intros G. split; try apply G.
  intros p Hp Ha.
  pose proof (stateAt_Ok_inside _ _ _ (grouping_rect _ _ _ _ G) Ha) as Hin.
  apply (grouping_scanned _ _ _ _ G p); auto.
  unfold earlier, inside in *. simpl in *. lia.
Qed.

(** The scan is on a pixel that is not adjacent. *)
Lemma grouping_pass this0 row col regions this :
  grouping this0 (row, col) regions this ->
  ~ adjacentAt (m_pixels this) (row, col) ->
  grouping this0 (row, col + 1) regions this.
Proof.
  intros G Hn. split; try apply G.
  intros [r c] Hp Ha.
  destruct (cell_eq_dec (r, c) (row, col)) as [E|E].
  - rewrite E in Ha. auto.
  - apply (grouping_scanned _ _ _ _ G (r, c)); auto.
    unfold earlier in *. simpl in *.
    assert (r <> row \/ c <> col) by (destruct (Z.eq_dec r row); [right|left];
                                        congruence).
    lia.
Qed.

(** The scan is on an adjacent pixel: the search records a new region. *)
Lemma grouping_record this0 row col regions this vis s :
  BOUNDARY_GROUP_FIRST <= m_boundaryGroupNext this0 ->
  grouping this0 (row, col) regions this ->
  adjacentAt (m_pixels this) (row, col) ->
  searching (m_boundaryGroupNext this) (mkSearch (m_pixels this) 0 0 0) vis s ->
  (forall p, In p vis <->
             connected (adjacentAt (m_pixels this)) (row, col) p) ->
  grouping this0 (row, col + 1)
    (regions ++ [mkRegion (m_boundaryGroupNext this) (row, col) vis])
    (mkGridHealer
       (m_boundaryGroupNext this + 1)
       (QMap.insert (m_groupNumberToCentroid this) (m_boundaryGroupNext this)
          (QPointF.mk (rowCentroidSum s / inject_Z (centroidCount s))
                      (colCentroidSum s / inject_Z (centroidCount s))))
       (QMap.insert (m_groupNumberToPixel this) (m_boundaryGroupNext this)
          (QPointF.mk (inject_Z row) (inject_Z col)))
       (closeDistance this)
       (pixels s)).
Proof.
  intros Hfirst G Hc Sg Hvis.
  pose proof (grouping_next _ _ _ _ G) as Hnext.
  assert (Hcount : QVector.count (regions ++ [mkRegion (m_boundaryGroupNext this)
                                                (row, col) vis])
                   = QVector.count regions + 1).
  { unfold QVector.count. rewrite length_app. simpl. lia. }
  assert (Hcount0 : 0 <= QVector.count regions)
    by (unfold QVector.count; lia).
  assert (Hold : forall r p, In r regions -> In p (region_members r) ->
                             ~ In p vis).
  { intros r p Hr Hp Hin. apply Hvis in Hin. apply connected_right in Hin.
    apply (grouping_adjacent this0 (row, col) regions this p Hfirst G) in Hin.
    destruct Hin as [_ Hout]. exact (Hout r Hr Hp). }
  assert (Hids : forall k,
             ~ In k (map region_id
                       (regions ++ [mkRegion (m_boundaryGroupNext this)
                                      (row, col) vis])) ->
             k <> m_boundaryGroupNext this /\ ~ In k (map region_id regions)).
  { intros k Hk. rewrite map_app, in_app_iff in Hk. simpl in Hk.
    split; [intros ->; tauto | tauto]. }
  split; cbn [m_pixels m_boundaryGroupNext m_groupNumberToCentroid
              m_groupNumberToPixel closeDistance].
  - apply Sg.
  - rewrite (searching_count _ _ _ _ Sg). apply G.
  - rewrite (searching_width _ _ _ _ Sg). apply G.
  - apply G.
  - rewrite Hcount. lia.
  - rewrite map_app, Hcount, upto_succ, map_app by auto.
    rewrite (grouping_ids _ _ _ _ G). simpl. rewrite Hnext. reflexivity.
  - intros r Hr. apply in_app_or in Hr. destruct Hr as [Hr|[<-|[]]].
    + pose proof (grouping_recorded _ _ _ _ G r Hr) as R.
      pose proof (grouping_id_range _ _ _ _ r G Hr) as Hid.
      destruct R as [R1 R2 R3 R4 R5 R6 R7].
      split; auto;
        cbn [m_pixels m_groupNumberToCentroid m_groupNumberToPixel].
      * intros p Hp.
        rewrite (searching_other _ _ _ _ Sg p (Hold r p Hr Hp)). auto.
      * rewrite value_insert.
        destruct (Z.eqb_spec (region_id r) (m_boundaryGroupNext this));
          [lia | auto].
      * rewrite value_insert.
        destruct (Z.eqb_spec (region_id r) (m_boundaryGroupNext this));
          [lia | auto].
    + split; cbn [region_id region_anchor region_members m_pixels
                  m_groupNumberToCentroid m_groupNumberToPixel].
      * apply (grouping_adjacent this0 (row, col) regions this (row, col) Hfirst G); auto.
      * intros p. rewrite Hvis.
        apply (grouping_connected this0 (row, col) regions this); auto.
      * apply Sg.
      * apply (searching_marked _ _ _ _ Sg).
      * rewrite value_insert, Z.eqb_refl.
        rewrite (searching_rowSum _ _ _ _ Sg), (searching_colSum _ _ _ _ Sg),
          (searching_centroidCount _ _ _ _ Sg).
        reflexivity.
      * rewrite value_insert, Z.eqb_refl. reflexivity.
      * intros p Hp. apply Hvis in Hp. apply connected_right in Hp.
        pose proof (grouping_scanned _ _ _ _ G p) as Hs.
        unfold scanned_before, earlier in *. simpl in *.
        destruct (Z_lt_le_dec (fst p) row) as [H1|H1]; [tauto|].
        destruct (Z.eq_dec (fst p) row) as [H2|H2]; [|lia].
        destruct (Z_lt_le_dec (snd p) col) as [H3|H3]; [tauto|]. lia.
  - intros p Hp.
    assert (Hnv : ~ In p vis).
    { intros Hin.
      apply (Hp (mkRegion (m_boundaryGroupNext this) (row, col) vis));
        [apply in_or_app; right; left; auto | exact Hin]. }
    rewrite (searching_other _ _ _ _ Sg p Hnv). cbn [pixels].
    apply (grouping_other _ _ _ _ G).
    intros r Hr. apply Hp. apply in_or_app; auto.
  - intros p Hp Ha.
    destruct (in_dec cell_eq_dec p vis) as [Hin|Hin].
    + unfold adjacentAt in Ha.
      rewrite (searching_marked _ _ _ _ Sg p Hin) in Ha.
      injection Ha as Ha.
      unfold BOUNDARY_GROUP_FIRST, PIXEL_STATE_ADJACENT in *. lia.
    + unfold adjacentAt in Ha.
      rewrite (searching_other _ _ _ _ Sg p Hin) in Ha. cbn [pixels] in Ha.
      destruct (cell_eq_dec p (row, col)) as [->|Hne].
      * apply Hin. apply Hvis. apply connected_refl. exact Hc.
      * apply (grouping_scanned _ _ _ _ G p); [|exact Ha].
        destruct p as [r c]. unfold earlier in *. simpl in *.
        assert (r <> row \/ c <> col)
          by (destruct (Z.eq_dec r row); [right|left]; congruence).
        lia.
  - intros k Hk. destruct (Hids k Hk) as [Hne Hout].
    rewrite value_insert.
    destruct (Z.eqb_spec k (m_boundaryGroupNext this)); [congruence|].
    apply (grouping_centroids _ _ _ _ G); auto.
  - intros k Hk. destruct (Hids k Hk) as [Hne Hout].
    rewrite value_insert.
    destruct (Z.eqb_spec k (m_boundaryGroupNext this)); [congruence|].
    apply (grouping_anchors _ _ _ _ G); auto.
  - intros H. apply sortedKeys_insert. apply (grouping_sorted _ _ _ _ G H).
Qed.

(** One round of the loop on [col]. *)
Lemma group_cell this0 row col regions this :
  BOUNDARY_GROUP_FIRST <= m_boundaryGroupNext this0 ->
  grouping this0 (row, col) regions this ->
  inside (m_pixels this) (row, col) ->
  exists this',
    (p <- getPixel (m_pixels this) row col ;;
     if p =? PIXEL_STATE_ADJACENT then
       s <- recursiveSearchForAdjacentPixels (groupFuel (m_pixels this))
              (m_boundaryGroupNext this) row col
              (mkSearch (m_pixels this) 0 0 0) ;;
       if 0 <? centroidCount s then
         Ok (mkGridHealer
               (m_boundaryGroupNext this + 1)
               (QMap.insert (m_groupNumberToCentroid this)
                  (m_boundaryGroupNext this)
                  (QPointF.mk
                     (rowCentroidSum s / inject_Z (centroidCount s))
                     (colCentroidSum s / inject_Z (centroidCount s))))
               (QMap.insert (m_groupNumberToPixel this)
                  (m_boundaryGroupNext this)
                  (QPointF.mk (inject_Z row) (inject_Z col)))
               (closeDistance this)
               (pixels s))
       else Ok (with_pixels this (pixels s))
     else Ok this) = Ok this' /\
    exists regions', grouping this0 (row, col + 1) regions' this'.
Proof.
  intros Hfirst G Hin.
  pose proof (grouping_rect _ _ _ _ G) as Hrect.
  destruct (stateAt_inside _ _ Hrect Hin) as (p & Ep).
  unfold stateAt in Ep. cbn [fst snd] in Ep. rewrite Ep. cbn [bind].
  change (stateAt (m_pixels this) (row, col) = Ok p) in Ep.
  destruct (Z.eqb_spec p PIXEL_STATE_ADJACENT) as [->|Hp].
  - assert (Hg : m_boundaryGroupNext this <> PIXEL_STATE_ADJACENT).
    { rewrite (grouping_next _ _ _ _ G).
      unfold BOUNDARY_GROUP_FIRST, PIXEL_STATE_ADJACENT, QVector.count in *.
      lia. }
    destruct (search_correct (groupFuel (m_pixels this))
                (m_boundaryGroupNext this) Hg
                (mkSearch (m_pixels this) 0 0 0) row col)
      as (vis & s & E & Sg & Hvis); auto.
    { apply adjacentCount_fuel. }
    rewrite E. cbn [bind].
    assert (Hpos : (0 <? centroidCount s) = true).
    { apply Z.ltb_lt. rewrite (searching_centroidCount _ _ _ _ Sg).
      assert (Hv : In (row, col) vis)
        by (apply Hvis; apply connected_refl; exact Ep).
      destruct vis; [destruct Hv | simpl; lia]. }
    rewrite Hpos. eexists. split; [reflexivity|].
    eexists. apply (grouping_record this0 row col regions this vis s); auto.
  - exists this. split; auto. exists regions.
    apply grouping_pass; auto. unfold adjacentAt. congruence.
Qed.

(** One round of the loop on [row]. *)
Lemma group_row this0 row regions this :
  BOUNDARY_GROUP_FIRST <= m_boundaryGroupNext this0 ->
  grouping this0 (row, 0) regions this ->
  0 <= row < QVector.count (m_pixels this) ->
  exists this',
    (w <- count0 (m_pixels this) ;;
     forEach (upto w) (fun col this =>
       p <- getPixel (m_pixels this) row col ;;
       if p =? PIXEL_STATE_ADJACENT then
         s <- recursiveSearchForAdjacentPixels (groupFuel (m_pixels this))
                (m_boundaryGroupNext this) row col
                (mkSearch (m_pixels this) 0 0 0) ;;
         if 0 <? centroidCount s then
           Ok (mkGridHealer
                 (m_boundaryGroupNext this + 1)
                 (QMap.insert (m_groupNumberToCentroid this)
                    (m_boundaryGroupNext this)
                    (QPointF.mk
                       (rowCentroidSum s / inject_Z (centroidCount s))
                       (colCentroidSum s / inject_Z (centroidCount s))))
                 (QMap.insert (m_groupNumberToPixel this)
                    (m_boundaryGroupNext this)
                    (QPointF.mk (inject_Z row) (inject_Z col)))
                 (closeDistance this)
                 (pixels s))
         else Ok (with_pixels this (pixels s))
       else Ok this) this) = Ok this' /\
    exists regions', grouping this0 (row + 1, 0) regions' this'.
Proof.
  intros Hfirst G Hrow.
  rewrite count0_rows by lia. cbn [bind].
  assert (Hw : 0 <= widthOf (m_pixels this)).
  { unfold widthOf, QVector.count. destruct (m_pixels this); lia. }
  match goal with
  | |- exists this', forEach (upto ?w) ?b ?st = Ok this' /\ _ =>
      destruct (forEach_upto_invariant
                  (fun col s =>
                     exists regions', grouping this0 (row, col) regions' s)
                  b w) with (s0 := st) as (this' & E & regions' & G')
  end.
  - intros col s Hcol (regions1 & G1).
    apply (group_cell this0 row col regions1 s); auto.
    split; simpl.
    + rewrite (grouping_count _ _ _ _ G1), <- (grouping_count _ _ _ _ G).
      exact Hrow.
    + rewrite (grouping_width _ _ _ _ G1), <- (grouping_width _ _ _ _ G).
      exact Hcol.
  - exists regions. exact G.
  - exists this'. split; [exact E|]. exists regions'.
    apply grouping_next_row.
    rewrite Z.max_r in G' by auto.
    rewrite (grouping_width _ _ _ _ G'), <- (grouping_width _ _ _ _ G).
    exact G'.
Qed.

(** The grouping goes through the whole grid. *)
Lemma groupContiguousAdjacentPixels_grouping this :
  rectangular (m_pixels this) = true ->
  BOUNDARY_GROUP_FIRST <= m_boundaryGroupNext this ->
  exists this' regions,
    groupContiguousAdjacentPixels this = Ok this' /\
    grouping this (QVector.count (m_pixels this), 0) regions this'.
Proof.
  intros Hrect Hfirst. unfold groupContiguousAdjacentPixels.
  match goal with
  | |- exists this' regions, forEach (upto ?n) ?b ?st = Ok this' /\ _ =>
      destruct (forEach_upto_invariant
                  (fun row s =>
                     exists regions', grouping this (row, 0) regions' s)
                  b n) with (s0 := st) as (this' & E & regions' & G')
  end.
  - intros row s Hrow (regions1 & G1).
    apply (group_row this row regions1 s); auto.
    rewrite (grouping_count _ _ _ _ G1). exact Hrow.
  - exists []. apply grouping_start; auto.
  - exists this', regions'. split; [exact E|].
    rewrite Z.max_r in G' by (unfold QVector.count; lia). exact G'.
Qed.

Lemma regions_dec (regions : list Region) (p : cell) :
  (exists r, In r regions /\ In p (region_members r)) \/
  (forall r, In r regions -> ~ In p (region_members r)).
Proof.
  induction regions as [|r regions IH].
  - right. intros r [].
  - destruct (in_dec cell_eq_dec p (region_members r)) as [Hin|Hin].
    + left. exists r. split; [left; auto | auto].
    + destruct IH as [(r' & Hr' & Hp)|IH].
      * left. exists r'. split; [right; auto | auto].
      * right. intros r' [<-|Hr']; auto.
Qed.

Lemma grouping_end this0 regions this p :
  grouping this0 (QVector.count (m_pixels this0), 0) regions this ->
  ~ adjacentAt (m_pixels this) p.
Proof.
  intros G Ha.
  pose proof (stateAt_Ok_inside _ _ _ (grouping_rect _ _ _ _ G) Ha) as Hin.
  apply (grouping_scanned _ _ _ _ G p); auto.
  unfold earlier, inside in *. simpl.
  rewrite (grouping_count _ _ _ _ G) in Hin. lia.
Qed.

(** C10. After [groupContiguousAdjacentPixels] no pixel is adjacent: every
    pixel that was adjacent has the group number of the region that it is a
    member of, which is at least [BOUNDARY_GROUP_FIRST] and has a centroid
    and an anchor in the maps, and every other pixel keeps its state. *)
Theorem groupContiguousAdjacentPixels_recolors (this : GridHealer) :
  rectangular (m_pixels this) = true ->
  BOUNDARY_GROUP_FIRST <= m_boundaryGroupNext this ->
  exists this' regions,
    groupContiguousAdjacentPixels this = Ok this' /\
    (forall p, ~ adjacentAt (m_pixels this') p) /\
    (forall p, adjacentAt (m_pixels this) p ->
       exists r, In r regions /\ In p (region_members r) /\
                 stateAt (m_pixels this') p = Ok (region_id r) /\
                 BOUNDARY_GROUP_FIRST <= region_id r /\
                 QMap.contains (m_groupNumberToCentroid this') (region_id r)
                 = true /\
                 QMap.contains (m_groupNumberToPixel this') (region_id r)
                 = true) /\
    (forall p, ~ adjacentAt (m_pixels this) p ->
       stateAt (m_pixels this') p = stateAt (m_pixels this) p) /\
    rectangular (m_pixels this') = true /\
    QVector.count (m_pixels this') = QVector.count (m_pixels this) /\
    widthOf (m_pixels this') = widthOf (m_pixels this).
Proof.
  intros Hrect Hfirst.
  destruct (groupContiguousAdjacentPixels_grouping this Hrect Hfirst)
    as (this' & regions & E & G).
  exists this', regions. split; [exact E|].
  split; [intros p; apply (grouping_end this regions this' p G)|].
  split; [|split; [|split; [apply G | split; apply G]]].
  - intros p Hp. destruct (regions_dec regions p) as [(r & Hr & Hin)|Hout].
    + exists r. pose proof (grouping_recorded _ _ _ _ G r Hr) as R.
      pose proof (grouping_id_range _ _ _ _ r G Hr) as Hid.
      split; auto. split; auto.
      split; [apply (recorded_state _ _ _ R); auto|].
      split; [lia|].
      unfold QMap.contains.
      rewrite (recorded_centroid _ _ _ R), (recorded_pixel _ _ _ R). auto.
    + exfalso. apply (grouping_end this regions this' p G).
      apply (grouping_adjacent this _ regions this' p Hfirst G). auto.
  - intros p Hp. apply (grouping_other _ _ _ _ G).
    intros r Hr Hin. apply Hp.
    pose proof (grouping_recorded _ _ _ _ G r Hr) as R.
    apply (recorded_members _ _ _ R) in Hin.
    eapply connected_right; eauto.
Qed.

Lemma groupContiguousAdjacentPixels_recolors_witness :
  exists this',
    groupContiguousAdjacentPixels (healer5x5 10) = Ok this' /\
    ~ adjacentAt (m_pixels this') (2, 3) /\
    stateAt (m_pixels this') (1, 1) = Ok PIXEL_STATE_BACKGROUND.
Proof.
  destruct (groupContiguousAdjacentPixels_recolors (healer5x5 10))
    as (this' & regions & E & H1 & _ & H3 & _).
  - reflexivity.
  - vm_compute; congruence.
  - exists this'. split; [exact E|]. split; [apply H1|].
    rewrite H3; [reflexivity|]. vm_compute; congruence.
Defined.

Lemma sumRows_total l : forall acc,
  (sumRows acc l == acc + inject_Z (total (map fst l)))%Q.
Proof.
  unfold sumRows. induction l as [|p l IH]; intros acc; simpl.
  - ring.
  - rewrite IH, inject_Z_plus. ring.
Qed.

Lemma sumCols_total l : forall acc,
  (sumCols acc l == acc + inject_Z (total (map snd l)))%Q.
Proof.
  unfold sumCols. induction l as [|p l IH]; intros acc; simpl.
  - ring.
  - rewrite IH, inject_Z_plus. ring.
Qed.

(** The pixels that are connected to [a] are connected to it through such
    pixels. *)
Lemma connected_within A a p :
  connected A a p -> connected (connected A a) a p.
Proof.
  induction 1 as [Ha | q r Hq IH Hqr Hr].
  - apply connected_refl. apply connected_refl. exact Ha.
  - apply connected_step with q; auto.
    apply connected_step with q; auto.
Qed.

Lemma NoDup_upto n : NoDup (upto n).
Proof.
  unfold upto. apply Injective_map_NoDup.
  - intros a b. apply Nat2Z.inj.
  - apply seq_NoDup.
Qed.

Lemma NoDup_map_eq {A B} (f : A -> B) (l : list A) a b :
  NoDup (map f l) -> In a l -> In b l -> f a = f b -> a = b.
Proof.
  induction l as [|c l IH]; simpl; [tauto|].
  intros Hnd Ha Hb Hab. inversion Hnd as [|? ? Hc Hnd']; subst.
  destruct Ha as [->|Ha], Hb as [->|Hb]; auto.
  - exfalso. apply Hc. rewrite Hab. apply in_map; auto.
  - exfalso. apply Hc. rewrite <- Hab. apply in_map; auto.
Qed.


(** C6. The assertion at the entry of the search does not fail in the
    grouping.  A search that the scan starts, on a pixel that it has found
    adjacent, returns without any error, whatever happens in its nested
    calls, with a count of at least 1; the whole grouping returns without
    error; every region that it records has its anchor among its members,
    and every group number that it adds to the map of the centroids is the
    number of such a region.  The assertion is there: a search on a pixel
    that is not adjacent is the error [AssertionFailed]. *)
Theorem recursiveSearch_assertion (this : GridHealer) :
  rectangular (m_pixels this) = true ->
  BOUNDARY_GROUP_FIRST <= m_boundaryGroupNext this ->
  (forall row col fuel,
     stateAt (m_pixels this) (row, col) = Ok PIXEL_STATE_ADJACENT ->
     (adjacentCount (m_pixels this) < fuel)%nat ->
     exists s,
       recursiveSearchForAdjacentPixels fuel (m_boundaryGroupNext this)
         row col (mkSearch (m_pixels this) 0 0 0) = Ok s /\
       0 < centroidCount s) /\
  (adjacentCount (m_pixels this) < groupFuel (m_pixels this))%nat /\
  (exists this' regions,
     groupContiguousAdjacentPixels this = Ok this' /\
     (forall r, In r regions ->
        In (region_anchor r) (region_members r) /\
        (1 <= length (region_members r))%nat /\
        stateAt (m_pixels this') (region_anchor r) = Ok (region_id r)) /\
     (forall g,
        QMap.value (m_groupNumberToCentroid this') g
        <> QMap.value (m_groupNumberToCentroid this) g ->
        exists r, In r regions /\ region_id r = g)) /\
  (forall row col fuel g v s,
     getPixel (pixels s) row col = Ok v -> v <> PIXEL_STATE_ADJACENT ->
     recursiveSearchForAdjacentPixels (S fuel) g row col s
     = Err AssertionFailed).
Proof.
  intros Hrect Hfirst. split; [|split; [|split]].
  - intros row col fuel Hadj Hfuel.
    assert (Hg : m_boundaryGroupNext this <> PIXEL_STATE_ADJACENT)
      by (unfold BOUNDARY_GROUP_FIRST, PIXEL_STATE_ADJACENT in *; lia).
    destruct (search_correct fuel (m_boundaryGroupNext this) Hg
                (mkSearch (m_pixels this) 0 0 0) row col)
      as (vis & s & E & Sg & Hvis); auto.
    exists s. split; [exact E|].
    rewrite (searching_centroidCount _ _ _ _ Sg).
    assert (Hv : In (row, col) vis)
      by (apply Hvis; apply connected_refl; exact Hadj).
    destruct vis; [destruct Hv | simpl; lia].
  - apply adjacentCount_fuel.
  - destruct (groupContiguousAdjacentPixels_grouping this Hrect Hfirst)
      as (this' & regions & E & G).
    exists this', regions. split; [exact E|]. split.
    + intros r Hr.
      destruct (grouping_recorded _ _ _ _ G r Hr) as [R1 R2 R3 R4 R5 R6 R7].
      assert (Ha : In (region_anchor r) (region_members r))
        by (apply R2; apply connected_refl; auto).
      split; [exact Ha|]. split; [|apply R4; exact Ha].
      destruct (region_members r); [destruct Ha | simpl; lia].
    + intros g Hg.
      destruct (in_dec Z.eq_dec g (map region_id regions)) as [Hin|Hout].
      * apply in_map_iff in Hin. destruct Hin as (r & <- & Hr). eauto.
      * exfalso. apply Hg. apply (grouping_centroids _ _ _ _ G); auto.
  - intros row col fuel g v s Hv Hne.
    cbn [recursiveSearchForAdjacentPixels]. rewrite Hv. cbn [bind].
    destruct (Z.eqb_spec v PIXEL_STATE_ADJACENT); [congruence | reflexivity].
Qed.

Lemma recursiveSearch_assertion_witness :
  (exists s,
     recursiveSearchForAdjacentPixels (groupFuel grid5x5) BOUNDARY_GROUP_FIRST
       2 2 (mkSearch grid5x5 0 0 0) = Ok s /\
     0 < centroidCount s) /\
  recursiveSearchForAdjacentPixels (groupFuel grid5x5) BOUNDARY_GROUP_FIRST
    1 1 (mkSearch grid5x5 0 0 0) = Err AssertionFailed.
Proof.
  destruct (recursiveSearch_assertion (healer5x5 10)) as (H1 & H2 & _ & H4).
  - reflexivity.
  - vm_compute; congruence.
  - split.
    + apply (H1 2 2 (groupFuel grid5x5)); [reflexivity | exact H2].
    + apply (H4 1 1 _ _ PIXEL_STATE_BACKGROUND); [reflexivity|].
      vm_compute; congruence.
Defined.

(* ================================================================== *)
(** * The arithmetic of the line *)

Lemma toInt_floor d : (0 <= d)%Q -> toInt d = Qfloor d.
Proof.
  unfold toInt, Qfloor, Qle. destruct d as [n m]. simpl. intros H.
  apply Z.quot_div_nonneg; lia.
Qed.

Lemma inject_Z_nonzero n : n <> 0 -> ~ (inject_Z n == 0)%Q.
Proof. intros Hn H. unfold Qeq in H. simpl in H. lia. Qed.

Lemma interpolation_formula (a b index n : Z) :
  0 < n ->
  (0.5 + (1 - inject_Z index / inject_Z n) * inject_Z a
   + (inject_Z index / inject_Z n) * inject_Z b
   == inject_Z (n + 2 * ((n - index) * a + index * b)) / inject_Z (2 * n))%Q.
Proof.
  intros Hn.
  rewrite !inject_Z_plus, !inject_Z_mult, !inject_Z_plus, !inject_Z_mult.
  unfold Zminus. rewrite inject_Z_plus, inject_Z_opp.
  assert (Hn0 : ~ (inject_Z n == 0)%Q) by (apply inject_Z_nonzero; lia).
  field. auto.
Qed.

(** The rounded interpolation, as an integer division. *)
Lemma toInt_interpolation (a b index n : Z) :
  0 <= a -> 0 <= b -> 0 < n -> 0 <= index <= n ->
  toInt (0.5 + (1 - inject_Z index / inject_Z n) * inject_Z a
         + (inject_Z index / inject_Z n) * inject_Z b)%Q
  = (n + 2 * ((n - index) * a + index * b)) / (2 * n).
Proof.
  intros Ha Hb Hn Hi.
  pose proof (interpolation_formula a b index n Hn) as E.
  rewrite toInt_floor.
  - rewrite (Qfloor_comp _ _ E). symmetry. apply Zdiv_Qdiv.
  - rewrite E. apply Qle_shift_div_l.
    + rewrite <- (Zlt_Qlt 0). lia.
    + rewrite Qmult_0_l. rewrite <- (Zle_Qle 0). nia.
Qed.

Lemma interpolation_between (a b index n : Z) :
  0 < n -> 0 <= index <= n ->
  Z.min a b <= (n + 2 * ((n - index) * a + index * b)) / (2 * n)
  <= Z.max a b.
Proof.
  intros Hn Hi. split.
  - apply Z.div_le_lower_bound; [lia|].
    destruct (Z.min_spec a b) as [[H ->]|[H ->]]; nia.
  - assert (H : (n + 2 * ((n - index) * a + index * b)) / (2 * n)
                < Z.max a b + 1); [|lia].
    apply Z.div_lt_upper_bound; [lia|].
    destruct (Z.max_spec a b) as [[H ->]|[H ->]]; nia.
Qed.

Lemma lineCount_pointOf (a b : cell) :
  lineCount (pointOf a) (pointOf b)
  = 1 + Z.max (Z.abs (fst a - fst b)) (Z.abs (snd a - snd b)).
Proof.
  unfold lineCount, pointOf. cbn [QPointF.x QPointF.y].
  set (u := Z.abs (fst a - fst b)). set (v := Z.abs (snd a - snd b)).
  assert (Hu : (Qabs (inject_Z (fst a) - inject_Z (fst b)) == inject_Z u)%Q).
  { unfold u. unfold Qminus. rewrite <- inject_Z_opp, <- inject_Z_plus.
    reflexivity. }
  assert (Hv : (Qabs (inject_Z (snd a) - inject_Z (snd b)) == inject_Z v)%Q).
  { unfold v. unfold Qminus. rewrite <- inject_Z_opp, <- inject_Z_plus.
    reflexivity. }
  assert (E : (1 + Qmax (Qabs (inject_Z (fst a) - inject_Z (fst b)))
                        (Qabs (inject_Z (snd a) - inject_Z (snd b)))
               == inject_Z (1 + Z.max u v))%Q).
  { rewrite Hu, Hv, inject_Z_plus.
    apply Qplus_comp; [reflexivity|].
    destruct (Z.max_spec u v) as [[H ->]|[H ->]].
    - apply Q.max_r. rewrite <- Zle_Qle. lia.
    - apply Q.max_l. rewrite <- Zle_Qle. lia. }
  rewrite toInt_floor.
  - rewrite (Qfloor_comp _ _ E). apply Qfloor_Z.
  - rewrite E. rewrite <- (Zle_Qle 0). unfold u, v. lia.
Qed.

Lemma linePixel_pointOf (a b : cell) (count index : Z) :
  0 <= fst a -> 0 <= snd a -> 0 <= fst b -> 0 <= snd b ->
  1 < count -> 0 <= index < count ->
  linePixel (pointOf a) (pointOf b) count index
  = ((count - 1 + 2 * ((count - 1 - index) * fst a + index * fst b))
       / (2 * (count - 1)),
     (count - 1 + 2 * ((count - 1 - index) * snd a + index * snd b))
       / (2 * (count - 1))).
Proof.
  intros Ha1 Ha2 Hb1 Hb2 Hc Hi. unfold linePixel, pointOf.
  cbn [QPointF.x QPointF.y]. cbv zeta.
  rewrite !toInt_interpolation by lia. reflexivity.
Qed.

(** The pixels of a line are between its two ends. *)
Lemma linePixel_between (a b : cell) (count index : Z) :
  0 <= fst a -> 0 <= snd a -> 0 <= fst b -> 0 <= snd b ->
  1 < count -> 0 <= index < count ->
  Z.min (fst a) (fst b)
  <= fst (linePixel (pointOf a) (pointOf b) count index)
  <= Z.max (fst a) (fst b) /\
  Z.min (snd a) (snd b)
  <= snd (linePixel (pointOf a) (pointOf b) count index)
  <= Z.max (snd a) (snd b).
Proof.
  intros Ha1 Ha2 Hb1 Hb2 Hc Hi.
  rewrite linePixel_pointOf by auto. cbn [fst snd].
  split; apply interpolation_between; lia.
Qed.

Lemma linePixel_inside m (a b : cell) (count index : Z) :
  inside m a -> inside m b -> 1 < count -> 0 <= index < count ->
  inside m (linePixel (pointOf a) (pointOf b) count index).
Proof.
  intros [Ha1 Ha2] [Hb1 Hb2] Hc Hi.
  destruct (linePixel_between a b count index) as [H1 H2]; try lia.
  unfold inside. lia.
Qed.

(* ================================================================== *)
(** * connectCloseGroups *)

Lemma painted_refl st : rectangular (fst st) = true -> painted st [] st.
Proof.
  intros H. split; auto. intros p [].
Qed.

Lemma painted_app st0 st1 st2 L1 L2 :
  painted st0 L1 st1 -> painted st1 L2 st2 -> painted st0 (L1 ++ L2) st2.
Proof.
  intros P1 P2. split.
  - apply P2.
  - rewrite (painted_count _ _ _ P2). apply P1.
  - rewrite (painted_width _ _ _ P2). apply P1.
  - rewrite (painted_image_width _ _ _ P2). apply P1.
  - rewrite (painted_image_height _ _ _ P2). apply P1.
  - intros p Hp. destruct (in_dec cell_eq_dec p L2) as [H2|H2].
    + apply (painted_healed _ _ _ P2); auto.
    + destruct (painted_other _ _ _ P2 p H2) as [E1 E2]. rewrite E1, E2.
      apply (painted_healed _ _ _ P1).
      apply in_app_or in Hp. tauto.
  - intros p Hp.
    destruct (painted_other _ _ _ P2 p) as [E1 E2];
      [intros H; apply Hp; apply in_or_app; auto|].
    destruct (painted_other _ _ _ P1 p) as [E3 E4];
      [intros H; apply Hp; apply in_or_app; auto|].
    split; congruence.
Qed.

Lemma painted_fits st0 L st :
  painted st0 L st -> fits (fst st0) (snd st0) = true ->
  fits (fst st) (snd st) = true.
Proof.
  intros P. unfold fits.
  rewrite (painted_count _ _ _ P), (painted_width _ _ _ P),
    (painted_image_width _ _ _ P), (painted_image_height _ _ _ P). auto.
Qed.

Lemma painted_inside st0 L st p :
  painted st0 L st -> inside (fst st) p <-> inside (fst st0) p.
Proof.
  intros P. unfold inside.
  rewrite (painted_count _ _ _ P), (painted_width _ _ _ P). tauto.
Qed.

(** One round of the loop on [index]. *)
Lemma healPixel_painted pixelPointFrom pixelPointTo count index st :
  rectangular (fst st) = true -> fits (fst st) (snd st) = true ->
  inside (fst st) (linePixel pixelPointFrom pixelPointTo count index) ->
  exists st',
    healPixel pixelPointFrom pixelPointTo count index st = Ok st' /\
    painted st [linePixel pixelPointFrom pixelPointTo count index] st'.
Proof.
  destruct st as [m image]. cbn [fst snd]. intros Hrect Hfits Hin.
  unfold healPixel.
  set (p := linePixel pixelPointFrom pixelPointTo count index) in *.
  change (toInt (0.5 + (1 - inject_Z index / inject_Z (count - 1))
                       * QPointF.y pixelPointFrom
                 + inject_Z index / inject_Z (count - 1)
                   * QPointF.y pixelPointTo)%Q) with (snd p).
  change (toInt (0.5 + (1 - inject_Z index / inject_Z (count - 1))
                       * QPointF.x pixelPointFrom
                 + inject_Z index / inject_Z (count - 1)
                   * QPointF.x pixelPointTo)%Q) with (fst p).
  cbv zeta.
  destruct (setPixel_inside m p PIXEL_STATE_HEALED Hrect Hin) as (m' & E).
  rewrite E. cbn [bind].
  pose proof (setPixel_Ok _ _ _ _ Hrect E) as [W1 W2 W3 W4 W5].
  unfold QImage.setPixel.
  assert (Hvalid : QImage.valid image (snd p) (fst p) = true).
  { unfold QImage.valid, fits, inside in *.
    apply andb_true_iff in Hfits. destruct Hfits as [F1 F2].
    apply Z.leb_le in F1, F2.
    repeat (apply andb_true_iff; split);
      try apply Z.leb_le; try apply Z.ltb_lt; lia. }
  rewrite Hvalid. cbn [bind]. eexists. split; [reflexivity|].
  split; cbn [fst snd QImage.width QImage.height QImage.pixel]; auto.
  - intros q [<-|[]]. split; auto. rewrite !Z.eqb_refl. reflexivity.
  - intros q Hq. split.
    + apply W5. intros ->. apply Hq. left; auto.
    + destruct (Z.eqb_spec (snd q) (snd p)); [|reflexivity].
      destruct (Z.eqb_spec (fst q) (fst p)); [|reflexivity].
      exfalso. apply Hq. left. destruct p, q; simpl in *; congruence.
Qed.

(** The loop on [index]. *)
Lemma drawLine_painted (a b : cell) count st :
  rectangular (fst st) = true -> fits (fst st) (snd st) = true ->
  inside (fst st) a -> inside (fst st) b -> 1 < count ->
  exists st',
    forEach (upto count) (healPixel (pointOf a) (pointOf b) count) st
    = Ok st' /\
    painted st (map (linePixel (pointOf a) (pointOf b) count) (upto count))
      st'.
Proof.
  intros Hrect Hfits Ha Hb Hc.
  apply (forEach_invariant
           (fun done s =>
              painted st (map (linePixel (pointOf a) (pointOf b) count) done)
                s)).
  - intros done index s P Hi. apply In_upto in Hi.
    destruct (healPixel_painted (pointOf a) (pointOf b) count index s)
      as (s' & E & P').
    + apply P.
    + apply (painted_fits _ _ _ P); auto.
    + apply linePixel_inside; auto; apply (painted_inside _ _ _ _ P); auto.
    + exists s'. split; [exact E|]. rewrite map_app.
      apply (painted_app _ _ _ _ _ P P').
  - apply painted_refl; auto.
Qed.

(** The body of the loop on [itrTo], for two anchors in the grid. *)
Lemma connectPair_painted closeDistance posCentroidFrom posCentroidTo
  (a b : cell) st :
  rectangular (fst st) = true -> fits (fst st) (snd st) = true ->
  inside (fst st) a -> inside (fst st) b ->
  exists st',
    connectPair (closeDistance * closeDistance)%Q
      posCentroidFrom (pointOf a) posCentroidTo (pointOf b) st = Ok st' /\
    painted st
      (if isClose closeDistance posCentroidFrom posCentroidTo
       then linePixels (pointOf a) (pointOf b) else []) st'.
Proof.
  intros Hrect Hfits Ha Hb. unfold connectPair. cbv zeta.
  fold (lineCount (pointOf a) (pointOf b)).
  change (Qltb _ (closeDistance * closeDistance)%Q)
    with (isClose closeDistance posCentroidFrom posCentroidTo).
  destruct (isClose closeDistance posCentroidFrom posCentroidTo).
  - unfold linePixels. cbv zeta.
    destruct (Z.ltb_spec 1 (lineCount (pointOf a) (pointOf b))) as [Hc|Hc].
    + apply drawLine_painted; auto.
    + exists st. split; auto. apply painted_refl; auto.
  - exists st. split; auto. apply painted_refl; auto.
Qed.

Lemma anchored_painted this st0 L st :
  painted st0 L st -> anchored this (fst st0) -> anchored this (fst st).
Proof.
  intros P H e He. destruct (H e He) as (a & Ea & Ha).
  exists a. split; auto. apply (painted_inside _ _ _ _ P); auto.
Qed.

(** The loop on [itrTo]. *)
Lemma connect_inner this (itrFrom : Z * QPointF.t) (a : cell) rest st :
  rectangular (fst st) = true -> fits (fst st) (snd st) = true ->
  anchored this (fst st) ->
  QMap.value (m_groupNumberToPixel this) (fst itrFrom) = Some (pointOf a) ->
  inside (fst st) a ->
  (forall e, In e rest -> In e (m_groupNumberToCentroid this)) ->
  exists st',
    forEach rest (fun itrTo st =>
      let groupTo := fst itrTo in
      _ <- ENGAUGE_ASSERT
             (QMap.contains (m_groupNumberToPixel this) groupTo) ;;
      let posCentroidTo := snd itrTo in
      match QMap.value (m_groupNumberToPixel this) groupTo with
      | None => Err AssertionFailed
      | Some pixelPointTo =>
          connectPair (closeDistance this * closeDistance this)%Q
            (snd itrFrom) (pointOf a) posCentroidTo pixelPointTo st
      end) st = Ok st' /\
    painted st (flat_map (pairPixels this itrFrom) rest) st'.
Proof.
  intros Hrect Hfits Hanch Hfrom Ha Hrest.
  apply (forEach_invariant
           (fun done s =>
              painted st (flat_map (pairPixels this itrFrom) done) s)).
  - intros done itrTo s P Hin.
    destruct (anchored_painted this _ _ _ P Hanch itrTo (Hrest _ Hin))
      as (b & Eb & Hb).
    cbv zeta. unfold QMap.contains. rewrite Eb. cbn [ENGAUGE_ASSERT bind].
    destruct (connectPair_painted (closeDistance this) (snd itrFrom)
                (snd itrTo) a b s) as (s' & E & P'); auto.
    + apply P.
    + apply (painted_fits _ _ _ P); auto.
    + apply (painted_inside _ _ _ _ P); auto.
    + exists s'. split; [exact E|].
      rewrite flat_map_app. cbn [flat_map]. rewrite app_nil_r.
      unfold pairPixels at 2. rewrite Hfrom, Eb.
      apply (painted_app _ _ _ _ _ P P').
  - apply painted_refl; auto.
Qed.

Lemma flat_map_map {A B C} (f : B -> list C) (g : A -> B) (l : list A) :
  flat_map f (map g l) = flat_map (fun a => f (g a)) l.
Proof.
  induction l as [|a l IH]; simpl; [reflexivity|]. rewrite IH. reflexivity.
Qed.

(** The loop on [itrFrom]. *)
Lemma connect_outer this l : forall st,
  rectangular (fst st) = true -> fits (fst st) (snd st) = true ->
  anchored this (fst st) ->
  (forall e, In e l -> In e (m_groupNumberToCentroid this)) ->
  exists st',
    forEachTail l (fun itrFrom rest st =>
      let groupFrom := fst itrFrom in
      _ <- ENGAUGE_ASSERT
             (QMap.contains (m_groupNumberToPixel this) groupFrom) ;;
      let posCentroidFrom := snd itrFrom in
      match QMap.value (m_groupNumberToPixel this) groupFrom with
      | None => Err AssertionFailed
      | Some pixelPointFrom =>
          forEach rest (fun itrTo st =>
            let groupTo := fst itrTo in
            _ <- ENGAUGE_ASSERT
                   (QMap.contains (m_groupNumberToPixel this) groupTo) ;;
            let posCentroidTo := snd itrTo in
            match QMap.value (m_groupNumberToPixel this) groupTo with
            | None => Err AssertionFailed
            | Some pixelPointTo =>
                connectPair (closeDistance this * closeDistance this)%Q
                  posCentroidFrom pixelPointFrom posCentroidTo pixelPointTo st
            end) st
      end) st = Ok st' /\
    painted st
      (flat_map (fun pr => pairPixels this (fst pr) (snd pr)) (allPairs l))
      st'.
Proof.
  induction l as [|itrFrom rest IH]; intros st Hrect Hfits Hanch Hl.
  - exists st. split; [reflexivity|]. apply painted_refl; auto.
  - cbn [forEachTail allPairs]. cbv zeta.
    destruct (Hanch itrFrom) as (a & Ea & Ha); [apply Hl; left; auto|].
    unfold QMap.contains at 1. rewrite Ea. cbn [ENGAUGE_ASSERT bind].
    destruct (connect_inner this itrFrom a rest st) as (st1 & E1 & P1); auto.
    { intros e He. apply Hl. right; auto. }
    cbv zeta in E1. rewrite E1. cbn [bind].
    destruct (IH st1) as (st2 & E2 & P2).
    + apply P1.
    + apply (painted_fits _ _ _ P1); auto.
    + apply (anchored_painted this _ _ _ P1); auto.
    + intros e He. apply Hl. right; auto.
    + exists st2. split; [exact E2|].
      rewrite flat_map_app, flat_map_map. cbn [fst snd].
      apply (painted_app _ _ _ _ _ P1 P2).
Qed.

(* ================================================================== *)
(** * The invariant of the healer *)

Lemma pointOf_inj a b : pointOf a = pointOf b -> a = b.
Proof.
  destruct a as [r c], b as [r' c']. unfold pointOf, inject_Z. simpl.
  intros H. injection H as -> ->. reflexivity.
Qed.

Lemma Some_pointOf_inj a b : Some (pointOf a) = Some (pointOf b) -> a = b.
Proof. intros H. apply pointOf_inj. congruence. Qed.



Lemma In_value (m : QMap.t) k c :
  In (k, c) m -> exists c', QMap.value m k = Some c'.
Proof.
  induction m as [|[k0 c0] m IH]; simpl; [tauto|].
  intros [[= -> ->]|H].
  - rewrite Z.eqb_refl. eauto.
  - destruct (k0 =? k); eauto.
Qed.

Lemma value_In (m : QMap.t) k c :
  QMap.value m k = Some c -> In (k, c) m.
Proof.
  induction m as [|[k0 c0] m IH]; simpl; [discriminate|].
  destruct (Z.eqb_spec k0 k) as [->|Hne].
  - intros [= ->]. left; auto.
  - intros H. right; auto.
Qed.

Lemma allPairs_In {A} (l : list A) a b :
  In (a, b) (allPairs l) -> In a l /\ In b l.
Proof.
  induction l as [|c l IH]; simpl; [tauto|].
  intros H. apply in_app_or in H. destruct H as [H|H].
  - apply in_map_iff in H. destruct H as (x & [= -> ->] & Hx). auto.
  - destruct (IH H). auto.
Qed.

Lemma allPairs_total {A} (l : list A) a b :
  In a l -> In b l ->
  a = b \/ In (a, b) (allPairs l) \/ In (b, a) (allPairs l).
Proof.
  induction l as [|c l IH]; simpl; [tauto|].
  intros [->|Ha] [->|Hb]; auto.
  - right. left. apply in_or_app. left. apply in_map; auto.
  - right. right. apply in_or_app. left. apply in_map; auto.
  - destruct (IH Ha Hb) as [H|[H|H]]; auto.
    + right. left. apply in_or_app. auto.
    + right. right. apply in_or_app. auto.
Qed.



Lemma Healthy_anchored this : Healthy this -> anchored this (m_pixels this).
Proof.
  intros H e He. destruct (Healthy_anchor _ H e He) as (a & Ea & Ha & _).
  eauto.
Qed.

(** The grouping keeps the invariant. *)
Lemma grouping_Healthy this regions this' :
  Healthy this ->
  grouping this (QVector.count (m_pixels this), 0) regions this' ->
  Healthy this'.
Proof.
  intros H G.
  pose proof (Healthy_first _ H) as Hfirst.
  assert (Hnew : forall k, In k (map region_id regions) ->
            exists r, In r regions /\ region_id r = k /\
                      QMap.value (m_groupNumberToPixel this') k
                      = Some (pointOf (region_anchor r)) /\
                      adjacentAt (m_pixels this) (region_anchor r) /\
                      stateAt (m_pixels this') (region_anchor r) = Ok k).
  { intros k Hk. apply in_map_iff in Hk. destruct Hk as (r & <- & Hr).
    destruct (grouping_recorded _ _ _ _ G r Hr) as [R1 R2 R3 R4 R5 R6 R7].
    exists r. repeat split; auto.
    apply R4. apply R2. apply connected_refl; auto. }
  assert (Hold : forall k c, ~ In k (map region_id regions) ->
            In (k, c) (m_groupNumberToCentroid this') ->
            exists c' a,
              In (k, c') (m_groupNumberToCentroid this) /\
              QMap.value (m_groupNumberToPixel this) k = Some (pointOf a) /\
              QMap.value (m_groupNumberToPixel this') k = Some (pointOf a) /\
              inside (m_pixels this) a /\
              stateAt (m_pixels this) a <> Ok PIXEL_STATE_FOREGROUND /\
              stateAt (m_pixels this) a <> Ok PIXEL_STATE_ADJACENT /\
              stateAt (m_pixels this') a = stateAt (m_pixels this) a).
  { intros k c Hk Hin. destruct (In_value _ _ _ Hin) as (c' & Ec).
    rewrite (grouping_centroids _ _ _ _ G k Hk) in Ec.
    apply value_In in Ec.
    destruct (Healthy_anchor _ H (k, c') Ec) as (a & Ea & Ha & Hs1 & Hs2).
    cbn [fst] in Ea.
    exists c', a. split; auto. split; auto.
    split; [rewrite (grouping_anchors _ _ _ _ G k Hk); auto|].
    split; auto. split; auto. split; auto.
    apply (grouping_other _ _ _ _ G).
    intros r Hr Hm. apply Hs2.
    apply (recorded_members _ _ _ (grouping_recorded _ _ _ _ G r Hr)) in Hm.
    exact (connected_right _ _ _ Hm). }
  split.
  - apply G.
  - rewrite (grouping_next _ _ _ _ G). unfold QVector.count. lia.
  - apply (grouping_sorted _ _ _ _ G). apply H.
  - intros [k c] He. cbn [fst].
    destruct (in_dec Z.eq_dec k (map region_id regions)) as [Hk|Hk].
    + destruct (Hnew k Hk) as (r & Hr & Hid & Ea & Hadj & Hst).
      exists (region_anchor r). split; auto. split.
      * unfold inside.
        rewrite (grouping_count _ _ _ _ G), (grouping_width _ _ _ _ G).
        eapply stateAt_Ok_inside; [apply H | exact Hadj].
      * pose proof (grouping_id_range _ _ _ _ r G Hr) as Hrange.
        rewrite Hst.
        unfold BOUNDARY_GROUP_FIRST, PIXEL_STATE_FOREGROUND,
          PIXEL_STATE_ADJACENT in *.
        split; intros [= E]; lia.
    + destruct (Hold k c Hk He) as (c' & a & _ & _ & Ea & Ha & Hs1 & Hs2 & E).
      exists a. split; auto. split.
      * unfold inside.
        rewrite (grouping_count _ _ _ _ G), (grouping_width _ _ _ _ G).
        exact Ha.
      * rewrite E. auto.
  - intros [k1 c1] [k2 c2] a He1 He2 Hne E1 E2. cbn [fst] in *.
    destruct (in_dec Z.eq_dec k1 (map region_id regions)) as [Hk1|Hk1];
      destruct (in_dec Z.eq_dec k2 (map region_id regions)) as [Hk2|Hk2].
    + destruct (Hnew k1 Hk1) as (r1 & Hr1 & Hid1 & Ea1 & _ & Hst1).
      destruct (Hnew k2 Hk2) as (r2 & Hr2 & Hid2 & Ea2 & _ & Hst2).
      rewrite E1 in Ea1. rewrite E2 in Ea2.
      apply Some_pointOf_inj in Ea1, Ea2. subst a.
      rewrite <- Ea2 in Hst2. congruence.
    + destruct (Hnew k1 Hk1) as (r1 & Hr1 & Hid1 & Ea1 & Hadj & _).
      destruct (Hold k2 c2 Hk2 He2) as (c' & b & _ & _ & Eb & _ & _ & Hs2 & _).
      rewrite E1 in Ea1. rewrite E2 in Eb.
      apply Some_pointOf_inj in Ea1, Eb. subst a b. exact (Hs2 Hadj).
    + destruct (Hnew k2 Hk2) as (r2 & Hr2 & Hid2 & Ea2 & Hadj & _).
      destruct (Hold k1 c1 Hk1 He1) as (c' & b & _ & _ & Eb & _ & _ & Hs2 & _).
      rewrite E2 in Ea2. rewrite E1 in Eb.
      apply Some_pointOf_inj in Ea2, Eb. subst a b. exact (Hs2 Hadj).
    + destruct (Hold k1 c1 Hk1 He1) as (c1' & b1 & Hin1 & Eo1 & Eb1 & _).
      destruct (Hold k2 c2 Hk2 He2) as (c2' & b2 & Hin2 & Eo2 & Eb2 & _).
      rewrite E1 in Eb1. rewrite E2 in Eb2.
      apply Some_pointOf_inj in Eb1, Eb2. subst b1 b2.
      apply (Healthy_distinct _ H (k1, c1') (k2, c2') a); auto.
Qed.

Lemma groupContiguousAdjacentPixels_Healthy this :
  Healthy this ->
  exists this' regions,
    groupContiguousAdjacentPixels this = Ok this' /\
    grouping this (QVector.count (m_pixels this), 0) regions this' /\
    Healthy this'.
Proof.
  intros H.
  destruct (groupContiguousAdjacentPixels_grouping this)
    as (this' & regions & E & G); try apply H.
  exists this', regions. split; auto. split; auto.
  apply (grouping_Healthy this regions this' H G).
Qed.

(** [connectCloseGroups] heals and paints the pixels of [healedPixels], and
    leaves the other pixels, the maps and the next group number as they
    are. *)
Lemma connectCloseGroups_painted this image :
  Healthy this -> fits (m_pixels this) image = true ->
  exists m' image',
    connectCloseGroups this image = Ok (with_pixels this m', image') /\
    painted (m_pixels this, image) (healedPixels this) (m', image').
Proof.
  intros H Hfits. unfold connectCloseGroups. cbv zeta.
  destruct (connect_outer this (m_groupNumberToCentroid this)
              (m_pixels this, image)) as ([m' image'] & E & P); auto.
  - apply H.
  - apply Healthy_anchored; auto.
  - cbv zeta in E. rewrite E. cbn [bind].
    exists m', image'. split; [reflexivity | exact P].
Qed.

(** [connectCloseGroups] keeps the invariant. *)
Lemma painted_Healthy this image L m' image' :
  Healthy this ->
  painted (m_pixels this, image) L (m', image') ->
  Healthy (with_pixels this m').
Proof.
  intros H P. split; cbn [with_pixels m_pixels m_boundaryGroupNext
                            m_groupNumberToCentroid m_groupNumberToPixel].
  - apply P.
  - apply H.
  - apply H.
  - intros e He. destruct (Healthy_anchor _ H e He) as (a & Ea & Ha & S1 & S2).
    exists a. split; auto.
    split; [apply (painted_inside _ _ _ a P); exact Ha|].
    destruct (in_dec cell_eq_dec a L) as [Hin|Hin].
    + destruct (painted_healed _ _ _ P a Hin) as [Hh _]. cbn [fst] in Hh.
      rewrite Hh. split; discriminate.
    + destruct (painted_other _ _ _ P a Hin) as [Ho _]. cbn [fst] in Ho.
      rewrite Ho. auto.
  - apply H.
Qed.

(* ================================================================== *)
(** * The pairs of groups *)

Lemma Qltb_lt a b : Qltb a b = true <-> (a < b)%Q.
Proof.
  unfold Qltb. rewrite negb_true_iff. split.
  - intros H. apply Qnot_le_lt. intros Hle.
    apply Qle_bool_iff in Hle. congruence.
  - intros H. destruct (Qle_bool b a) eqn:E; [|reflexivity].
    apply Qle_bool_iff in E. exfalso. exact (Qlt_not_le _ _ H E).
Qed.

Lemma sortedKeys_tail k l : sortedKeys (k :: l) = true -> sortedKeys l = true.
Proof. simpl. rewrite andb_true_iff. tauto. Qed.

Lemma sortedKeys_head k l k' :
  sortedKeys (k :: l) = true -> In k' l -> k < k'.
Proof.
  simpl. rewrite andb_true_iff, forallb_forall. intros [H _] Hin.
  apply Z.ltb_lt. auto.
Qed.

(** In a map, the pairs of the loops are the pairs of entries with the
    first key less than the second. *)
Lemma allPairs_sorted (l : QMap.t) e1 e2 :
  sortedKeys (QMap.keys l) = true -> In (e1, e2) (allPairs l) ->
  fst e1 < fst e2.
Proof.
  induction l as [|e l IH]; simpl; [tauto|].
  intros Hs H. apply in_app_or in H. destruct H as [H|H].
  - apply in_map_iff in H. destruct H as (x & [= -> ->] & Hx).
    apply (sortedKeys_head _ _ _ Hs). apply in_map. exact Hx.
  - apply IH; auto. apply (sortedKeys_tail _ _ Hs).
Qed.

Lemma allPairs_complete (l : QMap.t) e1 e2 :
  sortedKeys (QMap.keys l) = true -> In e1 l -> In e2 l ->
  fst e1 < fst e2 -> In (e1, e2) (allPairs l).
Proof.
  intros Hs H1 H2 Hlt.
  destruct (allPairs_total l e1 e2 H1 H2) as [->|[H|H]]; auto; [lia|].
  pose proof (allPairs_sorted l e2 e1 Hs H). lia.
Qed.

Lemma allPairs_NoDup (l : QMap.t) :
  sortedKeys (QMap.keys l) = true -> NoDup (allPairs l).
Proof.
  induction l as [|e l IH]; intros Hs; simpl; [constructor|].
  pose proof (sortedKeys_tail _ _ Hs) as Hs'.
  assert (Hnd : NoDup l).
  { clear IH Hs. induction l as [|x l IHl]; [constructor|].
    constructor; [|apply IHl; apply (sortedKeys_tail _ _ Hs')].
    intros Hin.
    pose proof (sortedKeys_head _ _ (fst x) Hs' (in_map fst _ _ Hin)). lia. }
  apply NoDup_app.
  - apply Injective_map_NoDup; auto. intros x y [= ->]. reflexivity.
  - apply IH; auto.
  - intros [x y] H1 H2. apply in_map_iff in H1.
    destruct H1 as (z & [= <- <-] & _).
    apply allPairs_In in H2. destruct H2 as [H2 _].
    pose proof (sortedKeys_head _ _ (fst e) Hs (in_map fst _ _ H2)). lia.
Qed.

(** The two ends of a line are among its pixels. *)
Lemma linePixels_ends (a b : cell) :
  0 <= fst a -> 0 <= snd a -> 0 <= fst b -> 0 <= snd b -> a <> b ->
  In a (linePixels (pointOf a) (pointOf b)) /\
  In b (linePixels (pointOf a) (pointOf b)).
Proof.
  intros Ha1 Ha2 Hb1 Hb2 Hab. unfold linePixels. cbv zeta.
  rewrite lineCount_pointOf.
  set (n := Z.max (Z.abs (fst a - fst b)) (Z.abs (snd a - snd b))).
  assert (Hn : 0 < n).
  { unfold n. destruct a as [ar ac], b as [br bc]. simpl in *.
    assert (ar <> br \/ ac <> bc)
      by (destruct (Z.eq_dec ar br); [right|left]; congruence).
    lia. }
  replace (1 <? 1 + n) with true by (symmetry; apply Z.ltb_lt; lia).
  split; apply in_map_iff.
  - exists 0. split; [|apply In_upto; lia].
    rewrite linePixel_pointOf by lia.
    replace (1 + n - 1 + 2 * ((1 + n - 1 - 0) * fst a + 0 * fst b))
      with (fst a * (2 * (1 + n - 1)) + n) by lia.
    replace (1 + n - 1 + 2 * ((1 + n - 1 - 0) * snd a + 0 * snd b))
      with (snd a * (2 * (1 + n - 1)) + n) by lia.
    rewrite !Z.div_add_l by lia. rewrite Z.div_small by lia.
    destruct a; simpl; f_equal; lia.
  - exists n. split; [|apply In_upto; lia].
    rewrite linePixel_pointOf by lia.
    replace (1 + n - 1 + 2 * ((1 + n - 1 - n) * fst a + n * fst b))
      with (fst b * (2 * (1 + n - 1)) + n) by lia.
    replace (1 + n - 1 + 2 * ((1 + n - 1 - n) * snd a + n * snd b))
      with (snd b * (2 * (1 + n - 1)) + n) by lia.
    rewrite !Z.div_add_l by lia. rewrite Z.div_small by lia.
    destruct b; simpl; f_equal; lia.
Qed.



Lemma Qfloor_half_nearest (v : Q) :
  (Qabs (inject_Z (Qfloor (v + (1 # 2))) - v) <= 1 # 2)%Q.
Proof.
  apply Qabs_diff_Qle_condition.
  pose proof (Qfloor_le (v + (1 # 2))) as H1.
  pose proof (Qlt_floor (v + (1 # 2))) as H2.
  rewrite inject_Z_plus in H2. split.
  - apply (Qplus_le_l _ _ (1 # 2)).
    setoid_replace (inject_Z (Qfloor (v + (1 # 2))) - (1 # 2) + (1 # 2))%Q
      with (inject_Z (Qfloor (v + (1 # 2)))) by ring.
    exact H1.
  - apply Qlt_le_weak. apply (Qplus_lt_l _ _ (1 # 2)).
    setoid_replace (inject_Z (Qfloor (v + (1 # 2))) + (1 # 2) + (1 # 2))%Q
      with (inject_Z (Qfloor (v + (1 # 2))) + inject_Z 1)%Q by ring.
    exact H2.
Qed.

(** The pixel of a step of the line between two anchors of non negative
    coordinates: the interpolation, rounded to the nearest integer. *)
Lemma linePixel_rounded (a b : cell) (count index : Z) :
  0 <= fst a -> 0 <= snd a -> 0 <= fst b -> 0 <= snd b ->
  1 < count -> 0 <= index < count ->
  let s := (inject_Z index / inject_Z (count - 1))%Q in
  linePixel (pointOf a) (pointOf b) count index
  = (Qfloor ((1 - s) * inject_Z (fst a) + s * inject_Z (fst b) + (1 # 2))%Q,
     Qfloor ((1 - s) * inject_Z (snd a) + s * inject_Z (snd b) + (1 # 2))%Q).
Proof.
  intros Ha1 Ha2 Hb1 Hb2 Hcount Hindex s.
  unfold linePixel, pointOf. cbn [QPointF.x QPointF.y]. cbv zeta. fold s.
  assert (Hs0 : (0 <= s)%Q).
  { unfold s. apply Qle_shift_div_l.
    - rewrite <- (Zlt_Qlt 0). lia.
    - rewrite Qmult_0_l. rewrite <- (Zle_Qle 0). lia. }
  assert (Hs1 : (s <= 1)%Q).
  { unfold s. apply Qle_shift_div_r.
    - rewrite <- (Zlt_Qlt 0). lia.
    - rewrite Qmult_1_l. rewrite <- Zle_Qle. lia. }
  assert (Hnn : forall u v, 0 <= u -> 0 <= v ->
            (0 <= 0.5 + (1 - s) * inject_Z u + s * inject_Z v)%Q).
  { intros u v Hu Hv.
    assert (0 <= inject_Z u)%Q by (rewrite <- (Zle_Qle 0); lia).
    assert (0 <= inject_Z v)%Q by (rewrite <- (Zle_Qle 0); lia).
    assert (0 <= (1 - s) * inject_Z u)%Q.
    { apply Qmult_le_0_compat; auto.
      unfold Qminus. rewrite <- (Qplus_opp_r s).
      apply Qplus_le_l. exact Hs1. }
    assert (0 <= s * inject_Z v)%Q by (apply Qmult_le_0_compat; auto).
    replace 0%Q with (0 + 0 + 0)%Q by reflexivity.
    apply Qplus_le_compat; auto. apply Qplus_le_compat; auto.
    discriminate. }
  rewrite !toInt_floor by (apply Hnn; lia).
  f_equal; apply Qfloor_comp; ring.
Qed.





(* ================================================================== *)
(** * The invariant holds in every state of the healer *)

(** The constructor makes a healthy healer. *)
Lemma GridHealer_new_Healthy imageBefore closeDistance :
  exists this,
    GridHealer_new imageBefore closeDistance = Ok this /\ Healthy this.
Proof.
  unfold GridHealer_new.
  change (ENGAUGE_ASSERT (NUM_PIXEL_STATES <? BOUNDARY_GROUP_FIRST))
    with (Ok tt).
  cbn [bind]. eexists. split; [reflexivity|].
  split; cbn [m_pixels m_boundaryGroupNext m_groupNumberToCentroid
              m_groupNumberToPixel].
  - apply (rectangular_map_upto
             (fun row col =>
                if 128 <? qGray (QImage.pixel imageBefore col row)
                then PIXEL_STATE_BACKGROUND else PIXEL_STATE_FOREGROUND)).
  - lia.
  - reflexivity.
  - intros e [].
  - intros e1 e2 a [].
Qed.

(** [erasePixel] keeps the invariant. *)
Lemma erasePixel_Healthy this xCol yRow :
  Healthy this -> inside (m_pixels this) (yRow, xCol) ->
  exists m',
    erasePixel xCol yRow (m_pixels this) = Ok m' /\
    Healthy (with_pixels this m').
Proof.
  intros H Ht.
  destruct (erasePixel_erasing (m_pixels this) xCol yRow (Healthy_rect _ H) Ht)
    as (m' & E & Er).
  exists m'. split; [exact E|].
  split; cbn [with_pixels m_pixels m_boundaryGroupNext
                m_groupNumberToCentroid m_groupNumberToPixel];
    try apply H.
  - apply Er.
  - intros e He. destruct (Healthy_anchor _ H e He) as (a & Ea & Ha & S1 & S2).
    exists a. split; auto.
    split; [apply (erasing_inside _ _ _ _ a Er); exact Ha|].
    destruct (cell_eq_dec a (yRow, xCol)) as [->|Hne].
    + rewrite (erasing_target _ _ _ _ Er). split; discriminate.
    + rewrite (erasing_rest _ _ _ _ Er a Hne); tauto.
Qed.


(* ================================================================== *)
(** * The scenarios of the specification *)

(** With the threshold 10, the two pixels make two regions of one pixel,
    with the centroids (0,0) and (0,4); the squared distance 16 is less
    than 100, and the line of 5 pixels of row 0 is healed and painted. *)
Example scenario_threshold_10 :
  exists this image,
    heal (scenario 10) image5x5 = Ok (this, image) /\
    m_groupNumberToCentroid this
    = [(100, QPointF.mk 0 0); (101, QPointF.mk 0 (4 # 1))] /\
    m_groupNumberToPixel this
    = [(100, pointOf (0, 0)); (101, pointOf (0, 4))] /\
    m_pixels this
    = [[4; 4; 4; 4; 4]; [0; 0; 0; 0; 0]; [0; 0; 0; 0; 0]; [0; 0; 0; 0; 0];
       [0; 0; 0; 0; 0]] /\
    pixelsOf image
    = [[2; 2; 2; 2; 2]; [255; 255; 255; 255; 255]; [255; 255; 255; 255; 255];
       [255; 255; 255; 255; 255]; [255; 255; 255; 255; 255]].
Proof.
  destruct (heal (scenario 10) image5x5) as [[this image]|e] eqn:E;
    vm_compute in E; [|discriminate].
  injection E as <- <-. eexists. eexists. split; [reflexivity|].
  repeat split; reflexivity.
Qed.

(** With the threshold 1, the squared distance 16 is not less than 1: the
    two regions are recorded, no pixel is healed and the image is as it
    was. *)
Example scenario_threshold_1 :
  exists this image,
    heal (scenario 1) image5x5 = Ok (this, image) /\
    m_pixels this
    = [[100; 0; 0; 0; 101]; [0; 0; 0; 0; 0]; [0; 0; 0; 0; 0];
       [0; 0; 0; 0; 0]; [0; 0; 0; 0; 0]] /\
    pixelsOf image = pixelsOf image5x5.
Proof.
  destruct (heal (scenario 1) image5x5) as [[this image]|e] eqn:E;
    vm_compute in E; [|discriminate].
  injection E as <- <-. eexists. eexists. split; [reflexivity|].
  repeat split; reflexivity.
Qed.

(** The distance of the centroids is the threshold: with the threshold 4,
    the squared distance 16 is not less than 16, and no pixel is healed. *)
Example scenario_threshold_4 :
  exists this image,
    heal (scenario 4) image5x5 = Ok (this, image) /\
    m_pixels this
    = [[100; 0; 0; 0; 101]; [0; 0; 0; 0; 0]; [0; 0; 0; 0; 0];
       [0; 0; 0; 0; 0]; [0; 0; 0; 0; 0]] /\
    pixelsOf image = pixelsOf image5x5.
Proof.
  destruct (heal (scenario 4) image5x5) as [[this image]|e] eqn:E;
    vm_compute in E; [|discriminate].
  injection E as <- <-. eexists. eexists. split; [reflexivity|].
  repeat split; reflexivity.
Qed.

(* ================================================================== *)
(** * The line with IEEE 754 doubles *)

(** On the line of the example of the specification, and on the line of
    its scenario, the doubles of the program give the pixels of the
    embedding. *)
Lemma binary64_examples :
  map (Binary64.linePixel (0, 0) (0, 5) (Binary64.lineCount (0, 0) (0, 5)))
      (upto (Binary64.lineCount (0, 0) (0, 5)))
  = linePixels (pointOf (0, 0)) (pointOf (0, 5)) /\
  map (Binary64.linePixel (0, 0) (0, 4) (Binary64.lineCount (0, 0) (0, 4)))
      (upto (Binary64.lineCount (0, 0) (0, 4)))
  = linePixels (pointOf (0, 0)) (pointOf (0, 4)).
Proof. split; vm_compute; reflexivity. Qed.

(** X1. On every line of a grid of 8 rows and 8 columns, the doubles of
    the program give the number of steps of the embedding, and pixels that
    are between the two anchors and at a distance of at most 1/2 from the
    interpolation. *)
Lemma binary64_small_grids :
  forallb (fun a => forallb (binary64_lineOk a) (gridCells 8))
          (gridCells 8) = true.
Proof. vm_compute. reflexivity. Qed.

(** Where the interpolation is half way between two integers, the doubles
    of the program may give the lower one, and the embedding gives the
    upper one: on the line from (0,3) to (6,0), the column of step 5 is
    3 * (1 - 5/6) = 1/2. *)
Lemma binary64_tie :
  Binary64.linePixel (0, 3) (6, 0) 7 5 = (5, 0) /\
  linePixel (pointOf (0, 3)) (pointOf (6, 0)) 7 5 = (5, 1).
Proof. split; vm_compute; reflexivity. Qed.

(* ================================================================== *)
(** * Grids with the same pixels, and [erasePixel] once more *)

Lemma Ok_inj {A} (a b : A) : Ok a = Ok b -> a = b.
Proof. intros H. injection H as ->. reflexivity. Qed.

Lemma with_pixels_same this : with_pixels this (m_pixels this) = this.
Proof. destruct this; reflexivity. Qed.

(** X2. [erasePixel] does not check its target: when the target is not a
    pixel of the grid, the first assignment is out of the range of
    [m_pixels], which is the error [IndexOutOfRange] here, and no neighbour
    is read or written. *)
Theorem erasePixel_out_of_range (m : PixelVector) (xCol yRow : Z) :
  rectangular m = true -> ~ inside m (yRow, xCol) ->
  erasePixel xCol yRow m = Err IndexOutOfRange.
Proof.
  intros R Hout. unfold erasePixel, setPixel.
  destruct (QVector.at_ m yRow) as [r|e] eqn:Er.
  - cbn [bind]. unfold QVector.assign at 1.
    pose proof (at_In _ _ _ Er) as Hin.
    apply at_Ok in Er. destruct Er as [Hrow _].
    rewrite (rectangular_rows m r R Hin).
    destruct ((0 <=? xCol) && (xCol <? widthOf m)) eqn:B.
    + exfalso. apply Hout. apply andb_true_iff in B.
      unfold inside. cbn [fst snd]. lia.
    + reflexivity.
  - cbn [bind]. unfold QVector.at_ in Er.
    destruct ((0 <=? yRow) && (yRow <? QVector.count m)).
    + destruct (nth_error m (Z.to_nat yRow)); [discriminate|].
      injection Er as <-. reflexivity.
    + injection Er as <-. reflexivity.
Qed.

Lemma erasePixel_out_of_range_witness :
  erasePixel 3 0 grid3x3 = Err IndexOutOfRange.
Proof.
  apply (erasePixel_out_of_range grid3x3 3 0).
  - reflexivity.
  - intros [_ [_ H]]. vm_compute in H. discriminate H.
Defined.

Lemma touchingb_spec p q : touchingb p q = true <-> touching p q.
Proof.
  unfold touchingb, touching. rewrite andb_true_iff, !Z.leb_le. tauto.
Qed.

Lemma stateAt_nth m p v :
  stateAt m p = Ok v <->
  exists r, nth_error m (Z.to_nat (fst p)) = Some r /\
            nth_error r (Z.to_nat (snd p)) = Some v /\
            0 <= fst p /\ 0 <= snd p.
Proof.
  unfold stateAt, getPixel. split.
  - destruct (QVector.at_ m (fst p)) as [r|e] eqn:E; [|discriminate].
    cbn [bind]. intros H. apply at_Ok in E, H. exists r. intuition lia.
  - intros (r & H1 & H2 & H3 & H4).
    assert (E : QVector.at_ m (fst p) = Ok r).
    { apply at_Ok. split; [|exact H1].
      assert (Z.to_nat (fst p) < length m)%nat
        by (apply nth_error_Some; congruence).
      unfold QVector.count. lia. }
    rewrite E. cbn [bind]. apply at_Ok. split; [|exact H2].
    assert (Z.to_nat (snd p) < length r)%nat
      by (apply nth_error_Some; congruence).
    unfold QVector.count. lia.
Qed.

(** Two rectangular grids of the same size with the same pixels are the
    same grid. *)
Lemma grid_ext (m m' : PixelVector) :
  rectangular m = true -> rectangular m' = true ->
  QVector.count m = QVector.count m' -> widthOf m = widthOf m' ->
  (forall p, inside m p -> stateAt m p = stateAt m' p) -> m = m'.
Proof.
  intros R R' Hc Hw H.
  apply nth_error_ext. intros i.
  destruct (nth_error m i) as [r|] eqn:Er.
  - assert (Hi : (i < length m)%nat) by (apply nth_error_Some; congruence).
    destruct (nth_error m' i) as [r'|] eqn:Er'.
    2:{ apply nth_error_None in Er'. unfold QVector.count in Hc. lia. }
    f_equal.
    pose proof (rectangular_rows m r R (nth_error_In _ _ Er)) as Lr.
    pose proof (rectangular_rows m' r' R' (nth_error_In _ _ Er')) as Lr'.
    apply nth_error_ext. intros j.
    destruct (nth_error r j) as [v|] eqn:Ev.
    + assert (Hj : (j < length r)%nat) by (apply nth_error_Some; congruence).
      assert (Hin : inside m (Z.of_nat i, Z.of_nat j)).
      { unfold inside, QVector.count in *. cbn [fst snd]. lia. }
      assert (S1 : stateAt m (Z.of_nat i, Z.of_nat j) = Ok v).
      { apply stateAt_nth. exists r. cbn [fst snd]. rewrite !Nat2Z.id.
        repeat split; auto; lia. }
      rewrite (H _ Hin) in S1. apply stateAt_nth in S1.
      destruct S1 as (r2 & H1 & H2 & _). cbn [fst snd] in *.
      rewrite !Nat2Z.id in *. congruence.
    + symmetry. apply nth_error_None. apply nth_error_None in Ev.
      unfold QVector.count in *. lia.
  - symmetry. apply nth_error_None. apply nth_error_None in Er.
    unfold QVector.count in *. lia.
Qed.

(** The pixels after [erasePixel], one by one. *)
Lemma erasePixel_erasedState m xCol yRow :
  rectangular m = true -> inside m (yRow, xCol) ->
  exists m', erasePixel xCol yRow m = Ok m' /\
             rectangular m' = true /\
             QVector.count m' = QVector.count m /\
             widthOf m' = widthOf m /\
             forall q, stateAt m' q = erasedState m (yRow, xCol) q.
Proof.
  intros R Ht.
  destruct (erasePixel_erasing m xCol yRow R Ht) as (m' & E & Er).
  exists m'. split; [exact E|].
  split; [apply Er|]. split; [apply Er|]. split; [apply Er|].
  intros q. unfold erasedState.
  destruct (cell_eq_dec q (yRow, xCol)) as [->|Hne].
  - rewrite (erasing_target _ _ _ _ Er).
    destruct (stateAt_inside m _ R Ht) as (v & ->). reflexivity.
  - destruct (stateAt m q) as [v|e] eqn:Eq.
    + destruct ((v =? PIXEL_STATE_FOREGROUND) && touchingb (yRow, xCol) q)
        eqn:B.
      * apply andb_true_iff in B. destruct B as [B1 B2].
        apply Z.eqb_eq in B1. subst v. apply touchingb_spec in B2.
        apply (erasing_done _ _ _ _ Er); auto.
        apply touching_window; auto.
      * rewrite (erasing_rest _ _ _ _ Er q Hne); auto.
        intros [H1 H2]. rewrite Eq in H2. injection H2 as ->.
        apply touching_window, touchingb_spec in H1.
        rewrite H1 in B. discriminate.
    + rewrite (erasing_rest _ _ _ _ Er q Hne); auto.
      intros [_ H2]. congruence.
Qed.

(** X3. Erasing a pixel of the grid a second time changes nothing: after
    the first time the target is Removed and none of its neighbours is
    Foreground. *)
Theorem erasePixel_idempotent (m : PixelVector) (xCol yRow : Z) :
  rectangular m = true -> inside m (yRow, xCol) ->
  exists m', erasePixel xCol yRow m = Ok m' /\
             erasePixel xCol yRow m' = Ok m'.
Proof.
  intros R Ht.
  destruct (erasePixel_erasedState m xCol yRow R Ht)
    as (m1 & E1 & R1 & C1 & W1 & S1).
  assert (Ht1 : inside m1 (yRow, xCol))
    by (unfold inside; rewrite C1, W1; exact Ht).
  destruct (erasePixel_erasedState m1 xCol yRow R1 Ht1)
    as (m2 & E2 & R2 & C2 & W2 & S2).
  exists m1. split; [exact E1|]. rewrite E2. f_equal.
  apply grid_ext; auto.
  intros q _. rewrite S2. unfold erasedState at 1.
  destruct (cell_eq_dec q (yRow, xCol)) as [->|Hne].
  - rewrite S1. unfold erasedState.
    destruct (cell_eq_dec (yRow, xCol) (yRow, xCol)); [|congruence].
    destruct (stateAt m (yRow, xCol)); reflexivity.
  - rewrite S1. unfold erasedState.
    destruct (cell_eq_dec q (yRow, xCol)); [congruence|].
    destruct (stateAt m q) as [v|e]; [|reflexivity].
    destruct ((v =? PIXEL_STATE_FOREGROUND) && touchingb (yRow, xCol) q) eqn:B.
    + reflexivity.
    + rewrite B. reflexivity.
Qed.

Lemma erasePixel_idempotent_witness :
  exists m', erasePixel 1 1 grid3x3 = Ok m' /\ erasePixel 1 1 m' = Ok m'.
Proof.
  apply (erasePixel_idempotent grid3x3 1 1).
  - reflexivity.
  - repeat split; vm_compute; congruence.
Defined.

(** X4. Two pixels of the grid can be erased in any order: the two orders
    give the same grid. *)
Theorem erasePixel_commutes (m : PixelVector) (xCol1 yRow1 xCol2 yRow2 : Z) :
  rectangular m = true ->
  inside m (yRow1, xCol1) -> inside m (yRow2, xCol2) ->
  exists m',
    (m1 <- erasePixel xCol1 yRow1 m ;; erasePixel xCol2 yRow2 m1) = Ok m' /\
    (m2 <- erasePixel xCol2 yRow2 m ;; erasePixel xCol1 yRow1 m2) = Ok m'.
Proof.
  intros R Ht1 Ht2.
  destruct (erasePixel_erasedState m xCol1 yRow1 R Ht1)
    as (m1 & E1 & R1 & C1 & W1 & S1).
  destruct (erasePixel_erasedState m xCol2 yRow2 R Ht2)
    as (m2 & E2 & R2 & C2 & W2 & S2).
  assert (Ht21 : inside m1 (yRow2, xCol2))
    by (unfold inside; rewrite C1, W1; exact Ht2).
  assert (Ht12 : inside m2 (yRow1, xCol1))
    by (unfold inside; rewrite C2, W2; exact Ht1).
  destruct (erasePixel_erasedState m1 xCol2 yRow2 R1 Ht21)
    as (m12 & E12 & R12 & C12 & W12 & S12).
  destruct (erasePixel_erasedState m2 xCol1 yRow1 R2 Ht12)
    as (m21 & E21 & R21 & C21 & W21 & S21).
  exists m12. rewrite E1, E2. cbn [bind]. split; [exact E12|].
  rewrite E21. f_equal. apply grid_ext; auto; try congruence.
  intros q _. rewrite S21, S12. unfold erasedState.
  rewrite S1, S2. unfold erasedState.
  change (PIXEL_STATE_ADJACENT =? PIXEL_STATE_FOREGROUND) with false.
  change (PIXEL_STATE_REMOVED =? PIXEL_STATE_FOREGROUND) with false.
  destruct (cell_eq_dec q (yRow1, xCol1)), (cell_eq_dec q (yRow2, xCol2));
    destruct (stateAt m q) as [v|err]; try reflexivity;
    destruct (v =? PIXEL_STATE_FOREGROUND) eqn:F;
    destruct (touchingb (yRow1, xCol1) q), (touchingb (yRow2, xCol2) q);
    cbn [andb]; rewrite ?F; reflexivity.
Qed.

Lemma erasePixel_commutes_witness :
  exists m',
    (m1 <- erasePixel 0 0 grid3x3 ;; erasePixel 1 1 m1) = Ok m' /\
    (m2 <- erasePixel 1 1 grid3x3 ;; erasePixel 0 0 m2) = Ok m'.
Proof.
  apply (erasePixel_commutes grid3x3 0 0 1 1).
  - reflexivity.
  - repeat split; vm_compute; congruence.
  - repeat split; vm_compute; congruence.
Defined.

(* ================================================================== *)
(** * The grouping without adjacent pixels *)

Lemma forEach_fixed {A St} (l : list A) (body : A -> St -> result St) s :
  (forall a, In a l -> body a s = Ok s) -> forEach l body s = Ok s.
Proof.
  induction l as [|a l IH]; intros H; simpl; [reflexivity|].
  rewrite (H a (or_introl eq_refl)). cbn [bind].
  apply IH. intros b Hb. apply H. right. exact Hb.
Qed.

(** Without any adjacent pixel, the scan of the grouping starts no search. *)
Lemma groupContiguousAdjacentPixels_fixed this :
  rectangular (m_pixels this) = true ->
  (forall p, ~ adjacentAt (m_pixels this) p) ->
  groupContiguousAdjacentPixels this = Ok this.
Proof.
  intros R Hno. unfold groupContiguousAdjacentPixels.
  apply forEach_fixed. intros row Hrow. apply In_upto in Hrow.
  rewrite count0_rows by lia. cbn [bind].
  apply forEach_fixed. intros col Hcol. apply In_upto in Hcol.
  destruct (stateAt_inside (m_pixels this) (row, col) R) as (v & Ev).
  { unfold inside. cbn [fst snd]. lia. }
  pose proof (Hno (row, col)) as Hn. unfold adjacentAt in Hn.
  unfold stateAt in Ev, Hn. cbn [fst snd] in Ev, Hn. rewrite Ev. cbn [bind].
  destruct (Z.eqb_spec v PIXEL_STATE_ADJACENT) as [->|_]; [|reflexivity].
  contradiction.
Qed.

Lemma adjacentCount_zero m p :
  adjacentCount m = 0%nat -> ~ adjacentAt m p.
Proof.
  unfold adjacentCount, adjacentAt. intros H0 Hp.
  apply stateAt_nth in Hp. destruct Hp as (r & Hr & Hv & _).
  assert (Hin : In PIXEL_STATE_ADJACENT
                  (filter (fun v => v =? PIXEL_STATE_ADJACENT) (concat m))).
  { apply filter_In. split; [|reflexivity].
    apply in_concat. exists r. split; eapply nth_error_In; eauto. }
  destruct (filter _ (concat m)); [destruct Hin|discriminate].
Qed.

(** X5. On a grid without adjacent pixel, and so on a grid without rows
    or without columns, [groupContiguousAdjacentPixels] starts no search and
    returns the healer as it is: the pixels, the two maps and the next
    group number are the same. *)
Theorem groupContiguousAdjacentPixels_no_adjacent (this : GridHealer) :
  rectangular (m_pixels this) = true ->
  adjacentCount (m_pixels this) = 0%nat ->
  groupContiguousAdjacentPixels this = Ok this.
Proof.
  intros R H0. apply groupContiguousAdjacentPixels_fixed; [exact R|].
  intros p. apply adjacentCount_zero. exact H0.
Qed.

Lemma groupContiguousAdjacentPixels_no_adjacent_witness :
  groupContiguousAdjacentPixels fresh3x3 = Ok fresh3x3.
Proof.
  apply (groupContiguousAdjacentPixels_no_adjacent fresh3x3); reflexivity.
Defined.

(** X6. A second call of [groupContiguousAdjacentPixels] changes nothing:
    the first call leaves no adjacent pixel, so that the second one makes
    no group. *)
Theorem groupContiguousAdjacentPixels_idempotent (this : GridHealer) :
  rectangular (m_pixels this) = true ->
  BOUNDARY_GROUP_FIRST <= m_boundaryGroupNext this ->
  exists this',
    groupContiguousAdjacentPixels this = Ok this' /\
    groupContiguousAdjacentPixels this' = Ok this'.
Proof.
  intros R Hn.
  destruct (groupContiguousAdjacentPixels_grouping this R Hn)
    as (this' & regions & E & G).
  exists this'. split; [exact E|].
  apply groupContiguousAdjacentPixels_fixed.
  - apply G.
  - intros p. apply (grouping_end _ _ _ p G).
Qed.

Lemma groupContiguousAdjacentPixels_idempotent_witness :
  exists this',
    groupContiguousAdjacentPixels (healer5x5 10) = Ok this' /\
    groupContiguousAdjacentPixels this' = Ok this'.
Proof.
  apply (groupContiguousAdjacentPixels_idempotent (healer5x5 10)).
  - reflexivity.
  - vm_compute; congruence.
Defined.

(* ================================================================== *)
(** * The search, with its arguments by reference *)

(** X7. [recursiveSearchForAdjacentPixels] adds to the three arguments
    that it gets by reference.  From an adjacent pixel, with any group
    number but [PIXEL_STATE_ADJACENT], it returns; the pixels that it has
    been through are, once each, the pixels that a chain of touching
    adjacent pixels connects to the start; the count has grown by their
    number, the two sums by the sums of their rows and of their columns;
    they have the group number, and no other pixel has changed. *)
Theorem recursiveSearch_component (fuel : nat) (boundaryGroup row col : Z)
  (s0 : Search) :
  boundaryGroup <> PIXEL_STATE_ADJACENT ->
  rectangular (pixels s0) = true ->
  stateAt (pixels s0) (row, col) = Ok PIXEL_STATE_ADJACENT ->
  (adjacentCount (pixels s0) < fuel)%nat ->
  exists component s,
    recursiveSearchForAdjacentPixels fuel boundaryGroup row col s0 = Ok s /\
    NoDup component /\
    (forall p, In p component <->
               connected (adjacentAt (pixels s0)) (row, col) p) /\
    centroidCount s = centroidCount s0 + QVector.count component /\
    (rowCentroidSum s
     == rowCentroidSum s0 + inject_Z (total (map fst component)))%Q /\
    (colCentroidSum s
     == colCentroidSum s0 + inject_Z (total (map snd component)))%Q /\
    (forall p, In p component -> stateAt (pixels s) p = Ok boundaryGroup) /\
    (forall p, ~ In p component ->
               stateAt (pixels s) p = stateAt (pixels s0) p) /\
    (adjacentCount (pixels s) + length component
     = adjacentCount (pixels s0))%nat.
Proof.
  intros Hg R Hv Hfuel.
  destruct (search_correct fuel boundaryGroup Hg s0 row col R Hv Hfuel)
    as (vis & s & E & S & Hvis).
  exists vis, s. split; [exact E|].
  destruct S as [S1 S2 S3 S4 S5 S6 S7 S8 S9 S10 S11].
  split; [exact S7|]. split; [exact Hvis|]. split; [exact S4|].
  split; [rewrite S5; apply sumRows_total|].
  split; [rewrite S6; apply sumCols_total|].
  split; [exact S9|]. split; [exact S10|]. exact S11.
Qed.

Lemma recursiveSearch_component_witness :
  exists component s,
    recursiveSearchForAdjacentPixels (groupFuel grid5x5) BOUNDARY_GROUP_FIRST
      2 2 (mkSearch grid5x5 0 0 0) = Ok s /\
    centroidCount s = QVector.count component /\
    In (3, 3) component.
Proof.
  destruct (recursiveSearch_component (groupFuel grid5x5)
              BOUNDARY_GROUP_FIRST 2 2 (mkSearch grid5x5 0 0 0))
    as (component & s & E & _ & Hc & Hn & _).
  - vm_compute; congruence.
  - reflexivity.
  - reflexivity.
  - vm_compute. lia.
  - exists component, s. split; [exact E|]. split; [exact Hn|].
    apply Hc.
    apply (connected_step _ _ (2, 3)).
    + apply (connected_step _ _ (2, 2)).
      * apply connected_refl. reflexivity.
      * unfold touching. cbn [fst snd]. lia.
      * reflexivity.
    + unfold touching. cbn [fst snd]. lia.
    + reflexivity.
Defined.

(* ================================================================== *)
(** * The centroids of the groups *)

Lemma total_bounds (l : list Z) lo hi :
  (forall z, In z l -> lo <= z <= hi) ->
  lo * Z.of_nat (length l) <= total l <= hi * Z.of_nat (length l).
Proof.
  induction l as [|z l IH]; intros H.
  - simpl. lia.
  - assert (Hz : lo <= z <= hi) by (apply H; left; reflexivity).
    assert (Hl : forall w, In w l -> lo <= w <= hi)
      by (intros w Hw; apply H; right; exact Hw).
    specialize (IH Hl). cbn [total fold_right length] in *.
    unfold total in IH. lia.
Qed.





(* ================================================================== *)
(** * The order of the group numbers *)

(** A loop invariant for the loops that return. *)
Lemma forEach_upto_preserves {St} (J : Z -> St -> Prop)
  (body : Z -> St -> result St) (n : Z) :
  (forall i s s', 0 <= i < n -> J i s -> body i s = Ok s' -> J (i + 1) s') ->
  forall s0 s', J 0 s0 -> forEach (upto n) body s0 = Ok s' ->
                J (Z.max 0 n) s'.
Proof.
  intros Hbody s0 s' H0 E.
  assert (G : forall k, Z.of_nat k <= Z.max 0 n ->
            forall s1, forEach (upto (Z.of_nat k)) body s0 = Ok s1 ->
                       J (Z.of_nat k) s1).
  { induction k as [|k IH]; intros Hk s1 E1.
    - apply Ok_inj in E1. subst s1. exact H0.
    - replace (Z.of_nat (S k)) with (Z.of_nat k + 1) in * by lia.
      rewrite upto_succ in E1 by lia. rewrite forEach_app in E1.
      apply bind_Ok in E1. destruct E1 as (s2 & E2 & E3).
      cbn [forEach] in E3. apply bind_Ok in E3.
      destruct E3 as (s3 & E3 & E4). apply Ok_inj in E4. subst s3.
      apply (Hbody (Z.of_nat k) s2); [lia | | exact E3].
      apply IH; [lia | exact E2]. }
  replace (Z.max 0 n) with (Z.of_nat (Z.to_nat n)) by lia.
  apply G; [lia|].
  replace (upto (Z.of_nat (Z.to_nat n))) with (upto n)
    by (unfold upto; f_equal; f_equal; lia).
  exact E.
Qed.

Lemma earlier_next_col a row col :
  earlier a (row, col) -> earlier a (row, col + 1).
Proof. unfold earlier. cbn [fst snd]. lia. Qed.

Lemma earlier_next_row a row col :
  earlier a (row, col) -> earlier a (row + 1, 0).
Proof. unfold earlier. cbn [fst snd]. lia. Qed.

Lemma ordered_start this : ordered (m_boundaryGroupNext this) (0, 0) this.
Proof. split; intros; lia. Qed.

(** A new group has the pixel of the scan for its anchor. *)
Lemma ordered_record next0 row col this centroids anchor m :
  ordered next0 (row, col) this ->
  anchor = pointOf (row, col) ->
  ordered next0 (row, col + 1)
    (mkGridHealer (m_boundaryGroupNext this + 1) centroids
       (QMap.insert (m_groupNumberToPixel this) (m_boundaryGroupNext this)
          anchor)
       (closeDistance this) m).
Proof.
  intros [On Os Op] ->.
  split; cbn [m_boundaryGroupNext m_groupNumberToPixel].
  - lia.
  - intros g Hg. rewrite value_insert.
    destruct (Z.eqb_spec g (m_boundaryGroupNext this)) as [->|Hne].
    + exists (row, col). split; [reflexivity|].
      unfold earlier. cbn [fst snd]. lia.
    + destruct (Os g) as (a & Ea & Ha); [lia|].
      exists a. split; [exact Ea|]. apply earlier_next_col. exact Ha.
  - intros g1 g2 H1 H12 H2. rewrite !value_insert.
    destruct (Z.eqb_spec g1 (m_boundaryGroupNext this)) as [->|Hne1]; [lia|].
    destruct (Z.eqb_spec g2 (m_boundaryGroupNext this)) as [->|Hne2].
    + destruct (Os g1) as (a & Ea & Ha); [lia|].
      exists a, (row, col). auto.
    + apply Op; lia.
Qed.

Lemma ordered_pass next0 this pos pos' m :
  (forall a, earlier a pos -> earlier a pos') ->
  ordered next0 pos this -> ordered next0 pos' (with_pixels this m).
Proof.
  intros Hpos [On Os Op].
  split; cbn [with_pixels m_boundaryGroupNext m_groupNumberToPixel]; auto.
  intros g Hg. destruct (Os g Hg) as (a & Ea & Ha). eauto.
Qed.

Lemma groupContiguousAdjacentPixels_ordered this this' :
  groupContiguousAdjacentPixels this = Ok this' ->
  ordered (m_boundaryGroupNext this) (QVector.count (m_pixels this), 0) this'.
Proof.
  unfold groupContiguousAdjacentPixels. intros E.
  set (next0 := m_boundaryGroupNext this).
  apply (forEach_upto_preserves (fun row s => ordered next0 (row, 0) s))
    in E.
  - replace (Z.max 0 (QVector.count (m_pixels this)))
      with (QVector.count (m_pixels this)) in E
      by (unfold QVector.count; lia).
    exact E.
  - intros row s s' Hrow J Erow. cbv beta in Erow.
    apply bind_Ok in Erow. destruct Erow as (w & _ & Erow).
    apply (forEach_upto_preserves (fun col s => ordered next0 (row, col) s))
      in Erow.
    + destruct Erow as [On Os Op]. split; auto.
      intros g Hg. destruct (Os g Hg) as (a & Ea & Ha).
      exists a. split; [exact Ea|]. apply (earlier_next_row a row _ Ha).
    + intros col t t' Hcol Jt Ecell. cbv beta in Ecell.
      apply bind_Ok in Ecell. destruct Ecell as (p & _ & Ecell).
      destruct (p =? PIXEL_STATE_ADJACENT).
      * apply bind_Ok in Ecell. destruct Ecell as (srch & _ & Ecell).
        destruct (0 <? centroidCount srch);
          apply Ok_inj in Ecell; subst t'.
        -- apply ordered_record; [exact Jt | reflexivity].
        -- apply (ordered_pass next0 t (row, col)); [|exact Jt].
           intros a. apply earlier_next_col.
      * apply Ok_inj in Ecell. subst t'.
        replace t with (with_pixels t (m_pixels t))
          by apply with_pixels_same.
        apply (ordered_pass next0 t (row, col)); [|exact Jt].
        intros a. apply earlier_next_col.
    + exact J.
  - apply ordered_start.
Qed.

(** X9. The group numbers follow the scan: of two groups that one call of
    [groupContiguousAdjacentPixels] makes, the one with the lesser number
    has its anchor before the anchor of the other, by rows then by
    columns. *)
Theorem groupContiguousAdjacentPixels_scan_order (this : GridHealer) :
  rectangular (m_pixels this) = true ->
  BOUNDARY_GROUP_FIRST <= m_boundaryGroupNext this ->
  exists this',
    groupContiguousAdjacentPixels this = Ok this' /\
    forall group1 group2,
      m_boundaryGroupNext this <= group1 -> group1 < group2 ->
      group2 < m_boundaryGroupNext this' ->
      exists anchor1 anchor2,
        QMap.value (m_groupNumberToPixel this') group1
        = Some (pointOf anchor1) /\
        QMap.value (m_groupNumberToPixel this') group2
        = Some (pointOf anchor2) /\
        earlier anchor1 anchor2.
Proof.
  intros R Hn.
  destruct (groupContiguousAdjacentPixels_grouping this R Hn)
    as (this' & regions & E & _).
  exists this'. split; [exact E|].
  apply (ordered_pairs _ _ _ (groupContiguousAdjacentPixels_ordered _ _ E)).
Qed.

Lemma groupContiguousAdjacentPixels_scan_order_witness :
  exists this',
    groupContiguousAdjacentPixels (healer5x5 10) = Ok this' /\
    exists anchor1 anchor2,
      QMap.value (m_groupNumberToPixel this') BOUNDARY_GROUP_FIRST
      = Some (pointOf anchor1) /\
      QMap.value (m_groupNumberToPixel this') (BOUNDARY_GROUP_FIRST + 2)
      = Some (pointOf anchor2) /\
      earlier anchor1 anchor2.
Proof.
  destruct (groupContiguousAdjacentPixels_scan_order (healer5x5 10))
    as (this' & E & H).
  - reflexivity.
  - vm_compute; congruence.
  - exists this'. split; [exact E|].
    apply H.
    + vm_compute; congruence.
    + reflexivity.
    + pose proof E as E'. vm_compute in E'. apply Ok_inj in E'.
      rewrite <- E'. reflexivity.
Defined.

(* ================================================================== *)
(** * The pixels of a line, one after the other *)





Section Line.

Variables a b : cell.
Hypothesis Ha1 : 0 <= fst a.
Hypothesis Ha2 : 0 <= snd a.
Hypothesis Hb1 : 0 <= fst b.
Hypothesis Hb2 : 0 <= snd b.
Hypothesis Hab : a <> b.

Let n := Z.max (Z.abs (fst a - fst b)) (Z.abs (snd a - snd b)).
Let px := linePixel (pointOf a) (pointOf b) (1 + n).

Lemma line_steps : 0 < n.
Proof using Hab.
  unfold n. clear - Hab. destruct a as [ar ac], b as [br bc]. cbn [fst snd].
  assert (ar <> br \/ ac <> bc)
    by (destruct (Z.eq_dec ar br); [right|left]; congruence).
  lia.
Qed.








End Line.



(* ================================================================== *)
(** * The connection of the groups that are close *)





Lemma forEachTail_fixed {A St} (l : list A)
  (body : A -> list A -> St -> result St) s :
  (forall a rest, In a l -> incl rest l -> body a rest s = Ok s) ->
  forEachTail l body s = Ok s.
Proof.
  induction l as [|a l IH]; intros H; simpl; [reflexivity|].
  rewrite (H a l); [|left; reflexivity|apply incl_tl, incl_refl].
  cbn [bind]. apply IH. intros b rest Hb Hrest.
  apply H; [right; exact Hb|]. apply incl_tl. exact Hrest.
Qed.

Lemma forEach_ext {A St} (l : list A) (body body' : A -> St -> result St) s :
  (forall a s, In a l -> body a s = body' a s) ->
  forEach l body s = forEach l body' s.
Proof.
  revert s. induction l as [|a l IH]; intros s H; simpl; [reflexivity|].
  rewrite (H a s (or_introl eq_refl)).
  destruct (body' a s) as [s'|e]; cbn [bind]; [|reflexivity].
  apply IH. intros b s0 Hb. apply H. right. exact Hb.
Qed.

Lemma forEachTail_ext {A St} (l : list A)
  (body body' : A -> list A -> St -> result St) s :
  (forall a rest s, body a rest s = body' a rest s) ->
  forEachTail l body s = forEachTail l body' s.
Proof.
  intros H. revert s. induction l as [|a l IH]; intros s; simpl;
    [reflexivity|].
  rewrite (H a l s).
  destruct (body' a l s) as [s'|e]; cbn [bind]; [|reflexivity].
  apply IH.
Qed.

Lemma forEachTail_fails {A St} (l : list A)
  (body : A -> list A -> St -> result St) (a : A) :
  In a l -> (forall rest s, exists e, body a rest s = Err e) ->
  forall s, exists e, forEachTail l body s = Err e.
Proof.
  intros Ha Hfail. induction l as [|b l IH]; [destruct Ha|].
  intros s. simpl. destruct Ha as [->|Ha].
  - destruct (Hfail l s) as (e & ->). exists e. reflexivity.
  - destruct (body b l s) as [s'|e]; cbn [bind].
    + apply IH. exact Ha.
    + exists e. reflexivity.
Qed.

Lemma contains_value (m : QMap.t) k :
  QMap.contains m k = true <-> exists v, QMap.value m k = Some v.
Proof.
  unfold QMap.contains. destruct (QMap.value m k) as [v|].
  - split; eauto.
  - split; [discriminate|]. intros (v & H). discriminate.
Qed.

(** A pair of groups that are not close is left as it is. *)
Lemma connectPair_far closeDistanceSquared c1 a1 c2 a2 st :
  ~ (distanceSquared c1 c2 < closeDistanceSquared)%Q ->
  connectPair closeDistanceSquared c1 a1 c2 a2 st = Ok st.
Proof.
  intros Hfar. unfold connectPair. cbv zeta.
  destruct (Qltb _ closeDistanceSquared) eqn:B; [|reflexivity].
  apply Qltb_lt in B. exfalso. apply Hfar. exact B.
Qed.

(** Without a pair of close groups, [connectCloseGroups] changes
    nothing. *)
Lemma connectCloseGroups_far this image :
  (forall e, In e (m_groupNumberToCentroid this) ->
     QMap.contains (m_groupNumberToPixel this) (fst e) = true) ->
  (forall e1 e2, In e1 (m_groupNumberToCentroid this) ->
     In e2 (m_groupNumberToCentroid this) ->
     ~ (distanceSquared (snd e1) (snd e2)
        < closeDistance this * closeDistance this)%Q) ->
  connectCloseGroups this image = Ok (this, image).
Proof.
  intros Hkeys Hfar. unfold connectCloseGroups. cbv zeta.
  rewrite forEachTail_fixed.
  - cbn [bind]. rewrite with_pixels_same. reflexivity.
  - intros e1 rest He1 Hrest. cbv beta.
    pose proof (Hkeys e1 He1) as K1. rewrite K1.
    apply contains_value in K1. destruct K1 as (a1 & ->).
    cbn [ENGAUGE_ASSERT bind].
    apply forEach_fixed. intros e2 He2. apply Hrest in He2.
    pose proof (Hkeys e2 He2) as K2. rewrite K2.
    apply contains_value in K2. destruct K2 as (a2 & ->).
    cbn [ENGAUGE_ASSERT bind].
    apply connectPair_far. apply Hfar; auto.
Qed.

Lemma Qsquare_nonneg (u : Q) : (0 <= u * u)%Q.
Proof.
  destruct (Qlt_le_dec u 0) as [Hu|Hu].
  - setoid_replace (u * u)%Q with ((- u) * (- u))%Q by ring.
    apply Qlt_le_weak in Hu. apply (Qopp_le_compat u 0) in Hu.
    apply Qmult_le_0_compat; exact Hu.
  - apply Qmult_le_0_compat; exact Hu.
Qed.

Lemma distanceSquared_nonneg c1 c2 : (0 <= distanceSquared c1 c2)%Q.
Proof.
  unfold distanceSquared. rewrite <- (Qplus_0_l 0).
  apply Qplus_le_compat; apply Qsquare_nonneg.
Qed.

(** X12. With a close distance of zero no two groups are close, whatever
    their centroids are: [connectCloseGroups] returns the healer and the
    image as they are. *)
Theorem connectCloseGroups_zero (this : GridHealer) (image : QImage.t) :
  (closeDistance this == 0)%Q ->
  (forall e, In e (m_groupNumberToCentroid this) ->
     QMap.contains (m_groupNumberToPixel this) (fst e) = true) ->
  connectCloseGroups this image = Ok (this, image).
Proof.
  intros Hz Hkeys. apply connectCloseGroups_far; [exact Hkeys|].
  intros e1 e2 _ _ Hlt. rewrite Hz in Hlt.
  apply (Qlt_not_le _ _ Hlt).
  setoid_replace (0 * 0)%Q with 0%Q by ring.
  apply distanceSquared_nonneg.
Qed.

Lemma connectCloseGroups_zero_witness :
  connectCloseGroups (grouped5x5 0) image5x5 = Ok (grouped5x5 0, image5x5).
Proof.
  apply (connectCloseGroups_zero (grouped5x5 0) image5x5).
  - reflexivity.
  - intros e He. vm_compute in He.
    destruct He as [<-|[<-|[<-|[]]]]; reflexivity.
Defined.

(** X13. The assertions of [connectCloseGroups] are effective: when a group
    of the map of the centroids has no anchor in the map of the pixels,
    [connectCloseGroups] does not return normally. *)
Theorem connectCloseGroups_missing_anchor (this : GridHealer)
  (image : QImage.t) (e : Z * QPointF.t) :
  In e (m_groupNumberToCentroid this) ->
  QMap.contains (m_groupNumberToPixel this) (fst e) = false ->
  exists err, connectCloseGroups this image = Err err.
Proof.
  intros He Hmiss. unfold connectCloseGroups. cbv zeta.
  match goal with
  | |- exists err, bind (forEachTail ?l ?body ?st0) ?k = Err err =>
      assert (Hfail : forall rest st, exists err, body e rest st = Err err)
  end.
  { intros rest st. cbv beta. rewrite Hmiss.
    exists AssertionFailed. reflexivity. }
  destruct (forEachTail_fails _ _ e He Hfail (m_pixels this, image))
    as (err & E).
  exists err. rewrite E. reflexivity.
Qed.

Lemma connectCloseGroups_missing_anchor_witness :
  exists err, connectCloseGroups orphan image5x5 = Err err.
Proof.
  apply (connectCloseGroups_missing_anchor orphan image5x5
           (BOUNDARY_GROUP_FIRST, QPointF.mk 0 0)).
  - left. reflexivity.
  - reflexivity.
Defined.

Lemma Qltb_comp a b b' : (b == b')%Q -> Qltb a b = Qltb a b'.
Proof.
  intros E. destruct (Qltb a b') eqn:B'.
  - apply Qltb_lt. apply Qltb_lt in B'. rewrite E. exact B'.
  - destruct (Qltb a b) eqn:B; [|reflexivity].
    apply Qltb_lt in B. rewrite E in B. apply Qltb_lt in B. congruence.
Qed.

(** [connectPair] only compares with the square of the distance. *)
Lemma connectPair_comp d d' c1 a1 c2 a2 st :
  (d == d')%Q -> connectPair d c1 a1 c2 a2 st = connectPair d' c1 a1 c2 a2 st.
Proof.
  intros E. unfold connectPair. cbv zeta.
  rewrite (Qltb_comp _ d d' E). reflexivity.
Qed.

(** X14. [connectCloseGroups] only uses the square of [closeDistance]: with
    the opposite distance it writes the same grid and the same image, and
    fails in the same way. *)
Theorem connectCloseGroups_sign (this : GridHealer) (image : QImage.t) :
  connectCloseGroups (with_closeDistance this (- closeDistance this)) image
  = ' (this', image') <- connectCloseGroups this image ;;
    Ok (with_closeDistance this' (- closeDistance this), image').
Proof.
  unfold connectCloseGroups. cbv zeta.
  cbn [with_closeDistance closeDistance m_groupNumberToCentroid
       m_groupNumberToPixel m_pixels].
  match goal with
  | |- bind (forEachTail ?l ?b1 ?st0) _
       = bind (bind (forEachTail _ ?b2 _) _) _ =>
      rewrite (forEachTail_ext l b1 b2 st0)
  end.
  - destruct (forEachTail _ _ _) as [[m' image']|e]; reflexivity.
  - intros e1 rest st. cbv beta.
    destruct (ENGAUGE_ASSERT _); [|reflexivity]. cbn [bind].
    destruct (QMap.value _ _); [|reflexivity].
    apply forEach_ext. intros e2 st2 _.
    destruct (ENGAUGE_ASSERT _); [|reflexivity]. cbn [bind].
    destruct (QMap.value _ _); [|reflexivity].
    apply connectPair_comp. ring.
Qed.






(* ================================================================== *)
(** * [heal] on a new healer, and [heal] twice *)

(** The constructor makes no adjacent pixel. *)
Lemma GridHealer_new_states imageBefore closeDistance this p v :
  GridHealer_new imageBefore closeDistance = Ok this ->
  stateAt (m_pixels this) p = Ok v ->
  v = PIXEL_STATE_BACKGROUND \/ v = PIXEL_STATE_FOREGROUND.
Proof.
  unfold GridHealer_new.
  change (ENGAUGE_ASSERT (NUM_PIXEL_STATES <? BOUNDARY_GROUP_FIRST))
    with (Ok tt).
  cbn [bind]. intros H. apply Ok_inj in H. subst this. cbn [m_pixels].
  unfold stateAt, getPixel. intros H.
  apply bind_Ok in H. destruct H as (r & Hr & Hc).
  apply at_In in Hr. apply at_In in Hc.
  apply in_map_iff in Hr. destruct Hr as (row & <- & _).
  apply in_map_iff in Hc. destruct Hc as (col & <- & _).
  cbv zeta.
  destruct (128 <? qGray (QImage.pixel imageBefore col row)); auto.
Qed.

Lemma GridHealer_new_fields imageBefore closeDistance this :
  GridHealer_new imageBefore closeDistance = Ok this ->
  m_boundaryGroupNext this = BOUNDARY_GROUP_FIRST /\
  m_groupNumberToCentroid this = [] /\
  m_groupNumberToPixel this = [] /\
  rectangular (m_pixels this) = true.
Proof.
  unfold GridHealer_new.
  change (ENGAUGE_ASSERT (NUM_PIXEL_STATES <? BOUNDARY_GROUP_FIRST))
    with (Ok tt).
  cbn [bind]. intros H. apply Ok_inj in H. subst this.
  cbn [m_pixels m_boundaryGroupNext m_groupNumberToCentroid
       m_groupNumberToPixel].
  repeat split.
  apply (rectangular_map_upto
           (fun row col =>
              if 128 <? qGray (QImage.pixel imageBefore col row)
              then PIXEL_STATE_BACKGROUND else PIXEL_STATE_FOREGROUND)).
Qed.

(** X16. [heal] on a new healer, before any pixel is erased, changes
    nothing: the constructor makes no adjacent pixel, so that there is no
    group to make and none to connect, and the image is returned as it
    is. *)
Theorem heal_fresh (imageBefore : QImage.t) (closeDistance : Q)
  (imageToHeal : QImage.t) :
  exists this,
    GridHealer_new imageBefore closeDistance = Ok this /\
    heal this imageToHeal = Ok (this, imageToHeal).
Proof.
  destruct (GridHealer_new imageBefore closeDistance) as [this|e] eqn:E.
  2:{ unfold GridHealer_new in E.
      change (ENGAUGE_ASSERT (NUM_PIXEL_STATES <? BOUNDARY_GROUP_FIRST))
        with (Ok tt) in E. cbn [bind] in E. discriminate. }
  exists this. split; [reflexivity|].
  destruct (GridHealer_new_fields _ _ _ E) as (_ & Hc & _ & R).
  unfold heal. rewrite groupContiguousAdjacentPixels_fixed; auto.
  - cbn [bind]. unfold connectCloseGroups. cbv zeta. rewrite Hc.
    cbn [forEachTail bind]. rewrite with_pixels_same. reflexivity.
  - intros p Hp.
    destruct (GridHealer_new_states _ _ _ _ _ E Hp); discriminate.
Qed.






(* ================================================================== *)
(** * [heal] after [erasePixel] *)



(** The grouping puts every adjacent pixel in a region. *)
Lemma grouping_covers this regions this' p :
  BOUNDARY_GROUP_FIRST <= m_boundaryGroupNext this ->
  grouping this (QVector.count (m_pixels this), 0) regions this' ->
  adjacentAt (m_pixels this) p ->
  exists r, In r regions /\ In p (region_members r).
Proof.
  intros Hn G Hp.
  destruct (regions_dec regions p) as [Hin|Hnone]; [exact Hin|].
  exfalso. apply (grouping_end _ _ _ p G).
  apply (grouping_adjacent this _ regions this' p Hn G). auto.
Qed.




(* ================================================================== *)
(** * The states of a healer *)

Lemma GridHealer_new_Reached imageBefore modelCloseDistance this :
  GridHealer_new imageBefore modelCloseDistance = Ok this ->
  Reached imageBefore modelCloseDistance this.
Proof.
  intros E.
  destruct (GridHealer_new_Healthy imageBefore modelCloseDistance)
    as (this0 & E0 & H).
  rewrite E in E0. apply Ok_inj in E0. subst this0.
  pose proof (fun p v => GridHealer_new_states _ _ _ p v E) as Hs.
  destruct (GridHealer_new_fields _ _ _ E) as (Hn & Hc & Ha & R).
  assert (Hshape : closeDistance this = modelCloseDistance /\
            QVector.count (m_pixels this)
            = Z.max 0 (QImage.height imageBefore) /\
            (0 < QImage.height imageBefore ->
             widthOf (m_pixels this) = Z.max 0 (QImage.width imageBefore))).
  { clear - E. unfold GridHealer_new in E.
    change (ENGAUGE_ASSERT (NUM_PIXEL_STATES <? BOUNDARY_GROUP_FIRST))
      with (Ok tt) in E.
    cbn [bind] in E. apply Ok_inj in E. subst this.
    cbn [closeDistance m_pixels]. split; [reflexivity|].
    split; [apply count_map_upto|].
    intros Hh. unfold upto at 2.
    destruct (Z.to_nat (QImage.height imageBefore)) as [|h] eqn:Eh; [lia|].
    cbn [seq map widthOf]. apply count_map_upto. }
  destruct Hshape as (Hcd & Hcount & Hwidth).
  split; auto.
  - intros p. unfold inside. rewrite Hcount. split.
    + intros [H1 H2]. rewrite Hwidth in H2 by lia. lia.
    + intros [H1 H2]. rewrite Hwidth by lia. lia.
  - intros k. rewrite Hc, Hn. cbn. split; [discriminate|lia].
  - intros k. rewrite Ha, Hn. cbn. split; [discriminate|lia].
  - intros p v Hv. left.
    destruct (Hs p v Hv) as [->| ->];
      unfold PIXEL_STATE_BACKGROUND, PIXEL_STATE_FOREGROUND, NUM_PIXEL_STATES;
      lia.
Qed.

Lemma erasePixel_Reached imageBefore modelCloseDistance this xCol yRow m' :
  Reached imageBefore modelCloseDistance this ->
  inside (m_pixels this) (yRow, xCol) ->
  erasePixel xCol yRow (m_pixels this) = Ok m' ->
  Reached imageBefore modelCloseDistance (with_pixels this m').
Proof.
  intros [H Hcd Hc Hi Hk Ha Hs] Ht E.
  destruct (erasePixel_Healthy this xCol yRow H Ht) as (m1 & E1 & H1).
  rewrite E in E1. apply Ok_inj in E1. subst m1.
  destruct (erasePixel_erasedState (m_pixels this) xCol yRow
              (Healthy_rect _ H) Ht) as (m2 & E2 & R2 & C2 & W2 & S2).
  rewrite E in E2. apply Ok_inj in E2. subst m2.
  split; cbn [with_pixels m_pixels m_boundaryGroupNext closeDistance
              m_groupNumberToCentroid m_groupNumberToPixel]; auto.
  - congruence.
  - intros p. rewrite <- Hi. unfold inside. rewrite C2, W2. tauto.
  - intros p v. rewrite S2. unfold erasedState.
    destruct (cell_eq_dec p (yRow, xCol)).
    + destruct (stateAt (m_pixels this) p); [|discriminate].
      intros Hv. apply Ok_inj in Hv. subst v. left.
      unfold PIXEL_STATE_REMOVED, NUM_PIXEL_STATES. lia.
    + destruct (stateAt (m_pixels this) p) as [w|] eqn:Ew; [|discriminate].
      destruct ((w =? PIXEL_STATE_FOREGROUND) && touchingb (yRow, xCol) p).
      * intros Hv. apply Ok_inj in Hv. subst v. left.
        unfold PIXEL_STATE_ADJACENT, NUM_PIXEL_STATES. lia.
      * intros Hv. apply Ok_inj in Hv. subst v. apply (Hs p). exact Ew.
Qed.

(** The group numbers of the regions are those from the next group number
    before the grouping to the one after it. *)
Lemma grouping_ids_range this0 pos regions this k :
  grouping this0 pos regions this ->
  In k (map region_id regions) <->
  m_boundaryGroupNext this0 <= k < m_boundaryGroupNext this.
Proof.
  intros G. rewrite (grouping_ids _ _ _ _ G), (grouping_next _ _ _ _ G).
  rewrite in_map_iff. split.
  - intros (i & <- & Hi). apply In_upto in Hi. lia.
  - intros Hk. exists (k - m_boundaryGroupNext this0). split; [lia|].
    apply In_upto. lia.
Qed.

Lemma grouping_contains_centroid this0 pos regions this k :
  grouping this0 pos regions this ->
  QMap.contains (m_groupNumberToCentroid this) k = true <->
  m_boundaryGroupNext this0 <= k < m_boundaryGroupNext this \/
  QMap.contains (m_groupNumberToCentroid this0) k = true.
Proof.
  intros G. rewrite <- (grouping_ids_range _ _ _ _ k G).
  destruct (in_dec Z.eq_dec k (map region_id regions)) as [Hk|Hk].
  - split; [auto|]. intros _.
    apply in_map_iff in Hk. destruct Hk as (r & <- & Hr).
    unfold QMap.contains.
    rewrite (recorded_centroid _ _ _ (grouping_recorded _ _ _ _ G r Hr)).
    reflexivity.
  - unfold QMap.contains. rewrite (grouping_centroids _ _ _ _ G k Hk).
    tauto.
Qed.

Lemma grouping_contains_anchor this0 pos regions this k :
  grouping this0 pos regions this ->
  QMap.contains (m_groupNumberToPixel this) k = true <->
  m_boundaryGroupNext this0 <= k < m_boundaryGroupNext this \/
  QMap.contains (m_groupNumberToPixel this0) k = true.
Proof.
  intros G. rewrite <- (grouping_ids_range _ _ _ _ k G).
  destruct (in_dec Z.eq_dec k (map region_id regions)) as [Hk|Hk].
  - split; [auto|]. intros _.
    apply in_map_iff in Hk. destruct Hk as (r & <- & Hr).
    unfold QMap.contains.
    rewrite (recorded_pixel _ _ _ (grouping_recorded _ _ _ _ G r Hr)).
    reflexivity.
  - unfold QMap.contains. rewrite (grouping_anchors _ _ _ _ G k Hk).
    tauto.
Qed.

Lemma grouping_next_le this0 pos regions this :
  grouping this0 pos regions this ->
  m_boundaryGroupNext this0 <= m_boundaryGroupNext this.
Proof.
  intros G. rewrite (grouping_next _ _ _ _ G). unfold QVector.count. lia.
Qed.

Lemma grouping_Reached imageBefore modelCloseDistance this regions this' :
  Reached imageBefore modelCloseDistance this ->
  grouping this (QVector.count (m_pixels this), 0) regions this' ->
  Reached imageBefore modelCloseDistance this'.
Proof.
  intros [H Hcd Hc Hi Hk Ha Hs] G.
  pose proof (grouping_next_le _ _ _ _ G) as Hle.
  pose proof (Healthy_first _ H) as Hfirst.
  split.
  - apply (grouping_Healthy this regions this' H G).
  - rewrite (grouping_closeDistance _ _ _ _ G). exact Hcd.
  - rewrite (grouping_count _ _ _ _ G). exact Hc.
  - intros p. rewrite <- Hi. unfold inside.
    rewrite (grouping_count _ _ _ _ G), (grouping_width _ _ _ _ G). tauto.
  - intros k. rewrite (grouping_contains_centroid _ _ _ _ k G), Hk. lia.
  - intros k. rewrite (grouping_contains_anchor _ _ _ _ k G), Ha. lia.
  - intros p v Hv.
    destruct (regions_dec regions p) as [(r & Hr & Hp)|Hnone].
    + rewrite (recorded_state _ _ _ (grouping_recorded _ _ _ _ G r Hr) p Hp)
        in Hv.
      apply Ok_inj in Hv. subst v. right.
      pose proof (grouping_id_range _ _ _ _ r G Hr). lia.
    + rewrite (grouping_other _ _ _ _ G p Hnone) in Hv.
      destruct (Hs p v Hv); [left|right]; lia.
Qed.

Lemma painted_Reached imageBefore modelCloseDistance this image L m' image' :
  Reached imageBefore modelCloseDistance this ->
  painted (m_pixels this, image) L (m', image') ->
  Reached imageBefore modelCloseDistance (with_pixels this m').
Proof.
  intros [H Hcd Hc Hi Hk Ha Hs] P.
  pose proof (painted_count _ _ _ P) as Pc.
  pose proof (painted_width _ _ _ P) as Pw.
  cbn [fst] in Pc, Pw.
  split; cbn [with_pixels m_pixels m_boundaryGroupNext closeDistance
              m_groupNumberToCentroid m_groupNumberToPixel]; auto.
  - apply (painted_Healthy this image L m' image' H P).
  - rewrite Pc. exact Hc.
  - intros p. rewrite <- Hi. unfold inside. rewrite Pc, Pw. tauto.
  - intros p v Hv.
    destruct (in_dec cell_eq_dec p L) as [Hin|Hin].
    + destruct (painted_healed _ _ _ P p Hin) as [Hh _]. cbn [fst] in Hh.
      rewrite Hh in Hv. apply Ok_inj in Hv. subst v. left.
      unfold PIXEL_STATE_HEALED, NUM_PIXEL_STATES. lia.
    + destruct (painted_other _ _ _ P p Hin) as [Ho _]. cbn [fst] in Ho.
      rewrite Ho in Hv. apply (Hs p v Hv).
Qed.

Lemma heal_Reached imageBefore modelCloseDistance this image this' image' :
  Reached imageBefore modelCloseDistance this ->
  fits (m_pixels this) image = true ->
  heal this image = Ok (this', image') ->
  Reached imageBefore modelCloseDistance this'.
Proof.
  intros Hr Hfits E. unfold heal in E.
  pose proof (Reached_Healthy _ _ _ Hr) as H.
  destruct (groupContiguousAdjacentPixels_Healthy this H)
    as (this1 & regions & E1 & G & H1).
  rewrite E1 in E. cbn [bind] in E.
  assert (Hfits1 : fits (m_pixels this1) image = true).
  { unfold fits in *.
    rewrite (grouping_count _ _ _ _ G), (grouping_width _ _ _ _ G). auto. }
  destruct (connectCloseGroups_painted this1 image H1 Hfits1)
    as (m' & image1 & E2 & P).
  rewrite E in E2. apply Ok_inj in E2.
  assert (Et : this' = with_pixels this1 m') by congruence.
  subst this'.
  apply (painted_Reached _ _ this1 image (healedPixels this1) m' image1);
    [|exact P].
  apply (grouping_Reached _ _ this regions this1 Hr G).
Qed.

Lemma reachable_Reached imageBefore modelCloseDistance this :
  reachable imageBefore modelCloseDistance this ->
  Reached imageBefore modelCloseDistance this.
Proof.
  induction 1 as [this E|this xCol yRow m' _ IH Ht E
                  |this image this' image' _ IH Hfits E].
  - apply GridHealer_new_Reached. exact E.
  - apply (erasePixel_Reached _ _ this xCol yRow m' IH Ht E).
  - apply (heal_Reached _ _ this image this' image' IH Hfits E).
Qed.

Lemma fresh3x3_reachable : reachable image3x3 1 fresh3x3.
Proof. apply reachable_new. reflexivity. Qed.

Lemma erased3x3_reachable : reachable image3x3 1 erased3x3.
Proof.
  apply (reachable_erasePixel image3x3 1 fresh3x3 1 1).
  - apply fresh3x3_reachable.
  - repeat split; vm_compute; congruence.
  - reflexivity.
Qed.



(** X21. In every state of a healer the groups of the two maps are the
    same: the group numbers from [BOUNDARY_GROUP_FIRST] up to
    [m_boundaryGroupNext], this one excluded, each with a centroid and an
    anchor. *)
Theorem reachable_group_numbers (imageBefore : QImage.t)
  (modelCloseDistance : Q) (this : GridHealer) :
  reachable imageBefore modelCloseDistance this ->
  BOUNDARY_GROUP_FIRST <= m_boundaryGroupNext this /\
  forall group,
    (QMap.contains (m_groupNumberToCentroid this) group = true <->
     BOUNDARY_GROUP_FIRST <= group < m_boundaryGroupNext this) /\
    (QMap.contains (m_groupNumberToPixel this) group = true <->
     BOUNDARY_GROUP_FIRST <= group < m_boundaryGroupNext this).
Proof.
  intros Hr. pose proof (reachable_Reached _ _ _ Hr) as R.
  split; [apply (Healthy_first _ (Reached_Healthy _ _ _ R))|].
  intros group. split.
  - apply (Reached_centroids _ _ _ R).
  - apply (Reached_anchors _ _ _ R).
Qed.

Lemma line3x3_reachable : reachable imageLine3x3 3 line3x3.
Proof.
  apply reachable_new. reflexivity.
Qed.

Lemma cut3x3_reachable : reachable imageLine3x3 3 cut3x3.
Proof.
  apply (reachable_erasePixel imageLine3x3 3 line3x3 1 1).
  - apply line3x3_reachable.
  - repeat split; vm_compute; congruence.
  - reflexivity.
Qed.

Lemma mended3x3_reachable : reachable imageLine3x3 3 mended3x3.
Proof.
  apply (reachable_heal imageLine3x3 3 cut3x3 imageLine3x3 mended3x3
           (snd (match heal cut3x3 imageLine3x3 with
                 | Ok r => r
                 | Err _ => (cut3x3, imageLine3x3)
                 end))).
  - apply cut3x3_reachable.
  - reflexivity.
  - vm_compute. reflexivity.
Qed.

Lemma reachable_group_numbers_witness :
  m_groupNumberToCentroid mended3x3
  = [(BOUNDARY_GROUP_FIRST, QPointF.mk 1 0);
     (BOUNDARY_GROUP_FIRST + 1, QPointF.mk 1 2)] /\
  BOUNDARY_GROUP_FIRST <= m_boundaryGroupNext mended3x3 /\
  forall group,
    (QMap.contains (m_groupNumberToCentroid mended3x3) group = true <->
     BOUNDARY_GROUP_FIRST <= group < BOUNDARY_GROUP_FIRST + 2) /\
    (QMap.contains (m_groupNumberToPixel mended3x3) group = true <->
     BOUNDARY_GROUP_FIRST <= group < BOUNDARY_GROUP_FIRST + 2).
Proof.
  split; [reflexivity|].
  apply (reachable_group_numbers imageLine3x3 3 mended3x3).
  apply mended3x3_reachable.
Defined.

(** X22. In every state of a healer a pixel has one of the five pixel
    states, or the number of a group that has a centroid and an anchor:
    the group numbers are not mistaken for states. *)
Theorem reachable_pixel_states (imageBefore : QImage.t)
  (modelCloseDistance : Q) (this : GridHealer) (p : cell) (v : Z) :
  reachable imageBefore modelCloseDistance this ->
  stateAt (m_pixels this) p = Ok v ->
  (In v [PIXEL_STATE_BACKGROUND; PIXEL_STATE_FOREGROUND;
         PIXEL_STATE_ADJACENT; PIXEL_STATE_REMOVED; PIXEL_STATE_HEALED] \/
   BOUNDARY_GROUP_FIRST <= v < m_boundaryGroupNext this /\
   QMap.contains (m_groupNumberToCentroid this) v = true /\
   QMap.contains (m_groupNumberToPixel this) v = true).
Proof.
  intros Hr Hv. pose proof (reachable_Reached _ _ _ Hr) as R.
  destruct (Reached_states _ _ _ R p v Hv) as [Hs|Hg].
  - left. unfold NUM_PIXEL_STATES in Hs.
    unfold PIXEL_STATE_BACKGROUND, PIXEL_STATE_FOREGROUND,
      PIXEL_STATE_ADJACENT, PIXEL_STATE_REMOVED, PIXEL_STATE_HEALED.
    cbn [In]. lia.
  - right. split; [exact Hg|]. split.
    + apply (Reached_centroids _ _ _ R). exact Hg.
    + apply (Reached_anchors _ _ _ R). exact Hg.
Qed.

Lemma reachable_pixel_states_witness :
  In PIXEL_STATE_REMOVED
     [PIXEL_STATE_BACKGROUND; PIXEL_STATE_FOREGROUND;
      PIXEL_STATE_ADJACENT; PIXEL_STATE_REMOVED; PIXEL_STATE_HEALED] \/
  BOUNDARY_GROUP_FIRST <= PIXEL_STATE_REMOVED < m_boundaryGroupNext erased3x3
  /\ QMap.contains (m_groupNumberToCentroid erased3x3) PIXEL_STATE_REMOVED
     = true
  /\ QMap.contains (m_groupNumberToPixel erased3x3) PIXEL_STATE_REMOVED
     = true.
Proof.
  apply (reachable_pixel_states image3x3 1 erased3x3 (1, 1)).
  - apply erased3x3_reachable.
  - reflexivity.
Defined.

(** X23. No function of the healer changes the size of the grid or the
    close distance: in every state the grid is rectangular and its pixels
    are those of the image of the constructor. *)
Theorem reachable_grid_size (imageBefore : QImage.t)
  (modelCloseDistance : Q) (this : GridHealer) :
  reachable imageBefore modelCloseDistance this ->
  closeDistance this = modelCloseDistance /\
  rectangular (m_pixels this) = true /\
  QVector.count (m_pixels this) = Z.max 0 (QImage.height imageBefore) /\
  forall p,
    (exists v, stateAt (m_pixels this) p = Ok v) <->
    0 <= fst p < QImage.height imageBefore /\
    0 <= snd p < QImage.width imageBefore.
Proof.
  intros Hr. pose proof (reachable_Reached _ _ _ Hr) as R.
  pose proof (Healthy_rect _ (Reached_Healthy _ _ _ R)) as Hrect.
  split; [apply (Reached_closeDistance _ _ _ R)|].
  split; [exact Hrect|].
  split; [apply (Reached_count _ _ _ R)|].
  intros p. rewrite <- (Reached_inside _ _ _ R). split.
  - intros (v & Hv). apply (stateAt_Ok_inside _ _ _ Hrect Hv).
  - apply (stateAt_inside _ _ Hrect).
Qed.

Lemma reachable_grid_size_witness :
  closeDistance erased3x3 = 1%Q /\
  rectangular (m_pixels erased3x3) = true /\
  QVector.count (m_pixels erased3x3) = Z.max 0 (QImage.height image3x3) /\
  forall p,
    (exists v, stateAt (m_pixels erased3x3) p = Ok v) <->
    0 <= fst p < QImage.height image3x3 /\
    0 <= snd p < QImage.width image3x3.
Proof.
  apply (reachable_grid_size image3x3 1 erased3x3).
  apply erased3x3_reachable.
Defined.

(* ================================================================== *)
(** * GraphicsLinesForCurves *)

Section GraphicsLinesForCurvesFacts.

Context {collaborators : Collaborators}.

Lemma container_value_insert {V} (m : GraphicsLinesContainer.t V) k v k' :
  GraphicsLinesContainer.value (GraphicsLinesContainer.insert m k v) k'
  = if String.eqb k' k then Some v else GraphicsLinesContainer.value m k'.
Proof.
  induction m as [|[k0 w] m IH]; cbn [GraphicsLinesContainer.insert
                                      GraphicsLinesContainer.value].
  - rewrite (String.eqb_sym k k'). reflexivity.
  - destruct (String.ltb k k0).
    + cbn [GraphicsLinesContainer.value].
      rewrite (String.eqb_sym k k'). reflexivity.
    + destruct (String.eqb_spec k k0) as [->|Hne].
      * cbn [GraphicsLinesContainer.value].
        rewrite (String.eqb_sym k0 k').
        destruct (String.eqb k' k0); reflexivity.
      * cbn [GraphicsLinesContainer.value]. rewrite IH.
        destruct (String.eqb_spec k0 k') as [->|Hne'].
        -- destruct (String.eqb_spec k' k); [congruence|reflexivity].
        -- reflexivity.
Qed.

Lemma container_value_call {V} (m : GraphicsLinesContainer.t V) k f k' :
  GraphicsLinesContainer.value (GraphicsLinesContainer.call m k f) k'
  = if String.eqb k' k
    then option_map f (GraphicsLinesContainer.value m k')
    else GraphicsLinesContainer.value m k'.
Proof.
  induction m as [|[k0 w] m IH]; cbn [GraphicsLinesContainer.call
                                      GraphicsLinesContainer.value].
  - destruct (String.eqb k' k); reflexivity.
  - destruct (String.eqb_spec k0 k) as [->|Hne].
    + cbn [GraphicsLinesContainer.value].
      destruct (String.eqb_spec k k') as [->|Hne'].
      * rewrite String.eqb_refl. reflexivity.
      * destruct (String.eqb_spec k' k); [congruence|reflexivity].
    + cbn [GraphicsLinesContainer.value]. rewrite IH.
      destruct (String.eqb_spec k0 k') as [->|Hne'].
      * destruct (String.eqb_spec k' k); [congruence|reflexivity].
      * reflexivity.
Qed.

(** The lines of a curve after [savePoint]. *)
Lemma savePoint_value curveName ordinal point
  (m : GraphicsLinesForCurves) name :
  GraphicsLinesContainer.value (savePoint curveName ordinal point m) name
  = if String.eqb curveName AXIS_CURVE_NAME
    then GraphicsLinesContainer.value m name
    else if String.eqb name curveName
         then Some (GraphicsLinesForCurve_savePoint ordinal point
                      match GraphicsLinesContainer.value m curveName with
                      | Some graphicsLines => graphicsLines
                      | None => GraphicsLinesForCurve_new
                      end)
         else GraphicsLinesContainer.value m name.
Proof.
  unfold savePoint.
  destruct (String.eqb curveName AXIS_CURVE_NAME); cbn [negb];
    [reflexivity|].
  cbv zeta. rewrite container_value_call.
  unfold GraphicsLinesContainer.contains.
  destruct (String.eqb_spec name curveName) as [->|Hne].
  - destruct (GraphicsLinesContainer.value m curveName) as [g|] eqn:Eg;
      cbn [negb].
    + rewrite Eg. reflexivity.
    + rewrite container_value_insert, String.eqb_refl. reflexivity.
  - destruct (GraphicsLinesContainer.value m curveName) as [g|] eqn:Eg;
      cbn [negb]; [reflexivity|].
    rewrite container_value_insert.
    destruct (String.eqb_spec name curveName); [congruence|reflexivity].
Qed.

(** X24. [savePoint] by curve name.  For the curve of the axis points it
    changes nothing.  For another curve it saves the point in the lines of
    this curve, which are new lines when the curve had none; the lines of
    the other curves are the same, no curve is removed, and the curve of
    the axis points is never added. *)
Theorem savePoint_lookup (curveName : QString) (ordinal : Z)
  (point : GraphicsPoint) (m : GraphicsLinesForCurves) :
  (curveName = AXIS_CURVE_NAME -> savePoint curveName ordinal point m = m) /\
  (curveName <> AXIS_CURVE_NAME ->
   GraphicsLinesContainer.value (savePoint curveName ordinal point m)
     curveName
   = Some (GraphicsLinesForCurve_savePoint ordinal point
             match GraphicsLinesContainer.value m curveName with
             | Some graphicsLines => graphicsLines
             | None => GraphicsLinesForCurve_new
             end)) /\
  (forall name, name <> curveName ->
     GraphicsLinesContainer.value (savePoint curveName ordinal point m) name
     = GraphicsLinesContainer.value m name) /\
  (forall name, GraphicsLinesContainer.contains m name = true ->
     GraphicsLinesContainer.contains (savePoint curveName ordinal point m)
       name = true) /\
  GraphicsLinesContainer.contains (savePoint curveName ordinal point m)
    AXIS_CURVE_NAME
  = GraphicsLinesContainer.contains m AXIS_CURVE_NAME.
Proof.
  split; [|split; [|split; [|split]]].
  - intros ->. unfold savePoint. rewrite String.eqb_refl. reflexivity.
  - intros Hne. rewrite savePoint_value.
    destruct (String.eqb_spec curveName AXIS_CURVE_NAME); [congruence|].
    rewrite String.eqb_refl. reflexivity.
  - intros name Hne. rewrite savePoint_value.
    destruct (String.eqb curveName AXIS_CURVE_NAME); [reflexivity|].
    destruct (String.eqb_spec name curveName); [congruence|reflexivity].
  - intros name. unfold GraphicsLinesContainer.contains.
    rewrite savePoint_value.
    destruct (String.eqb curveName AXIS_CURVE_NAME); [auto|].
    destruct (String.eqb name curveName); auto.
  - unfold GraphicsLinesContainer.contains. rewrite savePoint_value.
    destruct (String.eqb_spec curveName AXIS_CURVE_NAME) as [E|Hne];
      [reflexivity|].
    destruct (String.eqb_spec AXIS_CURVE_NAME curveName); [congruence|].
    reflexivity.
Qed.

(** X25. Points of two different curves can be saved in any order: the
    lines of every curve are the same. *)
Theorem savePoint_commutes (curveName1 curveName2 : QString)
  (ordinal1 ordinal2 : Z) (point1 point2 : GraphicsPoint)
  (m : GraphicsLinesForCurves) (name : QString) :
  curveName1 <> curveName2 ->
  GraphicsLinesContainer.value
    (savePoint curveName2 ordinal2 point2
       (savePoint curveName1 ordinal1 point1 m)) name
  = GraphicsLinesContainer.value
      (savePoint curveName1 ordinal1 point1
         (savePoint curveName2 ordinal2 point2 m)) name.
Proof.
  intros Hne. rewrite !savePoint_value.
  destruct (String.eqb_spec curveName1 AXIS_CURVE_NAME) as [E1|N1];
    destruct (String.eqb_spec curveName2 AXIS_CURVE_NAME) as [E2|N2];
    try reflexivity.
  destruct (String.eqb_spec curveName1 curveName2); [congruence|].
  destruct (String.eqb_spec curveName2 curveName1); [congruence|].
  destruct (String.eqb_spec name curveName1) as [Q1|Hn1];
    destruct (String.eqb_spec name curveName2) as [Q2|Hn2];
    try reflexivity.
  congruence.
Qed.

(** X26. [resetPoints] and [updateLines] add and remove no curve.
    [resetPoints] resets the lines of every curve, and [updateLines] updates
    the lines of every curve with the line style of its name. *)
Theorem resetPoints_updateLines_curves (scene : GraphicsScene)
  (lineStyles : LineStyles) (m : GraphicsLinesForCurves) :
  GraphicsLinesContainer.keys (resetPoints m)
  = GraphicsLinesContainer.keys m /\
  GraphicsLinesContainer.keys (snd (updateLines scene lineStyles m))
  = GraphicsLinesContainer.keys m /\
  (forall name,
     GraphicsLinesContainer.value (resetPoints m) name
     = option_map GraphicsLinesForCurve_resetPoints
         (GraphicsLinesContainer.value m name)) /\
  (forall name,
     match GraphicsLinesContainer.value m name with
     | Some graphicsLines =>
         exists scene0,
           GraphicsLinesContainer.value
             (snd (updateLines scene lineStyles m)) name
           = Some (snd (GraphicsLinesForCurve_updateLines scene0
                          (LineStyles_at lineStyles name) graphicsLines))
     | None =>
         GraphicsLinesContainer.value
           (snd (updateLines scene lineStyles m)) name = None
     end).
Proof.
  unfold resetPoints, updateLines, GraphicsLinesContainer.keys.
  split; [|split; [|split]].
  - rewrite map_map. reflexivity.
  - revert scene. induction m as [|[k v] m IH]; intros scene;
      cbn [updateLines_loop fst snd map]; [reflexivity|].
    destruct (GraphicsLinesForCurve_updateLines scene
                (LineStyles_at lineStyles k) v) as [scene1 v1].
    specialize (IH scene1).
    destruct (updateLines_loop scene1 lineStyles m) as [scene2 m2].
    cbn [fst snd map] in *. rewrite IH. reflexivity.
  - intros name. induction m as [|[k v] m IH];
      cbn [map GraphicsLinesContainer.value fst snd]; [reflexivity|].
    destruct (String.eqb k name); [reflexivity|exact IH].
  - intros name. revert scene. induction m as [|[k v] m IH]; intros scene;
      cbn [updateLines_loop GraphicsLinesContainer.value fst snd];
      [reflexivity|].
    destruct (GraphicsLinesForCurve_updateLines scene
                (LineStyles_at lineStyles k) v) as [scene1 v1] eqn:Ev.
    specialize (IH scene1).
    destruct (updateLines_loop scene1 lineStyles m) as [scene2 m2].
    cbn [fst snd GraphicsLinesContainer.value] in *.
    destruct (String.eqb_spec k name) as [->|Hne].
    + exists scene. rewrite Ev. reflexivity.
    + exact IH.
Qed.

End GraphicsLinesForCurvesFacts.

Lemma savePoint_commutes_witness :
  GraphicsLinesContainer.value
    (savePoint (collaborators := exampleCollaborators) curveB 2 20
       (savePoint (collaborators := exampleCollaborators) curveA 1 10 []))
    curveA
  = GraphicsLinesContainer.value
      (savePoint (collaborators := exampleCollaborators) curveA 1 10
         (savePoint (collaborators := exampleCollaborators) curveB 2 20 []))
      curveA.
Proof.
  apply (savePoint_commutes (collaborators := exampleCollaborators)
           curveA curveB 1 2 10 20 [] curveA).
  discriminate.
Defined.

(* ================================================================== *)
(** * The arithmetic of the doubles *)

(** ** The number of digits *)

Lemma fexp_eq e : fexp Binary64.prec Binary64.emax e = Z.max (e - 53) (-1074).
Proof. reflexivity. Qed.

Lemma digits2_log2 m : Zpos (digits2_pos m) = Z.log2 (Zpos m) + 1.
Proof.
  assert (E : digits2_pos m = Pos.size m)
    by (induction m as [m IH|m IH|]; simpl; congruence).
  rewrite E. destruct m; simpl; try rewrite Pos2Z.inj_succ; lia.
Qed.

Lemma digits2_bounds m :
  2 ^ (Zpos (digits2_pos m) - 1) <= Zpos m < 2 ^ Zpos (digits2_pos m).
Proof.
  rewrite digits2_log2.
  replace (Z.log2 (Zpos m) + 1 - 1) with (Z.log2 (Zpos m)) by lia.
  apply Z.log2_spec. lia.
Qed.

Lemma digits2_unique m d :
  2 ^ (d - 1) <= Zpos m < 2 ^ d -> Zpos (digits2_pos m) = d.
Proof.
  intros H. rewrite digits2_log2.
  assert (0 <= d - 1).
  { destruct (Z.le_gt_cases 0 (d - 1)) as [Hd|Hd]; [exact Hd|].
    destruct (Z.le_gt_cases 0 d) as [Hd'|Hd'].
    - assert (d = 0) by lia. subst d. simpl in H. lia.
    - rewrite (Z.pow_neg_r 2 d) in H by lia. lia. }
  rewrite (Z.log2_unique (Zpos m) (d - 1)); [lia | lia |].
  replace (Z.succ (d - 1)) with d by lia. exact H.
Qed.

Lemma Zdigits2_nonneg m : 0 <= Zdigits2 m.
Proof. destruct m; simpl; lia. Qed.

(** A number below [2 ^ D] has at most [D] digits. *)
Lemma Zdigits2_le m D : 0 <= m < 2 ^ D -> 0 <= D -> Zdigits2 m <= D.
Proof.
  intros [H0 H1] HD. destruct m as [|p|p]; simpl; [lia| |lia].
  destruct (digits2_bounds p) as [B1 _].
  destruct (Z.le_gt_cases (Zpos (digits2_pos p)) D) as [H|H]; [exact H|].
  assert (2 ^ D <= 2 ^ (Zpos (digits2_pos p) - 1))
    by (apply Z.pow_le_mono_r; lia).
  lia.
Qed.

Lemma Zdigits2_ge m D : 2 ^ D <= m -> 0 <= D -> D + 1 <= Zdigits2 m.
Proof.
  intros H HD.
  assert (0 < 2 ^ D) by (apply Z.pow_pos_nonneg; lia).
  destruct m as [|p|p]; simpl; [lia| |lia].
  destruct (digits2_bounds p) as [_ B2].
  destruct (Z.le_gt_cases (D + 1) (Zpos (digits2_pos p))) as [H'|H'];
    [exact H'|].
  assert (2 ^ Zpos (digits2_pos p) <= 2 ^ D)
    by (apply Z.pow_le_mono_r; lia).
  lia.
Qed.

(** ** The shift to the right *)

Lemma loc_Exact_inv r :
  loc_of_shr_record r = loc_Exact <-> shr_r r = false /\ shr_s r = false.
Proof.
  destruct r as [m [|] [|]]; simpl; split; intros H;
    try discriminate; try tauto; destruct H; discriminate.
Qed.

Lemma shr_1_shifted r : 0 <= shr_m r -> shifted 1 r (shr_1 r).
Proof.
  destruct r as [m rr ss]. cbn [shr_m]. intros Hm.
  unfold shifted. cbn [shr_m]. change (2 ^ 1) with 2.
  destruct m as [|[p|p|]|p]; try lia; cbn [shr_1 shr_m]; split.
  - reflexivity.
  - intros E _. apply loc_Exact_inv in E. cbn in E. destruct E as [-> ->].
    reflexivity.
  - rewrite Pos2Z.inj_xI. apply Z.div_unique with 1; lia.
  - intros _ E. exfalso. rewrite Pos2Z.inj_xI in E.
    rewrite Z.add_comm, Z.mul_comm, Z.mod_add in E by lia. discriminate.
  - rewrite Pos2Z.inj_xO. apply Z.div_unique with 0; lia.
  - intros E _. apply loc_Exact_inv in E. cbn in E. destruct E as [-> ->].
    reflexivity.
  - reflexivity.
  - intros _ E. discriminate.
Qed.

Lemma shifted_nonneg k r0 r1 :
  shifted k r0 r1 -> 0 <= shr_m r0 -> 0 <= shr_m r1.
Proof.
  intros [E _] H. rewrite E.
  destruct (Z.le_gt_cases 0 k).
  - apply Z.div_pos; [exact H|]. apply Z.pow_pos_nonneg; lia.
  - rewrite Z.pow_neg_r by lia. rewrite Z.div_0_r. lia.
Qed.

Lemma shifted_trans a b r0 r1 r2 :
  0 <= a -> 0 <= b -> 0 <= shr_m r0 ->
  shifted a r0 r1 -> shifted b r1 r2 -> shifted (a + b) r0 r2.
Proof.
  intros Ha Hb Hm [E1 X1] [E2 X2].
  assert (Pa : 0 < 2 ^ a) by (apply Z.pow_pos_nonneg; lia).
  assert (Pb : 0 < 2 ^ b) by (apply Z.pow_pos_nonneg; lia).
  split.
  - rewrite E2, E1, Z.pow_add_r by lia. apply Z.div_div; lia.
  - intros Ex Hd. rewrite Z.pow_add_r in Hd by lia.
    apply Z.mod_divide in Hd; [|lia]. destruct Hd as [c Hc].
    apply X2.
    + apply X1; [exact Ex|]. apply Z.mod_divide; [lia|].
      exists (c * 2 ^ b). lia.
    + rewrite E1, Hc.
      replace (c * (2 ^ a * 2 ^ b)) with (c * 2 ^ b * 2 ^ a) by ring.
      rewrite Z.div_mul by lia. apply Z.mod_mul. lia.
Qed.

Lemma iter_pos_shifted p : forall r,
  0 <= shr_m r -> shifted (Zpos p) r (iter_pos shr_1 p r).
Proof.
  induction p as [p IH|p IH|]; intros r Hr; cbn [iter_pos].
  - pose proof (shr_1_shifted r Hr) as S1.
    pose proof (shifted_nonneg _ _ _ S1 Hr) as H1.
    pose proof (IH _ H1) as S2.
    pose proof (shifted_nonneg _ _ _ S2 H1) as H2.
    pose proof (IH _ H2) as S3.
    replace (Zpos p~1) with (1 + Zpos p + Zpos p)
      by (rewrite (Pos2Z.inj_xI p); lia).
    assert (S12 : shifted (1 + Zpos p) r (iter_pos shr_1 p (shr_1 r)))
      by (apply (shifted_trans 1 (Zpos p) r (shr_1 r)); auto; lia).
    apply (shifted_trans (1 + Zpos p) (Zpos p) r
             (iter_pos shr_1 p (shr_1 r))); auto; lia.
  - pose proof (IH _ Hr) as S2.
    pose proof (shifted_nonneg _ _ _ S2 Hr) as H2.
    pose proof (IH _ H2) as S3.
    replace (Zpos p~0) with (Zpos p + Zpos p)
      by (rewrite (Pos2Z.inj_xO p); lia).
    apply (shifted_trans (Zpos p) (Zpos p) r (iter_pos shr_1 p r));
      auto; lia.
  - apply shr_1_shifted. exact Hr.
Qed.

Lemma shifted_0 r : shifted 0 r r.
Proof.
  split; [|auto]. change (2 ^ 0) with 1. rewrite Z.div_1_r. reflexivity.
Qed.

(** [shr]: the mantissa, the exponent and the location after the shift. *)
Lemma shr_shifted r e n :
  0 <= shr_m r ->
  shifted (Z.max 0 n) r (fst (shr r e n)) /\
  snd (shr r e n) = e + Z.max 0 n.
Proof.
  intros Hr. destruct n as [|p|p]; cbn [shr fst snd].
  - split; [apply shifted_0 | lia].
  - replace (Z.max 0 (Zpos p)) with (Zpos p) by lia.
    split; [apply iter_pos_shifted; exact Hr | reflexivity].
  - replace (Z.max 0 (Zneg p)) with 0 by lia.
    split; [apply shifted_0 | lia].
Qed.

Lemma loc_of_shr_record_of_loc m l :
  loc_of_shr_record (shr_record_of_loc m l) = l.
Proof. destruct l as [|[| |]]; reflexivity. Qed.

Lemma shr_m_of_loc m l : shr_m (shr_record_of_loc m l) = m.
Proof. destruct l as [|[| |]]; reflexivity. Qed.

Lemma shr_fexp_shifted m e l :
  0 <= m ->
  let k := Z.max 0 (fexp Binary64.prec Binary64.emax (Zdigits2 m + e) - e) in
  shr_m (fst (shr_fexp Binary64.prec Binary64.emax m e l)) = m / 2 ^ k /\
  (l = loc_Exact -> m mod 2 ^ k = 0 ->
   loc_of_shr_record (fst (shr_fexp Binary64.prec Binary64.emax m e l))
   = loc_Exact) /\
  snd (shr_fexp Binary64.prec Binary64.emax m e l) = e + k.
Proof.
  intros Hm k. unfold shr_fexp.
  destruct (shr_shifted (shr_record_of_loc m l) e
              (fexp Binary64.prec Binary64.emax (Zdigits2 m + e) - e))
    as [[E X] Es].
  - rewrite shr_m_of_loc. exact Hm.
  - rewrite shr_m_of_loc in E, X. rewrite loc_of_shr_record_of_loc in X.
    fold k in E, X, Es. auto.
Qed.

Lemma round_nearest_even_cases m l :
  (round_nearest_even m l = m \/ round_nearest_even m l = m + 1) /\
  (l = loc_Exact -> round_nearest_even m l = m).
Proof.
  split; [|intros ->; reflexivity].
  destruct l as [|[| |]]; simpl; auto.
  destruct (Z.even m); auto.
Qed.

Lemma Zdigits2_pow2 D : 0 <= D -> Zdigits2 (2 ^ D) = D + 1.
Proof.
  intros HD. assert (0 < 2 ^ D) by (apply Z.pow_pos_nonneg; lia).
  destruct (2 ^ D) as [|p|p] eqn:E; try lia. simpl.
  apply digits2_unique. rewrite <- E.
  replace (D + 1 - 1) with D by lia. split; [lia|].
  apply Z.pow_lt_mono_r; lia.
Qed.

(** [binary_round_aux]: the mantissa is the one of the argument, shifted to
    the right, or the next one; the result is zero or finite. *)
Lemma binary_round_aux_spec sx (mx : positive) ex lx :
  let d := Zpos (digits2_pos mx) in
  let k1 := Z.max 0 (fexp Binary64.prec Binary64.emax (d + ex) - ex) in
  ex + k1 + 1 <= 971 ->
  exists m1 : Z,
    (m1 = Zpos mx / 2 ^ k1 \/ m1 = Zpos mx / 2 ^ k1 + 1) /\
    (lx = loc_Exact -> Zpos mx mod 2 ^ k1 = 0 -> m1 = Zpos mx / 2 ^ k1) /\
    ((m1 = 0 /\
      binary_round_aux Binary64.prec Binary64.emax sx (Zpos mx) ex lx
      = S754_zero sx) \/
     (exists m2 k2,
        binary_round_aux Binary64.prec Binary64.emax sx (Zpos mx) ex lx
        = S754_finite sx m2 (ex + k1 + k2) /\
        k2 = Z.max 0 (fexp Binary64.prec Binary64.emax
                        (Zdigits2 m1 + (ex + k1)) - (ex + k1)) /\
        m1 = Zpos m2 * 2 ^ k2)).
Proof.
  intros d k1 Hov.
  unfold binary_round_aux.
  destruct (shr_fexp_shifted (Zpos mx) ex lx) as (E1 & X1 & S1); [lia|].
  cbn [Zdigits2] in E1, X1, S1. fold d in E1, X1, S1. fold k1 in E1, X1, S1.
  destruct (shr_fexp Binary64.prec Binary64.emax (Zpos mx) ex lx)
    as [mrs' e'] eqn:Eshr1.
  cbn [fst snd] in E1, X1, S1.
  set (m' := Zpos mx / 2 ^ k1) in *.
  set (m1 := round_nearest_even (shr_m mrs') (loc_of_shr_record mrs')).
  destruct (round_nearest_even_cases (shr_m mrs') (loc_of_shr_record mrs'))
    as [C1 C2].
  fold m1 in C1, C2. rewrite E1 in C1.
  assert (Hk1 : 0 <= k1) by (unfold k1; lia).
  assert (P1 : 0 < 2 ^ k1) by (apply Z.pow_pos_nonneg; lia).
  assert (Hm' : 0 <= m') by (unfold m'; apply Z.div_pos; lia).
  assert (Hm1 : 0 <= m1) by lia.
  exists m1. split; [exact C1|].
  split.
  { intros El Hd. rewrite <- E1. apply C2. apply X1; assumption. }
  destruct (shr_fexp_shifted m1 e' loc_Exact Hm1) as (E2 & _ & S2).
  destruct (shr_fexp Binary64.prec Binary64.emax m1 e' loc_Exact)
    as [mrs'' e''] eqn:Eshr2.
  cbn [fst snd] in E2, S2.
  set (k2 := Z.max 0 (fexp Binary64.prec Binary64.emax (Zdigits2 m1 + e') - e'))
    in *.
  (* the second shift is of at most one digit, which is zero *)
  destruct (digits2_bounds mx) as [B1 B2]. fold d in B1, B2.
  assert (Hd : 1 <= d) by (unfold d; lia).
  set (D := Z.max 0 (d - k1)).
  assert (Hm'D : m' < 2 ^ D).
  { unfold m'. apply Z.div_lt_upper_bound; [lia|].
    rewrite <- Z.pow_add_r by (unfold D; lia).
    apply Z.lt_le_trans with (2 ^ d); [lia|].
    apply Z.pow_le_mono_r; unfold D; lia. }
  assert (HfD : fexp Binary64.prec Binary64.emax (D + e') <= e').
  { rewrite fexp_eq. subst e'. unfold D, k1. rewrite fexp_eq. lia. }
  assert (Hk2 : k2 = 0 \/ (k2 = 1 /\ m1 = 2 ^ D /\ 1 <= D)).
  { destruct (Z.eq_dec m1 (2 ^ D)) as [Em|Em].
    - assert (Zdigits2 m1 = D + 1)
        by (rewrite Em; apply Zdigits2_pow2; unfold D; lia).
      unfold k2. rewrite H. rewrite fexp_eq in *.
      destruct (Z.eq_dec D 0) as [ED|ED].
      + left. subst e'. unfold D, k1 in *. rewrite fexp_eq in *. lia.
      + assert (1 <= D) by (unfold D in *; lia).
        assert (fexp Binary64.prec Binary64.emax (D + 1 + e') - e' <= 1)
          by (rewrite fexp_eq in *; lia).
        rewrite fexp_eq in *. lia.
    - left. assert (Zdigits2 m1 <= D).
      { apply Zdigits2_le; [|unfold D; lia]. lia. }
      unfold k2. rewrite fexp_eq in *. lia. }
  assert (Hdiv : m1 = shr_m mrs'' * 2 ^ k2 /\ 0 <= shr_m mrs'' /\
                 (shr_m mrs'' = 0 -> m1 = 0)).
  { rewrite E2. destruct Hk2 as [->|(-> & -> & HD)].
    - change (2 ^ 0) with 1. rewrite Z.div_1_r. lia.
    - change (2 ^ 1) with 2.
      replace D with (1 + (D - 1)) by lia.
      rewrite Z.pow_add_r by lia. change (2 ^ 1) with 2.
      rewrite (Z.mul_comm 2), Z.div_mul by lia.
      assert (0 < 2 ^ (D - 1)) by (apply Z.pow_pos_nonneg; lia).
      lia. }
  destruct Hdiv as (Hdiv & Hnn & Hz).
  destruct (shr_m mrs'') as [|m2|m2] eqn:Em2.
  - left. split; [apply Hz; reflexivity | reflexivity].
  - right. exists m2, k2.
    assert (Hle : (e'' <=? Binary64.emax - Binary64.prec) = true).
    { apply Z.leb_le. change (Binary64.emax - Binary64.prec) with 971.
      subst e'' e'. destruct Hk2 as [->|(-> & _)]; lia. }
    rewrite Hle. subst e'' e'. split; [reflexivity|].
    split; [reflexivity | exact Hdiv].
  - lia.
Qed.

(** ** Powers of 2 *)

Lemma two_nonzero : ~ (2 == 0)%Q.
Proof. discriminate. Qed.

Lemma pow2_pos e : (0 < 2 ^ e)%Q.
Proof. apply Qpower_0_lt. reflexivity. Qed.

Lemma pow2_add a b : (2 ^ (a + b) == 2 ^ a * 2 ^ b)%Q.
Proof. apply Qpower_plus. exact two_nonzero. Qed.

Lemma pow2_Z k : 0 <= k -> (2 ^ k == inject_Z (2 ^ k))%Q.
Proof. intros H. symmetry. apply (Zpower_Qpower 2 k H). Qed.

Lemma pow2_le a b : a <= b -> (2 ^ a <= 2 ^ b)%Q.
Proof. intros H. apply Qpower_le_compat_l; [exact H | discriminate]. Qed.

Lemma pow2_le_inv a b : (2 ^ a <= 2 ^ b)%Q -> a <= b.
Proof. intros H. apply (Qpower_le_compat_l_inv 2); [exact H | reflexivity]. Qed.

Lemma pow2_lt_inv a b : (2 ^ a < 2 ^ b)%Q -> a < b.
Proof. intros H. apply (Qpower_lt_compat_l_inv 2); [exact H | reflexivity]. Qed.

Lemma pow2_max a b : (2 ^ Z.max a b <= 2 ^ a + 2 ^ b)%Q.
Proof.
  pose proof (pow2_pos a). pose proof (pow2_pos b).
  destruct (Z.max_spec a b) as [[_ ->]|[_ ->]]; lra.
Qed.

Lemma inject_Z_le_mult a b (P : Q) :
  a <= b -> (0 <= P)%Q -> (inject_Z a * P <= inject_Z b * P)%Q.
Proof.
  intros H HP. apply Qmult_le_compat_r; [|exact HP].
  rewrite <- Zle_Qle. exact H.
Qed.

(** ** The value of a rounded number *)

Lemma valueOf_finite s m e :
  (valueOf (S754_finite s m e) == signOf s * (inject_Z (Zpos m) * 2 ^ e))%Q.
Proof. unfold valueOf, signOf. destruct s; ring. Qed.

Lemma signOf_cases s : signOf s = 1%Q \/ signOf s = (-1)%Q.
Proof. destruct s; auto. Qed.

(** A number of at most [2 ^ 900] has an exponent that is in range. *)
Lemma no_overflow (mx : positive) ex :
  (inject_Z (Zpos mx) * 2 ^ ex <= 2 ^ 900)%Q ->
  let d := Zpos (digits2_pos mx) in
  ex + Z.max 0 (fexp Binary64.prec Binary64.emax (d + ex) - ex) + 1 <= 971.
Proof.
  intros H d.
  destruct (digits2_bounds mx) as [B1 _]. fold d in B1.
  assert (Hd : 1 <= d) by (unfold d; lia).
  assert (H1 : (2 ^ (d - 1 + ex) <= 2 ^ 900)%Q).
  { rewrite pow2_add. rewrite (pow2_Z (d - 1)) by lia.
    apply Qle_trans with (inject_Z (Zpos mx) * 2 ^ ex)%Q; [|exact H].
    apply inject_Z_le_mult; [exact B1|]. apply Qlt_le_weak, pow2_pos. }
  apply pow2_le_inv in H1. rewrite fexp_eq. lia.
Qed.

(** The result of [binary_round_aux] is within one unit of the last place
    of the number [X] that the mantissa, the exponent and the location
    stand for, and it is [X] when no digit is lost. *)
Lemma binary_round_aux_bound sx (mx : positive) ex lx (X : Q) :
  let d := Zpos (digits2_pos mx) in
  let k1 := Z.max 0 (fexp Binary64.prec Binary64.emax (d + ex) - ex) in
  let r := binary_round_aux Binary64.prec Binary64.emax sx (Zpos mx) ex lx in
  (inject_Z (Zpos mx) * 2 ^ ex <= X)%Q ->
  (X < inject_Z (Zpos mx + 1) * 2 ^ ex)%Q ->
  (lx = loc_Exact -> X == inject_Z (Zpos mx) * 2 ^ ex)%Q ->
  (lx = loc_Exact \/ ex <= fexp Binary64.prec Binary64.emax (d + ex)) ->
  (X <= 2 ^ 900)%Q ->
  isFinite r = true /\
  (exists V, valueOf r == signOf sx * V /\ 0 <= V /\
             Qabs (V - X) <= DBL_EPSILON * X + DBL_TRUE_MIN)%Q /\
  (lx = loc_Exact -> Zpos mx mod 2 ^ k1 = 0 ->
   (valueOf r == signOf sx * X)%Q).
Proof.
  intros d k1 r HX1 HX2 HXe Hl Hov.
  assert (Hno : ex + k1 + 1 <= 971).
  { apply no_overflow. apply Qle_trans with X; assumption. }
  destruct (binary_round_aux_spec sx mx ex lx Hno)
    as (m1 & C1 & C2 & Hr).
  fold d in C1, C2, Hr. fold k1 in C1, C2, Hr. fold r in Hr.
  set (m' := Zpos mx / 2 ^ k1) in *.
  assert (Hk1 : 0 <= k1) by (unfold k1; lia).
  assert (Pk : 0 < 2 ^ k1) by (apply Z.pow_pos_nonneg; lia).
  pose proof (pow2_pos ex) as PP.
  pose proof (pow2_pos (ex + k1)) as PPk.
  (* the value of the result *)
  assert (Hfin : isFinite r = true /\
                 (valueOf r == signOf sx * (inject_Z m1 * 2 ^ (ex + k1)))%Q).
  { destruct Hr as [[E0 Er]|(m2 & k2 & Er & Hk2 & Em)].
    - rewrite Er, E0. split; [reflexivity|]. simpl. ring.
    - rewrite Er. split; [reflexivity|].
      assert (0 <= k2) by lia.
      rewrite valueOf_finite, Em, inject_Z_mult, (pow2_add (ex + k1) k2).
      rewrite (pow2_Z k2) by lia. ring. }
  destruct Hfin as [Hfin Hval]. split; [exact Hfin|].
  (* the mantissa, before and after the shift *)
  assert (Hdiv1 : m' * 2 ^ k1 <= Zpos mx).
  { unfold m'. rewrite Z.mul_comm. apply Z.mul_div_le. lia. }
  assert (Hdiv2 : Zpos mx + 1 <= (m' + 1) * 2 ^ k1).
  { unfold m'. pose proof (Z.mul_succ_div_gt (Zpos mx) (2 ^ k1) Pk). lia. }
  assert (Hm' : 0 <= m') by (unfold m'; apply Z.div_pos; lia).
  assert (Epk : (2 ^ (ex + k1) == inject_Z (2 ^ k1) * 2 ^ ex)%Q).
  { rewrite pow2_add, (pow2_Z k1) by lia. ring. }
  assert (Q1 : (inject_Z m' * 2 ^ (ex + k1) <= inject_Z (Zpos mx) * 2 ^ ex)%Q).
  { rewrite Epk, Qmult_assoc, <- inject_Z_mult.
    apply inject_Z_le_mult; [exact Hdiv1 | lra]. }
  assert (Q2 : (inject_Z (Zpos mx + 1) * 2 ^ ex
                <= inject_Z (m' + 1) * 2 ^ (ex + k1))%Q).
  { rewrite Epk, Qmult_assoc, <- inject_Z_mult.
    apply inject_Z_le_mult; [exact Hdiv2 | lra]. }
  assert (Q3 : (inject_Z (m' + 1) * 2 ^ (ex + k1)
                == inject_Z m' * 2 ^ (ex + k1) + 2 ^ (ex + k1))%Q).
  { rewrite inject_Z_plus. ring. }
  assert (HX0 : (0 <= X)%Q).
  { apply Qle_trans with (inject_Z (Zpos mx) * 2 ^ ex)%Q; [|exact HX1].
    apply Qmult_le_0_compat; [|lra]. rewrite <- (Zle_Qle 0). lia. }
  assert (HV0 : (0 <= inject_Z m1 * 2 ^ (ex + k1))%Q).
  { apply Qmult_le_0_compat; [|lra]. rewrite <- (Zle_Qle 0). lia. }
  assert (Hexact : lx = loc_Exact -> Zpos mx mod 2 ^ k1 = 0 ->
            (inject_Z m1 * 2 ^ (ex + k1) == X)%Q).
  { intros El Hd. rewrite (C2 El Hd), (HXe El), Epk, Qmult_assoc,
      <- inject_Z_mult.
    assert (E : m' * 2 ^ k1 = Zpos mx).
    { unfold m'. apply Z.mod_divide in Hd; [|lia]. destruct Hd as [c ->].
      rewrite Z.div_mul by lia. reflexivity. }
    rewrite E. reflexivity. }
  split.
  - exists (inject_Z m1 * 2 ^ (ex + k1))%Q.
    split; [exact Hval|]. split; [exact HV0|].
    pose proof (pow2_pos (d + ex - 53)) as Pe.
    assert (He0 : (0 <= DBL_EPSILON * X + DBL_TRUE_MIN)%Q).
    { unfold DBL_EPSILON, DBL_TRUE_MIN.
      pose proof (pow2_pos (-52)). pose proof (pow2_pos (-1074)).
      assert (0 <= 2 ^ (-52) * X)%Q by (apply Qmult_le_0_compat; lra).
      lra. }
    destruct (Z.eq_dec k1 0) as [Ek|Ek].
    + destruct Hl as [El|Hle].
      * rewrite Hexact; auto.
        -- setoid_replace (X - X)%Q with 0%Q by ring. exact He0.
        -- rewrite Ek. apply Z.mod_1_r.
      * assert (Ef : ex + k1
                     = fexp Binary64.prec Binary64.emax (d + ex))
          by (unfold k1 in *; lia).
        assert (Hulp : (2 ^ (ex + k1) <= DBL_EPSILON * X + DBL_TRUE_MIN)%Q).
        { rewrite Ef, fexp_eq.
          apply Qle_trans with (2 ^ (d + ex - 53) + 2 ^ (-1074))%Q;
            [apply pow2_max|].
          unfold DBL_TRUE_MIN. apply Qplus_le_l.
          replace (d + ex - 53) with (-52 + (d - 1 + ex)) by lia.
          rewrite pow2_add. unfold DBL_EPSILON.
          apply Qmult_le_l; [apply pow2_pos|].
          apply Qle_trans with (inject_Z (Zpos mx) * 2 ^ ex)%Q; [|exact HX1].
          rewrite pow2_add.
          destruct (digits2_bounds mx) as [B1 _]. fold d in B1.
          rewrite (pow2_Z (d - 1)) by (unfold d; lia).
          apply inject_Z_le_mult; [exact B1 | lra]. }
        apply Qabs_Qle_condition.
        destruct C1 as [->| ->]; [|rewrite Q3]; split; lra.
    + assert (Ef : ex + k1 = fexp Binary64.prec Binary64.emax (d + ex))
        by (unfold k1 in *; lia).
      assert (Hulp : (2 ^ (ex + k1) <= DBL_EPSILON * X + DBL_TRUE_MIN)%Q).
      { rewrite Ef, fexp_eq.
        apply Qle_trans with (2 ^ (d + ex - 53) + 2 ^ (-1074))%Q;
          [apply pow2_max|].
        unfold DBL_TRUE_MIN. apply Qplus_le_l.
        replace (d + ex - 53) with (-52 + (d - 1 + ex)) by lia.
        rewrite pow2_add. unfold DBL_EPSILON.
        apply Qmult_le_l; [apply pow2_pos|].
        apply Qle_trans with (inject_Z (Zpos mx) * 2 ^ ex)%Q; [|exact HX1].
        rewrite pow2_add.
        destruct (digits2_bounds mx) as [B1 _]. fold d in B1.
        rewrite (pow2_Z (d - 1)) by (unfold d; lia).
        apply inject_Z_le_mult; [exact B1 | lra]. }
      apply Qabs_Qle_condition.
      destruct C1 as [->| ->]; [|rewrite Q3]; split; lra.
  - intros El Hd. rewrite Hval, (Hexact El Hd). reflexivity.
Qed.

Lemma signed_bound s (V X r B : Q) :
  (r == signOf s * V)%Q -> (Qabs (V - X) <= B)%Q ->
  (Qabs (r - signOf s * X) <= B)%Q.
Proof.
  intros E H. rewrite E. apply Qabs_Qle_condition in H.
  apply Qabs_Qle_condition.
  destruct (signOf_cases s) as [-> | ->]; lra.
Qed.

Lemma Qabs_signed s (X : Q) : (0 <= X)%Q -> (Qabs (signOf s * X) == X)%Q.
Proof.
  intros H. destruct (signOf_cases s) as [-> | ->].
  - rewrite Qabs_pos; lra.
  - rewrite Qabs_neg; lra.
Qed.

Lemma signOf_xorb a b : (signOf (xorb a b) == signOf a * signOf b)%Q.
Proof. destruct a, b; reflexivity. Qed.

Lemma error_nonneg (X : Q) :
  (0 <= DBL_EPSILON * Qabs X + DBL_TRUE_MIN)%Q.
Proof.
  unfold DBL_EPSILON, DBL_TRUE_MIN.
  pose proof (pow2_pos (-52)). pose proof (pow2_pos (-1074)).
  pose proof (Qabs_nonneg X).
  assert (0 <= 2 ^ (-52) * Qabs X)%Q by (apply Qmult_le_0_compat; lra).
  lra.
Qed.

Lemma exact_bound (r X : Q) :
  (r == X)%Q -> (Qabs (r - X) <= DBL_EPSILON * Qabs X + DBL_TRUE_MIN)%Q.
Proof.
  intros E. apply Qabs_Qle_condition. pose proof (error_nonneg X). lra.
Qed.

(** ** Multiplication *)

Lemma mul_bound (x y : Doubles.double) :
  isFinite x = true -> isFinite y = true ->
  (Qabs (valueOf x * valueOf y) <= 2 ^ 900)%Q ->
  isFinite (Binary64.mul x y) = true /\
  (Qabs (valueOf (Binary64.mul x y) - valueOf x * valueOf y)
   <= DBL_EPSILON * Qabs (valueOf x * valueOf y) + DBL_TRUE_MIN)%Q.
Proof.
  intros Hx Hy Hov.
  destruct x as [sx|sx| |sx mx ex]; try discriminate;
    destruct y as [sy|sy| |sy my ey]; try discriminate;
    unfold Binary64.mul; cbn [SFmul].
  - split; [reflexivity|]. apply exact_bound. simpl. ring.
  - split; [reflexivity|]. apply exact_bound. simpl valueOf at 1 2. ring.
  - split; [reflexivity|]. apply exact_bound. simpl valueOf at 1 3. ring.
  - set (X := (inject_Z (Zpos (mx * my)) * 2 ^ (ex + ey))%Q).
    assert (EX : (valueOf (S754_finite sx mx ex)
                  * valueOf (S754_finite sy my ey)
                  == signOf (xorb sx sy) * X)%Q).
    { rewrite !valueOf_finite, signOf_xorb. unfold X.
      rewrite Pos2Z.inj_mul, inject_Z_mult, pow2_add. ring. }
    assert (HX0 : (0 <= X)%Q).
    { unfold X. apply Qmult_le_0_compat.
      - rewrite <- (Zle_Qle 0). lia.
      - apply Qlt_le_weak, pow2_pos. }
    rewrite EX in Hov |- *. rewrite Qabs_signed in Hov |- * by exact HX0.
    destruct (binary_round_aux_bound (xorb sx sy) (mx * my) (ex + ey)
                loc_Exact X) as (Hf & (V & EV & _ & HV) & _).
    + apply Qle_refl.
    + unfold X. rewrite inject_Z_plus, Qmult_plus_distr_l.
      pose proof (pow2_pos (ex + ey)).
      change (inject_Z 1) with 1%Q. lra.
    + intros _. reflexivity.
    + left. reflexivity.
    + exact Hov.
    + split; [exact Hf|]. apply (signed_bound _ V); assumption.
Qed.

(** ** Addition and subtraction *)

Lemma iter_xO m d : Zpos (Pos.iter xO m d) = Zpos m * 2 ^ Zpos d.
Proof.
  rewrite (Pos.iter_swap_gen _ _ Zpos xO (Z.mul 2)) by reflexivity.
  change (Pos.iter (Z.mul 2) (Zpos m) d) with (Z.shiftl (Zpos m) (Zpos d)).
  apply Z.shiftl_mul_pow2. lia.
Qed.

Lemma shl_align_spec mx ex ex' :
  snd (shl_align mx ex ex') = Z.min ex ex' /\
  Zpos (fst (shl_align mx ex ex'))
  = Zpos mx * 2 ^ (ex - Z.min ex ex').
Proof.
  unfold shl_align. destruct (ex' - ex) as [|p|p] eqn:E; cbn [fst snd].
  - replace (Z.min ex ex') with ex by lia.
    rewrite Z.sub_diag. simpl. split; lia.
  - replace (Z.min ex ex') with ex by lia.
    rewrite Z.sub_diag. simpl. split; lia.
  - replace (Z.min ex ex') with ex' by lia. split; [reflexivity|].
    rewrite iter_xO. f_equal. f_equal. lia.
Qed.

Lemma shl_align_value mx ex ex' :
  (inject_Z (Zpos (fst (shl_align mx ex ex'))) * 2 ^ snd (shl_align mx ex ex')
   == inject_Z (Zpos mx) * 2 ^ ex)%Q.
Proof.
  destruct (shl_align_spec mx ex ex') as [-> ->].
  rewrite inject_Z_mult, <- pow2_Z by lia.
  rewrite <- Qmult_assoc, <- pow2_add.
  replace (ex - Z.min ex ex' + Z.min ex ex') with ex by lia. reflexivity.
Qed.

Lemma binary_round_bound sx mx ex :
  let X := (inject_Z (Zpos mx) * 2 ^ ex)%Q in
  let r := binary_round Binary64.prec Binary64.emax sx mx ex in
  (X <= 2 ^ 900)%Q ->
  isFinite r = true /\
  (Qabs (valueOf r - signOf sx * X) <= DBL_EPSILON * X + DBL_TRUE_MIN)%Q.
Proof.
  intros X r Hov. unfold r, binary_round.
  pose proof (shl_align_value mx ex
                (fexp Binary64.prec Binary64.emax
                   (Zpos (digits2_pos mx) + ex))) as E.
  destruct (shl_align mx ex
              (fexp Binary64.prec Binary64.emax (Zpos (digits2_pos mx) + ex)))
    as [mz ez].
  cbn [fst snd] in E. fold X in E.
  destruct (binary_round_aux_bound sx mz ez loc_Exact X)
    as (Hf & (V & EV & _ & HV) & _).
  - rewrite E. apply Qle_refl.
  - rewrite inject_Z_plus, Qmult_plus_distr_l, E.
    pose proof (pow2_pos ez). change (inject_Z 1) with 1%Q. lra.
  - intros _. symmetry. exact E.
  - left. reflexivity.
  - exact Hov.
  - split; [exact Hf|]. apply (signed_bound _ V); assumption.
Qed.

Lemma binary_normalize_bound M e :
  let X := (inject_Z M * 2 ^ e)%Q in
  let r := binary_normalize Binary64.prec Binary64.emax M e false in
  (Qabs X <= 2 ^ 900)%Q ->
  isFinite r = true /\
  (Qabs (valueOf r - X) <= DBL_EPSILON * Qabs X + DBL_TRUE_MIN)%Q.
Proof.
  intros X r Hov. unfold r, binary_normalize.
  pose proof (pow2_pos e) as P.
  destruct M as [|m|m].
  - split; [reflexivity|]. apply exact_bound. unfold X. simpl. ring.
  - assert (HX0 : (0 <= X)%Q).
    { unfold X. apply Qmult_le_0_compat; [|lra].
      rewrite <- (Zle_Qle 0). lia. }
    rewrite (Qabs_pos X HX0) in Hov |- *.
    destruct (binary_round_bound false m e Hov) as [Hf Hb].
    split; [exact Hf|]. fold X in Hb.
    setoid_replace X with (signOf false * X)%Q at 1
      by (unfold signOf; ring).
    exact Hb.
  - set (Y := (inject_Z (Zpos m) * 2 ^ e)%Q).
    assert (EXY : (X == signOf true * Y)%Q).
    { unfold X, Y, signOf. change (Zneg m) with (- Zpos m).
      rewrite inject_Z_opp. ring. }
    assert (HY0 : (0 <= Y)%Q).
    { unfold Y. apply Qmult_le_0_compat; [|lra].
      rewrite <- (Zle_Qle 0). lia. }
    rewrite EXY in Hov |- *. rewrite Qabs_signed in Hov |- * by exact HY0.
    apply (binary_round_bound true m e Hov).
Qed.

Lemma cond_Zopp_value s m e :
  (inject_Z (cond_Zopp s (Zpos m)) * 2 ^ e
   == signOf s * (inject_Z (Zpos m) * 2 ^ e))%Q.
Proof.
  destruct s; unfold cond_Zopp, signOf.
  - rewrite inject_Z_opp. ring.
  - ring.
Qed.

Lemma aligned_value s mx ex ez :
  ez <= ex ->
  (inject_Z (cond_Zopp s (Zpos (fst (shl_align mx ex ez)))) * 2 ^ ez
   == valueOf (S754_finite s mx ex))%Q.
Proof.
  intros H. rewrite cond_Zopp_value, valueOf_finite.
  pose proof (shl_align_value mx ex ez) as E.
  destruct (shl_align_spec mx ex ez) as [Es _].
  rewrite Es in E. replace (Z.min ex ez) with ez in E by lia.
  rewrite E. reflexivity.
Qed.

Lemma add_bound (x y : Doubles.double) :
  isFinite x = true -> isFinite y = true ->
  (Qabs (valueOf x + valueOf y) <= 2 ^ 900)%Q ->
  isFinite (Binary64.add x y) = true /\
  (Qabs (valueOf (Binary64.add x y) - (valueOf x + valueOf y))
   <= DBL_EPSILON * Qabs (valueOf x + valueOf y) + DBL_TRUE_MIN)%Q.
Proof.
  intros Hx Hy Hov.
  destruct x as [sx|sx| |sx mx ex]; try discriminate;
    destruct y as [sy|sy| |sy my ey]; try discriminate;
    unfold Binary64.add; cbn [SFadd].
  - split; [destruct sx, sy; reflexivity|].
    apply exact_bound. destruct sx, sy; simpl; ring.
  - split; [reflexivity|]. apply exact_bound. simpl valueOf at 2. ring.
  - split; [reflexivity|]. apply exact_bound. simpl valueOf at 3. ring.
  - set (ez := Z.min ex ey).
    set (M := cond_Zopp sx (Zpos (fst (shl_align mx ex ez)))
              + cond_Zopp sy (Zpos (fst (shl_align my ey ez)))).
    assert (E : (inject_Z M * 2 ^ ez
                 == valueOf (S754_finite sx mx ex)
                    + valueOf (S754_finite sy my ey))%Q).
    { unfold M. rewrite inject_Z_plus, Qmult_plus_distr_l.
      rewrite !aligned_value by (unfold ez; lia). reflexivity. }
    rewrite <- E in Hov |- *.
    apply (binary_normalize_bound M ez Hov).
Qed.

Lemma sub_bound (x y : Doubles.double) :
  isFinite x = true -> isFinite y = true ->
  (Qabs (valueOf x - valueOf y) <= 2 ^ 900)%Q ->
  isFinite (Binary64.sub x y) = true /\
  (Qabs (valueOf (Binary64.sub x y) - (valueOf x - valueOf y))
   <= DBL_EPSILON * Qabs (valueOf x - valueOf y) + DBL_TRUE_MIN)%Q.
Proof.
  intros Hx Hy Hov.
  destruct x as [sx|sx| |sx mx ex]; try discriminate;
    destruct y as [sy|sy| |sy my ey]; try discriminate;
    unfold Binary64.sub; cbn [SFsub].
  - split; [destruct sx, sy; reflexivity|].
    apply exact_bound. destruct sx, sy; simpl; ring.
  - split; [reflexivity|]. apply exact_bound.
    rewrite !valueOf_finite. destruct sy; cbn [negb signOf valueOf]; ring.
  - split; [reflexivity|]. apply exact_bound. simpl valueOf at 3. ring.
  - set (ez := Z.min ex ey).
    set (M := cond_Zopp sx (Zpos (fst (shl_align mx ex ez)))
              - cond_Zopp sy (Zpos (fst (shl_align my ey ez)))).
    assert (E : (inject_Z M * 2 ^ ez
                 == valueOf (S754_finite sx mx ex)
                    - valueOf (S754_finite sy my ey))%Q).
    { unfold M, Z.sub. rewrite inject_Z_plus, inject_Z_opp.
      setoid_replace ((inject_Z (cond_Zopp sx (Zpos (fst (shl_align mx ex ez))))
                       + - inject_Z (cond_Zopp sy (Zpos (fst (shl_align my ey ez)))))
                      * 2 ^ ez)%Q
        with (inject_Z (cond_Zopp sx (Zpos (fst (shl_align mx ex ez)))) * 2 ^ ez
              - inject_Z (cond_Zopp sy (Zpos (fst (shl_align my ey ez)))) * 2 ^ ez)%Q
        by ring.
      rewrite !aligned_value by (unfold ez; lia). reflexivity. }
    rewrite <- E in Hov |- *.
    apply (binary_normalize_bound M ez Hov).
Qed.

(** ** Division *)

Lemma new_location_Exact nb k : new_location nb k = loc_Exact -> k = 0.
Proof.
  unfold new_location, new_location_even, new_location_odd.
  destruct (Z.even nb); destruct (Z.eqb_spec k 0); auto; discriminate.
Qed.

Lemma div_eucl_div_mod a b :
  Z.div_eucl a b = (a / b, a mod b).
Proof. unfold Z.div, Z.modulo. destruct (Z.div_eucl a b). reflexivity. Qed.

(** The quotient of two mantissas, before it is rounded: it has 53 digits
    at least, and it is the quotient of the two numbers, with its
    location. *)
Lemma SFdiv_core_binary_spec (mx : positive) ex (my : positive) ey :
  let delta := Zpos (digits2_pos mx) + ex - (Zpos (digits2_pos my) + ey) in
  let X := (inject_Z (Zpos mx) * 2 ^ ex / (inject_Z (Zpos my) * 2 ^ ey))%Q in
  -1021 <= delta ->
  exists (q : positive) e' l,
    SFdiv_core_binary Binary64.prec Binary64.emax (Zpos mx) ex (Zpos my) ey
    = (Zpos q, e', l) /\
    (inject_Z (Zpos q) * 2 ^ e' <= X)%Q /\
    (X < inject_Z (Zpos q + 1) * 2 ^ e')%Q /\
    (l = loc_Exact -> X == inject_Z (Zpos q) * 2 ^ e')%Q /\
    e' <= fexp Binary64.prec Binary64.emax (Zpos (digits2_pos q) + e').
Proof.
  intros delta X Hdelta. unfold SFdiv_core_binary. cbn [Zdigits2].
  fold delta.
  set (e' := Z.min (fexp Binary64.prec Binary64.emax delta) (ex - ey)).
  set (s := ex - ey - e').
  assert (Hs : 0 <= s) by (unfold s, e'; lia).
  set (m' := match s with
             | 0 => Zpos mx
             | Zpos _ => Z.shiftl (Zpos mx) s
             | Zneg _ => 0
             end).
  assert (Em' : m' = Zpos mx * 2 ^ s).
  { unfold m'. destruct s as [|p|p] eqn:Es.
    - simpl. lia.
    - apply Z.shiftl_mul_pow2. lia.
    - lia. }
  rewrite div_eucl_div_mod.
  destruct (digits2_bounds mx) as [Bx1 Bx2].
  destruct (digits2_bounds my) as [By1 By2].
  set (d1 := Zpos (digits2_pos mx)) in *.
  set (d2 := Zpos (digits2_pos my)) in *.
  assert (Hd1 : 1 <= d1) by (unfold d1; lia).
  assert (Hd2 : 1 <= d2) by (unfold d2; lia).
  assert (Hs53 : 53 - d1 + d2 <= s).
  { unfold s, e'. rewrite fexp_eq. unfold delta. lia. }
  assert (Ps : 0 < 2 ^ s) by (apply Z.pow_pos_nonneg; lia).
  (* the quotient has 53 digits at least *)
  assert (Hq52 : 2 ^ 52 <= m' / Zpos my).
  { apply Z.div_le_lower_bound; [lia|].
    apply Z.le_trans with (2 ^ d2 * 2 ^ 52); [nia|].
    rewrite <- Z.pow_add_r by lia.
    apply Z.le_trans with (2 ^ (d1 - 1) * 2 ^ s); [|rewrite Em'; nia].
    rewrite <- Z.pow_add_r by lia.
    apply Z.pow_le_mono_r; lia. }
  destruct (m' / Zpos my) as [|q|q] eqn:Eq; try (simpl in Hq52; lia).
  exists q, e', (new_location (Zpos my) (m' mod Zpos my)).
  split; [reflexivity|].
  pose proof (Z.div_mod m' (Zpos my) ltac:(lia)) as Hdm.
  pose proof (Z.mod_pos_bound m' (Zpos my) ltac:(lia)) as Hmod.
  rewrite Eq in Hdm.
  pose proof (pow2_pos ex) as Pex. pose proof (pow2_pos ey) as Pey.
  pose proof (pow2_pos e') as Pe'.
  assert (Hy : (0 < inject_Z (Zpos my))%Q) by (rewrite <- (Zlt_Qlt 0); lia).
  assert (Hden : (0 < inject_Z (Zpos my) * 2 ^ ey)%Q)
    by (apply Qmult_lt_0_compat; assumption).
  assert (Enum : (inject_Z (Zpos mx) * 2 ^ ex
                  == inject_Z m' * 2 ^ e' * 2 ^ ey)%Q).
  { rewrite Em', inject_Z_mult, <- (pow2_Z s) by lia.
    rewrite <- !Qmult_assoc, <- !pow2_add.
    replace (s + (e' + ey)) with ex by (unfold s; lia). reflexivity. }
  assert (Hmul : forall c : Z,
            (inject_Z c * 2 ^ e' * (inject_Z (Zpos my) * 2 ^ ey)
             == inject_Z (c * Zpos my) * 2 ^ e' * 2 ^ ey)%Q).
  { intros c. rewrite inject_Z_mult. ring. }
  split; [|split; [|split]].
  - unfold X. apply Qle_shift_div_l; [exact Hden|].
    rewrite Hmul, Enum.
    apply Qmult_le_compat_r; [|lra].
    apply Qmult_le_compat_r; [|lra].
    rewrite <- Zle_Qle. lia.
  - unfold X. apply Qlt_shift_div_r; [exact Hden|].
    rewrite Hmul, Enum.
    apply Qmult_lt_compat_r; [lra|].
    apply Qmult_lt_compat_r; [lra|].
    rewrite <- Zlt_Qlt. lia.
  - intros El. apply new_location_Exact in El.
    unfold X. rewrite Enum.
    assert (E : m' = Zpos q * Zpos my) by lia.
    rewrite E, inject_Z_mult. field.
    split; apply Qnot_eq_sym, Qlt_not_eq; assumption.
  - assert (53 <= Zdigits2 (Zpos q)) by (apply (Zdigits2_ge _ 52); lia).
    simpl in H. rewrite fexp_eq. lia.
Qed.

Lemma div_bound (x y : Doubles.double) :
  isFinite x = true -> isFinite y = true -> ~ (valueOf y == 0)%Q ->
  ((valueOf x == 0)%Q \/
   (2 ^ (-900) <= Qabs (valueOf x / valueOf y) /\
    Qabs (valueOf x / valueOf y) <= 2 ^ 900)%Q) ->
  isFinite (Binary64.div x y) = true /\
  (Qabs (valueOf (Binary64.div x y) - valueOf x / valueOf y)
   <= DBL_EPSILON * Qabs (valueOf x / valueOf y) + DBL_TRUE_MIN)%Q.
Proof.
  intros Hx Hy Hy0 Hmag.
  destruct y as [sy|sy| |sy my ey]; try discriminate;
    [exfalso; apply Hy0; reflexivity|].
  destruct x as [sx|sx| |sx mx ex]; try discriminate;
    unfold Binary64.div; cbn [SFdiv].
  - split; [reflexivity|]. apply exact_bound. simpl valueOf at 1 2.
    unfold Qdiv. ring.
  - pose proof (pow2_pos ex) as Pex. pose proof (pow2_pos ey) as Pey.
    assert (Hmx : (0 < inject_Z (Zpos mx))%Q) by (rewrite <- (Zlt_Qlt 0); lia).
    assert (Hmy : (0 < inject_Z (Zpos my))%Q) by (rewrite <- (Zlt_Qlt 0); lia).
    assert (Hnum : (0 < inject_Z (Zpos mx) * 2 ^ ex)%Q)
      by (apply Qmult_lt_0_compat; assumption).
    assert (Hden : (0 < inject_Z (Zpos my) * 2 ^ ey)%Q)
      by (apply Qmult_lt_0_compat; assumption).
    set (X := (inject_Z (Zpos mx) * 2 ^ ex
               / (inject_Z (Zpos my) * 2 ^ ey))%Q).
    assert (HX0 : (0 < X)%Q).
    { unfold X. apply Qlt_shift_div_l; [exact Hden|]. lra. }
    assert (EX : (valueOf (S754_finite sx mx ex)
                  / valueOf (S754_finite sy my ey)
                  == signOf (xorb sx sy) * X)%Q).
    { rewrite !valueOf_finite, signOf_xorb. unfold X.
      destruct (signOf_cases sx) as [-> | ->];
        destruct (signOf_cases sy) as [-> | ->]; field;
        split; apply Qnot_eq_sym, Qlt_not_eq; assumption. }
    destruct Hmag as [H0|[Hlo Hhi]].
    { exfalso. rewrite valueOf_finite in H0.
      destruct (signOf_cases sx) as [E | E]; rewrite E in H0; lra. }
    rewrite EX in Hlo, Hhi |- *.
    rewrite Qabs_signed in Hlo, Hhi |- * by lra.
    destruct (digits2_bounds mx) as [Bx1 Bx2].
    destruct (digits2_bounds my) as [By1 By2].
    set (d1 := Zpos (digits2_pos mx)) in *.
    set (d2 := Zpos (digits2_pos my)) in *.
    assert (Hd1 : 1 <= d1) by (unfold d1; lia).
    assert (Hd2 : 1 <= d2) by (unfold d2; lia).
    assert (Hdelta : -1021 <= d1 + ex - (d2 + ey)).
    { assert (H1 : (inject_Z (Zpos mx) * 2 ^ ex < 2 ^ (d1 + ex))%Q).
      { rewrite pow2_add, (pow2_Z d1) by lia.
        apply Qmult_lt_compat_r; [exact Pex|].
        rewrite <- Zlt_Qlt. exact Bx2. }
      assert (H2 : (2 ^ (d2 - 1 + ey) <= inject_Z (Zpos my) * 2 ^ ey)%Q).
      { rewrite pow2_add, (pow2_Z (d2 - 1)) by lia.
        apply inject_Z_le_mult; [exact By1 | lra]. }
      assert (H3 : (X * (inject_Z (Zpos my) * 2 ^ ey)
                    == inject_Z (Zpos mx) * 2 ^ ex)%Q).
      { unfold X. field.
        split; apply Qnot_eq_sym, Qlt_not_eq; assumption. }
      assert (H4 : (2 ^ (-900) * 2 ^ (d2 - 1 + ey) < 2 ^ (d1 + ex))%Q).
      { apply Qle_lt_trans with (X * (inject_Z (Zpos my) * 2 ^ ey))%Q;
          [|rewrite H3; exact H1].
        pose proof (pow2_pos (-900)). pose proof (pow2_pos (d2 - 1 + ey)).
        apply Qmult_le_compat_nonneg; split; lra. }
      rewrite <- pow2_add in H4. apply pow2_lt_inv in H4. lia. }
    destruct (SFdiv_core_binary_spec mx ex my ey Hdelta)
      as (q & e' & l & Ecore & Q1 & Q2 & Q3 & Q4).
    fold X in Q1, Q2, Q3. rewrite Ecore.
    destruct (binary_round_aux_bound (xorb sx sy) q e' l X)
      as (Hf & (V & EV & _ & HV) & _); auto.
    split; [exact Hf|]. apply (signed_bound _ V); assumption.
Qed.

(** ** Integers as doubles *)

(** The double of a positive integer of at most 53 digits: its mantissa
    has 53 digits. *)
Lemma binary_round_integer s (mx c : positive) j :
  Zpos mx = Zpos c * 2 ^ j -> 0 <= j ->
  let dc := Zpos (digits2_pos c) in
  dc <= 53 ->
  binary_round Binary64.prec Binary64.emax s mx (- j)
  = S754_finite s (Z.to_pos (Zpos c * 2 ^ (53 - dc))) (dc - 53).
Proof.
  intros Emx Hj dc Hdc.
  destruct (digits2_bounds c) as [Bc1 Bc2]. fold dc in Bc1, Bc2.
  assert (Hdc1 : 1 <= dc) by (unfold dc; lia).
  assert (Pj : 0 < 2 ^ j) by (apply Z.pow_pos_nonneg; lia).
  assert (Edmx : Zpos (digits2_pos mx) = dc + j).
  { apply digits2_unique. rewrite Emx.
    replace (dc + j - 1) with (dc - 1 + j) by lia.
    rewrite !Z.pow_add_r by lia. nia. }
  unfold binary_round. rewrite Edmx.
  replace (dc + j + - j) with dc by lia.
  destruct (shl_align_spec mx (- j)
              (fexp Binary64.prec Binary64.emax dc)) as [Es Em].
  destruct (shl_align mx (- j) (fexp Binary64.prec Binary64.emax dc))
    as [mz ez].
  cbn [fst snd] in Es, Em. rewrite fexp_eq in Es, Em.
  assert (Hez : ez <= - j /\ ez <= dc - 53) by lia.
  assert (Emz : Zpos mz = Zpos c * 2 ^ (- ez)).
  { rewrite Em, Emx, <- Es, <- Z.mul_assoc, <- Z.pow_add_r by lia.
    f_equal. f_equal. lia. }
  assert (Edmz : Zpos (digits2_pos mz) = dc - ez).
  { apply digits2_unique. rewrite Emz.
    replace (dc - ez - 1) with (dc - 1 + - ez) by lia.
    replace (dc - ez) with (dc + - ez) by lia.
    assert (0 < 2 ^ (- ez)) by (apply Z.pow_pos_nonneg; lia).
    rewrite !Z.pow_add_r by lia. nia. }
  assert (Hno : ez + Z.max 0 (fexp Binary64.prec Binary64.emax
                                (Zpos (digits2_pos mz) + ez) - ez) + 1
                <= 971).
  { rewrite Edmz, fexp_eq. lia. }
  destruct (binary_round_aux_spec s mz ez loc_Exact Hno)
    as (m1 & _ & C2 & Hr).
  rewrite Edmz in C2, Hr.
  replace (dc - ez + ez) with dc in C2, Hr by lia.
  rewrite fexp_eq in C2, Hr.
  replace (Z.max 0 (Z.max (dc - 53) (-1074) - ez)) with (dc - 53 - ez)
    in C2, Hr by lia.
  assert (Pk : 0 < 2 ^ (dc - 53 - ez)) by (apply Z.pow_pos_nonneg; lia).
  assert (Esplit : Zpos mz = Zpos c * 2 ^ (53 - dc) * 2 ^ (dc - 53 - ez)).
  { rewrite Emz, <- Z.mul_assoc, <- Z.pow_add_r by lia.
    f_equal. f_equal. lia. }
  assert (Em1 : m1 = Zpos c * 2 ^ (53 - dc)).
  { rewrite C2; [|reflexivity|].
    - rewrite Esplit, Z.div_mul by lia. reflexivity.
    - rewrite Esplit. apply Z.mod_mul. lia. }
  assert (P53 : 0 < 2 ^ (53 - dc)) by (apply Z.pow_pos_nonneg; lia).
  assert (Edm1 : Zdigits2 m1 = 53).
  { rewrite Em1.
    destruct (Zpos c * 2 ^ (53 - dc)) as [|p|p] eqn:Ep; try nia.
    change (Zdigits2 (Zpos p)) with (Zpos (digits2_pos p)).
    apply digits2_unique. rewrite <- Ep.
    assert (E1 : 2 ^ (53 - 1) = 2 ^ (dc - 1) * 2 ^ (53 - dc)).
    { rewrite <- Z.pow_add_r by lia. f_equal. lia. }
    assert (E2 : 2 ^ 53 = 2 ^ dc * 2 ^ (53 - dc)).
    { rewrite <- Z.pow_add_r by lia. f_equal. lia. }
    rewrite E1, E2. nia. }
  destruct Hr as [[E0 _]|(m2 & k2 & Er & Ek2 & Em2)]; [nia|].
  rewrite Er. rewrite Edm1 in Ek2.
  replace (ez + (dc - 53 - ez)) with (dc - 53) in Ek2 by lia.
  rewrite fexp_eq in Ek2.
  assert (Hk2 : k2 = 0) by lia. clear Ek2. subst k2.
  change (2 ^ 0) with 1 in Em2. rewrite Z.mul_1_r in Em2.
  f_equal; [|lia].
  rewrite <- Em1, Em2. reflexivity.
Qed.

Lemma digits_53 (c : positive) :
  Zpos c < 2 ^ 53 -> Zpos (digits2_pos c) <= 53.
Proof.
  intros H. change (Zpos (digits2_pos c)) with (Zdigits2 (Zpos c)).
  apply Zdigits2_le; lia.
Qed.

(** An integer times a power of 2 is normalized to the double of the
    integer. *)
Lemma binary_normalize_integer c j :
  0 <= j -> Z.abs c < 2 ^ 53 ->
  binary_normalize Binary64.prec Binary64.emax (c * 2 ^ j) (- j) false
  = integerDouble c.
Proof.
  intros Hj Hc.
  assert (Pj : 0 < 2 ^ j) by (apply Z.pow_pos_nonneg; lia).
  destruct c as [|c|c]; unfold integerDouble.
  - reflexivity.
  - destruct (Zpos c * 2 ^ j) as [|mx|mx] eqn:E; try nia.
    cbn [binary_normalize].
    apply binary_round_integer; [symmetry; exact E | exact Hj |].
    apply digits_53. lia.
  - destruct (Zneg c * 2 ^ j) as [|mx|mx] eqn:E; try nia.
    cbn [binary_normalize].
    apply binary_round_integer; [|exact Hj|apply digits_53; lia].
    change (Zneg c) with (- Zpos c) in E.
    change (Zneg mx) with (- Zpos mx) in E. lia.
Qed.

Lemma ofInt_integer z :
  Z.abs z < 2 ^ 53 -> Binary64.ofInt z = integerDouble z.
Proof.
  intros H. unfold Binary64.ofInt.
  rewrite <- (binary_normalize_integer z 0) by (auto; lia).
  change (2 ^ 0) with 1. rewrite Z.mul_1_r. reflexivity.
Qed.

Lemma integerDouble_value z :
  Z.abs z < 2 ^ 53 -> (valueOf (integerDouble z) == inject_Z z)%Q.
Proof.
  intros H. destruct z as [|c|c]; [reflexivity| |].
  - unfold integerDouble. rewrite valueOf_finite.
    pose proof (digits_53 c ltac:(lia)) as Hd.
    set (dc := Zpos (digits2_pos c)) in *.
    assert (1 <= dc) by (unfold dc; lia).
    assert (0 < 2 ^ (53 - dc)) by (apply Z.pow_pos_nonneg; lia).
    rewrite Z2Pos.id by nia.
    rewrite inject_Z_mult, <- (pow2_Z (53 - dc)) by lia.
    rewrite <- Qmult_assoc, <- pow2_add.
    replace (53 - dc + (dc - 53)) with 0 by lia.
    unfold signOf. change (2 ^ 0)%Q with 1%Q. ring.
  - unfold integerDouble. rewrite valueOf_finite.
    pose proof (digits_53 c ltac:(lia)) as Hd.
    set (dc := Zpos (digits2_pos c)) in *.
    assert (1 <= dc) by (unfold dc; lia).
    assert (0 < 2 ^ (53 - dc)) by (apply Z.pow_pos_nonneg; lia).
    rewrite Z2Pos.id by nia.
    rewrite inject_Z_mult, <- (pow2_Z (53 - dc)) by lia.
    rewrite <- Qmult_assoc, <- pow2_add.
    replace (53 - dc + (dc - 53)) with 0 by lia.
    unfold signOf. change (2 ^ 0)%Q with 1%Q.
    change (Zneg c) with (- Zpos c). rewrite inject_Z_opp. ring.
Qed.

Lemma integerDouble_finite z : isFinite (integerDouble z) = true.
Proof. destruct z; reflexivity. Qed.

Lemma ofInt_value z :
  Z.abs z < 2 ^ 53 -> (valueOf (Binary64.ofInt z) == inject_Z z)%Q.
Proof. intros H. rewrite ofInt_integer by exact H. apply integerDouble_value; exact H. Qed.

Lemma ofInt_finite z :
  Z.abs z < 2 ^ 53 -> isFinite (Binary64.ofInt z) = true.
Proof. intros H. rewrite ofInt_integer by exact H. apply integerDouble_finite. Qed.

(** The sign, the mantissa and the exponent of the double of an integer
    that is not zero. *)
Lemma integerDouble_nonzero z :
  z <> 0 -> Z.abs z < 2 ^ 53 ->
  exists s m e,
    integerDouble z = S754_finite s m e /\ -52 <= e <= 0 /\
    s = (z <? 0) /\ Zpos m = Z.abs z * 2 ^ (- e) /\
    e = Z.log2 (Z.abs z) - 52.
Proof.
  intros Hz H.
  assert (Hc : forall c : positive, Zpos c < 2 ^ 53 ->
            -52 <= Zpos (digits2_pos c) - 53 <= 0 /\
            Zpos (Z.to_pos (Zpos c * 2 ^ (53 - Zpos (digits2_pos c))))
            = Zpos c * 2 ^ (- (Zpos (digits2_pos c) - 53)) /\
            Zpos (digits2_pos c) - 53 = Z.log2 (Zpos c) - 52).
  { intros c Hlt. pose proof (digits_53 c Hlt) as Hd.
    assert (1 <= Zpos (digits2_pos c)) by lia.
    assert (0 < 2 ^ (53 - Zpos (digits2_pos c)))
      by (apply Z.pow_pos_nonneg; lia).
    split; [lia|]. split.
    - rewrite Z2Pos.id by nia. f_equal. f_equal. lia.
    - rewrite digits2_log2. lia. }
  destruct z as [|c|c]; [congruence| |].
  - destruct (Hc c ltac:(lia)) as (H1 & H2 & H3).
    eexists _, _, _. split; [reflexivity|]. split; [exact H1|].
    split; [reflexivity|]. split; [exact H2 | exact H3].
  - destruct (Hc c ltac:(lia)) as (H1 & H2 & H3).
    eexists _, _, _. split; [reflexivity|]. split; [exact H1|].
    split; [reflexivity|]. split; [exact H2 | exact H3].
Qed.

Lemma cond_Zopp_aligned s m e ez z :
  s = (z <? 0) -> Zpos m = Z.abs z * 2 ^ (- e) -> e <= 0 -> ez <= e ->
  cond_Zopp s (Zpos (fst (shl_align m e ez))) = z * 2 ^ (- ez).
Proof.
  intros Es Em He Hez.
  destruct (shl_align_spec m e ez) as [_ E]. rewrite E.
  replace (Z.min e ez) with ez by lia.
  rewrite Em, <- Z.mul_assoc, <- Z.pow_add_r by lia.
  replace (- e + (e - ez)) with (- ez) by lia.
  subst s. unfold cond_Zopp.
  destruct (Z.ltb_spec z 0); [rewrite Z.abs_neq by lia | rewrite Z.abs_eq by lia];
    ring.
Qed.

Lemma integerDouble_opp z :
  z <> 0 -> integerDouble (- z) = SFopp (integerDouble z).
Proof. destruct z; [congruence| |]; reflexivity. Qed.

(** The sum and the difference of two integers are exact. *)
Lemma add_integer a b :
  Z.abs a < 2 ^ 53 -> Z.abs b < 2 ^ 53 -> Z.abs (a + b) < 2 ^ 53 ->
  Binary64.add (integerDouble a) (integerDouble b) = integerDouble (a + b).
Proof.
  intros Ha Hb Hab.
  destruct (Z.eq_dec a 0) as [->|Na].
  { destruct b; reflexivity. }
  destruct (Z.eq_dec b 0) as [->|Nb].
  { rewrite Z.add_0_r. destruct a; reflexivity. }
  destruct (integerDouble_nonzero a Na Ha)
    as (sa & ma & ea & -> & Hea & Esa & Ema & _).
  destruct (integerDouble_nonzero b Nb Hb)
    as (sb & mb & eb & -> & Heb & Esb & Emb & _).
  unfold Binary64.add. cbn [SFadd].
  rewrite (cond_Zopp_aligned sa ma ea (Z.min ea eb) a) by (auto; lia).
  rewrite (cond_Zopp_aligned sb mb eb (Z.min ea eb) b) by (auto; lia).
  rewrite <- Z.mul_add_distr_r.
  set (j := - Z.min ea eb).
  replace (Z.min ea eb) with (- j) by (unfold j; lia).
  apply binary_normalize_integer; unfold j; lia.
Qed.

Lemma sub_integer a b :
  Z.abs a < 2 ^ 53 -> Z.abs b < 2 ^ 53 -> Z.abs (a - b) < 2 ^ 53 ->
  Binary64.sub (integerDouble a) (integerDouble b) = integerDouble (a - b).
Proof.
  intros Ha Hb Hab.
  destruct (Z.eq_dec b 0) as [->|Nb].
  { rewrite Z.sub_0_r. destruct a; reflexivity. }
  destruct (Z.eq_dec a 0) as [->|Na].
  { change (0 - b) with (- b). rewrite integerDouble_opp by exact Nb.
    destruct b; try congruence; reflexivity. }
  destruct (integerDouble_nonzero a Na Ha)
    as (sa & ma & ea & -> & Hea & Esa & Ema & _).
  destruct (integerDouble_nonzero b Nb Hb)
    as (sb & mb & eb & -> & Heb & Esb & Emb & _).
  unfold Binary64.sub. cbn [SFsub].
  rewrite (cond_Zopp_aligned sa ma ea (Z.min ea eb) a) by (auto; lia).
  rewrite (cond_Zopp_aligned sb mb eb (Z.min ea eb) b) by (auto; lia).
  rewrite <- Z.mul_sub_distr_r.
  set (j := - Z.min ea eb).
  replace (Z.min ea eb) with (- j) by (unfold j; lia).
  apply binary_normalize_integer; unfold j; lia.
Qed.

Lemma qAbs_integer z :
  Doubles.qAbs (integerDouble z) = integerDouble (Z.abs z).
Proof. destruct z; reflexivity. Qed.

(** The comparison of the doubles of two integers that are not negative. *)
Lemma SFltb_integer u v :
  0 <= u < 2 ^ 53 -> 0 <= v < 2 ^ 53 ->
  SFltb (integerDouble u) (integerDouble v) = (u <? v).
Proof.
  intros Hu Hv.
  destruct (Z.eq_dec u 0) as [->|Nu]; destruct (Z.eq_dec v 0) as [->|Nv].
  - reflexivity.
  - destruct v; try lia. reflexivity.
  - destruct u; try lia. reflexivity.
  - destruct (integerDouble_nonzero u Nu ltac:(lia))
      as (su & mu & eu & -> & Heu & Esu & Emu & Elu).
    destruct (integerDouble_nonzero v Nv ltac:(lia))
      as (sv & mv & ev & -> & Hev & Esv & Emv & Elv).
    assert (su = false) as -> by (rewrite Esu; apply Z.ltb_ge; lia).
    assert (sv = false) as -> by (rewrite Esv; apply Z.ltb_ge; lia).
    clear Esu Esv.
    rewrite Z.abs_eq in Emu, Emv, Elu, Elv by lia.
    unfold SFltb. cbn [SFcompare].
    pose proof (Z.log2_spec u ltac:(lia)) as Lu.
    pose proof (Z.log2_spec v ltac:(lia)) as Lv.
    pose proof (Z.log2_nonneg u) as Nlu. pose proof (Z.log2_nonneg v) as Nlv.
    destruct (Z.compare_spec eu ev) as [E|E|E].
    + assert (El : Z.log2 u = Z.log2 v) by lia.
      change (Pos.compare_cont Eq mu mv) with (Pos.compare mu mv).
      rewrite Pos2Z.inj_compare, Emu, Emv, E.
      assert (0 < 2 ^ (- ev)) by (apply Z.pow_pos_nonneg; lia).
      destruct (Z.ltb_spec u v) as [L|L].
      * assert (u * 2 ^ (- ev) < v * 2 ^ (- ev)) by nia.
        apply Z.compare_lt_iff in H0. rewrite H0. reflexivity.
      * assert (v * 2 ^ (- ev) <= u * 2 ^ (- ev)) by nia.
        apply Z.compare_ge_iff in H0.
        destruct (u * 2 ^ (- ev) ?= v * 2 ^ (- ev)); congruence.
    + symmetry. apply Z.ltb_lt.
      assert (Z.succ (Z.log2 u) <= Z.log2 v) by lia.
      assert (2 ^ Z.succ (Z.log2 u) <= 2 ^ Z.log2 v)
        by (apply Z.pow_le_mono_r; lia).
      lia.
    + symmetry. apply Z.ltb_ge.
      assert (Z.succ (Z.log2 v) <= Z.log2 u) by lia.
      assert (2 ^ Z.succ (Z.log2 v) <= 2 ^ Z.log2 u)
        by (apply Z.pow_le_mono_r; lia).
      lia.
Qed.

Lemma qMax_integer u v :
  0 <= u < 2 ^ 53 -> 0 <= v < 2 ^ 53 ->
  Doubles.qMax (integerDouble u) (integerDouble v) = integerDouble (Z.max u v).
Proof.
  intros Hu Hv. unfold Doubles.qMax. rewrite SFltb_integer by assumption.
  destruct (Z.ltb_spec u v).
  - rewrite Z.max_r by lia. reflexivity.
  - rewrite Z.max_l by lia. reflexivity.
Qed.

Lemma toInt_integer z :
  Z.abs z < 2 ^ 53 -> Binary64.toInt (integerDouble z) = z.
Proof.
  intros H. destruct (Z.eq_dec z 0) as [->|Nz]; [reflexivity|].
  destruct (integerDouble_nonzero z Nz H)
    as (s & m & e & -> & He & Es & Em & _).
  unfold Binary64.toInt.
  assert (P : 0 < 2 ^ (- e)) by (apply Z.pow_pos_nonneg; lia).
  assert (Ev : (if 0 <=? e then Zpos m * 2 ^ e
                else Z.quot (Zpos m) (2 ^ (- e))) = Z.abs z).
  { destruct (Z.leb_spec 0 e).
    - assert (e = 0) by lia. subst e. change (- 0) with 0 in Em.
      rewrite Em. ring.
    - rewrite Z.quot_div_nonneg by lia. rewrite Em. apply Z.div_mul. lia. }
  rewrite Ev. subst s. destruct (Z.ltb_spec z 0); lia.
Qed.

(** The conversion of a double that is not negative to an integer is the
    integer part. *)
Lemma toInt_Qfloor (d : Doubles.double) :
  isFinite d = true -> (0 <= valueOf d)%Q ->
  Binary64.toInt d = Qfloor (valueOf d).
Proof.
  intros Hf H0. destruct d as [s|s| |s m e]; try discriminate.
  - reflexivity.
  - pose proof (pow2_pos e) as P.
    assert (Hm : (0 < inject_Z (Zpos m))%Q) by (rewrite <- (Zlt_Qlt 0); lia).
    assert (Hme : (0 < inject_Z (Zpos m) * 2 ^ e)%Q)
      by (apply Qmult_lt_0_compat; assumption).
    destruct s.
    { exfalso. rewrite valueOf_finite in H0. unfold signOf in H0. lra. }
    unfold Binary64.toInt.
    destruct (Z.leb_spec 0 e) as [He|He].
    + rewrite <- (Qfloor_Z (Zpos m * 2 ^ e)). apply Qfloor_comp.
      rewrite valueOf_finite, inject_Z_mult, <- pow2_Z by lia.
      unfold signOf. ring.
    + assert (Pz : 0 < 2 ^ (- e)) by (apply Z.pow_pos_nonneg; lia).
      rewrite Z.quot_div_nonneg by lia. rewrite Zdiv_Qdiv.
      apply Qfloor_comp.
      rewrite valueOf_finite, <- (pow2_Z (- e)) by lia.
      rewrite Qpower_opp. unfold signOf. field.
      apply Qnot_eq_sym, Qlt_not_eq, pow2_pos.
Qed.

(* ================================================================== *)
(** * The interpolation of the line, with doubles *)

Lemma DBL_EPSILON_value : (DBL_EPSILON == 1 # 4503599627370496)%Q.
Proof. reflexivity. Qed.

Lemma DBL_TRUE_MIN_bound : (0 < DBL_TRUE_MIN /\ DBL_TRUE_MIN <= DBL_EPSILON)%Q.
Proof.
  unfold DBL_TRUE_MIN, DBL_EPSILON. split; [apply pow2_pos|].
  apply pow2_le. lia.
Qed.

Lemma Qabs_mult_close (x y a D M : Q) :
  (Qabs (x - y) <= D)%Q -> (0 <= a)%Q -> (a <= M)%Q ->
  (Qabs (x * a - y * a) <= D * M)%Q.
Proof.
  intros H Ha HM.
  setoid_replace (x * a - y * a)%Q with ((x - y) * a)%Q by ring.
  rewrite Qabs_Qmult, (Qabs_pos a) by exact Ha.
  pose proof (Qabs_nonneg (x - y)).
  apply Qmult_le_compat_nonneg; split; assumption.
Qed.

Lemma Qabs_mult_bound (x a C M : Q) :
  (Qabs x <= C)%Q -> (0 <= a)%Q -> (a <= M)%Q -> (Qabs (x * a) <= C * M)%Q.
Proof.
  intros H Ha HM.
  rewrite Qabs_Qmult, (Qabs_pos a) by exact Ha.
  pose proof (Qabs_nonneg x).
  apply Qmult_le_compat_nonneg; split; assumption.
Qed.

Lemma error_relax (r X C : Q) :
  (Qabs (r - X) <= DBL_EPSILON * Qabs X + DBL_TRUE_MIN)%Q ->
  (Qabs X <= C)%Q ->
  (- (C * DBL_EPSILON + DBL_EPSILON) <= r - X
   /\ r - X <= C * DBL_EPSILON + DBL_EPSILON)%Q.
Proof.
  intros H HC. destruct DBL_TRUE_MIN_bound as [_ Heta].
  assert (DBL_EPSILON * Qabs X <= DBL_EPSILON * C)%Q.
  { apply Qmult_le_l; [|exact HC]. unfold DBL_EPSILON. apply pow2_pos. }
  apply Qabs_Qle_condition in H.
  set (z := (DBL_EPSILON * Qabs X)%Q) in *.
  set (w := (DBL_EPSILON * C)%Q) in *.
  assert (w == C * DBL_EPSILON)%Q by (unfold w; ring).
  lra.
Qed.

Lemma pow2_900 (x : Q) : (x <= 1000000)%Q -> (x <= 2 ^ 900)%Q.
Proof.
  intros H. apply Qle_trans with (2 ^ 20)%Q; [|apply pow2_le; lia].
  apply Qle_trans with 1000000%Q; [exact H|]. vm_compute. discriminate.
Qed.

Lemma half_value : (valueOf Binary64.half == 1 # 2)%Q.
Proof. reflexivity. Qed.

Section Interpolation.

Variables a b n i : Z.
Hypothesis Ha : 0 <= a < 2 ^ 17.
Hypothesis Hb : 0 <= b < 2 ^ 17.
Hypothesis Hn : 1 <= n <= 2 ^ 17.
Hypothesis Hi : 0 <= i <= n.

Let s := Binary64.div (Binary64.ofInt i) (Binary64.ofInt n).
Let t := Binary64.sub (Binary64.ofInt 1) s.
Let p := Binary64.mul t (Binary64.ofInt a).
Let q := Binary64.mul s (Binary64.ofInt b).
Let v := Binary64.add Binary64.half p.
Let u := Binary64.add v q.

Let sigma : Q := (inject_Z i / inject_Z n)%Q.
Let A : Q := ((1 - sigma) * inject_Z a)%Q.
Let B : Q := (sigma * inject_Z b)%Q.

Lemma interpolation_sigma : (0 <= sigma /\ sigma <= 1)%Q.
Proof using Hn Hi.
  unfold sigma. split.
  - apply Qle_shift_div_l.
    + rewrite <- (Zlt_Qlt 0). lia.
    + rewrite Qmult_0_l. rewrite <- (Zle_Qle 0). lia.
  - apply Qle_shift_div_r.
    + rewrite <- (Zlt_Qlt 0). lia.
    + rewrite Qmult_1_l. rewrite <- Zle_Qle. lia.
Qed.

(** The double of the interpolation is at less than [2 ^ -30] from the
    interpolation. *)
Lemma interpolation_double :
  isFinite u = true /\
  (Qabs (valueOf u - ((1 # 2) + A + B)) <= 1 # 1073741824)%Q.
Proof using Ha Hb Hn Hi.
  pose proof DBL_EPSILON_value as Eeps.
  destruct DBL_TRUE_MIN_bound as [Heta0 Heta].
  destruct interpolation_sigma as [Hs0 Hs1].
  assert (H17 : 2 ^ 17 < 2 ^ 53) by (apply Z.pow_lt_mono_r; lia).
  assert (V17 : 2 ^ 17 = 131072) by reflexivity.
  assert (Ea : (valueOf (Binary64.ofInt a) == inject_Z a)%Q)
    by (apply ofInt_value; lia).
  assert (Eb : (valueOf (Binary64.ofInt b) == inject_Z b)%Q)
    by (apply ofInt_value; lia).
  assert (En : (valueOf (Binary64.ofInt n) == inject_Z n)%Q)
    by (apply ofInt_value; lia).
  assert (Ei : (valueOf (Binary64.ofInt i) == inject_Z i)%Q)
    by (apply ofInt_value; lia).
  assert (E1 : (valueOf (Binary64.ofInt 1) == 1)%Q) by reflexivity.
  assert (Qa : (0 <= inject_Z a /\ inject_Z a <= 131072)%Q).
  { change 0%Q with (inject_Z 0). change 131072%Q with (inject_Z 131072).
    rewrite <- !Zle_Qle. lia. }
  assert (Qb : (0 <= inject_Z b /\ inject_Z b <= 131072)%Q).
  { change 0%Q with (inject_Z 0). change 131072%Q with (inject_Z 131072).
    rewrite <- !Zle_Qle. lia. }
  assert (Qn : (1 <= inject_Z n /\ inject_Z n <= 131072)%Q).
  { change 1%Q with (inject_Z 1). change 131072%Q with (inject_Z 131072).
    rewrite <- !Zle_Qle. lia. }
  destruct Qa as [Qa0 Qa1], Qb as [Qb0 Qb1], Qn as [Qn0 Qn1].
  (* s *)
  assert (Hs : isFinite s = true /\
               (Qabs (valueOf s - sigma) <= DBL_EPSILON * sigma + DBL_TRUE_MIN)%Q).
  { destruct (div_bound (Binary64.ofInt i) (Binary64.ofInt n)) as [F Bd].
    - apply ofInt_finite. lia.
    - apply ofInt_finite. lia.
    - rewrite En. lra.
    - destruct (Z.eq_dec i 0) as [->|Ni].
      + left. reflexivity.
      + right. rewrite Ei, En. fold sigma.
        rewrite (Qabs_pos sigma) by exact Hs0. split.
        * apply Qle_trans with (1 # 131072)%Q;
            [apply (pow2_le (-900) (-17)); lia|].
          unfold sigma. apply Qle_shift_div_l; [lra|].
          assert (1 <= inject_Z i)%Q by (rewrite <- (Zle_Qle 1); lia).
          lra.
        * apply pow2_900. lra.
    - split; [exact F|]. rewrite Ei, En in Bd. fold sigma in Bd.
      rewrite (Qabs_pos sigma) in Bd by exact Hs0. exact Bd. }
  destruct Hs as [Fs Bs].
  assert (Bs' : (- (2 * DBL_EPSILON) <= valueOf s - sigma
                 /\ valueOf s - sigma <= 2 * DBL_EPSILON)%Q).
  { rewrite <- (Qabs_pos sigma) in Bs at 2 by exact Hs0.
    destruct (error_relax _ _ 1 Bs) as [X1 X2];
      [rewrite Qabs_pos; lra | lra]. }
  clear Bs. destruct Bs' as [Bs1 Bs2].
  (* t *)
  assert (Ht : isFinite t = true /\
               (Qabs (valueOf t - (1 - sigma)) <= 5 * DBL_EPSILON)%Q).
  { destruct (sub_bound (Binary64.ofInt 1) s) as [F Bd].
    - reflexivity.
    - exact Fs.
    - rewrite E1. apply pow2_900. apply Qabs_Qle_condition. lra.
    - split; [exact F|]. rewrite E1 in Bd.
      assert (Hb1 : (Qabs (1 - valueOf s) <= 2)%Q)
        by (apply Qabs_Qle_condition; lra).
      destruct (error_relax _ _ 2 Bd Hb1) as [X1 X2].
      fold t in X1, X2. apply Qabs_Qle_condition. lra. }
  destruct Ht as [Ft Bt].
  assert (Bt2 : (Qabs (valueOf t) <= 2)%Q).
  { apply Qabs_Qle_condition in Bt. apply Qabs_Qle_condition. lra. }
  assert (Bs3 : (Qabs (valueOf s) <= 2)%Q)
    by (apply Qabs_Qle_condition; lra).
  (* p *)
  assert (Hp : isFinite p = true /\
               (Qabs (valueOf p - A) <= 1000000 * DBL_EPSILON)%Q).
  { pose proof (Qabs_mult_bound _ _ _ _ Bt2 Qa0 Qa1) as Bm.
    pose proof (Qabs_mult_close _ _ _ _ _ Bt Qa0 Qa1) as Bc.
    destruct (mul_bound t (Binary64.ofInt a)) as [F Bd].
    - exact Ft.
    - apply ofInt_finite. lia.
    - rewrite Ea. apply pow2_900. lra.
    - split; [exact F|]. rewrite Ea in Bd. fold A in Bc.
      destruct (error_relax _ _ _ Bd Bm) as [X1 X2].
      apply Qabs_Qle_condition in Bc. apply Qabs_Qle_condition.
      fold p in X1, X2. set (z := (valueOf t * inject_Z a)%Q) in *. lra. }
  destruct Hp as [Fp Bp].
  (* q *)
  assert (Hq : isFinite q = true /\
               (Qabs (valueOf q - B) <= 1000000 * DBL_EPSILON)%Q).
  { assert (Bs4 : (Qabs (valueOf s - sigma) <= 2 * DBL_EPSILON)%Q)
      by (apply Qabs_Qle_condition; lra).
    pose proof (Qabs_mult_bound _ _ _ _ Bs3 Qb0 Qb1) as Bm.
    pose proof (Qabs_mult_close _ _ _ _ _ Bs4 Qb0 Qb1) as Bc.
    destruct (mul_bound s (Binary64.ofInt b)) as [F Bd].
    - exact Fs.
    - apply ofInt_finite. lia.
    - rewrite Eb. apply pow2_900. lra.
    - split; [exact F|]. rewrite Eb in Bd. fold B in Bc.
      destruct (error_relax _ _ _ Bd Bm) as [X1 X2].
      apply Qabs_Qle_condition in Bc. apply Qabs_Qle_condition.
      fold q in X1, X2. set (z := (valueOf s * inject_Z b)%Q) in *. lra. }
  destruct Hq as [Fq Bq].
  (* the exact values *)
  assert (HA : (0 <= A /\ A <= 131072)%Q).
  { unfold A. split.
    - apply Qmult_le_0_compat; lra.
    - apply Qle_trans with (1 * 131072)%Q; [|lra].
      apply Qmult_le_compat_nonneg; split; lra. }
  assert (HB : (0 <= B /\ B <= 131072)%Q).
  { unfold B. split.
    - apply Qmult_le_0_compat; lra.
    - apply Qle_trans with (1 * 131072)%Q; [|lra].
      apply Qmult_le_compat_nonneg; split; lra. }
  destruct HA as [HA0 HA1], HB as [HB0 HB1].
  apply Qabs_Qle_condition in Bp, Bq.
  (* v *)
  assert (Hv : isFinite v = true /\
               (Qabs (valueOf v - ((1 # 2) + A)) <= 2000000 * DBL_EPSILON)%Q).
  { destruct (add_bound Binary64.half p) as [F Bd].
    - reflexivity.
    - exact Fp.
    - rewrite half_value. apply pow2_900. apply Qabs_Qle_condition. lra.
    - split; [exact F|]. rewrite half_value in Bd.
      assert (Hb1 : (Qabs ((1 # 2) + valueOf p) <= 200000)%Q)
        by (apply Qabs_Qle_condition; lra).
      destruct (error_relax _ _ _ Bd Hb1) as [X1 X2].
      fold v in X1, X2. apply Qabs_Qle_condition. lra. }
  destruct Hv as [Fv Bv]. apply Qabs_Qle_condition in Bv.
  (* u *)
  destruct (add_bound v q) as [F Bd].
  - exact Fv.
  - exact Fq.
  - apply pow2_900. apply Qabs_Qle_condition. lra.
  - split; [exact F|].
    assert (Hb1 : (Qabs (valueOf v + valueOf q) <= 400000)%Q)
      by (apply Qabs_Qle_condition; lra).
    destruct (error_relax _ _ _ Bd Hb1) as [X1 X2].
    apply Qabs_Qle_condition. fold u in X1, X2. lra.
Qed.

(** The pixel of the program is at a distance of 1/2 at most from the
    interpolation: it is the nearest integer, or one of the two nearest. *)
Lemma interpolate_nearest :
  let y := Doubles.interpolate s (Binary64.ofInt a) (Binary64.ofInt b) in
  let W := n + 2 * ((n - i) * a + i * b) in
  W - 2 * n <= 2 * n * y <= W.
Proof using Ha Hb Hn Hi.
  intros y W.
  destruct interpolation_double as [Fu Bu].
  destruct interpolation_sigma as [Hs0 Hs1].
  assert (Qa0 : (0 <= inject_Z a)%Q) by (rewrite <- (Zle_Qle 0); lia).
  assert (Qb0 : (0 <= inject_Z b)%Q) by (rewrite <- (Zle_Qle 0); lia).
  assert (HA0 : (0 <= A)%Q) by (unfold A; apply Qmult_le_0_compat; lra).
  assert (HB0 : (0 <= B)%Q) by (unfold B; apply Qmult_le_0_compat; lra).
  apply Qabs_Qle_condition in Bu.
  assert (Ey : y = Qfloor (valueOf u)).
  { unfold y, Doubles.interpolate. fold t. fold p. fold q. fold v. fold u.
    apply toInt_Qfloor; [exact Fu | lra]. }
  pose proof (Qfloor_le (valueOf u)) as F1.
  pose proof (Qlt_floor (valueOf u)) as F2.
  rewrite <- Ey in F1, F2. rewrite inject_Z_plus in F2.
  change (inject_Z 1) with 1%Q in F2.
  set (N2 := inject_Z (2 * n)).
  assert (HN2 : (2 <= N2 /\ N2 <= 262144)%Q).
  { unfold N2. change 2%Q with (inject_Z 2).
    change 262144%Q with (inject_Z 262144). rewrite <- !Zle_Qle.
    assert (2 ^ 17 = 131072) by reflexivity. lia. }
  assert (EW : (((1 # 2) + A + B) * N2 == inject_Z W)%Q).
  { unfold A, B, sigma, N2, W.
    rewrite !inject_Z_plus, !inject_Z_mult, !inject_Z_plus, !inject_Z_mult.
    unfold Z.sub. rewrite inject_Z_plus, inject_Z_opp.
    change (inject_Z 2) with 2%Q. field.
    apply inject_Z_nonzero. lia. }
  (* the three numbers, times [2 * n] *)
  assert (M1 : (inject_Z y * N2 <= valueOf u * N2)%Q)
    by (apply Qmult_le_compat_r; lra).
  assert (M2 : (valueOf u * N2 <= (inject_Z y + 1) * N2)%Q)
    by (apply Qmult_le_compat_r; lra).
  assert (M3 : ((valueOf u - ((1 # 2) + A + B)) * N2
                <= (1 # 1073741824) * N2)%Q)
    by (apply Qmult_le_compat_r; lra).
  assert (M4 : (- (1 # 1073741824) * N2
                <= (valueOf u - ((1 # 2) + A + B)) * N2)%Q)
    by (apply Qmult_le_compat_r; lra).
  assert (M5 : ((valueOf u - ((1 # 2) + A + B)) * N2
                == valueOf u * N2 - inject_Z W)%Q)
    by (rewrite <- EW; ring).
  rewrite M5 in M3, M4.
  assert (M6 : ((inject_Z y + 1) * N2 == inject_Z y * N2 + N2)%Q) by ring.
  rewrite M6 in M2.
  assert (EY : (inject_Z y * N2 == inject_Z (2 * n * y))%Q).
  { unfold N2. replace (2 * n * y) with (y * (2 * n)) by ring.
    rewrite inject_Z_mult. reflexivity. }
  rewrite EY in M1, M2.
  set (UN := (valueOf u * N2)%Q) in *.
  assert (R1 : (inject_Z (2 * n * y) < inject_Z (W + 1))%Q).
  { rewrite inject_Z_plus. change (inject_Z 1) with 1%Q. lra. }
  assert (R2 : (inject_Z (W - 2 * n - 1) < inject_Z (2 * n * y))%Q).
  { unfold Z.sub. rewrite !inject_Z_plus, !inject_Z_opp.
    fold N2. change (inject_Z 1) with 1%Q. lra. }
  rewrite <- Zlt_Qlt in R1, R2. lia.
Qed.

End Interpolation.

(** The pixel is between the two ends. *)
Lemma interpolate_between (a b n i : Z) :
  0 <= a < 2 ^ 17 -> 0 <= b < 2 ^ 17 -> 1 <= n <= 2 ^ 17 -> 0 <= i <= n ->
  let y := Doubles.interpolate
             (Binary64.div (Binary64.ofInt i) (Binary64.ofInt n))
             (Binary64.ofInt a) (Binary64.ofInt b) in
  Z.min a b <= y <= Z.max a b.
Proof.
  intros Ha Hb Hn Hi y.
  pose proof (interpolate_nearest a b n i Ha Hb Hn Hi) as H.
  cbv zeta in H. fold y in H.
  destruct (Z.min_spec a b) as [[H1 ->]|[H1 ->]];
    destruct (Z.max_spec a b) as [[H2 ->]|[H2 ->]]; nia.
Qed.

(** The first pixel and the last one are the two ends. *)
Lemma interpolate_first (a b n : Z) :
  0 <= a < 2 ^ 17 -> 0 <= b < 2 ^ 17 -> 1 <= n <= 2 ^ 17 ->
  Doubles.interpolate (Binary64.div (Binary64.ofInt 0) (Binary64.ofInt n))
    (Binary64.ofInt a) (Binary64.ofInt b) = a.
Proof.
  intros Ha Hb Hn.
  pose proof (interpolate_nearest a b n 0 Ha Hb Hn ltac:(lia)) as H.
  cbv zeta in H. nia.
Qed.

Lemma interpolate_last (a b n : Z) :
  0 <= a < 2 ^ 17 -> 0 <= b < 2 ^ 17 -> 1 <= n <= 2 ^ 17 ->
  Doubles.interpolate (Binary64.div (Binary64.ofInt n) (Binary64.ofInt n))
    (Binary64.ofInt a) (Binary64.ofInt b) = b.
Proof.
  intros Ha Hb Hn.
  pose proof (interpolate_nearest a b n n Ha Hb Hn ltac:(lia)) as H.
  cbv zeta in H. nia.
Qed.

(** Along the axis where the two ends are [n] apart, the line goes by one
    pixel at every step. *)
Lemma interpolate_major (a b n i : Z) :
  0 <= a < 2 ^ 17 -> 0 <= b < 2 ^ 17 -> 1 <= n <= 2 ^ 17 -> 0 <= i <= n ->
  Z.abs (a - b) = n ->
  Doubles.interpolate (Binary64.div (Binary64.ofInt i) (Binary64.ofInt n))
    (Binary64.ofInt a) (Binary64.ofInt b) = a + i * Z.sgn (b - a).
Proof.
  intros Ha Hb Hn Hi Hab.
  pose proof (interpolate_nearest a b n i Ha Hb Hn Hi) as H.
  cbv zeta in H.
  destruct (Z.abs_spec (a - b)) as [[H1 H2]|[H1 H2]].
  - assert (b - a = - n) by lia.
    replace (Z.sgn (b - a)) with (-1) by (symmetry; apply Z.sgn_neg; lia).
    nia.
  - assert (b - a = n) by lia.
    replace (Z.sgn (b - a)) with 1 by (symmetry; apply Z.sgn_pos; lia).
    nia.
Qed.

(** Along the other axis, it goes by one pixel at most. *)
Lemma interpolate_step (a b n i : Z) :
  0 <= a < 2 ^ 17 -> 0 <= b < 2 ^ 17 -> 1 <= n <= 2 ^ 17 -> 0 <= i < n ->
  Z.abs (a - b) <= n ->
  Z.abs (Doubles.interpolate
           (Binary64.div (Binary64.ofInt (i + 1)) (Binary64.ofInt n))
           (Binary64.ofInt a) (Binary64.ofInt b)
         - Doubles.interpolate
             (Binary64.div (Binary64.ofInt i) (Binary64.ofInt n))
             (Binary64.ofInt a) (Binary64.ofInt b)) <= 1.
Proof.
  intros Ha Hb Hn Hi Hab.
  destruct (Z.eq_dec (Z.abs (a - b)) n) as [E|E].
  - rewrite !interpolate_major by (auto; lia).
    destruct (Z.sgn_spec (b - a)) as [[_ ->]|[[_ ->]|[_ ->]]]; lia.
  - pose proof (interpolate_nearest a b n i Ha Hb Hn ltac:(lia)) as H1.
    pose proof (interpolate_nearest a b n (i + 1) Ha Hb Hn ltac:(lia)) as H2.
    cbv zeta in H1, H2. nia.
Qed.

(* ================================================================== *)
(** * The line of the program *)

Lemma pow2_17_53 : 2 ^ 17 < 2 ^ 53.
Proof. apply Z.pow_lt_mono_r; lia. Qed.

(** The count of the line between two pixels. *)
Lemma lineCount_double (a b : cell) :
  0 <= fst a < 2 ^ 17 -> 0 <= snd a < 2 ^ 17 ->
  0 <= fst b < 2 ^ 17 -> 0 <= snd b < 2 ^ 17 ->
  Doubles.lineCount (Doubles.pointOf a) (Doubles.pointOf b)
  = 1 + Z.max (Z.abs (fst a - fst b)) (Z.abs (snd a - snd b)).
Proof.
  intros Ha1 Ha2 Hb1 Hb2. pose proof pow2_17_53 as H53.
  unfold Doubles.lineCount, Doubles.pointOf.
  cbn [Doubles.QPointF.x Doubles.QPointF.y].
  rewrite !ofInt_integer by lia.
  rewrite !sub_integer by lia.
  rewrite !qAbs_integer.
  rewrite qMax_integer by lia.
  rewrite add_integer by lia.
  apply toInt_integer. lia.
Qed.

Lemma linePixel_double (a b : cell) (count index : Z) :
  Doubles.linePixel (Doubles.pointOf a) (Doubles.pointOf b) count index
  = (Doubles.interpolate
       (Binary64.div (Binary64.ofInt index) (Binary64.ofInt (count - 1)))
       (Binary64.ofInt (fst a)) (Binary64.ofInt (fst b)),
     Doubles.interpolate
       (Binary64.div (Binary64.ofInt index) (Binary64.ofInt (count - 1)))
       (Binary64.ofInt (snd a)) (Binary64.ofInt (snd b))).
Proof. reflexivity. Qed.

Section LineOfDoubles.

Variables a b : cell.
Hypothesis Ha1 : 0 <= fst a < 2 ^ 17.
Hypothesis Ha2 : 0 <= snd a < 2 ^ 17.
Hypothesis Hb1 : 0 <= fst b < 2 ^ 17.
Hypothesis Hb2 : 0 <= snd b < 2 ^ 17.
Hypothesis Hab : a <> b.

Let n := Z.max (Z.abs (fst a - fst b)) (Z.abs (snd a - snd b)).
Let px := Doubles.linePixel (Doubles.pointOf a) (Doubles.pointOf b) (1 + n).

Lemma double_line_steps : 1 <= n <= 2 ^ 17.
Proof using Ha1 Ha2 Hb1 Hb2 Hab.
  pose proof (line_steps a b Hab) as H. cbv zeta in H. fold n in H.
  unfold n in *. lia.
Qed.

Lemma double_line_pixels :
  Doubles.linePixels (Doubles.pointOf a) (Doubles.pointOf b)
  = map px (upto (1 + n)).
Proof using Ha1 Ha2 Hb1 Hb2 Hab.
  pose proof double_line_steps as Hn.
  unfold Doubles.linePixels. cbv zeta.
  rewrite lineCount_double by assumption. fold n.
  replace (1 <? 1 + n) with true by (symmetry; apply Z.ltb_lt; lia).
  reflexivity.
Qed.

Lemma double_line_px index :
  px index
  = (Doubles.interpolate
       (Binary64.div (Binary64.ofInt index) (Binary64.ofInt n))
       (Binary64.ofInt (fst a)) (Binary64.ofInt (fst b)),
     Doubles.interpolate
       (Binary64.div (Binary64.ofInt index) (Binary64.ofInt n))
       (Binary64.ofInt (snd a)) (Binary64.ofInt (snd b))).
Proof.
  unfold px. rewrite linePixel_double.
  replace (1 + n - 1) with n by lia. reflexivity.
Qed.

Lemma double_line_first : px 0 = a.
Proof using Ha1 Ha2 Hb1 Hb2 Hab.
  pose proof double_line_steps as Hn. rewrite double_line_px.
  rewrite !interpolate_first by assumption. destruct a; reflexivity.
Qed.

Lemma double_line_last : px n = b.
Proof using Ha1 Ha2 Hb1 Hb2 Hab.
  pose proof double_line_steps as Hn. rewrite double_line_px.
  rewrite !interpolate_last by assumption. destruct b; reflexivity.
Qed.

Lemma double_line_between index :
  0 <= index <= n ->
  Z.min (fst a) (fst b) <= fst (px index) <= Z.max (fst a) (fst b) /\
  Z.min (snd a) (snd b) <= snd (px index) <= Z.max (snd a) (snd b).
Proof using Ha1 Ha2 Hb1 Hb2 Hab.
  intros Hi. pose proof double_line_steps as Hn. rewrite double_line_px.
  cbn [fst snd]. split; apply interpolate_between; assumption.
Qed.

Lemma double_line_nearest index :
  0 <= index <= n ->
  nearestTo n index (fst a) (fst b) (fst (px index)) = true /\
  nearestTo n index (snd a) (snd b) (snd (px index)) = true.
Proof using Ha1 Ha2 Hb1 Hb2 Hab.
  intros Hi. pose proof double_line_steps as Hn. rewrite double_line_px.
  cbn [fst snd]. unfold nearestTo.
  pose proof (interpolate_nearest (fst a) (fst b) n index Ha1 Hb1 Hn Hi) as H1.
  pose proof (interpolate_nearest (snd a) (snd b) n index Ha2 Hb2 Hn Hi) as H2.
  cbv zeta in H1, H2. split; apply Z.leb_le; lia.
Qed.

Lemma double_line_touching index :
  0 <= index < n -> touching (px index) (px (index + 1)).
Proof using Ha1 Ha2 Hb1 Hb2 Hab.
  intros Hi. pose proof double_line_steps as Hn.
  rewrite !double_line_px. unfold touching. cbn [fst snd].
  pose proof (interpolate_step (fst a) (fst b) n index Ha1 Hb1 Hn Hi) as H1.
  pose proof (interpolate_step (snd a) (snd b) n index Ha2 Hb2 Hn Hi) as H2.
  unfold n in *. lia.
Qed.

Lemma double_line_injective i j :
  0 <= i <= n -> 0 <= j <= n -> px i = px j -> i = j.
Proof using Ha1 Ha2 Hb1 Hb2 Hab.
  intros Hi Hj. pose proof double_line_steps as Hn.
  rewrite !double_line_px. intros E.
  pose proof (f_equal fst E) as H1. pose proof (f_equal snd E) as H2.
  cbn [fst snd] in H1, H2.
  destruct (Z.max_spec (Z.abs (fst a - fst b)) (Z.abs (snd a - snd b)))
    as [[_ Hm]|[_ Hm]]; fold n in Hm.
  - rewrite !(interpolate_major (snd a) (snd b)) in H2 by (auto; lia).
    assert (Z.sgn (snd b - snd a) <> 0) by (rewrite Z.sgn_null_iff; lia).
    nia.
  - rewrite !(interpolate_major (fst a) (fst b)) in H1 by (auto; lia).
    assert (Z.sgn (fst b - fst a) <> 0) by (rewrite Z.sgn_null_iff; lia).
    nia.
Qed.

Lemma double_line_connected (A : cell -> Prop) :
  (forall p, In p (Doubles.linePixels (Doubles.pointOf a) (Doubles.pointOf b))
             -> A p) ->
  connected A a b.
Proof using Ha1 Ha2 Hb1 Hb2 Hab.
  intros HA. pose proof double_line_steps as Hn.
  assert (Hpx : forall i, 0 <= i <= n -> A (px i)).
  { intros i Hi. apply HA. rewrite double_line_pixels. apply in_map.
    apply In_upto. lia. }
  assert (H : forall i, 0 <= i -> i <= n -> connected A a (px i)).
  { apply (natlike_ind (fun i => i <= n -> connected A a (px i))).
    - intros _. rewrite double_line_first. apply connected_refl.
      rewrite <- double_line_first. apply Hpx. lia.
    - intros i Hi IH Hle. unfold Z.succ.
      apply (connected_step A a (px i)).
      + apply IH. lia.
      + apply double_line_touching. lia.
      + apply Hpx. lia. }
  rewrite <- double_line_last. apply H; lia.
Qed.

End LineOfDoubles.

Lemma small_inside m p :
  Doubles.small m -> inside m p -> 0 <= fst p < 2 ^ 17 /\ 0 <= snd p < 2 ^ 17.
Proof. unfold Doubles.small, inside. lia. Qed.

Lemma linePixel_inside_double m (a b : cell) (count index : Z) :
  Doubles.small m -> inside m a -> inside m b ->
  count = Doubles.lineCount (Doubles.pointOf a) (Doubles.pointOf b) ->
  1 < count -> 0 <= index < count ->
  inside m (Doubles.linePixel (Doubles.pointOf a) (Doubles.pointOf b)
              count index).
Proof.
  intros Hs Ha Hb Ec Hc Hi.
  destruct (small_inside m a Hs Ha) as [Ha1 Ha2].
  destruct (small_inside m b Hs Hb) as [Hb1 Hb2].
  rewrite lineCount_double in Ec by assumption.
  assert (Hab : a <> b).
  { intros ->. rewrite !Z.sub_diag in Ec. simpl in Ec. lia. }
  subst count.
  destruct (double_line_between a b Ha1 Ha2 Hb1 Hb2 Hab index) as [H1 H2];
    [lia|].
  destruct Ha as [Ha3 Ha4], Hb as [Hb3 Hb4]. unfold inside. lia.
Qed.

(* ================================================================== *)
(** * connectCloseGroups, with doubles *)

(** One round of the loop on [index]. *)
Lemma healPixel_painted_double pixelPointFrom pixelPointTo count index st :
  rectangular (fst st) = true -> fits (fst st) (snd st) = true ->
  inside (fst st) (Doubles.linePixel pixelPointFrom pixelPointTo count index) ->
  exists st',
    Doubles.healPixel pixelPointFrom pixelPointTo count index st = Ok st' /\
    painted st [Doubles.linePixel pixelPointFrom pixelPointTo count index] st'.
Proof.
  destruct st as [m image]. cbn [fst snd]. intros Hrect Hfits Hin.
  unfold Doubles.healPixel.
  set (p := Doubles.linePixel pixelPointFrom pixelPointTo count index) in *.
  change (Binary64.toInt
            (Binary64.add
               (Binary64.add Binary64.half
                  (Binary64.mul
                     (Binary64.sub (Binary64.ofInt 1)
                        (Binary64.div (Binary64.ofInt index)
                           (Binary64.ofInt (count - 1))))
                     (Doubles.QPointF.y pixelPointFrom)))
               (Binary64.mul
                  (Binary64.div (Binary64.ofInt index)
                     (Binary64.ofInt (count - 1)))
                  (Doubles.QPointF.y pixelPointTo)))) with (snd p).
  change (Binary64.toInt
            (Binary64.add
               (Binary64.add Binary64.half
                  (Binary64.mul
                     (Binary64.sub (Binary64.ofInt 1)
                        (Binary64.div (Binary64.ofInt index)
                           (Binary64.ofInt (count - 1))))
                     (Doubles.QPointF.x pixelPointFrom)))
               (Binary64.mul
                  (Binary64.div (Binary64.ofInt index)
                     (Binary64.ofInt (count - 1)))
                  (Doubles.QPointF.x pixelPointTo)))) with (fst p).
  cbv zeta.
  destruct (setPixel_inside m p PIXEL_STATE_HEALED Hrect Hin) as (m' & E).
  rewrite E. cbn [bind].
  pose proof (setPixel_Ok _ _ _ _ Hrect E) as [W1 W2 W3 W4 W5].
  unfold QImage.setPixel.
  assert (Hvalid : QImage.valid image (snd p) (fst p) = true).
  { unfold QImage.valid, fits, inside in *.
    apply andb_true_iff in Hfits. destruct Hfits as [F1 F2].
    apply Z.leb_le in F1, F2.
    repeat (apply andb_true_iff; split);
      try apply Z.leb_le; try apply Z.ltb_lt; lia. }
  rewrite Hvalid. cbn [bind]. eexists. split; [reflexivity|].
  split; cbn [fst snd QImage.width QImage.height QImage.pixel]; auto.
  - intros q [<-|[]]. split; auto. rewrite !Z.eqb_refl. reflexivity.
  - intros q Hq. split.
    + apply W5. intros ->. apply Hq. left; auto.
    + destruct (Z.eqb_spec (snd q) (snd p)); [|reflexivity].
      destruct (Z.eqb_spec (fst q) (fst p)); [|reflexivity].
      exfalso. apply Hq. left. destruct p, q; simpl in *; congruence.
Qed.

(** The loop on [index]. *)
Lemma drawLine_painted_double (a b : cell) count st :
  rectangular (fst st) = true -> fits (fst st) (snd st) = true ->
  Doubles.small (fst st) -> inside (fst st) a -> inside (fst st) b ->
  count = Doubles.lineCount (Doubles.pointOf a) (Doubles.pointOf b) ->
  1 < count ->
  exists st',
    forEach (upto count)
      (Doubles.healPixel (Doubles.pointOf a) (Doubles.pointOf b) count) st
    = Ok st' /\
    painted st
      (map (Doubles.linePixel (Doubles.pointOf a) (Doubles.pointOf b) count)
         (upto count)) st'.
Proof.
  intros Hrect Hfits Hs Ha Hb Ec Hc.
  apply (forEach_invariant
           (fun done s =>
              painted st
                (map (Doubles.linePixel (Doubles.pointOf a)
                        (Doubles.pointOf b) count) done) s)).
  - intros done index s P Hi. apply In_upto in Hi.
    destruct (healPixel_painted_double (Doubles.pointOf a) (Doubles.pointOf b)
                count index s) as (s' & E & P').
    + apply P.
    + apply (painted_fits _ _ _ P); auto.
    + apply (painted_inside _ _ _ _ P).
      apply linePixel_inside_double; auto.
    + exists s'. split; [exact E|]. rewrite map_app.
      apply (painted_app _ _ _ _ _ P P').
  - apply painted_refl; auto.
Qed.

(** The body of the loop on [itrTo], for two anchors in the grid. *)
Lemma connectPair_painted_double closeDistance posCentroidFrom posCentroidTo
  (a b : cell) st :
  rectangular (fst st) = true -> fits (fst st) (snd st) = true ->
  Doubles.small (fst st) -> inside (fst st) a -> inside (fst st) b ->
  exists st',
    Doubles.connectPair (Doubles.closeDistanceSquared closeDistance)
      posCentroidFrom (Doubles.pointOf a) posCentroidTo (Doubles.pointOf b) st
    = Ok st' /\
    painted st
      (if Doubles.isClose closeDistance posCentroidFrom posCentroidTo
       then Doubles.linePixels (Doubles.pointOf a) (Doubles.pointOf b)
       else []) st'.
Proof.
  intros Hrect Hfits Hs Ha Hb. unfold Doubles.connectPair. cbv zeta.
  fold (Doubles.lineCount (Doubles.pointOf a) (Doubles.pointOf b)).
  fold (Doubles.separationMagnitudeSquared posCentroidFrom posCentroidTo).
  fold (Doubles.isClose closeDistance posCentroidFrom posCentroidTo).
  destruct (Doubles.isClose closeDistance posCentroidFrom posCentroidTo).
  - unfold Doubles.linePixels. cbv zeta.
    destruct (Z.ltb_spec 1 (Doubles.lineCount (Doubles.pointOf a)
                              (Doubles.pointOf b))) as [Hc|Hc].
    + apply drawLine_painted_double; auto.
    + exists st. split; auto. apply painted_refl; auto.
  - exists st. split; auto. apply painted_refl; auto.
Qed.

Lemma painted_small st0 L st :
  painted st0 L st -> Doubles.small (fst st0) -> Doubles.small (fst st).
Proof.
  intros P. unfold Doubles.small.
  rewrite (painted_count _ _ _ P), (painted_width _ _ _ P). auto.
Qed.

Lemma anchored_painted_double this st0 L st :
  painted st0 L st -> Doubles.anchored this (fst st0) ->
  Doubles.anchored this (fst st).
Proof.
  intros P H e He. destruct (H e He) as (a & Ea & Ha).
  exists a. split; auto. apply (painted_inside _ _ _ _ P); auto.
Qed.

(** The loop on [itrTo]. *)
Lemma connect_inner_double this (itrFrom : Z * Doubles.QPointF.t) (a : cell)
  rest st :
  rectangular (fst st) = true -> fits (fst st) (snd st) = true ->
  Doubles.small (fst st) ->
  Doubles.anchored this (fst st) ->
  Doubles.QMap.value (Doubles.m_groupNumberToPixel this) (fst itrFrom)
  = Some (Doubles.pointOf a) ->
  inside (fst st) a ->
  (forall e, In e rest -> In e (Doubles.m_groupNumberToCentroid this)) ->
  exists st',
    forEach rest (fun itrTo st =>
      let groupTo := fst itrTo in
      _ <- ENGAUGE_ASSERT
             (Doubles.QMap.contains (Doubles.m_groupNumberToPixel this)
                groupTo) ;;
      let posCentroidTo := snd itrTo in
      match Doubles.QMap.value (Doubles.m_groupNumberToPixel this) groupTo with
      | None => Err AssertionFailed
      | Some pixelPointTo =>
          Doubles.connectPair
            (Binary64.mul (Doubles.closeDistance this)
               (Doubles.closeDistance this))
            (snd itrFrom) (Doubles.pointOf a) posCentroidTo pixelPointTo st
      end) st = Ok st' /\
    painted st (flat_map (Doubles.pairPixels this itrFrom) rest) st'.
Proof.
  intros Hrect Hfits Hs Hanch Hfrom Ha Hrest.
  apply (forEach_invariant
           (fun done s =>
              painted st (flat_map (Doubles.pairPixels this itrFrom) done) s)).
  - intros done itrTo s P Hin.
    destruct (anchored_painted_double this _ _ _ P Hanch itrTo (Hrest _ Hin))
      as (b & Eb & Hb).
    cbv zeta. unfold Doubles.QMap.contains. rewrite Eb.
    cbn [ENGAUGE_ASSERT bind].
    destruct (connectPair_painted_double (Doubles.closeDistance this)
                (snd itrFrom) (snd itrTo) a b s) as (s' & E & P'); auto.
    + apply P.
    + apply (painted_fits _ _ _ P); auto.
    + apply (painted_small _ _ _ P); auto.
    + apply (painted_inside _ _ _ _ P); auto.
    + exists s'. split; [exact E|].
      rewrite flat_map_app. cbn [flat_map]. rewrite app_nil_r.
      unfold Doubles.pairPixels at 2. rewrite Hfrom, Eb.
      apply (painted_app _ _ _ _ _ P P').
  - apply painted_refl; auto.
Qed.

(** The loop on [itrFrom]. *)
Lemma connect_outer_double this l : forall st,
  rectangular (fst st) = true -> fits (fst st) (snd st) = true ->
  Doubles.small (fst st) ->
  Doubles.anchored this (fst st) ->
  (forall e, In e l -> In e (Doubles.m_groupNumberToCentroid this)) ->
  exists st',
    forEachTail l (fun itrFrom rest st =>
      let groupFrom := fst itrFrom in
      _ <- ENGAUGE_ASSERT
             (Doubles.QMap.contains (Doubles.m_groupNumberToPixel this)
                groupFrom) ;;
      let posCentroidFrom := snd itrFrom in
      match Doubles.QMap.value (Doubles.m_groupNumberToPixel this) groupFrom
      with
      | None => Err AssertionFailed
      | Some pixelPointFrom =>
          forEach rest (fun itrTo st =>
            let groupTo := fst itrTo in
            _ <- ENGAUGE_ASSERT
                   (Doubles.QMap.contains (Doubles.m_groupNumberToPixel this)
                      groupTo) ;;
            let posCentroidTo := snd itrTo in
            match Doubles.QMap.value (Doubles.m_groupNumberToPixel this)
                    groupTo with
            | None => Err AssertionFailed
            | Some pixelPointTo =>
                Doubles.connectPair
                  (Binary64.mul (Doubles.closeDistance this)
                     (Doubles.closeDistance this))
                  posCentroidFrom pixelPointFrom posCentroidTo pixelPointTo st
            end) st
      end) st = Ok st' /\
    painted st
      (flat_map (fun pr => Doubles.pairPixels this (fst pr) (snd pr))
         (allPairs l))
      st'.
Proof.
  induction l as [|itrFrom rest IH]; intros st Hrect Hfits Hs Hanch Hl.
  - exists st. split; [reflexivity|]. apply painted_refl; auto.
  - cbn [forEachTail allPairs]. cbv zeta.
    destruct (Hanch itrFrom) as (a & Ea & Ha); [apply Hl; left; auto|].
    unfold Doubles.QMap.contains at 1. rewrite Ea. cbn [ENGAUGE_ASSERT bind].
    destruct (connect_inner_double this itrFrom a rest st)
      as (st1 & E1 & P1); auto.
    { intros e He. apply Hl. right; auto. }
    cbv zeta in E1. rewrite E1. cbn [bind].
    destruct (IH st1) as (st2 & E2 & P2).
    + apply P1.
    + apply (painted_fits _ _ _ P1); auto.
    + apply (painted_small _ _ _ P1); auto.
    + apply (anchored_painted_double this _ _ _ P1); auto.
    + intros e He. apply Hl. right; auto.
    + exists st2. split; [exact E2|].
      rewrite flat_map_app, flat_map_map. cbn [fst snd].
      apply (painted_app _ _ _ _ _ P1 P2).
Qed.

Lemma Healthy_anchored_double this :
  Doubles.Healthy this -> Doubles.anchored this (Doubles.m_pixels this).
Proof.
  intros H e He.
  destruct (Doubles.Healthy_anchor _ H e He) as (a & Ea & Ha & _). eauto.
Qed.

(** [connectCloseGroups] heals and paints the pixels of [healedPixels], and
    leaves the other pixels, the maps and the next group number as they
    are. *)
Lemma connectCloseGroups_painted_double this image :
  Doubles.Healthy this -> fits (Doubles.m_pixels this) image = true ->
  Doubles.small (Doubles.m_pixels this) ->
  exists m' image',
    Doubles.connectCloseGroups this image
    = Ok (Doubles.with_pixels this m', image') /\
    painted (Doubles.m_pixels this, image) (Doubles.healedPixels this)
      (m', image').
Proof.
  intros H Hfits Hs. unfold Doubles.connectCloseGroups. cbv zeta.
  destruct (connect_outer_double this (Doubles.m_groupNumberToCentroid this)
              (Doubles.m_pixels this, image)) as ([m' image'] & E & P); auto.
  - apply H.
  - apply Healthy_anchored_double; auto.
  - cbv zeta in E. rewrite E. cbn [bind].
    exists m', image'. split; [reflexivity | exact P].
Qed.

(* ================================================================== *)
(** * The pairs of groups, with doubles *)

Lemma allPairs_keys_sorted {V} (l : list (Z * V)) e1 e2 :
  sortedKeys (map fst l) = true -> In (e1, e2) (allPairs l) ->
  fst e1 < fst e2.
Proof.
  induction l as [|e l IH]; simpl; [tauto|].
  intros Hs H. apply in_app_or in H. destruct H as [H|H].
  - apply in_map_iff in H. destruct H as (x & [= -> ->] & Hx).
    apply (sortedKeys_head _ _ _ Hs). apply in_map. exact Hx.
  - apply IH; auto. apply (sortedKeys_tail _ _ Hs).
Qed.

Lemma allPairs_keys_complete {V} (l : list (Z * V)) e1 e2 :
  sortedKeys (map fst l) = true -> In e1 l -> In e2 l ->
  fst e1 < fst e2 -> In (e1, e2) (allPairs l).
Proof.
  intros Hs H1 H2 Hlt.
  destruct (allPairs_total l e1 e2 H1 H2) as [->|[H|H]]; auto; [lia|].
  pose proof (allPairs_keys_sorted l e2 e1 Hs H). lia.
Qed.

Lemma allPairs_keys_NoDup {V} (l : list (Z * V)) :
  sortedKeys (map fst l) = true -> NoDup (allPairs l).
Proof.
  induction l as [|e l IH]; intros Hs; simpl; [constructor|].
  pose proof (sortedKeys_tail _ _ Hs) as Hs'.
  assert (Hnd : NoDup l).
  { clear IH Hs. induction l as [|x l IHl]; [constructor|].
    constructor; [|apply IHl; apply (sortedKeys_tail _ _ Hs')].
    intros Hin.
    pose proof (sortedKeys_head _ _ (fst x) Hs' (in_map fst _ _ Hin)). lia. }
  apply NoDup_app.
  - apply Injective_map_NoDup; auto. intros x y [= ->]. reflexivity.
  - apply IH; auto.
  - intros [x y] H1 H2. apply in_map_iff in H1.
    destruct H1 as (z & [= <- <-] & _).
    apply allPairs_In in H2. destruct H2 as [H2 _].
    pose proof (sortedKeys_head _ _ (fst e) Hs (in_map fst _ _ H2)). lia.
Qed.

Lemma In_healedPixels_double this p :
  In p (Doubles.healedPixels this) <->
  exists e1 e2,
    In (e1, e2) (allPairs (Doubles.m_groupNumberToCentroid this)) /\
    In p (Doubles.pairPixels this e1 e2).
Proof.
  unfold Doubles.healedPixels. rewrite in_flat_map. split.
  - intros ([e1 e2] & H1 & H2). exists e1, e2. auto.
  - intros (e1 & e2 & H1 & H2). exists (e1, e2). auto.
Qed.

Lemma pointOf_double_inj a b :
  Z.abs (fst a) < 2 ^ 53 -> Z.abs (snd a) < 2 ^ 53 ->
  Z.abs (fst b) < 2 ^ 53 -> Z.abs (snd b) < 2 ^ 53 ->
  Doubles.pointOf a = Doubles.pointOf b -> a = b.
Proof.
  intros Ha1 Ha2 Hb1 Hb2 E.
  destruct a as [r c], b as [r' c']. unfold Doubles.pointOf in E.
  cbn [fst snd] in *. injection E as E1 E2.
  apply (f_equal Binary64.toInt) in E1, E2.
  rewrite !ofInt_integer, !toInt_integer in E1, E2 by assumption.
  congruence.
Qed.

(** The two ends of a line are among its pixels. *)
Lemma linePixels_ends_double (a b : cell) :
  0 <= fst a < 2 ^ 17 -> 0 <= snd a < 2 ^ 17 ->
  0 <= fst b < 2 ^ 17 -> 0 <= snd b < 2 ^ 17 -> a <> b ->
  In a (Doubles.linePixels (Doubles.pointOf a) (Doubles.pointOf b)) /\
  In b (Doubles.linePixels (Doubles.pointOf a) (Doubles.pointOf b)).
Proof.
  intros Ha1 Ha2 Hb1 Hb2 Hab.
  pose proof (double_line_steps a b Ha1 Ha2 Hb1 Hb2 Hab) as Hn.
  rewrite (double_line_pixels a b) by assumption. split.
  - rewrite <- (double_line_first a b) at 1 by assumption.
    apply in_map. apply In_upto. lia.
  - rewrite <- (double_line_last a b) at 1 by assumption.
    apply in_map. apply In_upto. lia.
Qed.

Lemma SFeqb_not_SFltb x y : SFeqb x y = true -> SFltb x y = false.
Proof.
  unfold SFeqb, SFltb. destruct (SFcompare x y) as [[| |]|]; congruence.
Qed.

(** What the boolean invariant says. *)
Lemma double_eqb_eq x y : double_eqb x y = true -> x = y.
Proof. unfold double_eqb. destruct (double_eq_dec x y); congruence. Qed.

Lemma isAnchor_double_spec m a :
  isAnchor_double m a = true ->
  a = Doubles.pointOf (cellOf a) /\ inside m (cellOf a).
Proof.
  unfold isAnchor_double. rewrite !andb_true_iff.
  intros [[[[[H1 H2] H3] H4] H5] H6].
  apply double_eqb_eq in H1, H2. split.
  - destruct a as [x y]. unfold Doubles.pointOf.
    cbn [Doubles.QPointF.x Doubles.QPointF.y] in *. congruence.
  - unfold inside. lia.
Qed.

Lemma healthy_Healthy_double this :
  healthy_double this = true -> Doubles.Healthy this.
Proof.
  unfold healthy_double. rewrite !andb_true_iff.
  intros [[[[H1 H2] H3] H4] H5].
  rewrite forallb_forall in H4, H5.
  split; auto.
  - apply Z.leb_le; auto.
  - intros e He. specialize (H4 e He).
    destruct (Doubles.QMap.value (Doubles.m_groupNumberToPixel this) (fst e))
      as [a|]; [|discriminate].
    apply andb_true_iff in H4. destruct H4 as [Ha Hs].
    destruct (isAnchor_double_spec _ _ Ha) as (Ea & Hp).
    exists (cellOf a). split; [congruence|]. split; [exact Hp|].
    unfold isSettled_double in Hs.
    destruct (stateAt (Doubles.m_pixels this) (cellOf a)) as [v|err];
      [|discriminate].
    rewrite andb_true_iff, !negb_true_iff, !Z.eqb_neq in Hs.
    destruct Hs. split; congruence.
  - intros e1 e2 a He1 He2 Hne E1 E2.
    assert (Hpair : forall x y,
              In (x, y) (allPairs (Doubles.m_groupNumberToCentroid this)) ->
              Doubles.QMap.value (Doubles.m_groupNumberToPixel this) (fst x)
              = Some (Doubles.pointOf a) ->
              Doubles.QMap.value (Doubles.m_groupNumberToPixel this) (fst y)
              = Some (Doubles.pointOf a) ->
              False).
    { intros x y Hxy Ex Ey. specialize (H5 (x, y) Hxy). cbn [fst snd] in H5.
      rewrite Ex, Ey, !Z.eqb_refl in H5. discriminate. }
    destruct (allPairs_total _ e1 e2 He1 He2) as [->|[H|H]].
    + apply Hne; reflexivity.
    + apply (Hpair e1 e2); auto.
    + apply (Hpair e2 e1); auto.
Qed.

(** C1. [connectCloseGroups] goes once through every pair of two groups of
    the map of the centroids, the one with the lesser group number first.
    For a pair, it heals and paints the pixels of the line between the two
    anchors, which has the two anchors among its pixels, if the squared
    distance between the two centroids is strictly less than the square of
    [closeDistance], the two of them as the program computes them, with
    doubles: the differences of the coordinates, their squares, the sum of
    the squares and the square of [closeDistance], each one rounded.  If it
    is not, and so if the two doubles are equal, it writes no pixel for the
    pair.  The pixels of the lines become Healed in the grid and black in
    the image, and no other pixel of the grid or of the image changes.
    The grid has at most [2 ^ 17] rows and columns. *)
Theorem connectCloseGroups_threshold (this : Doubles.GridHealer)
  (image : QImage.t) :
  Doubles.Healthy this -> fits (Doubles.m_pixels this) image = true ->
  Doubles.small (Doubles.m_pixels this) ->
  exists this' image',
    Doubles.connectCloseGroups this image = Ok (this', image') /\
    NoDup (allPairs (Doubles.m_groupNumberToCentroid this)) /\
    (forall e1 e2,
       In (e1, e2) (allPairs (Doubles.m_groupNumberToCentroid this)) <->
       In e1 (Doubles.m_groupNumberToCentroid this) /\
       In e2 (Doubles.m_groupNumberToCentroid this) /\ fst e1 < fst e2) /\
    (forall e1 e2,
       In (e1, e2) (allPairs (Doubles.m_groupNumberToCentroid this)) ->
       exists a b,
         Doubles.QMap.value (Doubles.m_groupNumberToPixel this) (fst e1)
         = Some (Doubles.pointOf a) /\
         Doubles.QMap.value (Doubles.m_groupNumberToPixel this) (fst e2)
         = Some (Doubles.pointOf b) /\
         a <> b /\
         (SFltb (Doubles.separationMagnitudeSquared (snd e1) (snd e2))
                (Doubles.closeDistanceSquared (Doubles.closeDistance this))
          = true ->
          Doubles.pairPixels this e1 e2
          = Doubles.linePixels (Doubles.pointOf a) (Doubles.pointOf b) /\
          In a (Doubles.linePixels (Doubles.pointOf a) (Doubles.pointOf b)) /\
          In b (Doubles.linePixels (Doubles.pointOf a) (Doubles.pointOf b))) /\
         (SFltb (Doubles.separationMagnitudeSquared (snd e1) (snd e2))
                (Doubles.closeDistanceSquared (Doubles.closeDistance this))
          = false ->
          Doubles.pairPixels this e1 e2 = []) /\
         (SFeqb (Doubles.separationMagnitudeSquared (snd e1) (snd e2))
                (Doubles.closeDistanceSquared (Doubles.closeDistance this))
          = true ->
          Doubles.pairPixels this e1 e2 = [])) /\
    (forall p,
       In p (Doubles.healedPixels this) <->
       exists e1 e2,
         In (e1, e2) (allPairs (Doubles.m_groupNumberToCentroid this)) /\
         In p (Doubles.pairPixels this e1 e2)) /\
    (forall p, In p (Doubles.healedPixels this) ->
       stateAt (Doubles.m_pixels this') p = Ok PIXEL_STATE_HEALED /\
       QImage.pixel image' (snd p) (fst p) = Qt_black) /\
    (forall p, ~ In p (Doubles.healedPixels this) ->
       stateAt (Doubles.m_pixels this') p = stateAt (Doubles.m_pixels this) p /\
       QImage.pixel image' (snd p) (fst p) = QImage.pixel image (snd p) (fst p)).
Proof.
  intros H Hfits Hsmall.
  destruct (connectCloseGroups_painted_double this image H Hfits Hsmall)
    as (m' & image' & E & P).
  pose proof (Doubles.Healthy_sorted _ H) as Hs.
  exists (Doubles.with_pixels this m'), image'. split; [exact E|].
  split; [apply allPairs_keys_NoDup; exact Hs|].
  split.
  { intros e1 e2. split.
    - intros Hin. destruct (allPairs_In _ _ _ Hin) as [H1 H2].
      split; auto. split; auto. apply (allPairs_keys_sorted _ _ _ Hs Hin).
    - intros (H1 & H2 & H3). apply allPairs_keys_complete; auto. }
  split.
  { intros e1 e2 Hin.
    destruct (allPairs_In _ _ _ Hin) as [H1 H2].
    pose proof (allPairs_keys_sorted _ _ _ Hs Hin) as Hlt.
    destruct (Doubles.Healthy_anchor _ H e1 H1) as (a & Ea & Ha & _).
    destruct (Doubles.Healthy_anchor _ H e2 H2) as (b & Eb & Hb & _).
    exists a, b. split; auto. split; auto.
    assert (Hab : a <> b).
    { intros ->. apply (Doubles.Healthy_distinct _ H e1 e2 b); auto. lia. }
    split; auto.
    unfold Doubles.pairPixels. rewrite Ea, Eb. unfold Doubles.isClose.
    split; [|split].
    - intros Hd. rewrite Hd. split; auto.
      destruct (small_inside _ _ Hsmall Ha) as [Ha1 Ha2].
      destruct (small_inside _ _ Hsmall Hb) as [Hb1 Hb2].
      apply linePixels_ends_double; auto.
    - intros Hd. rewrite Hd. reflexivity.
    - intros Hd. rewrite (SFeqb_not_SFltb _ _ Hd). reflexivity. }
  split; [apply In_healedPixels_double|].
  split.
  - intros p Hp. apply (painted_healed _ _ _ P p Hp).
  - intros p Hp. apply (painted_other _ _ _ P p Hp).
Qed.

Lemma connectCloseGroups_threshold_witness :
  exists this' image',
    Doubles.connectCloseGroups (doubleGrouped5x5 (Binary64.ofInt 3)) image5x5
    = Ok (this', image') /\
    Doubles.healedPixels (doubleGrouped5x5 (Binary64.ofInt 3))
    = [(0, 4); (1, 3); (2, 2)] /\
    stateAt (Doubles.m_pixels (doubleGrouped5x5 (Binary64.ofInt 3))) (1, 3)
    = Ok PIXEL_STATE_BACKGROUND /\
    stateAt (Doubles.m_pixels this') (1, 3) = Ok PIXEL_STATE_HEALED /\
    QImage.pixel image' 3 1 = Qt_black /\
    stateAt (Doubles.m_pixels this') (0, 2) = Ok PIXEL_STATE_BACKGROUND /\
    QImage.pixel image' 2 0 = 255.
Proof.
  destruct (connectCloseGroups_threshold (doubleGrouped5x5 (Binary64.ofInt 3))
              image5x5)
    as (this' & image' & E & _ & _ & _ & _ & H1 & H2).
  - apply healthy_Healthy_double. vm_compute. reflexivity.
  - reflexivity.
  - split; vm_compute; discriminate.
  - exists this', image'. split; [exact E|].
    split; [vm_compute; reflexivity|].
    split; [reflexivity|].
    destruct (H1 (1, 3)) as [H3 H4]; [vm_compute; tauto|].
    split; [exact H3|]. split; [exact H4|].
    apply (H2 (0, 2)). vm_compute. intuition discriminate.
Defined.

(** C1, as the specification has it, fails.  On an image of 5 x 2 pixels,
    with the close distance 4.123105625617661, the constructor, two calls
    of [erasePixel] and the grouping make two groups with the centroids
    (0,0) and (1,4).  The squared distance between them is 17, which is
    strictly less than the square of the close distance, since the double
    4.123105625617661 is more than the square root of 17.  The program
    computes 17.0 for both numbers, and draws no line: the grid and the
    image are left as they are. *)
Lemma connectCloseGroups_threshold_counterexample :
  Doubles.GridHealer_new image5x2 closeDistance17
  = Ok (Doubles.mkGridHealer BOUNDARY_GROUP_FIRST [] [] closeDistance17
          [[1; 0; 0; 0; 0]; [0; 0; 0; 0; 1]]) /\
  (m <- erasePixel 1 0 [[1; 0; 0; 0; 0]; [0; 0; 0; 0; 1]] ;; erasePixel 3 1 m)
  = Ok (Doubles.m_pixels healer5x2) /\
  Doubles.groupContiguousAdjacentPixels healer5x2 = Ok grouped5x2 /\
  allPairs (Doubles.m_groupNumberToCentroid grouped5x2)
  = [((BOUNDARY_GROUP_FIRST, Doubles.pointOf (0, 0)),
      (BOUNDARY_GROUP_FIRST + 1, Doubles.pointOf (1, 4)))] /\
  Qeq (exactDistanceSquared (Doubles.pointOf (0, 0)) (Doubles.pointOf (1, 4)))
      17%Q /\
  Qlt (exactDistanceSquared (Doubles.pointOf (0, 0)) (Doubles.pointOf (1, 4)))
      (valueOf closeDistance17 * valueOf closeDistance17)%Q /\
  Doubles.separationMagnitudeSquared
    (Doubles.pointOf (0, 0)) (Doubles.pointOf (1, 4)) = Binary64.ofInt 17 /\
  Doubles.closeDistanceSquared closeDistance17 = Binary64.ofInt 17 /\
  Doubles.healedPixels grouped5x2 = [] /\
  Doubles.connectCloseGroups grouped5x2 image5x2 = Ok (grouped5x2, image5x2).
Proof.
  repeat split; vm_compute; reflexivity.
Qed.





(* ================================================================== *)
(** * The connection of the groups that are close, with doubles *)

(** X11. [connectCloseGroups] connects the groups that are close: when the
    test of the program on two groups holds, that is when the squared
    distance between their centroids is less than the square of
    [closeDistance], the two of them computed with doubles, a chain of
    touching Healed pixels leads from the anchor of the one to the anchor
    of the other afterwards.  The grid has at most [2 ^ 17] rows and
    columns. *)
Theorem connectCloseGroups_connects (this : Doubles.GridHealer)
  (image : QImage.t) :
  Doubles.Healthy this -> fits (Doubles.m_pixels this) image = true ->
  Doubles.small (Doubles.m_pixels this) ->
  exists this' image',
    Doubles.connectCloseGroups this image = Ok (this', image') /\
    forall e1 e2,
      In e1 (Doubles.m_groupNumberToCentroid this) ->
      In e2 (Doubles.m_groupNumberToCentroid this) ->
      fst e1 < fst e2 ->
      SFltb (Doubles.separationMagnitudeSquared (snd e1) (snd e2))
            (Doubles.closeDistanceSquared (Doubles.closeDistance this))
      = true ->
      exists a b,
        Doubles.QMap.value (Doubles.m_groupNumberToPixel this) (fst e1)
        = Some (Doubles.pointOf a) /\
        Doubles.QMap.value (Doubles.m_groupNumberToPixel this) (fst e2)
        = Some (Doubles.pointOf b) /\
        inside (Doubles.m_pixels this) a /\
        inside (Doubles.m_pixels this) b /\
        a <> b /\
        connected (healedAt (Doubles.m_pixels this')) a b /\
        connected (healedAt (Doubles.m_pixels this')) b a.
Proof.
  intros H Hfits Hsmall.
  destruct (connectCloseGroups_painted_double this image H Hfits Hsmall)
    as (m' & image' & E & P).
  exists (Doubles.with_pixels this m'), image'. split; [exact E|].
  cbn [Doubles.with_pixels Doubles.m_pixels].
  intros e1 e2 He1 He2 Hlt Hd.
  destruct (Doubles.Healthy_anchor _ H e1 He1) as (a & Ea & Ha & _).
  destruct (Doubles.Healthy_anchor _ H e2 He2) as (b & Eb & Hb & _).
  exists a, b. split; [exact Ea|]. split; [exact Eb|].
  split; [exact Ha|]. split; [exact Hb|].
  pose proof (allPairs_keys_complete _ e1 e2 (Doubles.Healthy_sorted _ H)
                He1 He2 Hlt) as Hin.
  destruct (small_inside _ _ Hsmall Ha) as [Ha1 Ha2].
  destruct (small_inside _ _ Hsmall Hb) as [Hb1 Hb2].
  assert (Hab : a <> b).
  { intros ->. apply (Doubles.Healthy_distinct _ H e1 e2 b); auto. lia. }
  assert (Hc : connected (healedAt m') a b).
  { apply double_line_connected; auto.
    intros p Hp. unfold healedAt.
    destruct (painted_healed _ _ _ P p) as [Hh _]; [|exact Hh].
    apply In_healedPixels_double. exists e1, e2. split; [exact Hin|].
    unfold Doubles.pairPixels, Doubles.isClose. rewrite Ea, Eb, Hd.
    exact Hp. }
  split; [exact Hab|].
  split; [exact Hc | apply connected_sym; exact Hc].
Qed.

Lemma connectCloseGroups_connects_witness :
  exists this' image',
    Doubles.connectCloseGroups (doubleGrouped5x5 (Binary64.ofInt 3)) image5x5
    = Ok (this', image') /\
    stateAt (Doubles.m_pixels this') (1, 3) = Ok PIXEL_STATE_HEALED /\
    connected (healedAt (Doubles.m_pixels this')) (0, 4) (2, 2).
Proof.
  destruct (connectCloseGroups_connects (doubleGrouped5x5 (Binary64.ofInt 3))
              image5x5)
    as (this' & image' & E & H).
  - apply healthy_Healthy_double. vm_compute. reflexivity.
  - reflexivity.
  - split; vm_compute; discriminate.
  - exists this', image'. split; [exact E|].
    split.
    { vm_compute in E. apply Ok_inj in E.
      pose proof (f_equal fst E) as E1. cbn [fst] in E1. subst this'.
      reflexivity. }
    destruct (H (nth 1 (Doubles.m_groupNumberToCentroid
                          (doubleGrouped5x5 (Binary64.ofInt 3)))
                   (0, Doubles.pointOf (0, 0)))
                (nth 2 (Doubles.m_groupNumberToCentroid
                          (doubleGrouped5x5 (Binary64.ofInt 3)))
                   (0, Doubles.pointOf (0, 0))))
      as (a & b & Ea & Eb & Ha & Hb & _ & Hc & _).
    + vm_compute. right. left. reflexivity.
    + vm_compute. right. right. left. reflexivity.
    + vm_compute. reflexivity.
    + vm_compute. reflexivity.
    + assert (H5 : Doubles.small
                     (Doubles.m_pixels (doubleGrouped5x5 (Binary64.ofInt 3))))
        by (split; vm_compute; discriminate).
      destruct (small_inside _ _ H5 Ha) as [Ha1 Ha2].
      destruct (small_inside _ _ H5 Hb) as [Hb1 Hb2].
      pose proof pow2_17_53 as H53.
      assert (Ea' : a = (0, 4)).
      { apply pointOf_double_inj; cbn [fst snd]; try lia.
        change (Doubles.QMap.value
                  (Doubles.m_groupNumberToPixel
                     (doubleGrouped5x5 (Binary64.ofInt 3)))
                  (fst (nth 1 (Doubles.m_groupNumberToCentroid
                                 (doubleGrouped5x5 (Binary64.ofInt 3)))
                          (0, Doubles.pointOf (0, 0)))))
          with (Some (Doubles.pointOf (0, 4))) in Ea.
        congruence. }
      assert (Eb' : b = (2, 2)).
      { apply pointOf_double_inj; cbn [fst snd]; try lia.
        change (Doubles.QMap.value
                  (Doubles.m_groupNumberToPixel
                     (doubleGrouped5x5 (Binary64.ofInt 3)))
                  (fst (nth 2 (Doubles.m_groupNumberToCentroid
                                 (doubleGrouped5x5 (Binary64.ofInt 3)))
                          (0, Doubles.pointOf (0, 0)))))
          with (Some (Doubles.pointOf (2, 2))) in Eb.
        congruence. }
      subst a b. exact Hc.
Defined.

(* ================================================================== *)
(** * The grouping, with doubles *)

(** The loops of the two embeddings go together. *)
Lemma forEach_sim {A S T} (R : S -> T -> Prop) (l : list A)
  (f : A -> S -> result S) (g : A -> T -> result T) :
  (forall a s t, In a l -> R s t -> simResult R (f a s) (g a t)) ->
  forall s t, R s t -> simResult R (forEach l f s) (forEach l g t).
Proof.
  induction l as [|a l IH]; intros H s t Hst; simpl.
  - exact Hst.
  - pose proof (H a s t (or_introl eq_refl) Hst) as Ha.
    destruct (f a s) as [s'|e], (g a t) as [t'|e']; simpl in *;
      try contradiction; [|exact Ha].
    apply IH; [|exact Ha]. intros b s1 t1 Hb. apply H. right. exact Hb.
Qed.

Lemma inject_Z_plus_eq a b : (inject_Z a + inject_Z b)%Q = inject_Z (a + b).
Proof.
  unfold Qplus, inject_Z. cbn [Qnum Qden]. f_equal. lia.
Qed.

Lemma simSum_zero : simSum 0 Doubles.zero.
Proof.
  exists 0. split; [lia|]. split; [reflexivity|]. intros _. reflexivity.
Qed.

Lemma simSum_add q d i :
  simSum q d -> 0 <= i ->
  simSum (q + inject_Z i) (Binary64.add d (Binary64.ofInt i)).
Proof.
  intros (z & Hz & -> & Hd) Hi. exists (z + i).
  split; [lia|]. split; [apply inject_Z_plus_eq|].
  intros Hzi. rewrite Hd by lia.
  rewrite !ofInt_integer by lia. apply add_integer; lia.
Qed.

Lemma getPixel_Ok_nonneg m row col v :
  getPixel m row col = Ok v -> 0 <= row /\ 0 <= col.
Proof.
  unfold getPixel. destruct (QVector.at_ m row) as [r|e] eqn:E1; simpl;
    [|discriminate].
  intros E2. apply at_Ok in E1. apply at_Ok in E2. lia.
Qed.

(** The search visits the same pixels in the two embeddings, and its sums
    are the same integers. *)
Lemma search_sim fuel : forall boundaryGroup row col sq sd,
  simSearch sq sd ->
  simResult simSearch
    (recursiveSearchForAdjacentPixels fuel boundaryGroup row col sq)
    (Doubles.recursiveSearchForAdjacentPixels fuel boundaryGroup row col sd).
Proof.
  induction fuel as [|fuel IH]; intros g row col sq sd Hs.
  - simpl. reflexivity.
  - cbn [recursiveSearchForAdjacentPixels
           Doubles.recursiveSearchForAdjacentPixels].
    destruct Hs as [Hp Hc Hr Hk]. rewrite <- Hp, <- Hc.
    destruct (getPixel (pixels sq) row col) as [p|e] eqn:Ep;
      [|simpl; reflexivity].
    apply getPixel_Ok_nonneg in Ep. cbn [bind].
    destruct (ENGAUGE_ASSERT (p =? PIXEL_STATE_ADJACENT)) as [u|e];
      [|simpl; reflexivity].
    cbn [bind].
    destruct (setPixel (pixels sq) row col g) as [m|e];
      [|simpl; reflexivity].
    cbn [bind].
    apply forEach_sim.
    + intros rowOffset s t _ [Hp' Hc' Hr' Hk']. rewrite <- Hp'.
      destruct ((0 <=? row + rowOffset)
                && (row + rowOffset <? QVector.count (pixels s)));
        [|simpl; split; auto].
      apply forEach_sim; [|split; auto].
      intros colOffset s1 t1 _ [Hp1 Hc1 Hr1 Hk1]. rewrite <- Hp1.
      destruct (inRange (col + colOffset) (count0 (pixels s1))) as [b|e];
        [|simpl; reflexivity].
      cbn [bind]. destruct b; [|simpl; split; auto].
      destruct (getPixel (pixels s1) (row + rowOffset) (col + colOffset))
        as [p1|e]; [|simpl; reflexivity].
      cbn [bind].
      destruct (p1 =? PIXEL_STATE_ADJACENT); [|simpl; split; auto].
      apply IH. split; auto.
    + split; cbn [pixels centroidCount rowCentroidSum colCentroidSum
                    Doubles.pixels Doubles.centroidCount
                    Doubles.rowCentroidSum Doubles.colCentroidSum]; auto.
      * apply simSum_add; [exact Hr | lia].
      * apply simSum_add; [exact Hk | lia].
Qed.

Lemma value_insert_double m k v k' :
  Doubles.QMap.value (Doubles.QMap.insert m k v) k'
  = if k' =? k then Some v else Doubles.QMap.value m k'.
Proof.
  induction m as [|[k0 w] m IH]; simpl.
  - rewrite (Z.eqb_sym k k'). reflexivity.
  - destruct (Z.ltb_spec k k0).
    + simpl. rewrite (Z.eqb_sym k k'). reflexivity.
    + destruct (Z.eqb_spec k k0) as [->|Hne]; simpl.
      * rewrite (Z.eqb_sym k0 k'). destruct (k' =? k0); reflexivity.
      * rewrite IH. destruct (Z.eqb_spec k0 k'), (Z.eqb_spec k' k); auto.
        congruence.
Qed.

Lemma In_keys_insert_double m k v k' :
  In k' (Doubles.QMap.keys (Doubles.QMap.insert m k v)) ->
  k' = k \/ In k' (Doubles.QMap.keys m).
Proof.
  unfold Doubles.QMap.keys. induction m as [|[k0 w] m IH]; simpl.
  - intros [H|[]]; auto.
  - destruct (k <? k0); [|destruct (Z.eqb_spec k k0) as [->|Hne]]; simpl.
    + intros [H|[H|H]]; auto.
    + intros [H|H]; auto.
    + intros [H|H]; auto. destruct (IH H); auto.
Qed.

Lemma sortedKeys_insert_double m k v :
  sortedKeys (Doubles.QMap.keys m) = true ->
  sortedKeys (Doubles.QMap.keys (Doubles.QMap.insert m k v)) = true.
Proof.
  induction m as [|[k0 w] m IH]; [reflexivity|].
  intros H. pose proof H as H0.
  cbn [Doubles.QMap.keys map fst sortedKeys] in H.
  apply andb_true_iff in H. destruct H as [H1 H2].
  cbn [Doubles.QMap.insert].
  destruct (Z.ltb_spec k k0) as [Hlt|Hge];
    [|destruct (Z.eqb_spec k k0) as [->|Hne]].
  - change (Doubles.QMap.keys ((k, v) :: (k0, w) :: m))
      with (k :: Doubles.QMap.keys ((k0, w) :: m)).
    cbn [sortedKeys]. rewrite H0, andb_true_r.
    cbn [Doubles.QMap.keys map fst forallb].
    apply andb_true_iff. split; [apply Z.ltb_lt; auto|].
    apply forallb_forall. intros k' Hk'.
    rewrite forallb_forall in H1. specialize (H1 k' Hk').
    apply Z.ltb_lt in H1. apply Z.ltb_lt. lia.
  - exact H0.
  - change (Doubles.QMap.keys ((k0, w) :: Doubles.QMap.insert m k v))
      with (k0 :: Doubles.QMap.keys (Doubles.QMap.insert m k v)).
    cbn [sortedKeys]. rewrite (IH H2), andb_true_r.
    apply forallb_forall. intros k' Hk'. apply Z.ltb_lt.
    apply In_keys_insert_double in Hk'. destruct Hk' as [->|Hk']; [lia|].
    rewrite forallb_forall in H1. specialize (H1 k' Hk').
    apply Z.ltb_lt in H1. exact H1.
Qed.

Lemma Qdiv_inject_Z_inj z n z' n' :
  0 < n -> 0 < n' ->
  (inject_Z z / inject_Z n)%Q = (inject_Z z' / inject_Z n')%Q ->
  z = z' /\ n = n'.
Proof.
  intros Hn Hn'. destruct n as [|p|p]; try lia. destruct n' as [|p'|p']; try lia.
  unfold Qdiv, Qmult, Qinv, inject_Z. cbn [Qnum Qden].
  intros H. injection H as H1 H2. split; [lia|].
  f_equal. lia.
Qed.

Lemma Some_point_inj (a b a' b' : Q) :
  Some (QPointF.mk a b) = Some (QPointF.mk a' b') -> a = a' /\ b = b'.
Proof.
  intros H. inversion H. auto.
Qed.

Lemma agree_start this0 : agree this0 (shadow this0) this0.
Proof.
  split; auto; try reflexivity; try lia; intros; lia.
Qed.

(** One region more in the two embeddings. *)
Lemma agree_insert this0 tq td sq sd row col :
  agree this0 tq td -> simSearch sq sd -> 0 < centroidCount sq ->
  agree this0
    (mkGridHealer
       (m_boundaryGroupNext tq + 1)
       (QMap.insert (m_groupNumberToCentroid tq) (m_boundaryGroupNext tq)
          (QPointF.mk (rowCentroidSum sq / inject_Z (centroidCount sq))
                      (colCentroidSum sq / inject_Z (centroidCount sq))))
       (QMap.insert (m_groupNumberToPixel tq) (m_boundaryGroupNext tq)
          (QPointF.mk (inject_Z row) (inject_Z col)))
       (closeDistance tq) (pixels sq))
    (Doubles.mkGridHealer
       (m_boundaryGroupNext tq + 1)
       (Doubles.QMap.insert (Doubles.m_groupNumberToCentroid td)
          (m_boundaryGroupNext tq)
          (Doubles.QPointF.mk
             (Binary64.div (Doubles.rowCentroidSum sd)
                (Binary64.ofInt (centroidCount sq)))
             (Binary64.div (Doubles.colCentroidSum sd)
                (Binary64.ofInt (centroidCount sq)))))
       (Doubles.QMap.insert (Doubles.m_groupNumberToPixel td)
          (m_boundaryGroupNext tq)
          (Doubles.QPointF.mk (Binary64.ofInt row) (Binary64.ofInt col)))
       (Doubles.closeDistance td) (Doubles.pixels sd)).
Proof.
  intros [A1 A2 A3 A4 A5 A6 A7 A8 A9] [S1 S2 S3 S4] Hc.
  split; cbn [m_pixels m_boundaryGroupNext m_groupNumberToCentroid
                m_groupNumberToPixel closeDistance
                Doubles.m_pixels Doubles.m_boundaryGroupNext
                Doubles.m_groupNumberToCentroid Doubles.m_groupNumberToPixel
                Doubles.closeDistance]; auto.
  - lia.
  - intros k c Hk. rewrite value_insert, value_insert_double.
    destruct (Z.eqb_spec k (m_boundaryGroupNext tq)) as [->|Hne].
    + intros H. injection H as H1 H2.
      unfold Doubles.pointOf. rewrite H1, H2. reflexivity.
    + apply A5. lia.
  - intros k zr zc n Hk Hn. rewrite value_insert, value_insert_double.
    destruct (Z.eqb_spec k (m_boundaryGroupNext tq)) as [->|Hne].
    + intros H Hzr Hzc. apply Some_point_inj in H. destruct H as [H1 H2].
      destruct S3 as (z1 & Hz1 & E1 & D1).
      destruct S4 as (z2 & Hz2 & E2 & D2).
      rewrite E1 in H1. rewrite E2 in H2.
      apply Qdiv_inject_Z_inj in H1; auto.
      apply Qdiv_inject_Z_inj in H2; auto.
      destruct H1 as [-> ->]. destruct H2 as [-> _].
      rewrite D1, D2 by assumption. reflexivity.
    + apply A6; [lia | exact Hn].
  - intros k Hk. rewrite value_insert_double.
    destruct (Z.eqb_spec k (m_boundaryGroupNext tq)) as [->|Hne]; [lia|].
    apply A7. lia.
  - intros k Hk. rewrite value_insert_double.
    destruct (Z.eqb_spec k (m_boundaryGroupNext tq)) as [->|Hne]; [lia|].
    apply A8. lia.
  - intros H. apply sortedKeys_insert_double. auto.
Qed.

(** The grouping of the two embeddings goes through the same states. *)
Lemma groupContiguousAdjacentPixels_sim this0 :
  simResult (agree this0)
    (groupContiguousAdjacentPixels (shadow this0))
    (Doubles.groupContiguousAdjacentPixels this0).
Proof.
  unfold groupContiguousAdjacentPixels,
    Doubles.groupContiguousAdjacentPixels.
  change (m_pixels (shadow this0)) with (Doubles.m_pixels this0).
  apply forEach_sim; [|apply agree_start].
  intros row tq td _ A. cbv beta.
  rewrite <- (agree_pixels _ _ _ A).
  destruct (count0 (m_pixels tq)) as [w|e]; [|simpl; reflexivity].
  cbn [bind]. apply forEach_sim; [|exact A].
  intros col tq1 td1 _ A1. cbv beta.
  rewrite <- (agree_pixels _ _ _ A1), <- (agree_next _ _ _ A1).
  destruct (getPixel (m_pixels tq1) row col) as [p|e]; [|simpl; reflexivity].
  cbn [bind]. destruct (p =? PIXEL_STATE_ADJACENT); [|exact A1].
  pose proof (search_sim (groupFuel (m_pixels tq1)) (m_boundaryGroupNext tq1)
                row col (mkSearch (m_pixels tq1) 0 0 0)
                (Doubles.mkSearch (m_pixels tq1) 0 Doubles.zero Doubles.zero))
    as Hs.
  match type of Hs with
  | ?P -> _ => assert (H0 : P)
  end.
  { split; cbn; auto using simSum_zero. }
  specialize (Hs H0).
  destruct (recursiveSearchForAdjacentPixels _ _ _ _ _) as [sq|e],
    (Doubles.recursiveSearchForAdjacentPixels _ _ _ _ _) as [sd|e'];
    simpl in Hs; try contradiction; [|simpl; exact Hs].
  cbn [bind]. rewrite <- (simSearch_count _ _ Hs).
  destruct (Z.ltb_spec 0 (centroidCount sq)) as [Hc|Hc].
  - apply agree_insert; auto.
  - destruct A1 as [A1 A2 A3 A4 A5 A6 A7 A8 A9].
    split; cbn; auto. apply Hs.
Qed.

Lemma upto_length n : 0 <= n -> Z.of_nat (length (upto n)) = n.
Proof.
  intros H. unfold upto. rewrite length_map, length_seq. lia.
Qed.

Lemma cellsOf_length m :
  Z.of_nat (length (cellsOf m)) = QVector.count m * Z.max 0 (widthOf m).
Proof.
  unfold cellsOf.
  assert (H : forall l : list Z,
             Z.of_nat (length (flat_map
                         (fun row => map (pair row) (upto (widthOf m))) l))
             = Z.of_nat (length l) * Z.max 0 (widthOf m)).
  { induction l as [|a l IH]; [reflexivity|].
    cbn [flat_map]. rewrite length_app, Nat2Z.inj_add, IH, length_map.
    unfold upto at 1. rewrite length_map, length_seq. cbn [length]. lia. }
  rewrite H, upto_length; [reflexivity|]. unfold QVector.count. lia.
Qed.

Lemma In_cellsOf m p : inside m p -> In p (cellsOf m).
Proof.
  unfold inside, cellsOf. intros [H1 H2]. apply in_flat_map.
  exists (fst p). split; [apply In_upto; exact H1|].
  apply in_map_iff. exists (snd p). split; [destruct p; reflexivity|].
  apply In_upto. exact H2.
Qed.

(** On a small grid the sums of the search are integers of at most 52
    digits. *)
Lemma members_bounds m (l : list cell) :
  Doubles.small m -> NoDup l -> (forall p, In p l -> inside m p) ->
  0 <= total (map fst l) < 2 ^ 53 /\ 0 <= total (map snd l) < 2 ^ 53 /\
  QVector.count l <= 2 ^ 34.
Proof.
  intros [Hs1 Hs2] Hnd Hin.
  assert (Hlen : Z.of_nat (length l) <= 2 ^ 34).
  { assert (H : (length l <= length (cellsOf m))%nat).
    { apply NoDup_incl_length; [exact Hnd|].
      intros p Hp. apply In_cellsOf. auto. }
    apply Nat2Z.inj_le in H. rewrite cellsOf_length in H.
    assert (0 <= QVector.count m) by (unfold QVector.count; lia).
    change (2 ^ 34) with (2 ^ 17 * 2 ^ 17). nia. }
  assert (H1 : forall z, In z (map fst l) -> 0 <= z <= 2 ^ 17).
  { intros z Hz. apply in_map_iff in Hz. destruct Hz as (p & <- & Hp).
    apply Hin in Hp. unfold inside in Hp. lia. }
  assert (H2 : forall z, In z (map snd l) -> 0 <= z <= 2 ^ 17).
  { intros z Hz. apply in_map_iff in Hz. destruct Hz as (p & <- & Hp).
    apply Hin in Hp. unfold inside in Hp. lia. }
  apply total_bounds in H1. apply total_bounds in H2.
  rewrite length_map in H1, H2.
  change (2 ^ 53) with (2 ^ 17 * 2 ^ 34 * 4). unfold QVector.count.
  change (2 ^ 34) with 17179869184 in *. change (2 ^ 17) with 131072 in *.
  unfold cell in *. lia.
Qed.

Lemma sumRows_inject l : forall z,
  sumRows (inject_Z z) l = inject_Z (z + total (map fst l)).
Proof.
  unfold sumRows. induction l as [|p l IH]; intros z; simpl.
  - rewrite Z.add_0_r. reflexivity.
  - rewrite inject_Z_plus_eq, IH. f_equal. unfold total. lia.
Qed.

Lemma sumCols_inject l : forall z,
  sumCols (inject_Z z) l = inject_Z (z + total (map snd l)).
Proof.
  unfold sumCols. induction l as [|p l IH]; intros z; simpl.
  - rewrite Z.add_0_r. reflexivity.
  - rewrite inject_Z_plus_eq, IH. f_equal. unfold total. lia.
Qed.

Lemma centroidOf_inject l :
  centroidOf l
  = QPointF.mk
      (inject_Z (total (map fst l)) / inject_Z (QVector.count l))
      (inject_Z (total (map snd l)) / inject_Z (QVector.count l)).
Proof.
  unfold centroidOf, QVector.count.
  change 0%Q with (inject_Z 0).
  rewrite sumRows_inject, sumCols_inject. reflexivity.
Qed.

(** The grouping with doubles goes through the whole grid, and records the
    regions of the grouping with rationals. *)
Lemma groupContiguousAdjacentPixels_grouping_double this :
  rectangular (Doubles.m_pixels this) = true ->
  BOUNDARY_GROUP_FIRST <= Doubles.m_boundaryGroupNext this ->
  Doubles.small (Doubles.m_pixels this) ->
  exists this' regions,
    Doubles.groupContiguousAdjacentPixels this = Ok this' /\
    Doubles.grouping this regions this'.
Proof.
  intros Hrect Hfirst Hsmall.
  destruct (groupContiguousAdjacentPixels_grouping (shadow this) Hrect Hfirst)
    as (thisQ & regions & E & G).
  pose proof (groupContiguousAdjacentPixels_sim this) as Hsim.
  rewrite E in Hsim.
  destruct (Doubles.groupContiguousAdjacentPixels this) as [this'|e];
    [|contradiction].
  simpl in Hsim. destruct Hsim as [A1 A2 A3 A4 A5 A6 A7 A8 A9].
  exists this', regions. split; [reflexivity|].
  change (m_pixels (shadow this)) with (Doubles.m_pixels this) in G.
  assert (Hrange : forall r, In r regions ->
            Doubles.m_boundaryGroupNext this <= region_id r
            < Doubles.m_boundaryGroupNext this').
  { intros r Hr. rewrite <- A2. apply (grouping_id_range _ _ _ _ r G Hr). }
  assert (Hids : forall k, ~ In k (map region_id regions) ->
            ~ (Doubles.m_boundaryGroupNext this <= k
               < Doubles.m_boundaryGroupNext this')).
  { intros k Hk Hr. apply Hk. rewrite (grouping_ids _ _ _ _ G).
    apply in_map_iff.
    exists (k - Doubles.m_boundaryGroupNext this).
    change (m_boundaryGroupNext (shadow this))
      with (Doubles.m_boundaryGroupNext this).
    split; [lia|]. apply In_upto.
    pose proof (grouping_next _ _ _ _ G) as Hn. rewrite A2 in Hn.
    change (m_boundaryGroupNext (shadow this))
      with (Doubles.m_boundaryGroupNext this) in Hn. lia. }
  split.
  - rewrite <- A1. apply G.
  - rewrite <- A1. apply G.
  - rewrite <- A1. apply G.
  - exact A4.
  - rewrite <- A2. apply G.
  - apply G.
  - intros r Hr.
    destruct (grouping_recorded _ _ _ _ G r Hr) as [R1 R2 R3 R4 R5 R6 R7].
    change (m_pixels (shadow this)) with (Doubles.m_pixels this) in R1, R2.
    split; auto.
    + rewrite <- A1. exact R4.
    + rewrite centroidOf_inject in R5.
      assert (Hin : forall p, In p (region_members r) ->
                      inside (Doubles.m_pixels this) p).
      { intros p Hp. apply R2 in Hp. apply connected_right in Hp.
        apply (stateAt_Ok_inside _ _ _ Hrect Hp). }
      destruct (members_bounds _ _ Hsmall R3 Hin) as (B1 & B2 & B3).
      apply (A6 (region_id r)); auto; try lia.
      assert (In (region_anchor r) (region_members r))
        by (apply R2; apply connected_refl; exact R1).
      unfold QVector.count. destruct (region_members r); [contradiction|].
      simpl. lia.
  - intros p Hp. rewrite <- A1. apply (grouping_other _ _ _ _ G p Hp).
  - intros p. rewrite <- A1. apply (grouping_end _ _ _ p G).
  - intros p Hp. apply (grouping_covers (shadow this) regions thisQ p); auto.
  - intros k Hk. apply A7. auto.
  - intros k Hk. apply A8. auto.
  - exact A9.
Qed.

(** The quotient of two integers, in doubles, is their quotient up to the
    relative error [DBL_EPSILON]. *)
Lemma centroid_bound z n :
  0 <= z < 2 ^ 53 -> 0 < n < 2 ^ 53 ->
  isFinite (Binary64.div (Binary64.ofInt z) (Binary64.ofInt n)) = true /\
  (Qabs (valueOf (Binary64.div (Binary64.ofInt z) (Binary64.ofInt n))
         - inject_Z z / inject_Z n)
   <= DBL_EPSILON * (inject_Z z / inject_Z n) + DBL_TRUE_MIN)%Q.
Proof.
  intros Hz Hn.
  assert (Ez : (valueOf (Binary64.ofInt z) == inject_Z z)%Q)
    by (apply ofInt_value; lia).
  assert (En : (valueOf (Binary64.ofInt n) == inject_Z n)%Q)
    by (apply ofInt_value; lia).
  assert (Hn0 : (0 < inject_Z n)%Q) by (rewrite <- (Zlt_Qlt 0); lia).
  assert (Hz0 : (0 <= inject_Z z)%Q) by (rewrite <- (Zle_Qle 0); lia).
  assert (Hq : (0 <= inject_Z z / inject_Z n)%Q).
  { apply Qle_shift_div_l; [exact Hn0|]. rewrite Qmult_0_l. exact Hz0. }
  destruct (div_bound (Binary64.ofInt z) (Binary64.ofInt n))
    as [Hf Hb].
  - apply ofInt_finite. lia.
  - apply ofInt_finite. lia.
  - rewrite En. apply Qnot_eq_sym, Qlt_not_eq. exact Hn0.
  - rewrite Ez, En. destruct (Z.eq_dec z 0) as [->|Hz1].
    + left. reflexivity.
    + right. rewrite (Qabs_pos _ Hq). split.
      * apply Qle_shift_div_l; [exact Hn0|].
        apply Qle_trans with 1%Q.
        -- apply Qle_trans with (2 ^ (-53) * 2 ^ 53)%Q.
           ++ apply Qmult_le_compat_nonneg.
              ** split; [apply Qlt_le_weak, pow2_pos | apply pow2_le; lia].
              ** split; [apply Qlt_le_weak; exact Hn0|].
                 rewrite pow2_Z by lia. rewrite <- Zle_Qle. lia.
           ++ rewrite <- pow2_add. simpl. apply Qle_refl.
        -- rewrite <- (Zle_Qle 1). lia.
      * apply Qle_shift_div_r; [exact Hn0|].
        apply Qle_trans with (2 ^ 900 * 1)%Q.
        -- rewrite Qmult_1_r. apply Qle_trans with (2 ^ 53)%Q.
           ++ rewrite pow2_Z by lia. rewrite <- Zle_Qle. lia.
           ++ apply pow2_le. lia.
        -- apply Qmult_le_compat_nonneg.
           ++ split; [apply Qlt_le_weak, pow2_pos | apply Qle_refl].
           ++ split; [discriminate|]. rewrite <- (Zle_Qle 1). lia.
  - split; [exact Hf|].
    rewrite Ez, En in Hb. rewrite (Qabs_pos _ Hq) in Hb. exact Hb.
Qed.

Lemma grouping_ids_NoDup_double this0 regions this :
  Doubles.grouping this0 regions this -> NoDup (map region_id regions).
Proof.
  intros G. rewrite (Doubles.grouping_ids _ _ _ G).
  apply Injective_map_NoDup; [|apply NoDup_upto].
  intros a b. lia.
Qed.

(** C3. On a grid of at most 2^17 rows and columns,
    [groupContiguousAdjacentPixels], with doubles as the program has them,
    records the maximal 8-connected sets of adjacent pixels as regions.
    Every adjacent pixel is a member of one region and only one.  The
    members of a region are adjacent pixels, connected to its anchor through
    members, and every adjacent pixel that touches a member is a member.  The
    anchor is the member that the scan, by rows then by columns, meets
    first.  The centroid is the quotient, in doubles, of the sum of the rows
    and of the columns of the members by their count: a finite double, at a
    relative distance of at most [DBL_EPSILON] from the mean.  The group
    numbers are the consecutive integers from [m_boundaryGroupNext], which
    is [BOUNDARY_GROUP_FIRST] after the constructor and the number after the
    last group of the calls before, so that no two regions have the same. *)
Theorem groupContiguousAdjacentPixels_regions (this : Doubles.GridHealer) :
  rectangular (Doubles.m_pixels this) = true ->
  BOUNDARY_GROUP_FIRST <= Doubles.m_boundaryGroupNext this ->
  Doubles.small (Doubles.m_pixels this) ->
  exists this' regions,
    Doubles.groupContiguousAdjacentPixels this = Ok this' /\
    map region_id regions
    = map (fun i => Doubles.m_boundaryGroupNext this + i)
          (upto (QVector.count regions)) /\
    (Doubles.m_boundaryGroupNext this = BOUNDARY_GROUP_FIRST ->
     map region_id regions
     = map (fun i => BOUNDARY_GROUP_FIRST + i)
           (upto (QVector.count regions))) /\
    Doubles.m_boundaryGroupNext this'
    = Doubles.m_boundaryGroupNext this + QVector.count regions /\
    NoDup (map region_id regions) /\
    (forall p, adjacentAt (Doubles.m_pixels this) p ->
       exists r, In r regions /\ In p (region_members r)) /\
    (forall r1 r2 p, In r1 regions -> In r2 regions ->
       In p (region_members r1) -> In p (region_members r2) -> r1 = r2) /\
    (forall r, In r regions ->
       let M := region_members r in
       In (region_anchor r) M /\
       NoDup M /\
       (forall p, In p M -> adjacentAt (Doubles.m_pixels this) p) /\
       (forall p, In p M -> connected (fun q => In q M) (region_anchor r) p) /\
       (forall p q, In p M -> touching p q ->
          adjacentAt (Doubles.m_pixels this) q -> In q M) /\
       (forall p, In p M ->
          stateAt (Doubles.m_pixels this') p = Ok (region_id r)) /\
       (forall p, In p M -> scanned_before (region_anchor r) p) /\
       Doubles.QMap.value (Doubles.m_groupNumberToPixel this') (region_id r)
       = Some (Doubles.pointOf (region_anchor r)) /\
       exists c,
         Doubles.QMap.value (Doubles.m_groupNumberToCentroid this')
           (region_id r) = Some c /\
         Doubles.QPointF.x c
         = Binary64.div (Binary64.ofInt (total (map fst M)))
                        (Binary64.ofInt (QVector.count M)) /\
         Doubles.QPointF.y c
         = Binary64.div (Binary64.ofInt (total (map snd M)))
                        (Binary64.ofInt (QVector.count M)) /\
         isFinite (Doubles.QPointF.x c) = true /\
         isFinite (Doubles.QPointF.y c) = true /\
         (Qabs (valueOf (Doubles.QPointF.x c)
                - inject_Z (total (map fst M)) / inject_Z (QVector.count M))
          <= DBL_EPSILON
             * (inject_Z (total (map fst M)) / inject_Z (QVector.count M))
             + DBL_TRUE_MIN)%Q /\
         (Qabs (valueOf (Doubles.QPointF.y c)
                - inject_Z (total (map snd M)) / inject_Z (QVector.count M))
          <= DBL_EPSILON
             * (inject_Z (total (map snd M)) / inject_Z (QVector.count M))
             + DBL_TRUE_MIN)%Q).
Proof.
  intros Hrect Hfirst Hsmall.
  destruct (groupContiguousAdjacentPixels_grouping_double this Hrect Hfirst
              Hsmall) as (this' & regions & E & G).
  exists this', regions. split; [exact E|].
  split; [apply G|].
  split; [intros <-; apply G|].
  split; [apply G|].
  split; [apply (grouping_ids_NoDup_double _ _ _ G)|].
  split; [apply G|]. split.
  - intros r1 r2 p Hr1 Hr2 Hp1 Hp2.
    apply (NoDup_map_eq region_id regions); auto.
    + apply (grouping_ids_NoDup_double _ _ _ G).
    + pose proof (Doubles.recorded_state _ _ _
                    (Doubles.grouping_recorded _ _ _ G r1 Hr1) p Hp1) as H1.
      pose proof (Doubles.recorded_state _ _ _
                    (Doubles.grouping_recorded _ _ _ G r2 Hr2) p Hp2) as H2.
      congruence.
  - intros r Hr M.
    destruct (Doubles.grouping_recorded _ _ _ G r Hr)
      as [R1 R2 R3 R4 R5 R6 R7].
    fold M in R2, R3, R4, R5, R7.
    assert (Ha : In (region_anchor r) M)
      by (apply R2; apply connected_refl; auto).
    split; [exact Ha|].
    split; [exact R3|].
    split; [intros p Hp; apply R2 in Hp; eapply connected_right; eauto|].
    split.
    { intros p Hp. apply R2 in Hp. apply connected_within in Hp.
      apply (connected_mono
               (connected (adjacentAt (Doubles.m_pixels this))
                  (region_anchor r)));
        auto.
      intros q Hq. apply R2. exact Hq. }
    split.
    { intros p q Hp Hpq Hq. apply R2. apply R2 in Hp.
      apply connected_step with p; auto. }
    split; [exact R4|]. split; [exact R7|]. split; [exact R6|].
    exists (Doubles.centroidOf M). split; [exact R5|].
    cbn [Doubles.centroidOf Doubles.QPointF.x Doubles.QPointF.y].
    split; [reflexivity|]. split; [reflexivity|].
    assert (Hin : forall p, In p M -> inside (Doubles.m_pixels this) p).
    { intros p Hp. apply R2 in Hp. apply connected_right in Hp.
      apply (stateAt_Ok_inside _ _ _ Hrect Hp). }
    destruct (members_bounds _ _ Hsmall R3 Hin) as (B1 & B2 & B3).
    assert (Hn : 0 < QVector.count M < 2 ^ 53).
    { split; [|change (2 ^ 34) with 17179869184 in B3;
               change (2 ^ 53) with 9007199254740992; lia].
      unfold QVector.count. destruct M; [contradiction|]. simpl. lia. }
    destruct (centroid_bound (total (map fst M)) (QVector.count M) B1 Hn)
      as [F1 E1].
    destruct (centroid_bound (total (map snd M)) (QVector.count M) B2 Hn)
      as [F2 E2].
    auto.
Qed.

Lemma groupContiguousAdjacentPixels_regions_witness :
  exists this' regions,
    Doubles.groupContiguousAdjacentPixels erased4x4 = Ok this' /\
    Doubles.m_boundaryGroupNext this'
    = BOUNDARY_GROUP_FIRST + 1 + QVector.count regions /\
    exists r, In r regions /\ In (2, 3) (region_members r) /\
              In (3, 3) (region_members r).
Proof.
  destruct (groupContiguousAdjacentPixels_regions erased4x4)
    as (this' & regions & E & _ & _ & H1 & _ & H2 & _ & H3).
  - reflexivity.
  - vm_compute; congruence.
  - split; vm_compute; congruence.
  - exists this', regions. split; [exact E|]. split; [exact H1|].
    destruct (H2 (2, 3)) as (r & Hr & Hp); [reflexivity|].
    exists r. split; [exact Hr|]. split; [exact Hp|].
    destruct (H3 r Hr) as (_ & _ & _ & _ & H4 & _).
    apply (H4 (2, 3) (3, 3)); [exact Hp|split; simpl; lia|reflexivity].
Defined.

(** The claim as it stands fails on the second call of the grouping of a
    healer: the group number of its region is not [BOUNDARY_GROUP_FIRST],
    and the centroid of the region of the pixels (2,2), (2,3) and (3,3) is
    not the mean (7/3, 8/3) of its members, but the doubles that are
    nearest to 7/3 and to 8/3. *)
Lemma groupContiguousAdjacentPixels_regions_counterexample :
  Doubles.GridHealer_new image4x4 (Binary64.ofInt 1)
  = Ok (Doubles.mkGridHealer BOUNDARY_GROUP_FIRST [] [] (Binary64.ofInt 1)
          [[1; 0; 0; 0]; [0; 0; 0; 0]; [0; 0; 1; 1]; [0; 0; 0; 1]]) /\
  erasePixel 1 0 [[1; 0; 0; 0]; [0; 0; 0; 0]; [0; 0; 1; 1]; [0; 0; 0; 1]]
  = Ok [[2; 3; 0; 0]; [0; 0; 0; 0]; [0; 0; 1; 1]; [0; 0; 0; 1]] /\
  (exists image',
     Doubles.heal
       (Doubles.mkGridHealer BOUNDARY_GROUP_FIRST [] [] (Binary64.ofInt 1)
          [[2; 3; 0; 0]; [0; 0; 0; 0]; [0; 0; 1; 1]; [0; 0; 0; 1]])
       image4x4
     = Ok (healed4x4, image')) /\
  erasePixel 2 3 (Doubles.m_pixels healed4x4)
  = Ok (Doubles.m_pixels erased4x4) /\
  adjacentCells (Doubles.m_pixels erased4x4) = [(2, 2); (2, 3); (3, 3)] /\
  Qeq (QPointF.x (centroidOf [(2, 2); (2, 3); (3, 3)])) (7 # 3) /\
  Qeq (QPointF.y (centroidOf [(2, 2); (2, 3); (3, 3)])) (8 # 3) /\
  exists this',
    Doubles.groupContiguousAdjacentPixels erased4x4 = Ok this' /\
    stateAt (Doubles.m_pixels this') (2, 2) = Ok (BOUNDARY_GROUP_FIRST + 1) /\
    stateAt (Doubles.m_pixels this') (2, 3) = Ok (BOUNDARY_GROUP_FIRST + 1) /\
    stateAt (Doubles.m_pixels this') (3, 3) = Ok (BOUNDARY_GROUP_FIRST + 1) /\
    Doubles.QMap.keys (Doubles.m_groupNumberToCentroid this')
    = [BOUNDARY_GROUP_FIRST; BOUNDARY_GROUP_FIRST + 1] /\
    BOUNDARY_GROUP_FIRST + 1 <> BOUNDARY_GROUP_FIRST /\
    Doubles.QMap.value (Doubles.m_groupNumberToCentroid this')
      (BOUNDARY_GROUP_FIRST + 1)
    = Some (Doubles.QPointF.mk (S754_finite false 5254199565265579 (-51))
                               (S754_finite false 6004799503160661 (-51))) /\
    ~ (valueOf (S754_finite false 5254199565265579 (-51)) == 7 # 3)%Q /\
    ~ (valueOf (S754_finite false 6004799503160661 (-51)) == 8 # 3)%Q.
Proof.
  split; [vm_compute; reflexivity|].
  split; [vm_compute; reflexivity|].
  split; [eexists; vm_compute; reflexivity|].
  split; [vm_compute; reflexivity|].
  split; [vm_compute; reflexivity|].
  split; [vm_compute; reflexivity|].
  split; [vm_compute; reflexivity|].
  eexists. split; [vm_compute; reflexivity|].
  repeat split; try (vm_compute; reflexivity); vm_compute; discriminate.
Qed.

(* ================================================================== *)
(** * The invariant holds in every state of the healer, with doubles *)

Lemma In_value_double (m : Doubles.QMap.t) k c :
  In (k, c) m -> exists c', Doubles.QMap.value m k = Some c'.
Proof.
  induction m as [|[k0 c0] m IH]; simpl; [tauto|].
  intros [[= -> ->]|H].
  - rewrite Z.eqb_refl. eauto.
  - destruct (k0 =? k); eauto.
Qed.

Lemma value_In_double (m : Doubles.QMap.t) k c :
  Doubles.QMap.value m k = Some c -> In (k, c) m.
Proof.
  induction m as [|[k0 c0] m IH]; simpl; [discriminate|].
  destruct (Z.eqb_spec k0 k) as [->|Hne].
  - intros [= ->]. left; auto.
  - intros H. right; auto.
Qed.

Lemma grouping_id_range_double this0 regions this r :
  Doubles.grouping this0 regions this -> In r regions ->
  Doubles.m_boundaryGroupNext this0 <= region_id r
  < Doubles.m_boundaryGroupNext this.
Proof.
  intros G Hr. rewrite (Doubles.grouping_next _ _ _ G).
  assert (H : In (region_id r) (map region_id regions))
    by (apply in_map; auto).
  rewrite (Doubles.grouping_ids _ _ _ G) in H.
  apply in_map_iff in H. destruct H as (i & <- & Hi).
  apply In_upto in Hi. lia.
Qed.

(** Two pixels of a small grid with the same point are the same. *)
Lemma Some_pointOf_double_inj m a b :
  Doubles.small m -> inside m a -> inside m b ->
  Some (Doubles.pointOf a) = Some (Doubles.pointOf b) -> a = b.
Proof.
  intros Hs Ha Hb E. apply (small_inside _ _ Hs) in Ha.
  apply (small_inside _ _ Hs) in Hb. pose proof pow2_17_53.
  apply pointOf_double_inj; try lia. congruence.
Qed.

(** The grouping keeps the invariant. *)
Lemma grouping_Healthy_double this regions this' :
  Doubles.Healthy this -> Doubles.small (Doubles.m_pixels this) ->
  Doubles.grouping this regions this' ->
  Doubles.Healthy this'.
Proof.
  intros H Hsmall G.
  pose proof (Doubles.Healthy_first _ H) as Hfirst.
  pose proof (Doubles.Healthy_rect _ H) as Hrect.
  assert (Hnew : forall k, In k (map region_id regions) ->
            exists r, In r regions /\ region_id r = k /\
                      Doubles.QMap.value (Doubles.m_groupNumberToPixel this') k
                      = Some (Doubles.pointOf (region_anchor r)) /\
                      adjacentAt (Doubles.m_pixels this) (region_anchor r) /\
                      stateAt (Doubles.m_pixels this') (region_anchor r)
                      = Ok k).
  { intros k Hk. apply in_map_iff in Hk. destruct Hk as (r & <- & Hr).
    destruct (Doubles.grouping_recorded _ _ _ G r Hr)
      as [R1 R2 R3 R4 R5 R6 R7].
    exists r. repeat split; auto.
    apply R4. apply R2. apply connected_refl; auto. }
  assert (Hold : forall k c, ~ In k (map region_id regions) ->
            In (k, c) (Doubles.m_groupNumberToCentroid this') ->
            exists c' a,
              In (k, c') (Doubles.m_groupNumberToCentroid this) /\
              Doubles.QMap.value (Doubles.m_groupNumberToPixel this) k
              = Some (Doubles.pointOf a) /\
              Doubles.QMap.value (Doubles.m_groupNumberToPixel this') k
              = Some (Doubles.pointOf a) /\
              inside (Doubles.m_pixels this) a /\
              stateAt (Doubles.m_pixels this) a <> Ok PIXEL_STATE_FOREGROUND /\
              stateAt (Doubles.m_pixels this) a <> Ok PIXEL_STATE_ADJACENT /\
              stateAt (Doubles.m_pixels this') a
              = stateAt (Doubles.m_pixels this) a).
  { intros k c Hk Hin. destruct (In_value_double _ _ _ Hin) as (c' & Ec).
    rewrite (Doubles.grouping_centroids _ _ _ G k Hk) in Ec.
    apply value_In_double in Ec.
    destruct (Doubles.Healthy_anchor _ H (k, c') Ec)
      as (a & Ea & Ha & Hs1 & Hs2).
    cbn [fst] in Ea.
    exists c', a. split; auto. split; auto.
    split; [rewrite (Doubles.grouping_anchors _ _ _ G k Hk); auto|].
    split; auto. split; auto. split; auto.
    apply (Doubles.grouping_other _ _ _ G).
    intros r Hr Hm. apply Hs2.
    apply (Doubles.recorded_members _ _ _
             (Doubles.grouping_recorded _ _ _ G r Hr)) in Hm.
    exact (connected_right _ _ _ Hm). }
  assert (Hinside : forall r, In r regions ->
            inside (Doubles.m_pixels this) (region_anchor r)).
  { intros r Hr.
    apply (stateAt_Ok_inside _ _ PIXEL_STATE_ADJACENT Hrect).
    apply (Doubles.recorded_adjacent _ _ _
             (Doubles.grouping_recorded _ _ _ G r Hr)). }
  split.
  - apply G.
  - rewrite (Doubles.grouping_next _ _ _ G). unfold QVector.count. lia.
  - apply (Doubles.grouping_sorted _ _ _ G). apply H.
  - intros [k c] He. cbn [fst].
    destruct (in_dec Z.eq_dec k (map region_id regions)) as [Hk|Hk].
    + destruct (Hnew k Hk) as (r & Hr & Hid & Ea & Hadj & Hst).
      exists (region_anchor r). split; auto. split.
      * unfold inside.
        rewrite (Doubles.grouping_count _ _ _ G),
          (Doubles.grouping_width _ _ _ G).
        apply (Hinside r Hr).
      * pose proof (grouping_id_range_double _ _ _ r G Hr) as Hrange.
        rewrite Hst.
        unfold BOUNDARY_GROUP_FIRST, PIXEL_STATE_FOREGROUND,
          PIXEL_STATE_ADJACENT in *.
        split; intros [= E]; lia.
    + destruct (Hold k c Hk He) as (c' & a & _ & _ & Ea & Ha & Hs1 & Hs2 & E).
      exists a. split; auto. split.
      * unfold inside.
        rewrite (Doubles.grouping_count _ _ _ G),
          (Doubles.grouping_width _ _ _ G).
        exact Ha.
      * rewrite E. auto.
  - intros [k1 c1] [k2 c2] a He1 He2 Hne E1 E2. cbn [fst] in *.
    destruct (in_dec Z.eq_dec k1 (map region_id regions)) as [Hk1|Hk1];
      destruct (in_dec Z.eq_dec k2 (map region_id regions)) as [Hk2|Hk2].
    + destruct (Hnew k1 Hk1) as (r1 & Hr1 & Hid1 & Ea1 & _ & Hst1).
      destruct (Hnew k2 Hk2) as (r2 & Hr2 & Hid2 & Ea2 & _ & Hst2).
      rewrite E1 in Ea1. rewrite E2 in Ea2. rewrite Ea1 in Ea2.
      apply (Some_pointOf_double_inj (Doubles.m_pixels this)) in Ea2; auto.
      rewrite <- Ea2 in Hst2. congruence.
    + destruct (Hnew k1 Hk1) as (r1 & Hr1 & Hid1 & Ea1 & Hadj & _).
      destruct (Hold k2 c2 Hk2 He2)
        as (c' & b & _ & _ & Eb & Hb & _ & Hs2 & _).
      rewrite E1 in Ea1. rewrite E2 in Eb. rewrite Ea1 in Eb.
      apply (Some_pointOf_double_inj (Doubles.m_pixels this)) in Eb; auto.
      subst b. exact (Hs2 Hadj).
    + destruct (Hnew k2 Hk2) as (r2 & Hr2 & Hid2 & Ea2 & Hadj & _).
      destruct (Hold k1 c1 Hk1 He1)
        as (c' & b & _ & _ & Eb & Hb & _ & Hs2 & _).
      rewrite E2 in Ea2. rewrite E1 in Eb. rewrite Ea2 in Eb.
      apply (Some_pointOf_double_inj (Doubles.m_pixels this)) in Eb; auto.
      subst b. exact (Hs2 Hadj).
    + destruct (Hold k1 c1 Hk1 He1) as (c1' & b1 & Hin1 & Eo1 & Eb1 & Hb1 & _).
      destruct (Hold k2 c2 Hk2 He2) as (c2' & b2 & Hin2 & Eo2 & Eb2 & Hb2 & _).
      rewrite E1 in Eb1. rewrite E2 in Eb2. rewrite Eb1 in Eb2.
      apply (Some_pointOf_double_inj (Doubles.m_pixels this)) in Eb2; auto.
      subst b2.
      apply (Doubles.Healthy_distinct _ H (k1, c1') (k2, c2') b1); auto.
Qed.

Lemma groupContiguousAdjacentPixels_Healthy_double this :
  Doubles.Healthy this -> Doubles.small (Doubles.m_pixels this) ->
  exists this' regions,
    Doubles.groupContiguousAdjacentPixels this = Ok this' /\
    Doubles.grouping this regions this' /\
    Doubles.Healthy this'.
Proof.
  intros H Hs.
  destruct (groupContiguousAdjacentPixels_grouping_double this)
    as (this' & regions & E & G); try apply H; auto.
  exists this', regions. split; auto. split; auto.
  apply (grouping_Healthy_double this regions this' H Hs G).
Qed.

(** [connectCloseGroups] keeps the invariant. *)
Lemma painted_Healthy_double this image L m' image' :
  Doubles.Healthy this ->
  painted (Doubles.m_pixels this, image) L (m', image') ->
  Doubles.Healthy (Doubles.with_pixels this m').
Proof.
  intros H P.
  split; cbn [Doubles.with_pixels Doubles.m_pixels
                Doubles.m_boundaryGroupNext Doubles.m_groupNumberToCentroid
                Doubles.m_groupNumberToPixel].
  - apply P.
  - apply H.
  - apply H.
  - intros e He.
    destruct (Doubles.Healthy_anchor _ H e He) as (a & Ea & Ha & S1 & S2).
    exists a. split; auto.
    split; [apply (painted_inside _ _ _ a P); exact Ha|].
    destruct (in_dec cell_eq_dec a L) as [Hin|Hin].
    + destruct (painted_healed _ _ _ P a Hin) as [Hh _]. cbn [fst] in Hh.
      rewrite Hh. split; discriminate.
    + destruct (painted_other _ _ _ P a Hin) as [Ho _]. cbn [fst] in Ho.
      rewrite Ho. auto.
  - apply H.
Qed.

(** The constructor makes a healthy healer, with a grid as large as the
    image. *)
Lemma GridHealer_new_Healthy_double imageBefore closeDistance :
  exists this,
    Doubles.GridHealer_new imageBefore closeDistance = Ok this /\
    Doubles.Healthy this /\
    QVector.count (Doubles.m_pixels this)
    = Z.max 0 (QImage.height imageBefore) /\
    widthOf (Doubles.m_pixels this) <= Z.max 0 (QImage.width imageBefore).
Proof.
  unfold Doubles.GridHealer_new.
  change (ENGAUGE_ASSERT (NUM_PIXEL_STATES <? BOUNDARY_GROUP_FIRST))
    with (Ok tt).
  cbn [bind]. eexists. split; [reflexivity|]. split; [|split].
  - split; cbn [Doubles.m_pixels Doubles.m_boundaryGroupNext
                  Doubles.m_groupNumberToCentroid
                  Doubles.m_groupNumberToPixel].
    + apply (rectangular_map_upto
               (fun row col =>
                  if 128 <? qGray (QImage.pixel imageBefore col row)
                  then PIXEL_STATE_BACKGROUND else PIXEL_STATE_FOREGROUND)).
    + lia.
    + reflexivity.
    + intros e [].
    + intros e1 e2 a [].
  - cbn [Doubles.m_pixels]. apply count_map_upto.
  - cbn [Doubles.m_pixels]. unfold upto at 2.
    destruct (Z.to_nat (QImage.height imageBefore)) as [|h];
      cbn [seq map widthOf]; [lia|].
    rewrite count_map_upto. lia.
Qed.

(** [erasePixel] keeps the invariant. *)
Lemma erasePixel_Healthy_double this xCol yRow :
  Doubles.Healthy this -> inside (Doubles.m_pixels this) (yRow, xCol) ->
  exists m',
    erasePixel xCol yRow (Doubles.m_pixels this) = Ok m' /\
    Doubles.Healthy (Doubles.with_pixels this m') /\
    QVector.count m' = QVector.count (Doubles.m_pixels this) /\
    widthOf m' = widthOf (Doubles.m_pixels this).
Proof.
  intros H Ht.
  destruct (erasePixel_erasing (Doubles.m_pixels this) xCol yRow
              (Doubles.Healthy_rect _ H) Ht)
    as (m' & E & Er).
  exists m'. split; [exact E|].
  split; [|split; apply Er].
  split; cbn [Doubles.with_pixels Doubles.m_pixels
                Doubles.m_boundaryGroupNext Doubles.m_groupNumberToCentroid
                Doubles.m_groupNumberToPixel];
    try apply H.
  - apply Er.
  - intros e He.
    destruct (Doubles.Healthy_anchor _ H e He) as (a & Ea & Ha & S1 & S2).
    exists a. split; auto.
    split; [apply (erasing_inside _ _ _ _ a Er); exact Ha|].
    destruct (cell_eq_dec a (yRow, xCol)) as [->|Hne].
    + rewrite (erasing_target _ _ _ _ Er). split; discriminate.
    + rewrite (erasing_rest _ _ _ _ Er a Hne); tauto.
Qed.

(** [heal] returns on every healthy healer of a small grid, and keeps the
    invariant. *)
Lemma heal_Healthy_double this image :
  Doubles.Healthy this -> fits (Doubles.m_pixels this) image = true ->
  Doubles.small (Doubles.m_pixels this) ->
  exists this' image',
    Doubles.heal this image = Ok (this', image') /\ Doubles.Healthy this' /\
    fits (Doubles.m_pixels this') image' = true /\
    Doubles.small (Doubles.m_pixels this').
Proof.
  intros H Hfits Hs. unfold Doubles.heal.
  destruct (groupContiguousAdjacentPixels_Healthy_double this H Hs)
    as (this1 & regions & E1 & G & H1).
  rewrite E1. cbn [bind].
  assert (Hfits1 : fits (Doubles.m_pixels this1) image = true).
  { unfold fits in *.
    rewrite (Doubles.grouping_count _ _ _ G),
      (Doubles.grouping_width _ _ _ G). auto. }
  assert (Hs1 : Doubles.small (Doubles.m_pixels this1)).
  { unfold Doubles.small in *.
    rewrite (Doubles.grouping_count _ _ _ G),
      (Doubles.grouping_width _ _ _ G). auto. }
  destruct (connectCloseGroups_painted_double this1 image H1 Hfits1 Hs1)
    as (m' & image' & E2 & P).
  exists (Doubles.with_pixels this1 m'), image'. split; [exact E2|]. split.
  - apply (painted_Healthy_double this1 image _ m' image' H1 P).
  - split.
    + apply (painted_fits _ _ _ P Hfits1).
    + apply (painted_small _ _ _ P Hs1).
Qed.

(** In every state of a healer of an image of at most [2 ^ 17] rows and
    columns the invariant holds, and the grid is small. *)
Lemma reachable_Healthy_double imageBefore modelCloseDistance this :
  QImage.height imageBefore <= 2 ^ 17 ->
  QImage.width imageBefore <= 2 ^ 17 ->
  Doubles.reachable imageBefore modelCloseDistance this ->
  Doubles.Healthy this /\ Doubles.small (Doubles.m_pixels this).
Proof.
  intros Hh Hw.
  induction 1 as [this E|this xCol yRow m' _ IH Ht E
                  |this image this' image' _ IH Hfits E].
  - destruct (GridHealer_new_Healthy_double imageBefore modelCloseDistance)
      as (this0 & E0 & H & Hc & Hwd).
    rewrite E in E0. apply Ok_inj in E0. subst this0.
    split; [exact H|]. unfold Doubles.small.
    change (2 ^ 17) with 131072 in *. lia.
  - destruct IH as [H Hs].
    destruct (erasePixel_Healthy_double this xCol yRow H Ht)
      as (m1 & E1 & H1 & Hc & Hwd).
    rewrite E in E1. apply Ok_inj in E1. subst m1.
    split; [exact H1|]. unfold Doubles.small in *.
    cbn [Doubles.with_pixels Doubles.m_pixels]. rewrite Hc, Hwd. exact Hs.
  - destruct IH as [H Hs].
    destruct (heal_Healthy_double this image H Hfits Hs)
      as (this1 & image1 & E1 & H1 & _ & Hs1).
    rewrite E in E1. apply Ok_inj in E1.
    pose proof (f_equal fst E1) as E2. cbn [fst] in E2. subst this'.
    split; assumption.
Qed.

(** In every such state [heal] returns: no assertion fails and no index is
    out of range, with the line that the doubles make. *)
Lemma reachable_heal_double imageBefore modelCloseDistance this image :
  QImage.height imageBefore <= 2 ^ 17 ->
  QImage.width imageBefore <= 2 ^ 17 ->
  Doubles.reachable imageBefore modelCloseDistance this ->
  fits (Doubles.m_pixels this) image = true ->
  exists this' image', Doubles.heal this image = Ok (this', image').
Proof.
  intros Hh Hw R Hfits.
  destruct (reachable_Healthy_double _ _ _ Hh Hw R) as [H Hs].
  destruct (heal_Healthy_double this image H Hfits Hs)
    as (this' & image' & E & _).
  exists this', image'. exact E.
Qed.
